(** * A11YTreeViewNavigation: the tree-view navigation engine

    A shallow embedding of the class [A11YTreeViewNavigation] (the tree-view
    component of a11y-components) together with the part of the DOM it
    touches, and the properties of the engine stated over it.

    Layout of the development:
    - [JsString]: the string methods used by [cleanForId];
    - [Dom]: element trees, element references, the attribute store,
      the selector queries the class issues, focus and listeners;
    - [TreeView]: the class itself, method by method;
    - [Markup]: the host markup convention (nested lists of entries);
    - the frame lemmas, the setup lemmas and the properties. *)

From Stdlib Require Import List String Ascii Bool Arith Lia ZArith.
Import ListNotations.
Open Scope string_scope.
Open Scope list_scope.
Open Scope nat_scope.

Set Implicit Arguments.

(* ================================================================== *)
(** ** Strings, as JavaScript sees them                                 *)
(* ================================================================== *)

(** Characters are code points below 256 (Latin-1); a [string] is a
    sequence of them.  On this range the methods below are exactly the
    JavaScript ones. *)
Module JsString.

Definition code (c : ascii) : nat := nat_of_ascii c.

Definition between (lo hi n : nat) : bool := (lo <=? n) && (n <=? hi).

(** [String.prototype.toLowerCase], one code point at a time: A-Z and
    the Latin-1 capitals (U+00C0..U+00DE without the multiplication
    sign U+00D7) move up by 32. *)
Definition lower (c : ascii) : ascii :=
  let n := code c in
  if between 65 90 n || (between 192 222 n && negb (n =? 215))
  then ascii_of_nat (n + 32) else c.

Fixpoint toLowerCase (s : string) : string :=
  match s with
  | EmptyString => EmptyString
  | String c s' => String (lower c) (toLowerCase s')
  end.

(** White space and line terminators: TAB, LF, VT, FF, CR, SP, NBSP.
    The same set serves [trim] and the regular-expression class [\s]. *)
Definition is_space (c : ascii) : bool :=
  let n := code c in between 9 13 n || (n =? 32) || (n =? 160).

(** The class [\w]: letters, digits and the underscore. *)
Definition is_word (c : ascii) : bool :=
  let n := code c in
  between 48 57 n || between 65 90 n || between 97 122 n || (n =? 95).

Definition is_hyphen (c : ascii) : bool := code c =? 45.

Fixpoint trimStart (s : string) : string :=
  match s with
  | EmptyString => EmptyString
  | String c s' => if is_space c then trimStart s' else s
  end.

Definition is_empty (s : string) : bool :=
  match s with EmptyString => true | _ => false end.

Fixpoint trimEnd (s : string) : string :=
  match s with
  | EmptyString => EmptyString
  | String c s' =>
      let t := trimEnd s' in
      if is_space c && is_empty t then EmptyString else String c t
  end.

Definition trim (s : string) : string := trimEnd (trimStart s).

(** [s.replace(/[C]/g, '')]: drop every character of the class. *)
Fixpoint remove_all (p : ascii -> bool) (s : string) : string :=
  match s with
  | EmptyString => EmptyString
  | String c s' =>
      if p c then remove_all p s' else String c (remove_all p s')
  end.

(** [s.replace(/[C]+/g, r)]: every maximal run of characters of the
    class becomes one [r].  [inside] tells that the previous character
    belonged to the run being replaced. *)
Fixpoint replace_runs (p : ascii -> bool) (r : string) (inside : bool)
         (s : string) : string :=
  match s with
  | EmptyString => EmptyString
  | String c s' =>
      if p c then
        if inside then replace_runs p r true s'
        else String.append r (replace_runs p r true s')
      else String c (replace_runs p r false s')
  end.

Fixpoint drop (n : nat) (s : string) : string :=
  match n, s with
  | S n', String _ s' => drop n' s'
  | _, _ => s
  end.

(** [s.replace(pat, rep)] with a string pattern: the first occurrence
    only. *)
Fixpoint replace_first (pat rep s : string) : string :=
  if String.prefix pat s then String.append rep (drop (String.length pat) s)
  else match s with
       | EmptyString => EmptyString
       | String c s' => String c (replace_first pat rep s')
       end.

End JsString.

(* ================================================================== *)
(** ** [cleanForId]                                                     *)
(* ================================================================== *)

(** [static cleanForId(str)]: the chain of six string operations. *)
Definition cleanForId (str : string) : string :=
  let s1 := JsString.toLowerCase str in
  let s2 := JsString.trim s1 in
  (* .replace(/[^\w\s-]/g, '') *)
  let s3 := JsString.remove_all
              (fun c => negb (JsString.is_word c || JsString.is_space c
                              || JsString.is_hyphen c)) s2 in
  (* .replace(/\s+/g, '-') *)
  let s4 := JsString.replace_runs JsString.is_space "-" false s3 in
  (* .replace(/-+/g, '-') *)
  let s5 := JsString.replace_runs JsString.is_hyphen "-" false s4 in
  (* .replace('open', '') *)
  JsString.replace_first "open" "" s5.

(* ================================================================== *)
(** ** The DOM the class runs against                                   *)
(* ================================================================== *)

Module Dom.

(** *** Element trees *)

(** A node is a text node or an element with a tag name, a class list
    and child nodes.  Tag names are kept in lower case. *)
#[warnings="-register-all"]
Inductive node : Type :=
| Text (data : string)
| Element (tag : string) (classes : list string) (children : list node).

(** An element reference: the element's index among the child nodes of
    its parent, followed by the reference of the parent.  The document
    element is [[]].  Appending a child never renumbers an existing
    element, so a reference stays good for the life of the page. *)
Abbreviation ref := (list nat) (only parsing).

Fixpoint ref_eqb (a b : ref) : bool :=
  match a, b with
  | [], [] => true
  | i :: a', j :: b' => (i =? j) && ref_eqb a' b'
  | _, _ => false
  end.

Definition is_element (n : node) : bool :=
  match n with Element _ _ _ => true | Text _ => false end.

Definition children_of (n : node) : list node :=
  match n with Element _ _ ks => ks | Text _ => [] end.

(** Follow child indices from a node, outermost index first. *)
Fixpoint descend (fp : list nat) (n : node) : option node :=
  match fp with
  | [] => Some n
  | i :: fp' =>
      match nth_error (children_of n) i with
      | Some k => descend fp' k
      | None => None
      end
  end.

(** Replace the node reached by [fp] through [f]. *)
Fixpoint update_nth (A : Type) (i : nat) (f : A -> A) (l : list A) : list A :=
  match l, i with
  | [], _ => []
  | x :: l', 0 => f x :: l'
  | x :: l', S i' => x :: update_nth i' f l'
  end.

Fixpoint alter (fp : list nat) (f : node -> node) (n : node) : node :=
  match fp with
  | [] => f n
  | i :: fp' =>
      match n with
      | Element t c ks => Element t c (update_nth i (alter fp' f) ks)
      | Text _ => n
      end
  end.

(** Element descendants in document order, each with its reference;
    [p] is the reference of the node walked. *)
Fixpoint walk (n : node) (p : ref) : list ref :=
  match n with
  | Text _ => []
  | Element _ _ ks =>
      (fix kids (ks : list node) (i : nat) : list ref :=
         match ks with
         | [] => []
         | k :: ks' =>
             (if is_element k then (i :: p) :: walk k (i :: p) else [])
               ++ kids ks' (S i)
         end) ks 0
  end.

Fixpoint walk_kids (ks : list node) (i : nat) (p : ref) : list ref :=
  match ks with
  | [] => []
  | k :: ks' =>
      (if is_element k then (i :: p) :: walk k (i :: p) else [])
        ++ walk_kids ks' (S i) p
  end.

(** [Node.textContent]: the text nodes below, concatenated. *)
Fixpoint text_of (n : node) : string :=
  match n with
  | Text s => s
  | Element _ _ ks =>
      (fix kids (ks : list node) : string :=
         match ks with
         | [] => EmptyString
         | k :: ks' => String.append (text_of k) (kids ks')
         end) ks
  end.

(** *** The document *)

(** The page: its element tree, the attributes of its elements (a
    store keyed by element and lower-case attribute name, most recent
    binding first), the focused element ([document.activeElement]) and
    the installed listeners (element, event type, handler). *)
Record document : Type := {
  root : node;
  attributes : list (ref * string * string);
  activeElement : option ref;
  listeners : list (ref * string * string)
}.

Definition node_at (d : document) (e : ref) : option node :=
  descend (rev e) (root d).

Definition childNodes (d : document) (e : ref) : list node :=
  match node_at d e with Some n => children_of n | None => [] end.

Definition tagName (d : document) (e : ref) : option string :=
  match node_at d e with Some (Element t _ _) => Some t | _ => None end.

(** *** Attributes *)

Fixpoint lookup (e : ref) (n : string) (s : list (ref * string * string))
  : option string :=
  match s with
  | [] => None
  | (e', n', v) :: s' =>
      if ref_eqb e e' && String.eqb n n' then Some v else lookup e n s'
  end.

(** On an HTML element the qualified name is lower-cased first
    ([setAttribute('tabIndex', 0)] writes [tabindex]). *)
Definition getAttribute (d : document) (e : ref) (name : string)
  : option string :=
  lookup e (JsString.toLowerCase name) (attributes d).

Definition hasAttribute (d : document) (e : ref) (name : string) : bool :=
  match getAttribute d e name with Some _ => true | None => false end.

Definition setAttribute (e : ref) (name value : string) (d : document)
  : document :=
  {| root := root d;
     attributes := (e, JsString.toLowerCase name, value) :: attributes d;
     activeElement := activeElement d;
     listeners := listeners d |}.

(** [element.classList.contains(c)]. *)
Definition classList_contains (d : document) (e : ref) (c : string) : bool :=
  match node_at d e with
  | Some (Element _ cs _) => existsb (String.eqb c) cs
  | _ => false
  end.

Definition textContent (d : document) (e : ref) : string :=
  match node_at d e with Some n => text_of n | None => EmptyString end.

(** *** Moving around *)

(** [parentNode] / [parentElement]; null above the document element. *)
Definition parentNode (e : ref) : option ref :=
  match e with [] => None | _ :: p => Some p end.

(** Index of the first element among [ks], whose first node has index [j]. *)
Fixpoint first_element (ks : list node) (j : nat) : option nat :=
  match ks with
  | [] => None
  | k :: ks' => if is_element k then Some j else first_element ks' (S j)
  end.

(** Index of the last element among [ks], whose first node has index [j]. *)
Fixpoint last_element (ks : list node) (j : nat) : option nat :=
  match ks with
  | [] => None
  | k :: ks' =>
      match last_element ks' (S j) with
      | Some r => Some r
      | None => if is_element k then Some j else None
      end
  end.

Definition nextElementSibling (d : document) (e : ref) : option ref :=
  match e with
  | [] => None
  | i :: p =>
      option_map (fun j => j :: p)
                 (first_element (skipn (S i) (childNodes d p)) (S i))
  end.

Definition previousElementSibling (d : document) (e : ref) : option ref :=
  match e with
  | [] => None
  | i :: p =>
      option_map (fun j => j :: p)
                 (last_element (firstn i (childNodes d p)) 0)
  end.

(** *** Selectors *)

(** The simple selectors the class uses: [tag], [.c], [:not(.c)],
    [[name="value"]] and [:last-of-type]. *)
Inductive simple : Type :=
| Tag (t : string)
| Class (c : string)
| NotClass (c : string)
| AttrEq (name value : string)
| LastOfType.

(** A compound selector is a conjunction of simple ones. *)
Definition compound : Type := list simple.

(** Either a compound matched against any descendant of the scope, or
    a chain [:scope > c1 > ... > cn] of child combinators. *)
Inductive selector : Type :=
| Descendant (c : compound)
| ScopeChild (cs : list compound).

Definition option_eqb (a b : option string) : bool :=
  match a, b with
  | Some x, Some y => String.eqb x y
  | None, None => true
  | _, _ => false
  end.

(** No later sibling of [e] has the tag of [e]. *)
Definition last_of_type (d : document) (e : ref) : bool :=
  match e, tagName d e with
  | i :: p, Some t =>
      negb (existsb (fun k => match k with
                              | Element t' _ _ => String.eqb t t'
                              | Text _ => false
                              end)
                    (skipn (S i) (childNodes d p)))
  | _, _ => false
  end.

Definition matches_simple (d : document) (e : ref) (s : simple) : bool :=
  match s with
  | Tag t => option_eqb (tagName d e) (Some t)
  | Class c => classList_contains d e c
  | NotClass c => negb (classList_contains d e c)
  | AttrEq n v => option_eqb (getAttribute d e n) (Some v)
  | LastOfType => last_of_type d e
  end.

Definition matches_compound (d : document) (e : ref) (c : compound) : bool :=
  match tagName d e with
  | Some _ => forallb (matches_simple d e) c
  | None => false
  end.

(** [rcs] is the chain innermost compound first: [e] matches its head,
    the parent of [e] the next one, and so on up to the scope. *)
Fixpoint matches_chain (d : document) (scope : ref) (rcs : list compound)
         (e : ref) : bool :=
  match rcs with
  | [] => ref_eqb e scope
  | c :: rcs' =>
      matches_compound d e c
      && match e with
         | [] => false
         | _ :: p => matches_chain d scope rcs' p
         end
  end.

Definition matches (d : document) (scope : ref) (s : selector) (e : ref)
  : bool :=
  match s with
  | Descendant c => matches_compound d e c
  | ScopeChild cs => matches_chain d scope (rev cs) e
  end.

Definition descendants (d : document) (e : ref) : list ref :=
  match node_at d e with Some n => walk n e | None => [] end.

(** [element.querySelectorAll(s)]: a static list in document order. *)
Definition querySelectorAll (d : document) (scope : ref) (s : selector)
  : list ref :=
  filter (matches d scope s) (descendants d scope).

(** [element.querySelector(s)]: the first match or null. *)
Definition querySelector (d : document) (scope : ref) (s : selector)
  : option ref :=
  hd_error (querySelectorAll d scope s).

(** [element.closest(c)]: the element itself or its nearest ancestor
    matching [c]. *)
Fixpoint closest (d : document) (e : ref) (c : compound) : option ref :=
  if matches_compound d e c then Some e
  else match e with
       | [] => None
       | _ :: p => closest d p c
       end.

(** *** Selectors built from a string at run time *)

Definition is_name_start (c : ascii) : bool :=
  let n := JsString.code c in
  JsString.between 65 90 n || JsString.between 97 122 n
  || (n =? 95) || (128 <=? n).

Definition is_name_char (c : ascii) : bool :=
  is_name_start c || JsString.between 48 57 (JsString.code c)
  || JsString.is_hyphen c.

Fixpoint all_chars (p : ascii -> bool) (s : string) : bool :=
  match s with
  | EmptyString => true
  | String c s' => p c && all_chars p s'
  end.

(** A CSS identifier: name characters only, starting with a name-start
    character, or with a hyphen followed by a name-start character or
    a second hyphen. *)
Definition is_identifier (s : string) : bool :=
  all_chars is_name_char s
  && match s with
     | EmptyString => false
     | String c s' =>
         if JsString.is_hyphen c then
           match s' with
           | EmptyString => false
           | String c' _ => is_name_start c' || JsString.is_hyphen c'
           end
         else is_name_start c
     end.

(** [document.querySelector('#' + id)] where the selector parses: the
    first element of the page, the document element included, whose
    [id] is [id]. *)
Definition getElementById (d : document) (id : string) : option ref :=
  hd_error (filter (fun e => matches_compound d e [AttrEq "id" id])
                   ([] :: descendants d [])).

(** *** Focus *)

(** The HTML rule for parsing an integer: skip ASCII white space (TAB,
    LF, FF, CR, SP), read an optional sign, then the digits up to the
    first other character; no digit is an error. *)
Definition is_ascii_space (c : ascii) : bool :=
  existsb (Nat.eqb (JsString.code c)) [9; 10; 12; 13; 32].

Definition is_digit (c : ascii) : bool :=
  JsString.between 48 57 (JsString.code c).

Fixpoint skip_spaces (s : string) : string :=
  match s with
  | EmptyString => EmptyString
  | String c s' => if is_ascii_space c then skip_spaces s' else s
  end.

Fixpoint digits (acc : Z) (s : string) : Z :=
  match s with
  | EmptyString => acc
  | String c s' =>
      if is_digit c
      then digits (10 * acc + Z.of_nat (JsString.code c - 48)) s'
      else acc
  end.

Definition unsigned_integer (s : string) : option Z :=
  match s with
  | String c _ => if is_digit c then Some (digits 0 s) else None
  | EmptyString => None
  end.

Definition parse_integer (s : string) : option Z :=
  match skip_spaces s with
  | EmptyString => None
  | String c s' =>
      if JsString.code c =? 45 then option_map Z.opp (unsigned_integer s')
      else if JsString.code c =? 43 then unsigned_integer s'
      else unsigned_integer (String c s')
  end.

(** Controls and links with an [href] are in the tab order by
    default. *)
Definition focusable_by_default (d : document) (e : ref) : bool :=
  match tagName d e with
  | None => false
  | Some t =>
      existsb (String.eqb t) ["button"; "input"; "select"; "textarea"]
      || (existsb (String.eqb t) ["a"; "area"] && hasAttribute d e "href")
  end.

(** The value of a [tabindex] attribute: the integer it spells, when
    that fits 32 bits. *)
Definition tabindex_value (v : string) : option Z :=
  match parse_integer v with
  | Some z =>
      if ((-2147483648 <=? z) && (z <=? 2147483647))%Z then Some z else None
  | None => None
  end.

Definition tabindex_attribute (d : document) (e : ref) : option Z :=
  match getAttribute d e "tabindex" with
  | Some v => tabindex_value v
  | None => None
  end.

(** Without a usable [tabindex] the property is 0 on the elements that
    HTML lists by their tag, with or without an [href], and -1 on the
    others ([summary], which is listed only inside [details], is left
    with -1). *)
Definition tabIndex_default (d : document) (e : ref) : Z :=
  match tagName d e with
  | Some t =>
      if existsb (String.eqb t)
                 ["a"; "area"; "button"; "frame"; "iframe"; "input";
                  "object"; "select"; "textarea"]
      then 0%Z else (-1)%Z
  | None => (-1)%Z
  end.

(** The [tabIndex] property: the integer in the [tabindex] attribute,
    and without one 0 or -1 by the kind of element. *)
Definition tabIndex (d : document) (e : ref) : Z :=
  match tabindex_attribute d e with
  | Some z => z
  | None => tabIndex_default d e
  end.

(** An element takes focus when it carries an integer [tabindex] or is
    focusable by default.  Whether it is rendered is not modelled. *)
Definition focusable (d : document) (e : ref) : bool :=
  match tagName d e with
  | None => false
  | Some _ =>
      match tabindex_attribute d e with Some _ => true | None => false end
      || focusable_by_default d e
  end.

(** [element.focus()]. *)
Definition focus (e : ref) (d : document) : document :=
  if focusable d e then
    {| root := root d;
       attributes := attributes d;
       activeElement := Some e;
       listeners := listeners d |}
  else d.

(** *** Listeners *)

Definition addEventListener (e : ref) (type handler : string)
           (d : document) : document :=
  {| root := root d;
     attributes := attributes d;
     activeElement := activeElement d;
     listeners := (e, type, handler) :: listeners d |}.

(** *** Creating and inserting elements *)

(** An element not yet in the page: its node and its own attributes. *)
Record detached : Type := {
  d_node : node;
  d_attributes : list (string * string)
}.

Definition createElement (tag : string) : detached :=
  {| d_node := Element tag [] []; d_attributes := [] |}.

Definition classList_add (c : string) (x : detached) : detached :=
  {| d_node := match d_node x with
               | Element t cs ks =>
                   Element t (if existsb (String.eqb c) cs then cs
                              else cs ++ [c]) ks
               | n => n
               end;
     d_attributes := d_attributes x |}.

(** [x.innerHTML = text] for a markup-free [text]. *)
Definition set_innerHTML (text : string) (x : detached) : detached :=
  {| d_node := match d_node x with
               | Element t cs _ =>
                   Element t cs (if JsString.is_empty text then []
                                 else [Text text])
               | n => n
               end;
     d_attributes := d_attributes x |}.

Definition set_attribute (name value : string) (x : detached) : detached :=
  {| d_node := d_node x;
     d_attributes := (JsString.toLowerCase name, value) :: d_attributes x |}.

(** [parent.appendChild(x)]: [x] becomes the last child of [parent];
    the result is the reference it gets. *)
Definition appended_ref (d : document) (parent : ref) : ref :=
  List.length (childNodes d parent) :: parent.

Definition appendChild (parent : ref) (x : detached) (d : document)
  : document :=
  let e := appended_ref d parent in
  {| root := alter (rev parent)
                   (fun n => match n with
                             | Element t cs ks =>
                                 Element t cs (ks ++ [d_node x])
                             | Text _ => n
                             end)
                   (root d);
     attributes :=
       map (fun nv => (e, fst nv, snd nv)) (d_attributes x) ++ attributes d;
     activeElement := activeElement d;
     listeners := listeners d |}.

(** *** Exceptions and effects *)

Inductive exn : Type := TypeError | SyntaxError.

(** What a piece of code leaves behind: a value or an exception, and
    in both cases the page as it then is. *)
Inductive outcome (A : Type) : Type :=
| Ok (a : A) (d : document)
| Throw (e : exn) (d : document).
Arguments Throw {A} e d.

Definition M (A : Type) : Type := document -> outcome A.

Definition ret (A : Type) (a : A) : M A := fun d => Ok a d.

Definition bind (A B : Type) (m : M A) (k : A -> M B) : M B :=
  fun d => match m d with
           | Ok a d' => k a d'
           | Throw e d' => Throw e d'
           end.

Definition throw (A : Type) (e : exn) : M A := fun d => Throw e d.
Arguments throw {A} e.

(** Read the page. *)
Definition read (A : Type) (f : document -> A) : M A := fun d => Ok (f d) d.

(** Change the page. *)
Definition modify (f : document -> document) : M unit :=
  fun d => Ok tt (f d).

(** Use a reference that may be null: touching a property of null is a
    [TypeError]. *)
Definition nonNull (A : Type) (o : option A) : M A :=
  match o with Some a => ret a | None => throw TypeError end.

(** The page a computation ends in, whichever way it ends. *)
Definition final (A : Type) (o : outcome A) : document :=
  match o with Ok _ d => d | Throw _ d => d end.

Fixpoint forEach (A : Type) (f : A -> M unit) (l : list A) : M unit :=
  match l with
  | [] => ret tt
  | x :: l' => bind (f x) (fun _ => forEach f l')
  end.

End Dom.

Import Dom.

Declare Scope js_scope.
Delimit Scope js_scope with js.
Notation "x <- m ;; k" := (bind m (fun x => k))
  (at level 61, m at next level, right associativity) : js_scope.
Notation "m ;; k" := (bind m (fun _ => k))
  (at level 61, right associativity) : js_scope.
Open Scope js_scope.

(** Short-circuit conjunction and negation of conditions that may throw,
    and the truth value of a nullable reference. *)
Definition andM (a b : M bool) : M bool :=
  x <- a ;; if x then b else ret false.
Notation "a &&& b" := (andM a b) (at level 40, left associativity) : js_scope.

Definition notM (a : M bool) : M bool := x <- a ;; ret (negb x).

Definition truthy (A : Type) (a : M (option A)) : M bool :=
  x <- a ;; ret (match x with Some _ => true | None => false end).

(** [read f] followed by the null check. *)
Definition fetch (A : Type) (f : document -> option A) : M A :=
  x <- read f ;; nonNull x.

(* ================================================================== *)
(** ** The class [A11YTreeViewNavigation]                               *)
(* ================================================================== *)

(** *** Values handed to the constructor *)

Inductive jsval : Type :=
| JUndefined
| JNull
| JBoolean (b : bool)
| JNumber (n : Z)
| JString (s : string)
| JSymbol
| JFunction
| JPlainObject          (* an object literal: no [querySelector] method *)
| JElement (e : ref).   (* an element of the page *)

Definition typeof (v : jsval) : string :=
  match v with
  | JUndefined => "undefined"
  | JNull => "object"
  | JBoolean _ => "boolean"
  | JNumber _ => "number"
  | JString _ => "string"
  | JSymbol => "symbol"
  | JFunction => "function"
  | JPlainObject => "object"
  | JElement _ => "object"
  end.

(** Calling [node.querySelector]: a [TypeError] unless [node] is an
    element. *)
Definition as_element (v : jsval) : M ref :=
  match v with
  | JElement e => ret e
  | _ => throw TypeError
  end.

(** *** The selectors of the class *)

(** [':scope > ul'] *)
Definition sel_root_list : selector := ScopeChild [[Tag "ul"]].
(** ['.menu__link'] *)
Definition sel_menu_link : selector := Descendant [Class "menu__link"].
(** ['ul:not(.menu--level-1)'] *)
Definition sel_sub_menu : selector :=
  Descendant [Tag "ul"; NotClass "menu--level-1"].
(** ['a'] *)
Definition sel_anchor : selector := Descendant [Tag "a"].
(** ['[aria-role="tree-item"]'] *)
Definition tree_item : compound := [AttrEq "aria-role" "tree-item"].
Definition sel_tree_item : selector := Descendant tree_item.
(** [':scope > [aria-role="tree-item"]'] *)
Definition sel_child_tree_item : selector := ScopeChild [tree_item].
(** [':scope > li > [aria-role="tree-item"]'] *)
Definition sel_group_items : selector := ScopeChild [[Tag "li"]; tree_item].
(** [':scope > li:last-of-type > [aria-role="tree-item"]'] *)
Definition sel_last_group_item : selector :=
  ScopeChild [[Tag "li"; LastOfType]; tree_item].
(** [':scope > ul > li:last-of-type > [aria-role="tree-item"]'] *)
Definition sel_last_item_of_group : selector :=
  ScopeChild [[Tag "ul"]; [Tag "li"; LastOfType]; tree_item].
(** ['.menu__link--level-1'] *)
Definition sel_level_1 : selector := Descendant [Class "menu__link--level-1"].

(** *** Instances and events *)

(** The fields set by the constructor. *)
Record instance : Type := {
  treeNode : ref;
  treeItems : list ref;
  subMenus : list ref
}.

Record KeyboardEvent : Type := {
  currentTarget : ref;
  key : string;
  altKey : bool;
  ctrlKey : bool;
  metaKey : bool
}.

(** *** Static utility methods *)

(** [static isExpandable(treeItem)] *)
Definition isExpandable (d : document) (treeItem : ref) : bool :=
  hasAttribute d treeItem "aria-expanded".

(** [static isExpanded(treeItem)] *)
Definition isExpanded (d : document) (treeItem : ref) : bool :=
  option_eqb (getAttribute d treeItem "aria-expanded") (Some "true").

(** [static isVisible(treeItem)] *)
Definition isVisible (treeItem : ref) : M bool :=
  let flag := true in
  list <- fetch (fun d => closest d treeItem [Tag "ul"]) ;;
  parentTreeItem <- read (fun d => previousElementSibling d list) ;;
  match parentTreeItem with
  | None => ret false
  | Some p =>
      expanded <- read (fun d => isExpanded d p) ;;
      if negb expanded then ret false else ret flag
  end.

(** [getVisibleTreeItems()] *)
Fixpoint visible_among (items : list ref) : M (list ref) :=
  match items with
  | [] => ret []
  | item :: rest =>
      v <- isVisible item ;;
      more <- visible_among rest ;;
      ret (if v then item :: more else more)
  end.

Definition getVisibleTreeItems (this : instance) : M (list ref) :=
  visible_among (treeItems this).

(** [static getGroupNode(treeItem)]: the lookup [document.querySelector]
    of ['#' + id] throws a [SyntaxError] when that is no selector.  The
    selector is read for ids made of name characters, as [cleanForId]
    writes them into [aria-owns]: there ['#' + id] is a selector exactly
    when [id] is an identifier.  An id holding other characters (a
    space, a dot, a comma) could spell a longer selector; such ids are
    not given a meaning of their own and are taken as no selector. *)
Definition getGroupNode (treeItem : ref) : M (option ref) :=
  id <- read (fun d => getAttribute d treeItem "aria-owns") ;;
  match id with
  | None => ret None
  | Some id =>
      if JsString.is_empty id then ret None
      else if is_identifier id then read (fun d => getElementById d id)
      else throw SyntaxError
  end.

(** *** Static attribute management *)

(** [static collapseTreeItem(treeItem)] *)
Definition collapseTreeItem (treeItem : ref) (d : document) : document :=
  if isExpandable d treeItem && isExpanded d treeItem
  then setAttribute treeItem "aria-expanded" "false" d
  else d.

(** [static expandTreeItem(treeItem)] *)
Definition expandTreeItem (treeItem : ref) (d : document) : document :=
  if isExpandable d treeItem && negb (isExpanded d treeItem)
  then setAttribute treeItem "aria-expanded" "true" d
  else d.

(** The body of the loop of [updateActiveTree] at one ancestor. *)
Definition expandOwner (current : ref) (d : document) : document :=
  if classList_contains d current "menu-item" then
    match querySelector d current sel_anchor with
    | Some parentLink =>
        if hasAttribute d parentLink "aria-expanded"
        then setAttribute parentLink "aria-expanded" "true" d
        else d
    | None => d
    end
  else d.

(** [while (current) { ...; current = current.parentElement; }] *)
Fixpoint expandOwners (current : ref) (d : document) : document :=
  let d' := expandOwner current d in
  match current with
  | [] => d'
  | _ :: parent => expandOwners parent d'
  end.

(** [static updateActiveTree(activeElement)] *)
Definition updateActiveTree (activeElement : ref) (d : document) : document :=
  match parentNode activeElement with
  | None => d
  | Some current => expandOwners current d
  end.

(** *** Focus *)

(** [static setFocusToTreeItem(treeItem)]; the argument may be null or
    undefined. *)
Definition setFocusToTreeItem (treeItem : option ref) : M unit :=
  e <- nonNull treeItem ;; modify (focus e).

(** [x?.focus()] *)
Definition focus_if_present (x : option ref) : M unit :=
  match x with Some e => modify (focus e) | None => ret tt end.

(** [static setFocusToNextTreeItem(treeItem)] *)
Definition setFocusToNextTreeItem (treeItem : ref) : M unit :=
  let expanded := read (fun d => isExpanded d treeItem) in
  (* treeItem.nextElementSibling
       .querySelectorAll(':scope > li > [aria-role="tree-item"]') *)
  let subMenuTreeItems :=
    group <- fetch (fun d => nextElementSibling d treeItem) ;;
    read (fun d => querySelectorAll d group sel_group_items) in
  (* treeItem.parentNode.nextElementSibling *)
  let nextEntry :=
    entry <- nonNull (parentNode treeItem) ;;
    read (fun d => nextElementSibling d entry) in
  (* treeItem.closest('ul').parentNode.nextElementSibling *)
  let nextParentGroupItem :=
    list <- fetch (fun d => closest d treeItem [Tag "ul"]) ;;
    owner <- nonNull (parentNode list) ;;
    read (fun d => nextElementSibling d owner) in
  c1 <- expanded &&& (l <- subMenuTreeItems ;; ret (0 <? List.length l)) ;;
  if c1 then
    l <- subMenuTreeItems ;;
    setFocusToTreeItem (hd_error l)
  else
    c2 <- notM expanded &&& truthy nextEntry ;;
    if c2 then
      sibling <- (x <- nextEntry ;; nonNull x) ;;
      siblingTreeItem <- read (fun d => querySelector d sibling sel_tree_item) ;;
      setFocusToTreeItem siblingTreeItem
    else
      c3 <- notM expanded &&& notM (truthy nextEntry)
              &&& truthy nextParentGroupItem ;;
      if c3 then
        next <- (x <- nextParentGroupItem ;; nonNull x) ;;
        target <- read (fun d => querySelector d next sel_child_tree_item) ;;
        focus_if_present target
      else ret tt.

(** [static setFocusToPreviousTreeItem(treeItem)] *)
Definition setFocusToPreviousTreeItem (treeItem : ref) : M unit :=
  (* treeItem.parentNode.previousElementSibling *)
  let previousEntry :=
    entry <- nonNull (parentNode treeItem) ;;
    read (fun d => previousElementSibling d entry) in
  (* isExpanded(treeItem.parentNode.previousElementSibling
                  .querySelector('[aria-role="tree-item"]')) *)
  let previousExpanded :=
    previous <- (x <- previousEntry ;; nonNull x) ;;
    item <- fetch (fun d => querySelector d previous sel_tree_item) ;;
    read (fun d => isExpanded d item) in
  (* treeItem.parentNode.parentNode.previousElementSibling *)
  let parentLink :=
    entry <- nonNull (parentNode treeItem) ;;
    list <- nonNull (parentNode entry) ;;
    read (fun d => previousElementSibling d list) in
  c1 <- truthy previousEntry &&& notM previousExpanded ;;
  if c1 then
    previous <- (x <- previousEntry ;; nonNull x) ;;
    siblingTreeItem <- read (fun d => querySelector d previous sel_tree_item) ;;
    setFocusToTreeItem siblingTreeItem
  else
    c2 <- truthy previousEntry &&& previousExpanded ;;
    if c2 then
      previous <- (x <- previousEntry ;; nonNull x) ;;
      prevSiblingGroupItem <-
        read (fun d => querySelector d previous sel_last_item_of_group) ;;
      setFocusToTreeItem prevSiblingGroupItem
    else
      c3 <- notM (truthy previousEntry) &&& truthy parentLink ;;
      if c3 then
        link <- parentLink ;;
        setFocusToTreeItem link
      else ret tt.

(** *** Events *)

Definition key_is (event : KeyboardEvent) (names : list string) : bool :=
  existsb (String.eqb (key event)) names.

Definition same_element (a b : option ref) : bool :=
  match a, b with
  | Some x, Some y => ref_eqb x y
  | None, None => true
  | _, _ => false
  end.

(** [items[items.length - 1]]: undefined for an empty array. *)
Definition last_entry (A : Type) (items : list A) : option A :=
  match items with
  | [] => None
  | _ => nth_error items (List.length items - 1)
  end.

(** The [Down] branch of [onKeydown]. *)
Definition onArrowDown (target : ref) : M unit :=
  legacy <-
    read (fun d => classList_contains d target "menu__link--level-2")
    &&& (list <- fetch (fun d => closest d target [Tag "ul"]) ;;
         lastItem <- read (fun d => querySelector d list sel_last_group_item) ;;
         ret (same_element (Some target) lastItem)) ;;
  if legacy then
    (* currentTarget.closest('.book-navigation').nextElementSibling
         ?.querySelector('.menu__link--level-1')?.focus() *)
    section <- fetch (fun d => closest d target [Class "book-navigation"]) ;;
    next <- read (fun d => nextElementSibling d section) ;;
    match next with
    | None => ret tt
    | Some n =>
        first <- read (fun d => querySelector d n sel_level_1) ;;
        focus_if_present first
    end
  else setFocusToNextTreeItem target.

(** The [Right] branch. *)
Definition onArrowRight (target : ref) : M unit :=
  expandable <- read (fun d => isExpandable d target) ;;
  if expandable then
    expanded <- read (fun d => isExpanded d target) ;;
    if expanded then setFocusToNextTreeItem target
    else modify (expandTreeItem target)
  else ret tt.

(** The [Left] branch. *)
Definition onArrowLeft (target : ref) : M unit :=
  expanded <- read (fun d => isExpanded d target) ;;
  if expanded then modify (collapseTreeItem target)
  else setFocusToPreviousTreeItem target.

(** [onKeydown(event)].  The result tells whether the handler consumed
    the event ([stopPropagation] and [preventDefault]). *)
Definition onKeydown (this : instance) (event : KeyboardEvent) : M bool :=
  let target := currentTarget event in
  if altKey event || ctrlKey event || metaKey event then ret false
  else
    (if key_is event [" "] then ret tt
     else if key_is event ["Up"; "ArrowUp"] then
       setFocusToPreviousTreeItem target
     else if key_is event ["Down"; "ArrowDown"] then onArrowDown target
     else if key_is event ["Right"; "ArrowRight"] then onArrowRight target
     else if key_is event ["Left"; "ArrowLeft"] then onArrowLeft target
     else if key_is event ["Home"] then
       setFocusToTreeItem (hd_error (treeItems this))
     else if key_is event ["End"] then
       visibleTreeItems <- getVisibleTreeItems this ;;
       setFocusToTreeItem (last_entry visibleTreeItems)
     else ret tt) ;;
    ret true.

(** [static onTriggerClick(event)], for a click on the trigger [target]. *)
Definition onTriggerClick (target : ref) : M bool :=
  item <- nonNull (parentNode target) ;;
  expanded <- read (fun d => isExpanded d item) ;;
  (if expanded then modify (collapseTreeItem item)
   else modify (expandTreeItem item)) ;;
  ret true.

(** *** Setup *)

(** The body of the loop of [adjustLinkAttributes]. *)
Definition adjustLink (item : ref) (d : document) : document :=
  let linkText := textContent d item in
  let linkTextCleaned := cleanForId linkText in
  let d := setAttribute item "aria-role" "tree-item" d in
  let d := setAttribute item "tabindex" "-1" d in            (* item.tabIndex = -1 *)
  let d :=
    if classList_contains d item "is-active" then
      let d := setAttribute item "aria-current" "page" d in
      let d := setAttribute item "tabIndex" "0" d in
      updateActiveTree item d
    else d in
  match nextElementSibling d item with
  | Some _ =>
      let d := setAttribute item "aria-owns" linkTextCleaned d in
      setAttribute item "aria-expanded" "false" d
  | None => d
  end.

(** [adjustLinkAttributes()] *)
Definition adjustLinkAttributes (this : instance) (d : document) : document :=
  fold_left (fun d item => adjustLink item d) (treeItems this) d.

(** [adjustSubMenuAttributes()] *)
Definition adjustSubMenuAttributes (this : instance) : M unit :=
  forEach (fun subMenu =>
    subMenuLink <- fetch (fun d => previousElementSibling d subMenu) ;;
    subMenuLinkText <- read (fun d => textContent d subMenuLink) ;;
    let subMenuLinkTextCleaned := cleanForId subMenuLinkText in
    modify (setAttribute subMenu "aria-role" "group") ;;
    modify (setAttribute subMenu "id" subMenuLinkTextCleaned))
  (subMenus this).

(** The button built for every item by [attachTriggers]. *)
Definition trigger : detached :=
  set_attribute "tabindex" "-1"                                (* trigger.tabIndex = -1 *)
    (set_innerHTML "Open"
       (classList_add "menu__link-trigger" (createElement "button"))).

(** [attachTriggers()] *)
Definition attachTriggers (this : instance) : M unit :=
  forEach (fun item =>
    groupNode <- getGroupNode item ;;
    match groupNode with
    | Some _ =>
        appended <- read (fun d => appended_ref d item) ;;
        modify (appendChild item trigger) ;;
        modify (addEventListener appended "click" "onTriggerClick")
    | None => ret tt
    end)
  (treeItems this).

(** [initializeTreeViews()] *)
Definition initializeTreeViews (this : instance) : M unit :=
  modify (setAttribute (treeNode this) "role" "tree") ;;
  modify (adjustLinkAttributes this) ;;
  adjustSubMenuAttributes this ;;
  attachTriggers this ;;
  forEach (fun item => modify (addEventListener item "keydown" "onKeydown"))
          (treeItems this).

(** [constructor(node)]: [None] is the instance without fields that the
    early return leaves. *)
Definition constructor (node : jsval) : M (option instance) :=
  if negb (String.eqb (typeof node) "object") then ret None
  else
    container <- as_element node ;;
    list <- fetch (fun d => querySelector d container sel_root_list) ;;
    items <- read (fun d => querySelectorAll d list sel_menu_link) ;;
    subs <- read (fun d => querySelectorAll d list sel_sub_menu) ;;
    let this := {| treeNode := list; treeItems := items; subMenus := subs |} in
    initializeTreeViews this ;;
    ret (Some this).

(* ================================================================== *)
(** ** The host markup                                                  *)
(* ================================================================== *)

(** The structure the engine is attached to: a container holding one
    list; every list entry holds a link (the Item) and, when the Item
    owns a Group, a nested list after it.  A link carries the class
    [menu__link] and whatever further classes the host gives it
    ([is-active], [menu__link--level-2], ...); [toggles] counts the
    trigger buttons the link already holds (none before the engine has
    run, one for an Item with a Group after it has). *)
Module Markup.

#[warnings="-register-all"]
Inductive entry : Type :=
| Entry (label : string) (classes : list string) (toggles : nat)
        (group : option (list entry)).

Definition menu : Type := list entry.

Definition label_of (e : entry) : string :=
  match e with Entry l _ _ _ => l end.
Definition classes_of (e : entry) : list string :=
  match e with Entry _ c _ _ => c end.
Definition toggles_of (e : entry) : nat :=
  match e with Entry _ _ t _ => t end.
Definition group_of (e : entry) : option menu :=
  match e with Entry _ _ _ g => g end.

Definition is_active (e : entry) : bool :=
  existsb (String.eqb "is-active") (classes_of e).

Definition link (label : string) (classes : list string) (toggles : nat)
  : node :=
  Element "a" ("menu__link" :: classes)
          (Text label :: repeat (d_node trigger) toggles).

Fixpoint item (e : entry) : node :=
  match e with
  | Entry l c t g =>
      Element "li" ["menu-item"]
              (link l c t
               :: match g with
                  | Some es => [Element "ul" ["menu"] (map item es)]
                  | None => []
                  end)
  end.

Definition root_list (m : menu) : node :=
  Element "ul" ["menu"; "menu--level-1"] (map item m).

(** The container, with the classes the host gives it, as the document
    element. *)
Definition container (classes : list string) (m : menu) : node :=
  Element "nav" classes [root_list m].

(** The page before the engine has run. *)
Definition page (classes : list string) (m : menu) : document :=
  {| root := container classes m;
     attributes := [];
     activeElement := None;
     listeners := [] |}.

(** *** Addresses *)

(** An entry is addressed by its index in its list followed by the
    address of the entry owning that list (innermost index first). *)
Abbreviation address := (list nat) (only parsing).

(** The entries of the Group owned by [a]; the root list for the
    empty address. *)
Fixpoint entries_under (m : menu) (a : address) : option menu :=
  match a with
  | [] => Some m
  | i :: a' =>
      match entries_under m a' with
      | Some es =>
          match nth_error es i with
          | Some e => group_of e
          | None => None
          end
      | None => None
      end
  end.

Definition lookup_entry (m : menu) (a : address) : option entry :=
  match a with
  | [] => None
  | i :: a' =>
      match entries_under m a' with
      | Some es => nth_error es i
      | None => None
      end
  end.

(** References of the list holding the entries owned by [a] (the root
    list for the empty address), of the entry [a] and of its link. *)
Fixpoint list_ref (a : address) : ref :=
  match a with
  | [] => [0]
  | i :: a' => 1 :: i :: list_ref a'
  end.

Definition entry_ref (a : address) : ref :=
  match a with
  | [] => []
  | i :: a' => i :: list_ref a'
  end.

Definition link_ref (a : address) : ref := 0 :: entry_ref a.

(** Links in document order. *)
Fixpoint links (e : entry) (r : ref) : list ref :=
  match e with
  | Entry _ _ _ g =>
      (0 :: r)
        :: match g with
           | Some es =>
               (fix go (es : list entry) (i : nat) : list ref :=
                  match es with
                  | [] => []
                  | e' :: es' => links e' (i :: 1 :: r) ++ go es' (S i)
                  end) es 0
           | None => []
           end
  end.

Fixpoint links_from (es : list entry) (i : nat) (l : ref) : list ref :=
  match es with
  | [] => []
  | e :: es' => links e (i :: l) ++ links_from es' (S i) l
  end.

End Markup.

Import Markup.

(* ================================================================== *)
(** ** Running the engine                                               *)
(* ================================================================== *)

(** A sequence of keyboard events handled one after the other; an event
    whose handler throws leaves the page as the handler left it. *)
Definition keydowns (this : instance) (events : list KeyboardEvent)
           (d : document) : document :=
  fold_left (fun d event => final (onKeydown this event d)) events d.

(** The Items in the tab order. *)
Definition tab_stops (this : instance) (d : document) : list ref :=
  filter (fun item => Z.eqb (tabIndex d item) 0) (treeItems this).

(** A key press without modifiers. *)
Definition press (k : string) (target : ref) : KeyboardEvent :=
  {| currentTarget := target; key := k;
     altKey := false; ctrlKey := false; metaKey := false |}.

(** The page once the engine has been attached to the document element. *)
Definition attached (d : document) : document :=
  final (constructor (JElement []) d).

(** The Item owning the Group that holds [item], as [isVisible] finds
    it: the element before the closest enclosing list. *)
Definition ownerOf (d : document) (item : ref) : option ref :=
  match closest d item [Tag "ul"] with
  | Some list => previousElementSibling d list
  | None => None
  end.

(** Whether a value is an element, the only kind of argument the
    constructor can work on. *)
Definition is_node (v : jsval) : bool :=
  match v with JElement _ => true | _ => false end.

(** The instance a construction returns, if it returns one with fields. *)
Definition instance_of (o : outcome (option instance)) : instance :=
  match o with
  | Ok (Some this) _ => this
  | _ => {| treeNode := []; treeItems := []; subMenus := [] |}
  end.

(** *** Interactions *)

(** What a user does to a tree: a key pressed on an Item or a click on
    a trigger. *)
Inductive interaction : Type :=
| Keydown (event : KeyboardEvent)
| Click (target : ref).

Definition handle (this : instance) (i : interaction) : M bool :=
  match i with
  | Keydown event => onKeydown this event
  | Click target => onTriggerClick target
  end.

(** A sequence of interactions; a handler that throws leaves the page
    as it then is. *)
Definition interactions (this : instance) (l : list interaction)
           (d : document) : document :=
  fold_left (fun d i => final (handle this i d)) l d.

(** *** Sample menus *)

Definition leaf (label : string) : entry := Entry label [] 0 None.

(** Two root entries; the first owns two children. *)
Definition chapters : menu :=
  [ Entry "Chapter One" [] 0 (Some [leaf "Intro"; leaf "Details"]);
    leaf "Chapter Two" ].

(** Three levels; the innermost entry is marked active. *)
Definition handbook : menu :=
  [ leaf "Start";
    Entry "Guide" [] 0
          (Some [ leaf "Basics";
                  Entry "Advanced" [] 0
                        (Some [ leaf "Tuning";
                                Entry "Caching" ["is-active"] 0 None ]) ]);
    leaf "About" ].

(** Two plain root entries. *)
Definition flat : menu := [leaf "Home"; leaf "Contact"].

(** The instance built on a menu and the page it leaves. *)
Definition view (m : menu) : instance :=
  instance_of (constructor (JElement []) (page [] m)).

Definition ready (m : menu) : document := attached (page [] m).

(** A walk through the handbook. *)
Definition handbook_tour : list KeyboardEvent :=
  [ press "ArrowDown" [0; 0; 0]; press "ArrowRight" [0; 1; 0];
    press "ArrowRight" [0; 1; 0]; press "End" [0; 0; 1; 1; 0];
    press "Home" [0; 1; 1; 1; 0]; press "x" [0; 0; 0] ].

(** Keys and clicks on the handbook. *)
Definition handbook_session : list interaction :=
  [ Click [1; 0; 1; 0]; Keydown (press "ArrowDown" [0; 1; 0]);
    Click [1; 0; 1; 1; 1; 0]; Keydown (press "ArrowLeft" [0; 1; 0]);
    Keydown (press "End" [0; 2; 0]) ].

(** Opening and closing the first chapter. *)
Definition chapters_session : list interaction :=
  [ Click [1; 0; 0; 0]; Keydown (press "ArrowDown" [0; 0; 0]);
    Keydown (press "ArrowLeft" [0; 0; 1; 0; 0]);
    Keydown (press "ArrowLeft" [0; 0; 0]) ].

(** The handbook with "Guide" collapsed again after "Advanced", inside
    it, was expanded. *)
Definition handbook_folded : document :=
  keydowns (view handbook)
           [ press "ArrowRight" [0; 1; 0];
             press "ArrowRight" [0; 1; 1; 1; 0];
             press "ArrowLeft" [0; 1; 0] ]
           (ready handbook).

(* ================================================================== *)
(** ** Notions used in the proofs                                       *)
(* ================================================================== *)

(** Induction over entries and the entries of their groups. *)
Section EntryInduction.

Variable P : entry -> Prop.
Hypothesis step :
  forall l c t g,
    match g with Some es => Forall P es | None => True end ->
    P (Entry l c t g).

Fixpoint entry_induction (e : entry) : P e :=
  match e with
  | Entry l c t g =>
      step l c t g
           (match g return match g with
                           | Some es => Forall P es
                           | None => True
                           end with
            | Some es =>
                (fix all (es : list entry) : Forall P es :=
                   match es with
                   | [] => Forall_nil P
                   | e' :: es' =>
                       Forall_cons e' (entry_induction e') (all es')
                   end) es
            | None => I
            end)
  end.

End EntryInduction.

(** [keeps R m]: whichever way [m] ends, the page it leaves is related
    by [R] to the page it started from. *)
Definition keeps (R : document -> document -> Prop) (A : Type) (m : M A)
  : Prop :=
  forall d, R d (final (m d)).

(** [d'] differs from [d] at most in the focused element and in
    [aria-expanded] attributes that were already present. *)
Definition handler_frame (d d' : document) : Prop :=
  root d' = root d /\
  listeners d' = listeners d /\
  (forall e n, JsString.toLowerCase n <> "aria-expanded" ->
               getAttribute d' e n = getAttribute d e n) /\
  (forall e, hasAttribute d' e "aria-expanded"
             = hasAttribute d e "aria-expanded").

(** An element carrying the class of the Items. *)
Definition is_menu_link (d : document) (x : ref) : bool :=
  matches_compound d x [Class "menu__link"].
Arguments is_menu_link : simpl never.

(** An attribute [aria-expanded="true"] survives [updateActiveTree]. *)
Definition stays_expanded (o : ref) (d d' : document) : Prop :=
  getAttribute d o "aria-expanded" = Some "true" ->
  getAttribute d' o "aria-expanded" = Some "true".

(** [activeElement] sits below [c], and the first link inside [c], a
    [menu-item], is [o]. *)
Definition owner_above (d : document) (activeElement o : ref) : Prop :=
  exists pre c,
    activeElement = pre ++ c /\ pre <> [] /\
    classList_contains d c "menu-item" = true /\
    querySelector d c sel_anchor = Some o.

(** The attributes every Item gets, and those of an active Item. *)
Definition marked (x : ref) (d : document) : document :=
  setAttribute x "tabindex" "-1" (setAttribute x "aria-role" "tree-item" d).

Definition current (x : ref) (d : document) : document :=
  setAttribute x "tabIndex" "0" (setAttribute x "aria-current" "page" d).

Definition owning (x : ref) (text : string) (d : document) : document :=
  setAttribute x "aria-expanded" "false"
               (setAttribute x "aria-owns" (cleanForId text) d).

Definition is_some (A : Type) (o : option A) : bool :=
  match o with Some _ => true | None => false end.

(** After [adjustLinkAttributes] the setup no longer writes
    [aria-expanded], and writes [tabindex] only on the triggers it
    inserts into Items. *)
Definition tail_frame (items : list ref) (d d' : document) : Prop :=
  (forall e, getAttribute d' e "aria-expanded"
             = getAttribute d e "aria-expanded") /\
  (forall e, getAttribute d' e "tabindex" = getAttribute d e "tabindex" \/
             (getAttribute d' e "tabindex" = Some "-1" /\
              exists x k, In x items /\ e = k :: x)).

(** After [adjustLinkAttributes] the setup writes [aria-role] on the
    nested lists only. *)
Definition role_frame (lists : list ref) (d d' : document) : Prop :=
  forall e, ~ In e lists ->
            getAttribute d' e "aria-role" = getAttribute d e "aria-role".

(** The instance built on the page of a menu. *)
Definition menu_view (classes : list string) (m : menu) : instance :=
  {| treeNode := [0];
     treeItems := links_from m 0 [0];
     subMenus := querySelectorAll (page classes m) [0] sel_sub_menu |}.

(** The Items found below an entry are its links. *)
Definition links_found (d : document) (e : entry) : Prop :=
  forall r, node_at d r = Some (item e) ->
            filter (is_menu_link d) (walk (item e) r) = links e r.

(** The links below an entry of the menu are links of entries of the
    menu. *)
Definition addressed (m : menu) (e : entry) : Prop :=
  forall a, lookup_entry m a = Some e ->
  forall x, In x (links e (entry_ref a)) ->
  exists a' e', x = link_ref a' /\ lookup_entry m a' = Some e'.

(** The last link below an entry that ends its list, and whose owner
    ends its list, is where [setFocusToNextTreeItem] stays. *)
Definition last_stays (d : document) (m : menu) (e : entry) : Prop :=
  forall a,
    lookup_entry m a = Some e ->
    nextElementSibling d (entry_ref a) = None ->
    nextElementSibling d (entry_ref (tl a)) = None ->
    forall x, last_entry (links e (entry_ref a)) = Some x ->
              setFocusToNextTreeItem x d = Ok tt d.

(** *** Menus that differ in their triggers only *)

(** One more trigger in the link of the entry reached by [fa], an
    address read from the root (outermost index first). *)
Fixpoint add_trigger (fa : list nat) (es : list entry) : list entry :=
  match fa with
  | [] => es
  | i :: fa' =>
      update_nth i
        (fun e =>
           match e with
           | Entry l c t g =>
               match fa' with
               | [] => Entry l c (S t) g
               | _ =>
                   Entry l c t
                         match g with
                         | Some es' => Some (add_trigger fa' es')
                         | None => None
                         end
               end
           end) es
  end.

(** The child indices leading from the root list to the entry at [fa]. *)
Fixpoint stem (fa : list nat) : list nat :=
  match fa with
  | [] => []
  | [i] => [i]
  | i :: fa' => i :: 1 :: stem fa'
  end.

(** What [appendChild] does to the node it appends a trigger to. *)
Definition grow (n : node) : node :=
  match n with
  | Element t cs ks => Element t cs (ks ++ [d_node trigger])
  | Text _ => n
  end.

(** An entry without its triggers. *)
Fixpoint shape (e : entry) : entry :=
  match e with
  | Entry l c _ g =>
      Entry l c 0 match g with
                  | Some es => Some (map shape es)
                  | None => None
                  end
  end.

(** The element tree of [d] is the menu [m], up to triggers. *)
Definition menu_tree (classes : list string) (m : menu) (d : document)
  : Prop :=
  exists m', root d = container classes m' /\ map shape m' = map shape m.

(** A step that keeps the menu tree. *)
Definition tree_kept (classes : list string) (m : menu) (d d' : document)
  : Prop :=
  menu_tree classes m d -> menu_tree classes m d'.

(** *** Notions of the further properties *)

(** The characters of a cleaned identifier: lower-case letters, digits,
    the underscore and the hyphen. *)
Definition is_id_char (c : ascii) : bool :=
  let n := JsString.code c in
  JsString.between 48 57 n || JsString.between 97 122 n
  || (n =? 95) || (n =? 45).

(** A string that begins like a number: with a digit, or with a hyphen
    followed by a digit or by nothing. *)
Definition starts_like_number (s : string) : bool :=
  match s with
  | EmptyString => false
  | String c s' =>
      is_digit c
      || (JsString.is_hyphen c
          && match s' with
             | EmptyString => true
             | String c' _ => is_digit c'
             end)
  end.

(** What [isVisible] answers for an Item that has an enclosing list:
    whether the element before that list is expanded. *)
Definition shown (d : document) (item : ref) : bool :=
  match ownerOf d item with
  | Some owner => isExpanded d owner
  | None => false
  end.

(** The keys [onKeydown] has a branch for, the space apart. *)
Definition navigation_keys : list string :=
  ["Up"; "ArrowUp"; "Down"; "ArrowDown"; "Right"; "ArrowRight";
   "Left"; "ArrowLeft"; "Home"; "End"].

(** A menu whose first label begins with a year. *)
Definition archive : menu :=
  [ Entry "2024 Reports" [] 0 (Some [leaf "Spring"; leaf "Autumn"]);
    leaf "About" ].

(** A key pressed together with Ctrl. *)
Definition press_with_ctrl (k : string) (target : ref) : KeyboardEvent :=
  {| currentTarget := target; key := k;
     altKey := false; ctrlKey := true; metaKey := false |}.

(** A book: two parts, the first with two sections; the links carry
    the classes of their levels. *)
Definition book : menu :=
  [ Entry "Part One" ["menu__link--level-1"] 0
          (Some [ Entry "Opening" ["menu__link--level-2"] 0 None;
                  Entry "Closing" ["menu__link--level-2"] 0 None ]);
    Entry "Part Two" ["menu__link--level-1"] 0 None ].

(** A shelf whose last root entry carries both the class of the second
    level and the class of a book section, over a Group with a link of
    the first level. *)
Definition shelf : menu :=
  [ leaf "Preface";
    Entry "Volume" ["menu__link--level-2"; "book-navigation"] 0
          (Some [Entry "Chapter" ["menu__link--level-1"] 0 None]) ].

(** [d'] differs from [d], as far as attributes go, at most in the
    cells (element, lower-case attribute name) described by [W]. *)
Definition attribute_frame (W : ref -> string -> Prop) (d d' : document)
  : Prop :=
  forall e n, ~ W e (JsString.toLowerCase n) ->
              getAttribute d' e n = getAttribute d e n.

(** The cells [adjustSubMenuAttributes] writes: [aria-role] and [id] of
    the nested lists. *)
Definition list_cells (lists : list ref) (e : ref) (n : string) : Prop :=
  In e lists /\ (n = "aria-role" \/ n = "id").

(** The cells written afterwards: the [tabindex] of the triggers put
    into Items. *)
Definition trigger_cells (items : list ref) (e : ref) (n : string) : Prop :=
  n = "tabindex" /\ exists x k, In x items /\ e = k :: x.

(** The body of the loop of [adjustSubMenuAttributes], for a list that
    has an element before it. *)
Definition adjustSubMenu (subMenu : ref) (d : document) : document :=
  match previousElementSibling d subMenu with
  | Some subMenuLink =>
      setAttribute subMenu "id" (cleanForId (textContent d subMenuLink))
                   (setAttribute subMenu "aria-role" "group" d)
  | None => d
  end.

(** What [adjustLinkAttributes] leaves in [aria-owns] and in
    [aria-current] of an Item it passes, if it writes them. *)
Definition owns_value (d : document) (item : ref) : option string :=
  if is_some (nextElementSibling d item)
  then Some (cleanForId (textContent d item)) else None.

Definition current_value (d : document) (item : ref) : option string :=
  if classList_contains d item "is-active" then Some "page" else None.

(** The page after the first three steps of [initializeTreeViews] on the
    page of a menu. *)
Definition labelled (classes : list string) (m : menu) : document :=
  fold_left (fun d subMenu => adjustSubMenu subMenu d)
            (subMenus (menu_view classes m))
            (adjustLinkAttributes
               (menu_view classes m)
               (setAttribute [0] "role" "tree" (page classes m))).

(** Induction over nodes and their child nodes. *)
Section NodeInduction.

Variable P : node -> Prop.
Hypothesis text : forall s, P (Text s).
Hypothesis element : forall t c ks, Forall P ks -> P (Element t c ks).

Fixpoint node_induction (n : node) : P n :=
  match n with
  | Text s => text s
  | Element t c ks =>
      @element t c ks
              ((fix all (ks : list node) : Forall P ks :=
                  match ks with
                  | [] => Forall_nil P
                  | k :: ks' => Forall_cons k (node_induction k) (all ks')
                  end) ks)
  end.

End NodeInduction.

(** Whether [getGroupNode] throws on an Item: its [aria-owns] is not
    empty and is no identifier. *)
Definition unusable_owns (d : document) (item : ref) : bool :=
  match getAttribute d item "aria-owns" with
  | Some id => negb (JsString.is_empty id) && negb (is_identifier id)
  | None => false
  end.

(** [attachTriggers] adds listeners for clicks only. *)
Definition click_frame (d d' : document) : Prop :=
  forall e t h, In (e, t, h) (listeners d') ->
                In (e, t, h) (listeners d) \/ t = "click".

(** The page built from a menu, after a sequence of interactions. *)
Definition reached (classes : list string) (m : menu) (l : list interaction)
  : document :=
  interactions (menu_view classes m) l (attached (page classes m)).



(** The entries of the Group reached from a list by the indices [fa],
    outermost index first. *)
Fixpoint entries_at (fa : list nat) (es : menu) : option menu :=
  match fa with
  | [] => Some es
  | i :: fa' =>
      match nth_error es i with
      | Some e =>
          match group_of e with
          | Some es' => entries_at fa' es'
          | None => None
          end
      | None => None
      end
  end.

(** Whether [attachTriggers] gives the Item of [e], whose link had the
    text [text] before setup, a trigger: the entry has a Group and the
    cleaned text is not empty. *)
Definition gets_trigger (e : entry) (text : string) : bool :=
  is_some (group_of e) && negb (JsString.is_empty (cleanForId text)).

(** [attachTriggers] and the listeners change no attribute but the
    [tabindex] of the triggers. *)
Definition same_labels (d d' : document) : Prop :=
  forall e n, JsString.toLowerCase n <> "tabindex" ->
              getAttribute d' e n = getAttribute d e n.

(** Whether the [aria-owns] of an Item names a Group. *)
Definition names_group (d : document) (item : ref) : bool :=
  match getAttribute d item "aria-owns" with
  | Some id => negb (JsString.is_empty id)
  | None => false
  end.

(** Every [aria-expanded] on the page is "true" or "false". *)
Definition expansion_values (d : document) : Prop :=
  forall e, getAttribute d e "aria-expanded" = None \/
            getAttribute d e "aria-expanded" = Some "true" \/
            getAttribute d e "aria-expanded" = Some "false".

(** A step that keeps the values of [aria-expanded] in order. *)
Definition values_kept (d d' : document) : Prop :=
  expansion_values d -> expansion_values d'.

(** A step that leaves the focus where it is. *)
Definition focus_kept (d d' : document) : Prop :=
  activeElement d' = activeElement d.

(** *** Pages outside the host markup convention *)

(** A page that is a tree and nothing more. *)
Definition bare (n : node) : document :=
  {| root := n; attributes := []; activeElement := None; listeners := [] |}.


(** The handbook with list entries that do not carry the class
    [menu-item]. *)
Definition plain_link (label : string) (classes : list string) : node :=
  Element "a" ("menu__link" :: classes) [Text label].

Definition plain_handbook_page : document :=
  bare (Element "nav" []
          [Element "ul" ["menu"; "menu--level-1"]
             [Element "li" [] [plain_link "Start" []];
              Element "li" []
                [plain_link "Guide" [];
                 Element "ul" ["menu"]
                   [Element "li" [] [plain_link "Basics" []];
                    Element "li" []
                      [plain_link "Advanced" [];
                       Element "ul" ["menu"]
                         [Element "li" [] [plain_link "Tuning" []];
                          Element "li" []
                            [plain_link "Caching" ["is-active"]]]]]];
              Element "li" [] [plain_link "About" []]]]).

(** Two root entries, with a button before the root list. *)
Definition skip_page : document :=
  bare (Element "nav" []
          [Element "button" ["skip"] [Text "Skip"];
           Element "ul" ["menu"; "menu--level-1"]
             [Element "li" ["menu-item"]
                [Element "a" ["menu__link"] [Text "Home"]];
              Element "li" ["menu-item"]
                [Element "a" ["menu__link"] [Text "Contact"]]]]).

(** The instance the constructor builds on the container [c] of the
    page [d], whose root list is [ul]. *)
Definition instance_on (d : document) (ul : ref) : instance :=
  {| treeNode := ul;
     treeItems := querySelectorAll d ul sel_menu_link;
     subMenus := querySelectorAll d ul sel_sub_menu |}.

(** [o] owns a Group holding [a]: the element after [o] lies above
    [a]. *)
Definition owns (d : document) (o a : ref) : Prop :=
  exists g pre, nextElementSibling d o = Some g /\ a = pre ++ g /\ pre <> [].

(** Document order on paths read from the root: a path comes before
    its extensions and before the paths branching off to its right. *)
Fixpoint path_before (p q : list nat) : Prop :=
  match p, q with
  | [], [] => False
  | [], _ :: _ => True
  | _ :: _, [] => False
  | i :: p', j :: q' => i < j \/ (i = j /\ path_before p' q')
  end.

Definition doc_before (x y : ref) : Prop := path_before (rev x) (rev y).

(** A step that keeps the elements of the page and their [tabindex]. *)
Definition present (d : document) (e : ref) : Prop := node_at d e <> None.

Definition elements_kept (d d' : document) : Prop :=
  (forall e, present d e -> present d' e) /\
  (forall e, present d e ->
             getAttribute d' e "tabindex" = getAttribute d e "tabindex").

(* ================================================================== *)
(** * Properties                                                        *)
(* ================================================================== *)

Unset Implicit Arguments.

(** ** Element references and the attribute store *)

Lemma ref_eqb_eq (a b : ref) : ref_eqb a b = true <-> a = b.
Proof.
  revert b; induction a as [|i a IH]; intros [|j b]; simpl;
    try (split; [discriminate | discriminate]); try tauto.
  rewrite andb_true_iff, Nat.eqb_eq, IH.
  split; [intros [-> ->]; reflexivity | intros H; inversion H; auto].
Qed.

Lemma ref_eqb_refl (a : ref) : ref_eqb a a = true.
Proof. apply ref_eqb_eq; reflexivity. Qed.

Lemma ref_eqb_neq (a b : ref) : a <> b -> ref_eqb a b = false.
Proof.
  intros H; destruct (ref_eqb a b) eqn:E; [|reflexivity].
  apply ref_eqb_eq in E; contradiction.
Qed.

Lemma getAttribute_setAttribute (d : document) (e e' : ref) (n n' v : string) :
  getAttribute (setAttribute e n v d) e' n' =
  if ref_eqb e' e && String.eqb (JsString.toLowerCase n') (JsString.toLowerCase n)
  then Some v else getAttribute d e' n'.
Proof. reflexivity. Qed.

Lemma getAttribute_setAttribute_same (d : document) (e : ref) (n v : string) :
  getAttribute (setAttribute e n v d) e n = Some v.
Proof.
  rewrite getAttribute_setAttribute, ref_eqb_refl, String.eqb_refl.
  reflexivity.
Qed.

Lemma getAttribute_setAttribute_other_element
      (d : document) (e e' : ref) (n n' v : string) :
  e' <> e -> getAttribute (setAttribute e n v d) e' n' = getAttribute d e' n'.
Proof.
  intros H; rewrite getAttribute_setAttribute, (ref_eqb_neq _ _ H); reflexivity.
Qed.

(** ** What a computation preserves *)

Section Keeps.

Variable R : document -> document -> Prop.
Hypothesis R_refl : forall d, R d d.
Hypothesis R_trans : forall a b c, R a b -> R b c -> R a c.

Lemma keeps_ret (A : Type) (a : A) : keeps R (ret a).
Proof. intros d; apply R_refl. Qed.

Lemma keeps_throw (A : Type) (e : exn) : keeps R (@throw A e).
Proof. intros d; apply R_refl. Qed.

Lemma keeps_read (A : Type) (f : document -> A) : keeps R (read f).
Proof. intros d; apply R_refl. Qed.

Lemma keeps_nonNull (A : Type) (o : option A) : keeps R (nonNull o).
Proof. destruct o; [apply keeps_ret | apply keeps_throw]. Qed.

Lemma keeps_modify (f : document -> document) :
  (forall d, R d (f d)) -> keeps R (modify f).
Proof. intros H d; apply H. Qed.

Lemma keeps_bind (A B : Type) (m : M A) (k : A -> M B) :
  keeps R m -> (forall a, keeps R (k a)) -> keeps R (bind m k).
Proof.
  intros Hm Hk d; unfold bind.
  specialize (Hm d); destruct (m d) as [a d'|e d']; simpl in *.
  - eapply R_trans; [exact Hm | apply Hk].
  - exact Hm.
Qed.

Lemma keeps_fetch (A : Type) (f : document -> option A) : keeps R (fetch f).
Proof.
  apply keeps_bind; [apply keeps_read | intros; apply keeps_nonNull].
Qed.

Lemma keeps_andM (a b : M bool) : keeps R a -> keeps R b -> keeps R (a &&& b).
Proof.
  intros Ha Hb; apply keeps_bind; [exact Ha|].
  intros [|]; [exact Hb | apply keeps_ret].
Qed.

Lemma keeps_notM (a : M bool) : keeps R a -> keeps R (notM a).
Proof. intros Ha; apply keeps_bind; [exact Ha | intros; apply keeps_ret]. Qed.

Lemma keeps_truthy (A : Type) (a : M (option A)) :
  keeps R a -> keeps R (truthy a).
Proof. intros Ha; apply keeps_bind; [exact Ha | intros; apply keeps_ret]. Qed.

End Keeps.

Lemma keeps_forEach_in (R : document -> document -> Prop) (A : Type)
      (f : A -> M unit) (l : list A) :
  (forall d, R d d) -> (forall a b c, R a b -> R b c -> R a c) ->
  (forall x, In x l -> keeps R (f x)) -> keeps R (forEach f l).
Proof.
  intros Hrefl Htrans; induction l as [|x l IH]; intros Hf; simpl.
  - apply keeps_ret; exact Hrefl.
  - apply keeps_bind; [exact Htrans | apply Hf; left; reflexivity|].
    intros _; apply IH; intros y Hy; apply Hf; right; exact Hy.
Qed.

(** Decompose a computation along its binds and branches; [side] proves
    that the relation is reflexive and transitive, [leaf] that a change
    of the page respects it. *)
Ltac keeps_tac side leaf :=
  repeat first
    [ side
    | match goal with
      | |- forall _, keeps _ _ => intros ?
      | |- keeps _ (if ?b then _ else _) => destruct b
      | |- keeps _ (match ?o with Some _ => _ | None => _ end) => destruct o
      | |- keeps _ (modify _) => apply keeps_modify; intros ?; leaf
      | |- keeps _ (ret _) => apply keeps_ret
      | |- keeps _ (throw _) => apply keeps_throw
      | |- keeps _ (read _) => apply keeps_read
      | |- keeps _ (nonNull _) => apply keeps_nonNull
      | |- keeps _ (fetch _) => apply keeps_fetch
      | |- keeps _ (andM _ _) => apply keeps_andM
      | |- keeps _ (notM _) => apply keeps_notM
      | |- keeps _ (truthy _) => apply keeps_truthy
      | |- keeps _ (bind _ _) => apply keeps_bind
      | |- keeps _ (forEach _ _) => apply keeps_forEach_in; [| |intros ? ?]
      end ].

(** ** Expanding and collapsing *)

Lemma expandTreeItem_cases (item : ref) (d : document) :
  expandTreeItem item d = d \/
  (isExpandable d item = true /\
   expandTreeItem item d = setAttribute item "aria-expanded" "true" d).
Proof.
  unfold expandTreeItem; destruct (isExpandable d item); simpl; auto.
  destruct (isExpanded d item); simpl; auto.
Qed.

Lemma collapseTreeItem_cases (item : ref) (d : document) :
  collapseTreeItem item d = d \/
  (isExpandable d item = true /\
   collapseTreeItem item d = setAttribute item "aria-expanded" "false" d).
Proof.
  unfold collapseTreeItem; destruct (isExpandable d item); simpl; auto.
  destruct (isExpanded d item); simpl; auto.
Qed.

(** ** The frame of the event handlers *)

Lemma handler_frame_refl (d : document) : handler_frame d d.
Proof. repeat split. Qed.

Lemma handler_frame_trans (a b c : document) :
  handler_frame a b -> handler_frame b c -> handler_frame a c.
Proof.
  intros (R1 & L1 & A1 & X1) (R2 & L2 & A2 & X2); repeat split.
  - congruence.
  - congruence.
  - intros e n Hn; rewrite A2, A1; auto.
  - intros e; rewrite X2, X1; reflexivity.
Qed.

Lemma handler_frame_focus (e : ref) (d : document) :
  handler_frame d (focus e d).
Proof.
  unfold focus; destruct (focusable d e); repeat split.
Qed.

Lemma handler_frame_set_expanded (e : ref) (v : string) (d : document) :
  isExpandable d e = true ->
  handler_frame d (setAttribute e "aria-expanded" v d).
Proof.
  intros He; repeat split.
  - intros e' n Hn; rewrite getAttribute_setAttribute.
    change (JsString.toLowerCase "aria-expanded") with "aria-expanded".
    destruct (String.eqb_spec (JsString.toLowerCase n) "aria-expanded");
      [contradiction | rewrite andb_false_r; reflexivity].
  - intros e'; unfold hasAttribute; rewrite getAttribute_setAttribute.
    destruct (ref_eqb e' e) eqn:E; simpl; [|reflexivity].
    apply ref_eqb_eq in E; subst e'.
    unfold isExpandable, hasAttribute in He.
    destruct (getAttribute d e "aria-expanded"); [reflexivity | discriminate].
Qed.

Lemma handler_frame_expand (e : ref) (d : document) :
  handler_frame d (expandTreeItem e d).
Proof.
  destruct (expandTreeItem_cases e d) as [-> | [He ->]].
  - apply handler_frame_refl.
  - apply handler_frame_set_expanded; exact He.
Qed.

Lemma handler_frame_collapse (e : ref) (d : document) :
  handler_frame d (collapseTreeItem e d).
Proof.
  destruct (collapseTreeItem_cases e d) as [-> | [He ->]].
  - apply handler_frame_refl.
  - apply handler_frame_set_expanded; exact He.
Qed.

Ltac handler_frame_tac :=
  keeps_tac
    ltac:(first [exact handler_frame_refl | exact handler_frame_trans])
    ltac:(first [ apply handler_frame_focus
                | apply handler_frame_expand
                | apply handler_frame_collapse ]).

Lemma keeps_setFocusToTreeItem (o : option ref) :
  keeps handler_frame (setFocusToTreeItem o).
Proof. unfold setFocusToTreeItem; handler_frame_tac. Qed.

Lemma keeps_focus_if_present (o : option ref) :
  keeps handler_frame (focus_if_present o).
Proof. unfold focus_if_present; handler_frame_tac. Qed.

Lemma keeps_setFocusToNextTreeItem (item : ref) :
  keeps handler_frame (setFocusToNextTreeItem item).
Proof.
  unfold setFocusToNextTreeItem; handler_frame_tac;
    first [apply keeps_setFocusToTreeItem | apply keeps_focus_if_present].
Qed.

Lemma keeps_setFocusToPreviousTreeItem (item : ref) :
  keeps handler_frame (setFocusToPreviousTreeItem item).
Proof.
  unfold setFocusToPreviousTreeItem; handler_frame_tac;
    apply keeps_setFocusToTreeItem.
Qed.

Lemma keeps_isVisible (item : ref) : keeps handler_frame (isVisible item).
Proof. unfold isVisible; handler_frame_tac. Qed.

Lemma keeps_visible_among (items : list ref) :
  keeps handler_frame (visible_among items).
Proof.
  induction items as [|x l IH]; simpl; handler_frame_tac.
  - apply keeps_isVisible.
  - exact IH.
Qed.

Lemma keeps_onKeydown (this : instance) (event : KeyboardEvent) :
  keeps handler_frame (onKeydown this event).
Proof.
  unfold onKeydown, onArrowDown, onArrowRight, onArrowLeft,
    getVisibleTreeItems.
  handler_frame_tac;
    first [ apply keeps_setFocusToTreeItem
          | apply keeps_focus_if_present
          | apply keeps_setFocusToNextTreeItem
          | apply keeps_setFocusToPreviousTreeItem
          | apply keeps_visible_among ].
Qed.

Lemma keeps_onTriggerClick (target : ref) :
  keeps handler_frame (onTriggerClick target).
Proof. unfold onTriggerClick; handler_frame_tac. Qed.

Lemma handler_frame_keydowns (this : instance) (events : list KeyboardEvent)
      (d : document) :
  handler_frame d (keydowns this events d).
Proof.
  unfold keydowns; revert d; induction events as [|ev l IH]; intros d; simpl.
  - apply handler_frame_refl.
  - eapply handler_frame_trans; [apply keeps_onKeydown | apply IH].
Qed.

(** [tabIndex] reads the tree and [tabindex] only. *)
Lemma handler_frame_tabIndex (d d' : document) (e : ref) :
  handler_frame d d' -> tabIndex d' e = tabIndex d e.
Proof.
  intros (Hr & _ & Ha & _).
  unfold tabIndex, tabindex_attribute, tabIndex_default, tagName, node_at.
  rewrite Hr, !Ha by (simpl; discriminate).
  reflexivity.
Qed.

(** ** Identifier derivation *)

(** C3: [cleanForId] turns " Section  One! " into "section-one" and
    "Open" into the empty string. *)
Theorem cleanForId_examples :
  cleanForId " Section  One! " = "section-one" /\ cleanForId "Open" = "".
Proof. split; reflexivity. Qed.

(** The literal "open" is removed once, wherever it first occurs. *)
Example cleanForId_inner_open : cleanForId "Re-open doors" = "re--doors".
Proof. reflexivity. Qed.

(** ** Single roving focus *)

Lemma tab_stops_keydowns (this : instance) (events : list KeyboardEvent)
      (d : document) :
  tab_stops this (keydowns this events d) = tab_stops this d.
Proof.
  unfold tab_stops; apply filter_ext; intros e.
  rewrite (handler_frame_tabIndex _ _ e (handler_frame_keydowns this events d)).
  reflexivity.
Qed.

(** C4: if at most one Item has [tabIndex] 0, then after any sequence of
    keyboard events handled by [onKeydown] at most one Item has
    [tabIndex] 0: the handler never writes [tabindex]. *)
Theorem single_roving_focus
        (this : instance) (events : list KeyboardEvent) (d : document) :
  List.length (tab_stops this d) <= 1 ->
  List.length (tab_stops this (keydowns this events d)) <= 1.
Proof. rewrite tab_stops_keydowns; auto. Qed.

Lemma single_roving_focus_witness :
  List.length (tab_stops (view handbook) (ready handbook)) <= 1 /\
  List.length (tab_stops (view handbook)
                         (keydowns (view handbook) handbook_tour
                                   (ready handbook))) <= 1.
Proof.
  split.
  - vm_compute; lia.
  - apply (single_roving_focus (view handbook) handbook_tour (ready handbook)).
    vm_compute; lia.
Defined.

(** ** Expand and collapse *)

(** C9: [expandTreeItem] on an Item that is expanded or not expandable
    and [collapseTreeItem] on an Item that is collapsed or not expandable
    return the page unchanged; neither ever changes the focused element
    or the [tabIndex] of any element. *)
Theorem expand_collapse_idempotent (d : document) (item : ref) :
  (isExpanded d item = true \/ isExpandable d item = false ->
   expandTreeItem item d = d) /\
  (isExpanded d item = false \/ isExpandable d item = false ->
   collapseTreeItem item d = d) /\
  (activeElement (expandTreeItem item d) = activeElement d /\
   forall e, tabIndex (expandTreeItem item d) e = tabIndex d e) /\
  (activeElement (collapseTreeItem item d) = activeElement d /\
   forall e, tabIndex (collapseTreeItem item d) e = tabIndex d e).
Proof.
  repeat split.
  - unfold expandTreeItem; intros [H | H]; rewrite H; simpl;
      [rewrite andb_false_r|]; reflexivity.
  - unfold collapseTreeItem; intros [H | H]; rewrite H; simpl;
      [rewrite andb_false_r|]; reflexivity.
  - destruct (expandTreeItem_cases item d) as [-> | [_ ->]]; reflexivity.
  - intros e; apply handler_frame_tabIndex, handler_frame_expand.
  - destruct (collapseTreeItem_cases item d) as [-> | [_ ->]]; reflexivity.
  - intros e; apply handler_frame_tabIndex, handler_frame_collapse.
Qed.

Lemma expand_collapse_idempotent_witness :
  (* a collapsed Item and an Item without a Group *)
  collapseTreeItem [0; 0; 0] (ready chapters) = ready chapters /\
  expandTreeItem [0; 1; 0] (ready chapters) = ready chapters.
Proof.
  split.
  - apply (proj1 (proj2 (expand_collapse_idempotent (ready chapters) [0; 0; 0]))).
    left; vm_compute; reflexivity.
  - apply (proj1 (expand_collapse_idempotent (ready chapters) [0; 1; 0])).
    right; vm_compute; reflexivity.
Defined.

(** ** Construction from something that is no node *)

(** C6, as stated, fails: [null] and a plain object pass the [typeof]
    guard, and the first property access throws. *)
Lemma constructor_throws_on_object :
  is_node JPlainObject = false /\ is_node JNull = false /\
  constructor JPlainObject (page [] flat) = Throw TypeError (page [] flat) /\
  constructor JNull (page [] flat) = Throw TypeError (page [] flat).
Proof. repeat split; vm_compute; reflexivity. Qed.

(** C6 (amended): for every argument whose [typeof] is not "object"
    the constructor returns an instance without fields and leaves the
    page exactly as it was: no attribute is written, no trigger is
    inserted and no listener is installed. *)
Theorem constructor_inert (v : jsval) (d : document) :
  typeof v <> "object" -> constructor v d = Ok None d.
Proof.
  intros H; unfold constructor.
  destruct (String.eqb_spec (typeof v) "object"); [contradiction|].
  reflexivity.
Qed.

Lemma constructor_inert_witness :
  constructor (JString "#menu") (page [] chapters) = Ok None (page [] chapters).
Proof. apply (constructor_inert (JString "#menu")); discriminate. Defined.

(** ** The visible-items query *)

Lemma isVisible_spec (item : ref) (d : document) :
  (closest d item [Tag "ul"] = None /\ isVisible item d = Throw TypeError d) \/
  (closest d item [Tag "ul"] <> None /\
   isVisible item d =
   Ok (match ownerOf d item with
       | Some owner => isExpanded d owner
       | None => false
       end) d).
Proof.
  unfold isVisible, ownerOf, fetch, bind, read, nonNull, ret, throw.
  destruct (closest d item [Tag "ul"]) as [list|]; [right | left; auto].
  split; [discriminate|].
  destruct (previousElementSibling d list) as [owner|]; [|reflexivity].
  destruct (isExpanded d owner); reflexivity.
Qed.

Lemma visible_among_spec (items : list ref) (d : document)
      (visible : list ref) (d' : document) :
  visible_among items d = Ok visible d' ->
  d' = d /\
  visible = filter (fun item => match ownerOf d item with
                                | Some owner => isExpanded d owner
                                | None => false
                                end) items.
Proof.
  revert visible d'; induction items as [|x l IH]; intros visible d'; simpl.
  - unfold ret; intros H; inversion H; auto.
  - unfold bind at 1.
    destruct (isVisible_spec x d) as [[_ ->] | [_ ->]]; [discriminate|].
    unfold bind at 1.
    destruct (visible_among l d) as [more d1|] eqn:E; [|discriminate].
    destruct (IH more d1 eq_refl) as [Hd ->]; subst d1.
    unfold ret; intros H; inversion H; subst; split; [reflexivity|].
    destruct (ownerOf d' x) as [owner|]; [|reflexivity].
    destruct (isExpanded d' owner); reflexivity.
Qed.

(** C2, as stated, fails: with "Guide" collapsed and "Advanced" inside it
    expanded, the query returns the two Items below "Advanced". *)
Lemma visible_below_collapsed_ancestor :
  let guide := [0; 1; 0] in
  let advanced := [0; 1; 1; 1; 0] in
  let tuning := [0; 0; 1; 1; 1; 1; 0] in
  ownerOf handbook_folded tuning = Some advanced /\
  ownerOf handbook_folded advanced = Some guide /\
  isExpanded handbook_folded guide = false /\
  exists visible,
    getVisibleTreeItems (view handbook) handbook_folded
    = Ok visible handbook_folded
    /\ In tuning visible.
Proof.
  split; [vm_compute; reflexivity|].
  split; [vm_compute; reflexivity|].
  split; [vm_compute; reflexivity|].
  exists [[0; 0; 1; 1; 1; 1; 0]; [0; 1; 1; 1; 1; 1; 0]].
  split; [vm_compute; reflexivity | simpl; auto].
Qed.

Lemma visible_among_total (items : list ref) (d : document) :
  (forall x, In x items -> closest d x [Tag "ul"] <> None) ->
  visible_among items d = Ok (filter (shown d) items) d.
Proof.
  induction items as [|x l IH]; intros H; [reflexivity|].
  cbn [visible_among filter]; unfold bind.
  destruct (isVisible_spec x d) as [[Hc _] | [_ ->]].
  - exfalso; apply (H x (or_introl eq_refl)); exact Hc.
  - rewrite IH by (intros y Hy; apply H; right; exact Hy).
    reflexivity.
Qed.

Lemma visible_among_throws (items : list ref) (d : document) :
  (exists x, In x items /\ closest d x [Tag "ul"] = None) ->
  visible_among items d = Throw TypeError d.
Proof.
  induction items as [|x l IH]; intros (y & Hy & Hc); [destruct Hy|].
  cbn [visible_among]; unfold bind.
  destruct (isVisible_spec x d) as [[_ ->] | [Hx ->]]; [reflexivity|].
  destruct Hy as [<- | Hy]; [contradiction|].
  rewrite IH by (exists y; auto); reflexivity.
Qed.

(** C2 (amended): an Item whose own Group is owned by a collapsed Item
    is never returned by [getVisibleTreeItems], whatever its own
    [aria-expanded]; an Item whose own Group is owned by an expanded
    Item is returned, whatever the Items farther up, the query returning
    whenever every Item has an enclosing list. *)
Theorem hidden_under_collapsed_owner
        (this : instance) (d : document) (item owner : ref) :
  ownerOf d item = Some owner ->
  (isExpanded d owner = false ->
   forall visible d',
     getVisibleTreeItems this d = Ok visible d' -> ~ In item visible) /\
  (isExpanded d owner = true ->
   In item (treeItems this) ->
   (forall x, In x (treeItems this) -> closest d x [Tag "ul"] <> None) ->
   exists visible,
     getVisibleTreeItems this d = Ok visible d /\ In item visible).
Proof.
  intros Hown; split.
  - intros Hc visible d' Hq Hin.
    destruct (visible_among_spec _ _ _ _ Hq) as [_ ->].
    apply filter_In in Hin; destruct Hin as [_ Hv].
    rewrite Hown, Hc in Hv; discriminate.
  - intros He Hin Hall.
    exists (filter (shown d) (treeItems this)); split.
    + apply (visible_among_total (treeItems this) d Hall).
    + apply filter_In; split; [exact Hin|].
      unfold shown; rewrite Hown; exact He.
Qed.

Lemma hidden_under_collapsed_owner_witness :
  let guide := [0; 1; 0] in
  let advanced := [0; 1; 1; 1; 0] in
  let tuning := [0; 0; 1; 1; 1; 1; 0] in
  (* "Advanced" is itself expanded, its owner "Guide" is collapsed *)
  (forall visible d',
      getVisibleTreeItems (view handbook) handbook_folded = Ok visible d' ->
      ~ In advanced visible) /\
  (* "Tuning" is owned by "Advanced" *)
  (exists visible,
      getVisibleTreeItems (view handbook) handbook_folded
      = Ok visible handbook_folded /\ In tuning visible).
Proof.
  split.
  - apply (hidden_under_collapsed_owner
             (view handbook) handbook_folded [0; 1; 1; 1; 0] [0; 1; 0]);
      vm_compute; reflexivity.
  - apply (hidden_under_collapsed_owner
             (view handbook) handbook_folded
             [0; 0; 1; 1; 1; 1; 0] [0; 1; 1; 1; 0]).
    + vm_compute; reflexivity.
    + vm_compute; reflexivity.
    + vm_compute; auto 10.
    + intros x Hx.
      assert (Hl : In x [[0; 0; 0]; [0; 1; 0]; [0; 0; 1; 1; 0];
                         [0; 1; 1; 1; 0]; [0; 0; 1; 1; 1; 1; 0];
                         [0; 1; 1; 1; 1; 1; 0]; [0; 2; 0]]) by exact Hx.
      clear Hx; cbn [In] in Hl.
      repeat (destruct Hl as [<- | Hl]; [vm_compute; discriminate|]).
      destruct Hl.
Defined.

(** ** Walking the element tree *)

Lemma descend_app (a b : list nat) (n : node) :
  descend (a ++ b) n =
  match descend a n with Some k => descend b k | None => None end.
Proof.
  revert n; induction a as [|i a IH]; intros n; simpl; [reflexivity|].
  destruct (nth_error (children_of n) i); [apply IH | reflexivity].
Qed.

Lemma node_at_cons (d : document) (i : nat) (p : ref) :
  node_at d (i :: p) =
  match node_at d p with
  | Some n => nth_error (children_of n) i
  | None => None
  end.
Proof.
  unfold node_at; simpl; rewrite descend_app.
  destruct (descend (rev p) (root d)); [|reflexivity].
  simpl; destruct (nth_error (children_of n) i); reflexivity.
Qed.

Lemma walk_unfold (t : string) (c : list string) (ks : list node) (p : ref) :
  walk (Element t c ks) p = walk_kids ks 0 p.
Proof.
  simpl; generalize 0; induction ks as [|k ks IH]; intros i; simpl;
    [reflexivity|].
  rewrite IH; reflexivity.
Qed.

Lemma links_unfold (l : string) (c : list string) (t : nat)
      (g : option menu) (r : ref) :
  links (Entry l c t g) r =
  (0 :: r) :: match g with
              | Some es => links_from es 0 (1 :: r)
              | None => []
              end.
Proof.
  simpl; f_equal; destruct g as [es|]; [|reflexivity].
  remember (1 :: r) as q eqn:Hq; clear Hq.
  generalize 0; induction es as [|e es IH]; intros i; simpl; [reflexivity|].
  rewrite IH; reflexivity.
Qed.

Lemma children_of_item (e : entry) :
  children_of (item e) =
  link (label_of e) (classes_of e) (toggles_of e)
  :: match group_of e with
     | Some es => [Element "ul" ["menu"] (map item es)]
     | None => []
     end.
Proof. destruct e as [l c t [es|]]; reflexivity. Qed.

(** ** The element tree of a menu *)

Section MenuTree.

Variables (d : document) (classes : list string) (m : menu).
Hypothesis Hroot : root d = container classes m.

Lemma node_at_container : node_at d [] = Some (container classes m).
Proof. unfold node_at; simpl; rewrite Hroot; reflexivity. Qed.

Lemma node_at_root_list : node_at d [0] = Some (root_list m).
Proof. rewrite node_at_cons, node_at_container; reflexivity. Qed.

Lemma node_at_list (a : address) (es : menu) :
  entries_under m a = Some es ->
  exists cs, node_at d (list_ref a) = Some (Element "ul" cs (map item es)).
Proof.
  revert es; induction a as [|i a IH]; intros es; simpl.
  - intros H; injection H as <-; eexists; apply node_at_root_list.
  - destruct (entries_under m a) as [es'|]; [|discriminate].
    destruct (nth_error es' i) as [e|] eqn:Ei; [|discriminate].
    intros Hg; destruct (IH es' eq_refl) as [cs Hn].
    exists ["menu"].
    rewrite node_at_cons, node_at_cons, Hn; simpl.
    rewrite (map_nth_error item _ _ Ei), children_of_item, Hg.
    reflexivity.
Qed.

Lemma node_at_entry (a : address) (e : entry) :
  lookup_entry m a = Some e -> node_at d (entry_ref a) = Some (item e).
Proof.
  destruct a as [|i a]; simpl; [discriminate|].
  destruct (entries_under m a) as [es|] eqn:E; [|discriminate].
  intros Hi; destruct (node_at_list a es E) as [cs Hn].
  rewrite node_at_cons, Hn; simpl.
  apply map_nth_error; exact Hi.
Qed.

Lemma node_at_link (a : address) (e : entry) :
  lookup_entry m a = Some e ->
  node_at d (link_ref a)
  = Some (link (label_of e) (classes_of e) (toggles_of e)).
Proof.
  intros H; unfold link_ref.
  rewrite node_at_cons, (node_at_entry a e H), children_of_item.
  reflexivity.
Qed.

Lemma entries_under_lookup (a : address) (e : entry) :
  lookup_entry m a = Some e -> entries_under m a = group_of e.
Proof.
  destruct a as [|i a]; simpl; [discriminate|].
  destruct (entries_under m a); [|discriminate].
  intros ->; reflexivity.
Qed.

Lemma node_at_group (a : address) (e : entry) (es : menu) :
  lookup_entry m a = Some e -> group_of e = Some es ->
  node_at d (1 :: entry_ref a) = Some (Element "ul" ["menu"] (map item es)).
Proof.
  intros H Hg.
  rewrite node_at_cons, (node_at_entry a e H), children_of_item, Hg.
  reflexivity.
Qed.

End MenuTree.

Lemma node_at_child (d : document) (r : ref) (n k : node) (i : nat) :
  node_at d r = Some n -> nth_error (children_of n) i = Some k ->
  node_at d (i :: r) = Some k.
Proof. intros Hn Hk; rewrite node_at_cons, Hn; exact Hk. Qed.

Lemma has_class_at (d : document) (e : ref) (c t : string)
      (cs : list string) (ks : list node) :
  node_at d e = Some (Element t cs ks) ->
  matches_compound d e [Class c] = existsb (String.eqb c) cs.
Proof.
  intros H; unfold matches_compound, tagName; rewrite H; simpl.
  unfold classList_contains; rewrite H; apply andb_true_r.
Qed.

Lemma filter_keep (A : Type) (f : A -> bool) (x : A) (l : list A) :
  f x = true -> filter f (x :: l) = x :: filter f l.
Proof. intros H; simpl; rewrite H; reflexivity. Qed.

Lemma filter_drop (A : Type) (f : A -> bool) (x : A) (l : list A) :
  f x = false -> filter f (x :: l) = filter f l.
Proof. intros H; simpl; rewrite H; reflexivity. Qed.

Lemma filter_nothing (A : Type) (f : A -> bool) (l : list A) :
  (forall x, In x l -> f x = false) -> filter f l = [].
Proof.
  induction l as [|x l IH]; intros H; [reflexivity|].
  rewrite filter_drop by (apply H; left; reflexivity).
  apply IH; intros y Hy; apply H; right; exact Hy.
Qed.

(** The triggers in a link are childless buttons. *)
Lemma walk_triggers (n i : nat) (p : ref) :
  walk_kids (repeat (d_node trigger) n) i p = map (fun j => j :: p) (seq i n).
Proof.
  revert i; induction n as [|n IH]; intros i; [reflexivity|].
  simpl; rewrite IH; reflexivity.
Qed.

Lemma is_element_item (e : entry) : is_element (item e) = true.
Proof. destruct e; reflexivity. Qed.

Lemma item_unfold (l : string) (c : list string) (t : nat) (g : option menu) :
  item (Entry l c t g) =
  Element "li" ["menu-item"]
          (link l c t
           :: match g with
              | Some es => [Element "ul" ["menu"] (map item es)]
              | None => []
              end).
Proof. reflexivity. Qed.

(** ** The Items of a menu, as the constructor finds them *)

Section MenuLinks.

Variable d : document.

Lemma links_found_list (es : list entry) :
  Forall (links_found d) es ->
  forall i l,
    (forall j e, nth_error es j = Some e ->
                 node_at d (i + j :: l) = Some (item e)) ->
    filter (is_menu_link d) (walk_kids (map item es) i l) = links_from es i l.
Proof.
  induction 1 as [|e es He _ IH]; intros i l Hn; simpl; [reflexivity|].
  rewrite is_element_item, filter_app.
  assert (Hi : node_at d (i :: l) = Some (item e)).
  { rewrite <- (Nat.add_0_r i); apply Hn; reflexivity. }
  assert (Hli : (is_menu_link d) (i :: l) = false).
  { destruct e as [lb c t g]; rewrite item_unfold in Hi.
    unfold is_menu_link; rewrite (has_class_at _ _ _ _ _ _ Hi); reflexivity. }
  rewrite filter_drop by exact Hli.
  rewrite (He _ Hi); f_equal.
  apply IH; intros j e' Hj.
  replace (S i + j) with (i + S j) by lia; apply Hn; exact Hj.
Qed.

Lemma links_found_all (e : entry) : links_found d e.
Proof.
  induction e as [lb c t g IH] using entry_induction; intros r Hr.
  rewrite links_unfold, item_unfold, walk_unfold.
  rewrite item_unfold in Hr.
  assert (H0 : node_at d (0 :: r) = Some (link lb c t))
    by (apply (node_at_child _ _ _ _ _ Hr); reflexivity).
  assert (Hl : (is_menu_link d) (0 :: r) = true)
    by (unfold is_menu_link, link in *; rewrite (has_class_at _ _ _ _ _ _ H0); reflexivity).
  assert (Hin : filter (is_menu_link d) (walk (link lb c t) (0 :: r)) = []).
  { unfold link; rewrite walk_unfold.
    change (walk_kids (Text lb :: ?bs) 0 (0 :: r))
      with (walk_kids bs 1 (0 :: r)).
    rewrite walk_triggers; apply filter_nothing; intros x Hx.
    apply in_map_iff in Hx; destruct Hx as (j & <- & Hj).
    apply in_seq in Hj.
    assert (Hb : node_at d (j :: 0 :: r) = Some (d_node trigger)).
    { apply (node_at_child _ _ _ _ _ H0).
      destruct j as [|j]; [lia|]; simpl.
      apply nth_error_repeat; lia. }
    unfold is_menu_link; unfold trigger in Hb; simpl in Hb.
    rewrite (has_class_at _ _ _ _ _ _ Hb); reflexivity. }
  change (walk_kids (link lb c t :: ?rest) 0 r)
    with (((0 :: r) :: walk (link lb c t) (0 :: r)) ++ walk_kids rest 1 r).
  rewrite filter_app, filter_keep by exact Hl.
  rewrite Hin; simpl app.
  f_equal.
  destruct g as [es|]; [|reflexivity].
  assert (Hg : node_at d (1 :: r) = Some (Element "ul" ["menu"] (map item es)))
    by (apply (node_at_child _ _ _ _ _ Hr); reflexivity).
  change (walk_kids [?u] 1 r) with (((1 :: r) :: walk u (1 :: r)) ++ []).
  rewrite app_nil_r, walk_unfold.
  assert (Hu : (is_menu_link d) (1 :: r) = false)
    by (unfold is_menu_link; rewrite (has_class_at _ _ _ _ _ _ Hg); reflexivity).
  rewrite filter_drop by exact Hu.
  apply links_found_list; [exact IH|].
  intros j e Hj; apply (node_at_child _ _ _ _ _ Hg); simpl.
  apply map_nth_error; exact Hj.
Qed.

End MenuLinks.

(** ** Links of a menu and their addresses *)

Lemma links_from_member (x : ref) (es : list entry) (i : nat) (l : ref) :
  In x (links_from es i l) <->
  exists j e, nth_error es j = Some e /\ In x (links e (i + j :: l)).
Proof.
  revert i; induction es as [|e es IH]; intros i; simpl.
  - split; [tauto | intros (j & e & H & _); destruct j; discriminate].
  - rewrite in_app_iff, IH; split.
    + intros [H | (j & e' & Hj & H)].
      * exists 0, e; rewrite Nat.add_0_r; auto.
      * exists (S j), e'; rewrite Nat.add_succ_r; auto.
    + intros ([|j] & e' & Hj & H); simpl in Hj.
      * injection Hj as <-; rewrite Nat.add_0_r in H; auto.
      * right; exists j, e'; rewrite Nat.add_succ_r in H; auto.
Qed.

Lemma links_from_split (es : list entry) (j : nat) (e : entry) (i : nat)
      (l : ref) :
  nth_error es j = Some e ->
  links_from es i l =
  links_from (firstn j es) i l
  ++ links e (i + j :: l)
  ++ links_from (skipn (S j) es) (i + S j) l.
Proof.
  revert j i; induction es as [|e' es IH]; intros [|j] i; simpl;
    try discriminate.
  - intros H; injection H as <-.
    rewrite Nat.add_0_r, Nat.add_1_r; reflexivity.
  - intros H; rewrite (IH _ (S i) H), <- app_assoc.
    rewrite !Nat.add_succ_r; reflexivity.
Qed.

(** Every link of an entry lies below the entry. *)
Lemma links_below (e : entry) :
  forall r x, In x (links e r) -> exists pre, x = pre ++ r.
Proof.
  induction e as [lb c t g IH] using entry_induction; intros r x.
  rewrite links_unfold; intros [<- | H]; [exists [0]; reflexivity|].
  destruct g as [es|]; [|destruct H].
  apply links_from_member in H; destruct H as (j & e & Hj & H).
  rewrite Forall_forall in IH.
  destruct (IH e (nth_error_In _ _ Hj) _ _ H) as [pre ->].
  exists (pre ++ [0 + j; 1]); rewrite <- app_assoc; reflexivity.
Qed.

Lemma links_from_below (x : ref) (es : list entry) (i : nat) (l : ref) :
  In x (links_from es i l) -> exists pre j, x = pre ++ j :: l /\ i <= j.
Proof.
  intros H; apply links_from_member in H; destruct H as (j & e & _ & H).
  destruct (links_below _ _ _ H) as [pre ->].
  exists pre, (i + j); split; [reflexivity | lia].
Qed.

Section MenuAddresses.

Variables (d : document) (classes : list string) (m : menu).
Hypothesis Hroot : root d = container classes m.

Lemma root_list_found : querySelector d [] sel_root_list = Some [0].
Proof.
  unfold querySelector, querySelectorAll, descendants.
  rewrite (node_at_container _ _ _ Hroot); unfold container.
  rewrite walk_unfold.
  change (walk_kids [root_list m] 0 [])
    with (([0] :: walk (root_list m) [0]) ++ []).
  rewrite app_nil_r, filter_keep; [reflexivity|].
  change (matches d [] sel_root_list [0])
    with (matches_compound d [0] [Tag "ul"] && true).
  unfold matches_compound, matches_simple, forallb, tagName.
  rewrite (node_at_root_list _ _ _ Hroot); reflexivity.
Qed.

Lemma treeItems_found :
  querySelectorAll d [0] sel_menu_link = links_from m 0 [0].
Proof.
  unfold querySelectorAll, descendants.
  rewrite (node_at_root_list _ _ _ Hroot); unfold root_list.
  rewrite walk_unfold.
  change (matches d [0] sel_menu_link) with (is_menu_link d).
  apply links_found_list.
  - apply Forall_forall; intros e _; apply links_found_all.
  - intros j e Hj.
    apply (node_at_child _ _ _ _ _ (node_at_root_list _ _ _ Hroot)); simpl.
    apply map_nth_error; exact Hj.
Qed.

Lemma link_in_group (a : address) (es : menu) (x : ref) :
  entries_under m a = Some es ->
  In x (links_from es 0 (list_ref a)) -> In x (links_from m 0 [0]).
Proof.
  revert es x; induction a as [|i a IH]; intros es x; simpl.
  - intros H; injection H as <-; auto.
  - destruct (entries_under m a) as [es'|]; [|discriminate].
    destruct (nth_error es' i) as [e|] eqn:Ei; [|discriminate].
    intros Hg Hx; apply (IH es' x eq_refl).
    apply links_from_member; exists i, e; split; [exact Ei|].
    destruct e as [lb c t g]; simpl in Hg; subst g.
    rewrite links_unfold; right; exact Hx.
Qed.

(** The link of every entry is among the Items. *)
Lemma link_is_item (a : address) (e : entry) :
  lookup_entry m a = Some e -> In (link_ref a) (links_from m 0 [0]).
Proof.
  destruct a as [|i a]; simpl; [discriminate|].
  destruct (entries_under m a) as [es|] eqn:E; [|discriminate].
  intros Hi; eapply link_in_group; [exact E|].
  apply links_from_member; exists i, e; split; [exact Hi|].
  destruct e; rewrite links_unfold; left; reflexivity.
Qed.

Lemma addressed_all (e : entry) : addressed m e.
Proof.
  induction e as [lb c t g IH] using entry_induction; intros a Ha x.
  rewrite links_unfold; intros [<- | H]; [exists a; eexists; eauto|].
  destruct g as [es|]; [|destruct H].
  apply links_from_member in H; destruct H as (j & e & Hj & H).
  rewrite Forall_forall in IH.
  destruct a as [|i a]; [discriminate|].
  apply (IH e (nth_error_In _ _ Hj) (j :: i :: a)); [|exact H].
  simpl; simpl in Ha.
  destruct (entries_under m a) as [es'|]; [|discriminate].
  rewrite Ha; exact Hj.
Qed.

(** Every Item is the link of an entry. *)
Lemma item_is_link (x : ref) :
  In x (links_from m 0 [0]) ->
  exists a e, x = link_ref a /\ lookup_entry m a = Some e.
Proof.
  intros H; apply links_from_member in H; destruct H as (j & e & Hj & H).
  apply (addressed_all e [j]); [exact Hj | exact H].
Qed.

End MenuAddresses.

(** ** What depends on the element tree only *)

Lemma node_at_same_root (d d' : document) (e : ref) :
  root d' = root d -> node_at d' e = node_at d e.
Proof. intros H; unfold node_at; rewrite H; reflexivity. Qed.

Lemma classList_contains_same_root (d d' : document) (e : ref) (c : string) :
  root d' = root d -> classList_contains d' e c = classList_contains d e c.
Proof.
  intros H; unfold classList_contains; rewrite (node_at_same_root _ _ e H).
  reflexivity.
Qed.

Lemma nextElementSibling_same_root (d d' : document) (e : ref) :
  root d' = root d -> nextElementSibling d' e = nextElementSibling d e.
Proof.
  intros H; destruct e as [|i p]; [reflexivity|].
  unfold nextElementSibling, childNodes; rewrite (node_at_same_root _ _ p H).
  reflexivity.
Qed.

Lemma anchor_same_root (d d' : document) (e : ref) :
  root d' = root d ->
  querySelector d' e sel_anchor = querySelector d e sel_anchor.
Proof.
  intros H; unfold querySelector, querySelectorAll, descendants.
  rewrite (node_at_same_root _ _ e H); f_equal; apply filter_ext; intros x.
  unfold matches, sel_anchor, matches_compound, matches_simple, forallb,
    tagName.
  rewrite (node_at_same_root _ _ x H); reflexivity.
Qed.

(** ** [updateActiveTree] *)

Lemma handler_frame_expandOwner (c : ref) (d : document) :
  handler_frame d (expandOwner c d).
Proof.
  unfold expandOwner.
  destruct (classList_contains d c "menu-item");
    [|apply handler_frame_refl].
  destruct (querySelector d c sel_anchor) as [o|];
    [|apply handler_frame_refl].
  destruct (hasAttribute d o "aria-expanded") eqn:E;
    [|apply handler_frame_refl].
  apply handler_frame_set_expanded; exact E.
Qed.

Lemma handler_frame_expandOwners (c : ref) (d : document) :
  handler_frame d (expandOwners c d).
Proof.
  revert d; induction c as [|i c IH]; intros d; simpl.
  - apply handler_frame_expandOwner.
  - eapply handler_frame_trans; [apply handler_frame_expandOwner | apply IH].
Qed.

Lemma handler_frame_updateActiveTree (x : ref) (d : document) :
  handler_frame d (updateActiveTree x d).
Proof.
  unfold updateActiveTree; destruct (parentNode x);
    [apply handler_frame_expandOwners | apply handler_frame_refl].
Qed.

Lemma stays_expanded_expandOwner (o c : ref) (d : document) :
  stays_expanded o d (expandOwner c d).
Proof.
  unfold expandOwner, stays_expanded; intros H.
  destruct (classList_contains d c "menu-item"); [|exact H].
  destruct (querySelector d c sel_anchor) as [p|]; [|exact H].
  destruct (hasAttribute d p "aria-expanded"); [|exact H].
  rewrite getAttribute_setAttribute.
  destruct (ref_eqb o p); simpl; [reflexivity | exact H].
Qed.

Lemma stays_expanded_expandOwners (o c : ref) (d : document) :
  stays_expanded o d (expandOwners c d).
Proof.
  revert d; induction c as [|i c IH]; intros d; simpl.
  - apply stays_expanded_expandOwner.
  - intros H; apply IH, stays_expanded_expandOwner, H.
Qed.

Lemma expandOwners_reaches (o c : ref) :
  forall (pre : ref) (d : document),
    classList_contains d c "menu-item" = true ->
    querySelector d c sel_anchor = Some o ->
    hasAttribute d o "aria-expanded" = true ->
    getAttribute (expandOwners (pre ++ c) d) o "aria-expanded" = Some "true".
Proof.
  assert (Hhit : forall d,
             classList_contains d c "menu-item" = true ->
             querySelector d c sel_anchor = Some o ->
             hasAttribute d o "aria-expanded" = true ->
             getAttribute (expandOwner c d) o "aria-expanded" = Some "true").
  { intros d Hc Hq Ho; unfold expandOwner; rewrite Hc, Hq, Ho.
    apply getAttribute_setAttribute_same. }
  induction pre as [|i pre IH]; intros d Hc Hq Ho.
  - destruct c as [|j c]; simpl; [apply Hhit; assumption|].
    apply stays_expanded_expandOwners, Hhit; assumption.
  - simpl app; simpl expandOwners.
    destruct (handler_frame_expandOwner (i :: pre ++ c) d)
      as (Hr & _ & _ & Hx).
    apply IH.
    + rewrite (classList_contains_same_root _ _ _ _ Hr); exact Hc.
    + rewrite (anchor_same_root _ _ _ Hr); exact Hq.
    + rewrite Hx; exact Ho.
Qed.

Lemma updateActiveTree_reaches (d : document) (x o : ref) :
  owner_above d x o ->
  hasAttribute d o "aria-expanded" = true ->
  getAttribute (updateActiveTree x d) o "aria-expanded" = Some "true".
Proof.
  intros (pre & c & -> & Hpre & Hc & Hq) Ho.
  destruct pre as [|i pre]; [contradiction|].
  apply expandOwners_reaches; assumption.
Qed.

(** ** One round of [adjustLinkAttributes] *)

Lemma adjustLink_eq (x : ref) (d : document) :
  adjustLink x d =
  let d1 := if classList_contains d x "is-active"
            then updateActiveTree x (current x (marked x d))
            else marked x d in
  match nextElementSibling d x with
  | Some _ => owning x (textContent d x) d1
  | None => d1
  end.
Proof.
  unfold adjustLink.
  change (classList_contains
            (setAttribute x "tabindex" "-1"
                          (setAttribute x "aria-role" "tree-item" d))
            x "is-active")
    with (classList_contains d x "is-active").
  destruct (classList_contains d x "is-active").
  - rewrite (nextElementSibling_same_root
               _ _ x (proj1 (handler_frame_updateActiveTree x _))).
    reflexivity.
  - reflexivity.
Qed.

Lemma root_adjustLink (x : ref) (d : document) :
  root (adjustLink x d) = root d.
Proof.
  rewrite adjustLink_eq; simpl.
  assert (H : root (if classList_contains d x "is-active"
                    then updateActiveTree x (current x (marked x d))
                    else marked x d) = root d).
  { destruct (classList_contains d x "is-active"); [|reflexivity].
    rewrite (proj1 (handler_frame_updateActiveTree x _)); reflexivity. }
  destruct (nextElementSibling d x); simpl; exact H.
Qed.

(** [aria-expanded] appears on the Item, and only if it has a next
    element sibling. *)
Lemma adjustLink_expandable (x e : ref) (d : document) :
  hasAttribute (adjustLink x d) e "aria-expanded" =
  hasAttribute d e "aria-expanded"
  || (ref_eqb e x && is_some (nextElementSibling d x)).
Proof.
  rewrite adjustLink_eq; cbv zeta.
  assert (H : hasAttribute
                (if classList_contains d x "is-active"
                 then updateActiveTree x (current x (marked x d))
                 else marked x d) e "aria-expanded"
              = hasAttribute d e "aria-expanded").
  { destruct (classList_contains d x "is-active").
    - destruct (handler_frame_updateActiveTree x (current x (marked x d)))
        as (_ & _ & _ & Hx).
      rewrite Hx; unfold hasAttribute, current, marked.
      rewrite !getAttribute_setAttribute.
      destruct (ref_eqb e x); reflexivity.
    - unfold hasAttribute, marked; rewrite !getAttribute_setAttribute.
      destruct (ref_eqb e x); reflexivity. }
  destruct (nextElementSibling d x); simpl.
  - unfold owning, hasAttribute at 1; rewrite !getAttribute_setAttribute.
    destruct (ref_eqb e x); simpl.
    + rewrite orb_true_r; reflexivity.
    + rewrite orb_false_r; exact H.
  - rewrite andb_false_r, orb_false_r; exact H.
Qed.

(** An Item that is not active writes to itself only. *)
Lemma adjustLink_elsewhere (x e : ref) (n : string) (d : document) :
  classList_contains d x "is-active" = false -> e <> x ->
  getAttribute (adjustLink x d) e n = getAttribute d e n.
Proof.
  intros Ha He; rewrite adjustLink_eq, Ha; cbv zeta.
  destruct (nextElementSibling d x); unfold owning, marked;
    rewrite !getAttribute_setAttribute_other_element by exact He;
    reflexivity.
Qed.

(** The [tabindex] an Item ends with. *)
Lemma adjustLink_tabindex (x e : ref) (d : document) :
  getAttribute (adjustLink x d) e "tabindex" =
  if ref_eqb e x
  then Some (if classList_contains d x "is-active" then "0" else "-1")
  else getAttribute d e "tabindex".
Proof.
  rewrite adjustLink_eq; cbv zeta.
  assert (H : getAttribute
                (if classList_contains d x "is-active"
                 then updateActiveTree x (current x (marked x d))
                 else marked x d) e "tabindex"
              = if ref_eqb e x
                then Some (if classList_contains d x "is-active"
                           then "0" else "-1")
                else getAttribute d e "tabindex").
  { destruct (classList_contains d x "is-active").
    - destruct (handler_frame_updateActiveTree x (current x (marked x d)))
        as (_ & _ & Hx & _).
      rewrite Hx by (simpl; discriminate).
      unfold current, marked; rewrite !getAttribute_setAttribute.
      destruct (ref_eqb e x); reflexivity.
    - unfold marked; rewrite !getAttribute_setAttribute.
      destruct (ref_eqb e x); reflexivity. }
  destruct (nextElementSibling d x); [|exact H].
  unfold owning; rewrite !getAttribute_setAttribute.
  destruct (ref_eqb e x); simpl; exact H.
Qed.

(** An active Item expands the owners above it. *)
Lemma adjustLink_expands (x o : ref) (d : document) :
  classList_contains d x "is-active" = true ->
  o <> x ->
  owner_above d x o ->
  hasAttribute d o "aria-expanded" = true ->
  getAttribute (adjustLink x d) o "aria-expanded" = Some "true".
Proof.
  intros Ha Hox Hup Ho; rewrite adjustLink_eq, Ha; cbv zeta.
  assert (H : getAttribute (updateActiveTree x (current x (marked x d)))
                           o "aria-expanded" = Some "true").
  { apply updateActiveTree_reaches.
    - destruct Hup as (pre & c & E & Hpre & Hc & Hq).
      exists pre, c; repeat split; auto.
    - unfold hasAttribute, current, marked.
      rewrite !getAttribute_setAttribute_other_element by exact Hox.
      exact Ho. }
  destruct (nextElementSibling d x); [|exact H].
  unfold owning.
  rewrite !getAttribute_setAttribute_other_element by exact Hox.
  exact H.
Qed.

(** ** [adjustLinkAttributes] over all Items *)

Lemma existsb_pointwise (A : Type) (f g : A -> bool) (l : list A) :
  (forall x, f x = g x) -> existsb f l = existsb g l.
Proof.
  intros H; induction l as [|x l IH]; simpl; [reflexivity|].
  rewrite H, IH; reflexivity.
Qed.

Lemma root_adjustLinkAttributes (this : instance) (d : document) :
  root (adjustLinkAttributes this d) = root d.
Proof.
  unfold adjustLinkAttributes; generalize (treeItems this) as items.
  intros items; revert d; induction items as [|x l IH]; intros d; simpl;
    [reflexivity|].
  rewrite IH; apply root_adjustLink.
Qed.

Lemma adjustLinkAttributes_cons (t : ref) (x : ref) (l s : list ref)
      (d : document) :
  adjustLinkAttributes {| treeNode := t; treeItems := x :: l; subMenus := s |} d
  = adjustLinkAttributes {| treeNode := t; treeItems := l; subMenus := s |}
                         (adjustLink x d).
Proof. reflexivity. Qed.

Lemma adjustLinkAttributes_app (t : ref) (l1 l2 s : list ref) (d : document) :
  adjustLinkAttributes {| treeNode := t; treeItems := l1 ++ l2; subMenus := s |} d
  = adjustLinkAttributes
      {| treeNode := t; treeItems := l2; subMenus := s |}
      (adjustLinkAttributes
         {| treeNode := t; treeItems := l1; subMenus := s |} d).
Proof. unfold adjustLinkAttributes; simpl; apply fold_left_app. Qed.

Section AdjustAll.

Variables (t : ref) (s : list ref).

Local Abbreviation run items :=
  (adjustLinkAttributes
     {| treeNode := t; treeItems := items; subMenus := s |}) (only parsing).

Lemma adjustLinkAttributes_expandable (items : list ref) (e : ref)
      (d : document) :
  hasAttribute (run items d) e "aria-expanded" =
  hasAttribute d e "aria-expanded"
  || existsb (fun x => ref_eqb e x && is_some (nextElementSibling d x)) items.
Proof.
  revert d; induction items as [|x l IH]; intros d.
  - simpl; rewrite orb_false_r; reflexivity.
  - rewrite adjustLinkAttributes_cons, IH, adjustLink_expandable.
    simpl; rewrite <- orb_assoc; do 2 f_equal.
    apply existsb_pointwise; intros y.
    rewrite (nextElementSibling_same_root _ _ y (root_adjustLink x d)).
    reflexivity.
Qed.

Lemma adjustLinkAttributes_tabindex (items : list ref) (e : ref)
      (d : document) :
  getAttribute (run items d) e "tabindex" =
  if existsb (ref_eqb e) items
  then Some (if classList_contains d e "is-active" then "0" else "-1")
  else getAttribute d e "tabindex".
Proof.
  revert d; induction items as [|x l IH]; intros d;
    [reflexivity|].
  rewrite adjustLinkAttributes_cons, IH, adjustLink_tabindex.
  rewrite (classList_contains_same_root _ _ e _ (root_adjustLink x d)).
  simpl; destruct (ref_eqb e x) eqn:E; simpl.
  - apply ref_eqb_eq in E; subst x.
    destruct (existsb (ref_eqb e) l); reflexivity.
  - reflexivity.
Qed.

Lemma adjustLinkAttributes_elsewhere (items : list ref) (e : ref)
      (n : string) (d : document) :
  (forall x, In x items ->
             classList_contains d x "is-active" = false /\ x <> e) ->
  getAttribute (run items d) e n = getAttribute d e n.
Proof.
  revert d; induction items as [|x l IH]; intros d H;
    [reflexivity|].
  rewrite adjustLinkAttributes_cons, IH.
  - destruct (H x (or_introl eq_refl)) as [Ha Hx].
    apply adjustLink_elsewhere; [exact Ha | congruence].
  - intros y Hy; destruct (H y (or_intror Hy)) as [Ha Hx]; split; [|exact Hx].
    rewrite (classList_contains_same_root _ _ y _ (root_adjustLink x d)).
    exact Ha.
Qed.

(** The owner [o] of a list above the only active Item [a] ends
    expanded, provided [o] comes before [a] and not again after it. *)
Lemma adjustLinkAttributes_owner (l1 l2 : list ref) (a o : ref)
      (d : document) :
  In o l1 ->
  nextElementSibling d o <> None ->
  classList_contains d a "is-active" = true ->
  o <> a ->
  owner_above d a o ->
  (forall x, In x l2 ->
             classList_contains d x "is-active" = false /\ x <> o) ->
  getAttribute (run (l1 ++ a :: l2) d) o "aria-expanded" = Some "true".
Proof.
  intros Hin Hsib Ha Hoa Hup Hrest.
  rewrite adjustLinkAttributes_app, adjustLinkAttributes_cons.
  set (d1 := adjustLinkAttributes _ d).
  assert (Hr1 : root d1 = root d) by apply root_adjustLinkAttributes.
  rewrite adjustLinkAttributes_elsewhere.
  - apply adjustLink_expands.
    + rewrite (classList_contains_same_root _ _ a _ Hr1); exact Ha.
    + exact Hoa.
    + destruct Hup as (pre & c & E & Hpre & Hc & Hq).
      exists pre, c; repeat split; auto.
      * rewrite (classList_contains_same_root _ _ c _ Hr1); exact Hc.
      * rewrite (anchor_same_root _ _ c Hr1); exact Hq.
    + unfold d1; rewrite adjustLinkAttributes_expandable.
      apply orb_true_iff; right; apply existsb_exists.
      exists o; split; [exact Hin|].
      rewrite ref_eqb_refl; destruct (nextElementSibling d o);
        [reflexivity | contradiction].
  - intros x Hx; destruct (Hrest x Hx) as [Hxa Hxo]; split; [|exact Hxo].
    rewrite (classList_contains_same_root _ _ x _ (root_adjustLink a d1)).
    rewrite (classList_contains_same_root _ _ x _ Hr1); exact Hxa.
Qed.

End AdjustAll.

(** ** The rest of the setup *)

Lemma tail_frame_refl (items : list ref) (d : document) :
  tail_frame items d d.
Proof. split; auto. Qed.

Lemma tail_frame_trans (items : list ref) (a b c : document) :
  tail_frame items a b -> tail_frame items b c -> tail_frame items a c.
Proof.
  intros [X1 T1] [X2 T2]; split.
  - intros e; rewrite X2; apply X1.
  - intros e; destruct (T2 e) as [E | E]; [rewrite E; apply T1 | auto].
Qed.

Lemma tail_frame_setAttribute (items : list ref) (e : ref) (n v : string)
      (d : document) :
  JsString.toLowerCase n <> "aria-expanded" ->
  JsString.toLowerCase n <> "tabindex" ->
  tail_frame items d (setAttribute e n v d).
Proof.
  intros H1 H2; split; [intros x | intros x; left];
    rewrite getAttribute_setAttribute.
  - change (JsString.toLowerCase "aria-expanded") with "aria-expanded".
    destruct (String.eqb_spec "aria-expanded" (JsString.toLowerCase n));
      [congruence | rewrite andb_false_r; reflexivity].
  - change (JsString.toLowerCase "tabindex") with "tabindex".
    destruct (String.eqb_spec "tabindex" (JsString.toLowerCase n));
      [congruence | rewrite andb_false_r; reflexivity].
Qed.

Lemma tail_frame_addEventListener (items : list ref) (e : ref)
      (type handler : string) (d : document) :
  tail_frame items d (addEventListener e type handler d).
Proof. split; auto. Qed.

Lemma tail_frame_appendChild (items : list ref) (x : ref) (d : document) :
  In x items -> tail_frame items d (appendChild x trigger d).
Proof.
  intros Hx; split; intros e.
  - unfold getAttribute, appendChild; simpl.
    rewrite andb_false_r; reflexivity.
  - unfold getAttribute, appendChild; simpl.
    destruct (ref_eqb e (appended_ref d x)) eqn:E; simpl; [right | left; auto].
    split; [reflexivity|].
    apply ref_eqb_eq in E; subst e.
    exists x, (List.length (childNodes d x)); auto.
Qed.

Ltac tail_frame_tac :=
  keeps_tac
    ltac:(first [exact (tail_frame_refl _) | exact (tail_frame_trans _)])
    ltac:(first [ apply tail_frame_setAttribute; simpl; discriminate
                | apply tail_frame_addEventListener
                | apply tail_frame_appendChild; assumption ]).

Lemma keeps_getGroupNode (items : list ref) (item : ref) :
  keeps (tail_frame items) (getGroupNode item).
Proof. unfold getGroupNode; tail_frame_tac. Qed.

Lemma keeps_adjustSubMenuAttributes (this : instance) :
  keeps (tail_frame (treeItems this)) (adjustSubMenuAttributes this).
Proof. unfold adjustSubMenuAttributes; tail_frame_tac. Qed.

Lemma keeps_attachTriggers (this : instance) :
  keeps (tail_frame (treeItems this)) (attachTriggers this).
Proof.
  unfold attachTriggers; tail_frame_tac.
  apply keeps_getGroupNode.
Qed.

(** The page after [initializeTreeViews], in terms of the page after
    [adjustLinkAttributes]. *)
Lemma initializeTreeViews_frame (this : instance) (d : document) :
  tail_frame (treeItems this)
             (adjustLinkAttributes
                this (setAttribute (treeNode this) "role" "tree" d))
             (final (initializeTreeViews this d)).
Proof.
  unfold initializeTreeViews.
  change (final ((modify (setAttribute (treeNode this) "role" "tree") ;;
                  modify (adjustLinkAttributes this) ;; ?k) d))
    with (final (k (adjustLinkAttributes
                      this (setAttribute (treeNode this) "role" "tree" d)))).
  generalize (adjustLinkAttributes
                this (setAttribute (treeNode this) "role" "tree" d)).
  change (keeps (tail_frame (treeItems this))
                (adjustSubMenuAttributes this ;;
                 attachTriggers this ;;
                 forEach (fun item =>
                            modify (addEventListener item "keydown" "onKeydown"))
                         (treeItems this))).
  tail_frame_tac.
  - apply keeps_adjustSubMenuAttributes.
  - apply keeps_attachTriggers.
Qed.

(** ** Attaching the engine to a menu *)

Lemma final_bind_ret (A B : Type) (m : M A) (b : B) (d : document) :
  final (bind m (fun _ => ret b) d) = final (m d).
Proof. unfold bind; destruct (m d); reflexivity. Qed.

Lemma attached_page (classes : list string) (m : menu) :
  attached (page classes m)
  = final (initializeTreeViews (menu_view classes m) (page classes m)).
Proof.
  unfold attached, constructor.
  change (negb (String.eqb (typeof (JElement [])) "object")) with false.
  cbv iota; unfold as_element.
  unfold bind at 1, ret at 1.
  unfold bind at 1, fetch, bind at 1, read at 1, nonNull.
  rewrite (root_list_found (page classes m) classes m eq_refl).
  unfold ret at 1.
  unfold bind at 1, read at 1.
  rewrite (treeItems_found (page classes m) classes m eq_refl).
  unfold bind at 1, read at 1.
  apply final_bind_ret.
Qed.

Lemma attached_frame (classes : list string) (m : menu) :
  tail_frame (links_from m 0 [0])
             (adjustLinkAttributes
                (menu_view classes m)
                (setAttribute [0] "role" "tree" (page classes m)))
             (attached (page classes m)).
Proof.
  rewrite attached_page.
  apply (initializeTreeViews_frame (menu_view classes m)).
Qed.

(** ** Links in the element tree of a menu *)

Section MenuItems.

Variables (d : document) (classes : list string) (m : menu).
Hypothesis Hroot : root d = container classes m.

Lemma next_of_link (a : address) (e : entry) :
  lookup_entry m a = Some e ->
  nextElementSibling d (link_ref a) =
  match group_of e with
  | Some _ => Some (1 :: entry_ref a)
  | None => None
  end.
Proof.
  intros H; unfold link_ref, nextElementSibling, childNodes.
  rewrite (node_at_entry d classes m Hroot a e H), children_of_item.
  destruct (group_of e); reflexivity.
Qed.

Lemma link_is_active (a : address) (e : entry) :
  lookup_entry m a = Some e ->
  classList_contains d (link_ref a) "is-active" = is_active e.
Proof.
  intros H; unfold classList_contains.
  rewrite (node_at_link d classes m Hroot a e H); reflexivity.
Qed.

Lemma entry_is_menu_item (a : address) (e : entry) :
  lookup_entry m a = Some e ->
  classList_contains d (entry_ref a) "menu-item" = true.
Proof.
  intros H; unfold classList_contains.
  rewrite (node_at_entry d classes m Hroot a e H).
  destruct e; reflexivity.
Qed.

(** The first link inside an entry is the entry's own. *)
Lemma first_anchor (a : address) (e : entry) :
  lookup_entry m a = Some e ->
  querySelector d (entry_ref a) sel_anchor = Some (link_ref a).
Proof.
  intros H; unfold querySelector, querySelectorAll, descendants.
  rewrite (node_at_entry d classes m Hroot a e H).
  destruct e as [lb c t g]; rewrite item_unfold, walk_unfold.
  change (walk_kids (link lb c t :: ?rest) 0 (entry_ref a))
    with ((link_ref a :: walk (link lb c t) (link_ref a))
            ++ walk_kids rest 1 (entry_ref a)).
  rewrite <- app_comm_cons, filter_keep; [reflexivity|].
  unfold matches, sel_anchor, matches_compound, matches_simple, forallb,
    tagName.
  rewrite (node_at_link d classes m Hroot a _ H); reflexivity.
Qed.

End MenuItems.

(** ** Expandable Items *)

(** Right after setup an Item carries [aria-expanded] if and only if
    its entry has a Group. *)
Lemma setup_expandable
        (classes : list string) (m : menu) (a : address) (e : entry) :
  lookup_entry m a = Some e ->
  isExpandable (attached (page classes m)) (link_ref a) = true
  <-> group_of e <> None.
Proof.
  intros H.
  set (d1 := setAttribute [0] "role" "tree" (page classes m)).
  assert (Hr : root d1 = container classes m) by reflexivity.
  unfold isExpandable, hasAttribute.
  rewrite (proj1 (attached_frame classes m) (link_ref a)).
  fold d1.
  change (hasAttribute (adjustLinkAttributes (menu_view classes m) d1)
                       (link_ref a) "aria-expanded" = true
          <-> group_of e <> None).
  unfold menu_view; rewrite adjustLinkAttributes_expandable.
  assert (H0 : hasAttribute d1 (link_ref a) "aria-expanded" = false).
  { unfold hasAttribute, d1; rewrite getAttribute_setAttribute.
    rewrite andb_false_r; reflexivity. }
  rewrite H0, orb_false_l, existsb_exists; split.
  - intros (x & _ & Hx); apply andb_true_iff in Hx; destruct Hx as [E Hs].
    apply ref_eqb_eq in E; subst x.
    rewrite (next_of_link d1 classes m Hr a e H) in Hs.
    destruct (group_of e); [discriminate | discriminate].
  - intros Hg; exists (link_ref a); split.
    + apply (link_is_item m a e H).
    + rewrite ref_eqb_refl, (next_of_link d1 classes m Hr a e H).
      destruct (group_of e); [reflexivity | contradiction].
Qed.

(** ** The path to the active Item *)

Lemma length_list_ref (a : address) :
  List.length (list_ref a) = 2 * List.length a + 1.
Proof. induction a as [|i a IH]; simpl; [reflexivity | rewrite IH; lia]. Qed.

Lemma length_entry_ref (a : address) :
  List.length (entry_ref a) = 2 * List.length a.
Proof. destruct a as [|i a]; simpl; [reflexivity|]. rewrite length_list_ref; lia. Qed.

(** A link is never an entry: a link holds no Item. *)
Lemma link_ref_not_entry_ref (a b : address) : link_ref a <> entry_ref b.
Proof.
  intros H; apply (f_equal (@List.length nat)) in H.
  unfold link_ref in H; simpl in H; rewrite !length_entry_ref in H; lia.
Qed.

Lemma list_ref_injective (a b : address) : list_ref a = list_ref b -> a = b.
Proof.
  revert b; induction a as [|i a IH]; intros [|j b]; simpl; intros H;
    try discriminate; [reflexivity|].
  injection H as -> H; rewrite (IH b H); reflexivity.
Qed.

Lemma link_ref_injective (a b : address) : link_ref a = link_ref b -> a = b.
Proof.
  unfold link_ref; intros H; injection H as H.
  destruct a as [|i a], b as [|j b]; simpl in H; try discriminate;
    [reflexivity|].
  injection H as -> H; rewrite (list_ref_injective a b H); reflexivity.
Qed.

(** Uniqueness of the active entry, read off the Items of the page. *)
Lemma only_active_link (classes : list string) (m : menu) (a0 : address) :
  (forall x, In x (links_from m 0 [0]) ->
             classList_contains (page classes m) x "is-active" = true ->
             x = link_ref a0) ->
  forall a e, lookup_entry m a = Some e -> is_active e = true -> a = a0.
Proof.
  intros H a e Ha He; apply link_ref_injective, H.
  - apply (link_is_item m a e Ha).
  - rewrite (link_is_active (page classes m) classes m eq_refl a e Ha).
    exact He.
Qed.

(** [o], a reference spelled out, is not among links that lie below another
    branch. *)
Ltac not_below H :=
  let pre := fresh "pre" in
  let j := fresh "j" in
  let E := fresh "E" in
  let L := fresh "L" in
  apply links_from_below in H;
  destruct H as (pre & j & E & L);
  apply (f_equal (@rev nat)) in E;
  rewrite rev_app_distr in E; simpl in E;
  first [ discriminate E
        | injection E; intros; subst; lia ].

Lemma tabIndex_of_attribute (d : document) (e : ref) (v : string) (z : Z) :
  getAttribute d e "tabindex" = Some v -> tabindex_value v = Some z ->
  tabIndex d e = z.
Proof.
  intros Hv Hz; unfold tabIndex, tabindex_attribute; rewrite Hv, Hz.
  reflexivity.
Qed.

Section ActivePath.

Variables (classes : list string) (m : menu).
Variables (i j k : nat) (e1 e2 e3 : entry).
Hypothesis H1 : lookup_entry m [i] = Some e1.
Hypothesis H2 : lookup_entry m [j; i] = Some e2.
Hypothesis H3 : lookup_entry m [k; j; i] = Some e3.

Lemma active_path_groups :
  exists es1 es2,
    nth_error m i = Some e1 /\ group_of e1 = Some es1 /\
    nth_error es1 j = Some e2 /\ group_of e2 = Some es2 /\
    nth_error es2 k = Some e3.
Proof.
  pose proof H1 as A1; pose proof H2 as A2; pose proof H3 as A3.
  simpl in A1, A2, A3; rewrite A1 in A2, A3.
  destruct (group_of e1) as [es1|]; [|discriminate].
  rewrite A2 in A3.
  destruct (group_of e2) as [es2|]; [|discriminate].
  exists es1, es2; auto.
Qed.

(** The Items in document order, cut at the active one. *)
Lemma active_path_items :
  exists l1 l2,
    links_from m 0 [0] = l1 ++ link_ref [k; j; i] :: l2 /\
    In (link_ref [i]) l1 /\ In (link_ref [j; i]) l1 /\
    ~ In (link_ref [i]) l2 /\ ~ In (link_ref [j; i]) l2 /\
    ~ In (link_ref [k; j; i]) l2.
Proof.
  destruct active_path_groups as (es1 & es2 & N1 & G1 & N2 & G2 & N3).
  destruct e1 as [lb1 c1 t1 g1], e2 as [lb2 c2 t2 g2], e3 as [lb3 c3 t3 g3].
  simpl in G1, G2; subst g1 g2.
  rewrite (links_from_split m i _ 0 [0] N1), links_unfold.
  rewrite (links_from_split es1 j _ 0 _ N2), links_unfold.
  rewrite (links_from_split es2 k _ 0 _ N3), links_unfold.
  simpl Nat.add.
  set (A := links_from (firstn i m) 0 [0]).
  set (B := links_from (skipn (S i) m) (S i) [0]).
  set (A' := links_from (firstn j es1) 0 [1; i; 0]).
  set (B' := links_from (skipn (S j) es1) (S j) [1; i; 0]).
  set (A'' := links_from (firstn k es2) 0 [1; j; 1; i; 0]).
  set (B'' := links_from (skipn (S k) es2) (S k) [1; j; 1; i; 0]).
  set (G := match g3 with
            | Some es => links_from es 0 [1; k; 1; j; 1; i; 0]
            | None => []
            end).
  exists (A ++ [0; i; 0] :: A' ++ [0; j; 1; i; 0] :: A''),
         (G ++ B'' ++ B' ++ B).
  assert (HG : forall o, In o G ->
                         exists pre n, o = pre ++ n :: [1; k; 1; j; 1; i; 0]).
  { intros o Ho; unfold G in Ho; destruct g3 as [es|]; [|destruct Ho].
    apply links_from_below in Ho; destruct Ho as (pre & n & E & _); eauto. }
  assert (HnG : forall o, List.length o <= 7 -> ~ In o G).
  { intros o Hlen Ho; destruct (HG o Ho) as (pre & n & ->).
    rewrite length_app in Hlen; simpl in Hlen; lia. }
  split; [|split; [|split; [|split; [|split]]]].
  - unfold link_ref, entry_ref, list_ref.
    repeat (rewrite <- ?app_assoc, <- ?app_comm_cons); reflexivity.
  - apply in_or_app; right; left; reflexivity.
  - apply in_or_app; right; right; apply in_or_app; right; left; reflexivity.
  - unfold link_ref, entry_ref, list_ref; intros H.
    apply in_app_or in H; destruct H as [H | H];
      [apply HnG in H; [exact H | simpl; lia]|].
    apply in_app_or in H; destruct H as [H | H]; [not_below H|].
    apply in_app_or in H; destruct H as [H | H]; [not_below H | not_below H].
  - unfold link_ref, entry_ref, list_ref; intros H.
    apply in_app_or in H; destruct H as [H | H];
      [apply HnG in H; [exact H | simpl; lia]|].
    apply in_app_or in H; destruct H as [H | H]; [not_below H|].
    apply in_app_or in H; destruct H as [H | H]; [not_below H | not_below H].
  - unfold link_ref, entry_ref, list_ref; intros H.
    apply in_app_or in H; destruct H as [H | H];
      [apply HnG in H; [exact H | simpl; lia]|].
    apply in_app_or in H; destruct H as [H | H]; [not_below H|].
    apply in_app_or in H; destruct H as [H | H]; [not_below H | not_below H].
Qed.

End ActivePath.

Section ActiveOwners.

Variables (classes : list string) (m : menu).
Variables (i j k : nat) (e3 : entry).
Hypothesis H3 : lookup_entry m [k; j; i] = Some e3.
Hypothesis Hactive : is_active e3 = true.
Hypothesis Honly :
  forall a e, lookup_entry m a = Some e -> is_active e = true -> a = [k; j; i].

(** An owner above the active Item ends expanded. *)
Lemma active_path_expanded_in (d : document) (a : address) (e : entry)
      (pre : ref) :
  root d = container classes m ->
  lookup_entry m a = Some e -> group_of e <> None ->
  link_ref [k; j; i] = pre ++ entry_ref a -> pre <> [] ->
  link_ref a <> link_ref [k; j; i] ->
  (forall l1 l2,
      links_from m 0 [0] = l1 ++ link_ref [k; j; i] :: l2 ->
      In (link_ref a) l1 /\ ~ In (link_ref a) l2 /\
      ~ In (link_ref [k; j; i]) l2 ->
      getAttribute
        (adjustLinkAttributes
           {| treeNode := [0]; treeItems := l1 ++ link_ref [k; j; i] :: l2;
              subMenus := querySelectorAll (page classes m) [0] sel_sub_menu |}
           d)
        (link_ref a) "aria-expanded" = Some "true").
Proof.
  intros Hr Ha Hg Hpre Hne Hoa l1 l2 Hitems (Hin & Hout & Haout).
  apply adjustLinkAttributes_owner.
  - exact Hin.
  - rewrite (next_of_link d classes m Hr a e Ha).
    destruct (group_of e); [discriminate | contradiction].
  - rewrite (link_is_active d classes m Hr _ _ H3); exact Hactive.
  - exact Hoa.
  - exists pre, (entry_ref a); repeat split; auto.
    + apply (entry_is_menu_item d classes m Hr a e Ha).
    + apply (first_anchor d classes m Hr a e Ha).
  - intros x Hx; split; [|intros ->; contradiction].
    assert (Hxi : In x (links_from m 0 [0])).
    { rewrite Hitems; apply in_or_app; right; right; exact Hx. }
    destruct (item_is_link m x Hxi) as (a' & e' & -> & Ha').
    rewrite (link_is_active d classes m Hr a' e' Ha').
    destruct (is_active e') eqn:E; [|reflexivity].
    rewrite (Honly a' e' Ha' E) in Hx; contradiction.
Qed.

End ActiveOwners.

(** ** Traversal at the boundaries of the tree *)

Lemma last_entry_cons (A : Type) (x : A) (l : list A) :
  last_entry (x :: l) = match l with [] => Some x | _ => last_entry l end.
Proof.
  destruct l as [|y l]; [reflexivity|].
  unfold last_entry; simpl; rewrite Nat.sub_0_r; reflexivity.
Qed.

Lemma last_entry_app (A : Type) (l1 l2 : list A) :
  l2 <> [] -> last_entry (l1 ++ l2) = last_entry l2.
Proof.
  intros H; induction l1 as [|x l1 IH]; [reflexivity|].
  simpl app; rewrite last_entry_cons, IH.
  destruct (l1 ++ l2) eqn:E; [|reflexivity].
  apply app_eq_nil in E; destruct E; contradiction.
Qed.

(** When no traversal rule applies, [setFocusToNextTreeItem] does
    nothing. *)
Lemma setFocusToNextTreeItem_stays (d : document) (x entry : ref) :
  parentNode x = Some entry ->
  nextElementSibling d entry = None ->
  (isExpanded d x = true ->
   exists g, nextElementSibling d x = Some g /\
             querySelectorAll d g sel_group_items = []) ->
  (isExpanded d x = false ->
   exists list owner,
     closest d x [Tag "ul"] = Some list /\ parentNode list = Some owner /\
     nextElementSibling d owner = None) ->
  setFocusToNextTreeItem x d = Ok tt d.
Proof.
  intros Hp Hn Hexp Hcol.
  unfold setFocusToNextTreeItem, andM, notM, truthy, fetch, bind, read,
    nonNull, ret, throw.
  rewrite Hp; cbv beta iota.
  destruct (isExpanded d x) eqn:E.
  - destruct (Hexp eq_refl) as (g & Hg & Hq).
    repeat (progress (cbv beta iota; rewrite ?E, ?Hg, ?Hq; simpl)).
    reflexivity.
  - destruct (Hcol eq_refl) as (list & owner & Hc & Ho & Hno).
    repeat (progress (cbv beta iota; rewrite ?E, ?Hn, ?Hc, ?Ho, ?Hno; simpl)).
    reflexivity.
Qed.

(** Likewise for [setFocusToPreviousTreeItem]. *)
Lemma setFocusToPreviousTreeItem_stays (d : document) (x entry list : ref) :
  parentNode x = Some entry ->
  previousElementSibling d entry = None ->
  parentNode entry = Some list ->
  previousElementSibling d list = None ->
  setFocusToPreviousTreeItem x d = Ok tt d.
Proof.
  intros Hp Hn Hl Hln.
  unfold setFocusToPreviousTreeItem, andM, notM, truthy, fetch, bind, read,
    nonNull, ret, throw.
  repeat (progress (cbv beta iota; rewrite ?Hp, ?Hn, ?Hl, ?Hln; simpl)).
  reflexivity.
Qed.

Lemma closest_here (d : document) (e : ref) (c : compound) :
  matches_compound d e c = true -> closest d e c = Some e.
Proof. intros H; destruct e; simpl; rewrite H; reflexivity. Qed.

Lemma closest_up (d : document) (i : nat) (p : ref) (c : compound) :
  matches_compound d (i :: p) c = false -> closest d (i :: p) c = closest d p c.
Proof. intros H; simpl; rewrite H; reflexivity. Qed.

Lemma is_not_tag (d : document) (e : ref) (t t' : string) :
  tagName d e = Some t -> String.eqb t t' = false ->
  matches_compound d e [Tag t'] = false.
Proof.
  intros Ht Hne; unfold matches_compound, matches_simple, forallb.
  rewrite Ht; simpl; rewrite Hne; reflexivity.
Qed.

Section LastLink.

Variables (d : document) (classes : list string) (m : menu).
Hypothesis Hroot : root d = container classes m.
Hypothesis Hleaf :
  forall a e, lookup_entry m a = Some e -> group_of e = None ->
              isExpanded d (link_ref a) = false.

Lemma tag_of_link (a : address) (e : entry) :
  lookup_entry m a = Some e -> tagName d (link_ref a) = Some "a".
Proof.
  intros H; unfold tagName.
  rewrite (node_at_link d classes m Hroot a e H); reflexivity.
Qed.

Lemma tag_of_entry (a : address) (e : entry) :
  lookup_entry m a = Some e -> tagName d (entry_ref a) = Some "li".
Proof.
  intros H; unfold tagName.
  rewrite (node_at_entry d classes m Hroot a e H); destruct e; reflexivity.
Qed.

(** The closest list of a link is the list holding its entry. *)
Lemma closest_list (i : nat) (a : address) (e : entry) :
  lookup_entry m (i :: a) = Some e ->
  closest d (link_ref (i :: a)) [Tag "ul"] = Some (list_ref a).
Proof.
  intros H.
  assert (Hes : exists es, entries_under m a = Some es).
  { simpl in H; destruct (entries_under m a) as [es|];
      [eauto | discriminate]. }
  destruct Hes as [es Hes].
  destruct (node_at_list d classes m Hroot a es Hes) as [cs Hn].
  change (link_ref (i :: a)) with (0 :: entry_ref (i :: a)).
  rewrite closest_up
    by (apply (is_not_tag d (link_ref (i :: a)) "a" "ul");
        [apply (tag_of_link _ _ H) | reflexivity]).
  change (entry_ref (i :: a)) with (i :: list_ref a).
  rewrite closest_up
    by (apply (is_not_tag d (entry_ref (i :: a)) "li" "ul");
        [apply (tag_of_entry _ _ H) | reflexivity]).
  apply closest_here.
  unfold matches_compound, matches_simple, forallb, tagName.
  rewrite Hn; reflexivity.
Qed.

Lemma parent_of_list (a : address) :
  parentNode (list_ref a) = Some (entry_ref a).
Proof. destruct a; reflexivity. Qed.

(** The entry at the end of its list has no next element sibling. *)
Lemma last_has_no_next (a : address) (es : menu) :
  entries_under m a = Some es ->
  nextElementSibling d (List.length es - 1 :: list_ref a) = None.
Proof.
  intros H; destruct (node_at_list d classes m Hroot a es H) as [cs Hn].
  unfold nextElementSibling, childNodes; rewrite Hn; simpl children_of.
  rewrite skipn_all2; [reflexivity|].
  rewrite length_map; lia.
Qed.

Lemma links_nonempty (e : entry) (r : ref) : links e r <> [].
Proof. destruct e; rewrite links_unfold; discriminate. Qed.

Lemma last_of_links_from (es : menu) (l : ref) :
  es <> [] ->
  exists e, nth_error es (List.length es - 1) = Some e /\
            last_entry (links_from es 0 l)
            = last_entry (links e (List.length es - 1 :: l)).
Proof.
  intros Hne.
  destruct (nth_error es (List.length es - 1)) as [e|] eqn:E.
  - exists e; split; [reflexivity|].
    rewrite (links_from_split es _ e 0 l E), skipn_all2, app_nil_r
      by lia.
    apply last_entry_app, links_nonempty.
  - apply nth_error_None in E; destruct es; [contradiction | simpl in E; lia].
Qed.

Lemma last_stays_all (e : entry) : last_stays d m e.
Proof.
  induction e as [lb c t g IH] using entry_induction.
  intros a Ha Hlast Hup x Hx.
  destruct a as [|i a]; [discriminate|].
  rewrite links_unfold, last_entry_cons in Hx.
  assert (Hself : (isExpanded d (link_ref (i :: a)) = true ->
                   exists g', nextElementSibling d (link_ref (i :: a)) = Some g'
                              /\ querySelectorAll d g' sel_group_items = []) ->
                  setFocusToNextTreeItem (link_ref (i :: a)) d = Ok tt d).
  { intros Hexp.
    apply (setFocusToNextTreeItem_stays d _ (entry_ref (i :: a)));
      [reflexivity | exact Hlast | exact Hexp |].
    intros _; exists (list_ref a), (entry_ref a); repeat split.
    - apply (closest_list i a _ Ha).
    - apply parent_of_list.
    - exact Hup. }
  destruct g as [[|e' es]|].
  - (* an empty Group *)
    simpl in Hx; injection Hx as <-; apply Hself; intros _.
    rewrite (next_of_link d classes m Hroot _ _ Ha); simpl group_of.
    eexists; split; [reflexivity|].
    unfold querySelectorAll, descendants.
    rewrite (node_at_group d classes m Hroot _ _ [] Ha eq_refl); reflexivity.
  - (* the last Item lies in the Group *)
    assert (Hne : e' :: es <> []) by discriminate.
    destruct (last_of_links_from (e' :: es) (1 :: entry_ref (i :: a)) Hne)
      as (en & Hn & Hl).
    destruct (links_from (e' :: es) 0 (1 :: entry_ref (i :: a))) eqn:E.
    { exfalso; simpl in E; apply app_eq_nil in E; destruct E as [E _].
      exact (links_nonempty _ _ E). }
    rewrite Hl in Hx.
    rewrite Forall_forall in IH.
    apply (IH en (nth_error_In _ _ Hn)
              (List.length (e' :: es) - 1 :: i :: a)); [| | exact Hlast | exact Hx].
    + change (lookup_entry m (List.length (e' :: es) - 1 :: i :: a))
        with (match entries_under m (i :: a) with
              | Some es0 => nth_error es0 (List.length (e' :: es) - 1)
              | None => None
              end).
      rewrite (entries_under_lookup m (i :: a) _ Ha); exact Hn.
    + apply (last_has_no_next (i :: a) (e' :: es)).
      rewrite (entries_under_lookup m (i :: a) _ Ha); reflexivity.
  - (* no Group *)
    injection Hx as <-; apply Hself; intros Hexp.
    rewrite (Hleaf _ _ Ha eq_refl) in Hexp; discriminate.
Qed.

(** The last Item of the menu. *)
Lemma last_item_stays (x : ref) :
  last_entry (links_from m 0 [0]) = Some x ->
  setFocusToNextTreeItem x d = Ok tt d.
Proof.
  intros Hx.
  assert (Hne : m <> []) by (intros E; rewrite E in Hx; discriminate).
  destruct (last_of_links_from m [0] Hne) as (en & Hn & Hl).
  rewrite Hl in Hx.
  apply (last_stays_all en [List.length m - 1]); [exact Hn | | reflexivity | exact Hx].
  apply (last_has_no_next [] m); reflexivity.
Qed.

End LastLink.

(** The first Item of any list has nothing before it, and neither has
    the root list in its container. *)
Lemma first_item_stays (d : document) :
  setFocusToPreviousTreeItem [0; 0; 0] d = Ok tt d.
Proof.
  apply (setFocusToPreviousTreeItem_stays d [0; 0; 0] [0; 0] [0]);
    reflexivity.
Qed.

(** In a menu tree where only Items followed by a Group are
    expanded, [setFocusToPreviousTreeItem] on the first Item and
    [setFocusToNextTreeItem] on the last Item return normally and leave
    the page exactly as it was. *)
Lemma boundary_traversals_stay_in
        (classes : list string) (m : menu) (d : document) (first last : ref) :
  root d = container classes m ->
  (forall x, In x (querySelectorAll d [0] sel_menu_link) ->
             isExpanded d x = true -> nextElementSibling d x <> None) ->
  hd_error (querySelectorAll d [0] sel_menu_link) = Some first ->
  last_entry (querySelectorAll d [0] sel_menu_link) = Some last ->
  setFocusToPreviousTreeItem first d = Ok tt d /\
  setFocusToNextTreeItem last d = Ok tt d.
Proof.
  intros Hroot Hinv; rewrite (treeItems_found d classes m Hroot) in *.
  intros Hfirst Hlast; split.
  - destruct m as [|[lb c t g] m']; [discriminate|].
    change (links_from (Entry lb c t g :: m') 0 [0])
      with (links (Entry lb c t g) [0; 0] ++ links_from m' 1 [0]) in Hfirst.
    rewrite links_unfold in Hfirst.
    injection Hfirst as <-; apply first_item_stays.
  - apply (last_item_stays d classes m Hroot); [|exact Hlast].
    intros a e Ha Hg.
    destruct (isExpanded d (link_ref a)) eqn:E; [|reflexivity].
    exfalso; apply (Hinv (link_ref a)); [apply (link_is_item m a e Ha) | exact E|].
    rewrite (next_of_link d classes m Hroot a e Ha), Hg; reflexivity.
Qed.

(** ** The traversal rules that move focus *)

(** Rule 1 of the forward traversal: into the Group of an expanded Item. *)
Lemma setFocusToNextTreeItem_enters
      (d : document) (x g first : ref) (rest : list ref) :
  isExpanded d x = true ->
  nextElementSibling d x = Some g ->
  querySelectorAll d g sel_group_items = first :: rest ->
  setFocusToNextTreeItem x d = Ok tt (focus first d).
Proof.
  intros E Hg Hq.
  unfold setFocusToNextTreeItem, setFocusToTreeItem, andM, notM, truthy,
    fetch, bind, read, modify, nonNull, ret, throw.
  repeat (progress (cbv beta iota; rewrite ?E, ?Hg, ?Hq; simpl)).
  reflexivity.
Qed.

(** Rule 2 of the backward traversal: from a first entry up to the
    owner of its list. *)
Lemma setFocusToPreviousTreeItem_climbs
      (d : document) (x entry list owner : ref) :
  parentNode x = Some entry ->
  previousElementSibling d entry = None ->
  parentNode entry = Some list ->
  previousElementSibling d list = Some owner ->
  setFocusToPreviousTreeItem x d = Ok tt (focus owner d).
Proof.
  intros Hp Hn Hl Ho.
  unfold setFocusToPreviousTreeItem, setFocusToTreeItem, andM, notM, truthy,
    fetch, bind, read, modify, nonNull, ret, throw.
  repeat (progress (cbv beta iota; rewrite ?Hp, ?Hn, ?Hl, ?Ho; simpl)).
  reflexivity.
Qed.

Lemma onKeydown_ArrowRight (this : instance) (x : ref) (d : document) :
  onKeydown this (press "ArrowRight" x) d
  = bind (onArrowRight x) (fun _ => ret true) d.
Proof. reflexivity. Qed.

Lemma onKeydown_ArrowLeft (this : instance) (x : ref) (d : document) :
  onKeydown this (press "ArrowLeft" x) d
  = bind (onArrowLeft x) (fun _ => ret true) d.
Proof. reflexivity. Qed.

Lemma focusable_frame (d d' : document) (e : ref) :
  handler_frame d d' -> focusable d' e = focusable d e.
Proof.
  intros (Hr & _ & Ha & _).
  unfold focusable, tabindex_attribute, focusable_by_default, hasAttribute,
    tagName, node_at.
  rewrite Hr, !Ha by (simpl; discriminate).
  reflexivity.
Qed.

Lemma activeElement_focus (d : document) (e : ref) :
  focusable d e = true -> activeElement (focus e d) = Some e.
Proof. intros H; unfold focus; rewrite H; reflexivity. Qed.

Lemma onArrowRight_expands (x : ref) (d : document) :
  isExpandable d x = true -> isExpanded d x = false ->
  onArrowRight x d = Ok tt (setAttribute x "aria-expanded" "true" d).
Proof.
  intros Hx He; unfold onArrowRight, bind, read, modify, expandTreeItem.
  repeat (progress (cbv beta iota; rewrite ?Hx, ?He; simpl)).
  reflexivity.
Qed.

Lemma onArrowRight_moves (x : ref) (d : document) :
  isExpandable d x = true -> isExpanded d x = true ->
  onArrowRight x d = setFocusToNextTreeItem x d.
Proof.
  intros Hx He; unfold onArrowRight, bind, read.
  repeat (progress (cbv beta iota; rewrite ?Hx, ?He)).
  destruct (setFocusToNextTreeItem x d); reflexivity.
Qed.

Lemma onArrowLeft_moves (x : ref) (d : document) :
  isExpanded d x = false ->
  onArrowLeft x d = setFocusToPreviousTreeItem x d.
Proof.
  intros He; unfold onArrowLeft, bind, read.
  repeat (progress (cbv beta iota; rewrite ?He)).
  destruct (setFocusToPreviousTreeItem x d); reflexivity.
Qed.

Section GroupItems.

Variables (d : document) (classes : list string) (m : menu).
Hypothesis Hroot : root d = container classes m.

(** The Group of an entry comes right after the entry's link. *)
Lemma previous_of_group (a : address) (e : entry) :
  lookup_entry m a = Some e ->
  previousElementSibling d (1 :: entry_ref a) = Some (link_ref a).
Proof.
  intros H; unfold previousElementSibling, childNodes.
  rewrite (node_at_entry d classes m Hroot a e H), children_of_item.
  reflexivity.
Qed.

(** The first child of a Group, once marked as a tree item, heads the
    Items of the Group. *)
Lemma first_group_item (i : nat) (a : address) (e e' : entry) (es : menu) :
  lookup_entry m (i :: a) = Some e -> group_of e = Some (e' :: es) ->
  getAttribute d (link_ref (0 :: i :: a)) "aria-role" = Some "tree-item" ->
  exists rest,
    querySelectorAll d (list_ref (i :: a)) sel_group_items
    = link_ref (0 :: i :: a) :: rest.
Proof.
  intros He Hg Hrole.
  assert (He' : lookup_entry m (0 :: i :: a) = Some e').
  { change (lookup_entry m (0 :: i :: a))
      with (match entries_under m (i :: a) with
            | Some es0 => nth_error es0 0
            | None => None
            end).
    rewrite (entries_under_lookup m (i :: a) e He), Hg; reflexivity. }
  set (L := list_ref (i :: a)).
  assert (HL : node_at d L
               = Some (Element "ul" ["menu"] (map item (e' :: es))))
    by apply (node_at_group d classes m Hroot (i :: a) e _ He Hg).
  assert (Hx : matches d L sel_group_items (0 :: L) = false).
  { cbn [matches matches_chain rev app sel_group_items].
    rewrite (is_not_tag d L "ul" "li");
      [rewrite andb_false_r; reflexivity | | reflexivity].
    unfold tagName; rewrite HL; reflexivity. }
  assert (Hy : matches d L sel_group_items (link_ref (0 :: i :: a)) = true).
  { change (link_ref (0 :: i :: a)) with (0 :: 0 :: L).
    cbn [matches matches_chain rev app sel_group_items].
    rewrite ref_eqb_refl, andb_true_r.
    apply andb_true_iff; split.
    - unfold matches_compound, tree_item, matches_simple, forallb.
      change (0 :: 0 :: L) with (link_ref (0 :: i :: a)).
      rewrite (tag_of_link d classes m Hroot _ _ He'), Hrole; reflexivity.
    - unfold matches_compound, matches_simple, forallb.
      change (0 :: L) with (entry_ref (0 :: i :: a)).
      rewrite (tag_of_entry d classes m Hroot _ _ He'); reflexivity. }
  unfold querySelectorAll, descendants; rewrite HL, walk_unfold.
  destruct e' as [lb c t g].
  change (map item (Entry lb c t g :: es))
    with (item (Entry lb c t g) :: map item es).
  rewrite item_unfold.
  change (walk_kids (Element "li" ["menu-item"] ?ks :: ?R) 0 L)
    with (((0 :: L) :: walk (Element "li" ["menu-item"] ks) (0 :: L))
            ++ walk_kids R 1 L).
  rewrite walk_unfold.
  change (walk_kids (link lb c t :: ?G) 0 (0 :: L))
    with (((0 :: 0 :: L) :: walk (link lb c t) (0 :: 0 :: L))
            ++ walk_kids G 1 (0 :: L)).
  eexists.
  rewrite <- !app_comm_cons.
  rewrite filter_drop by exact Hx.
  rewrite filter_keep by exact Hy.
  reflexivity.
Qed.

End GroupItems.

(** ** Scenario B *)


(** ** Root-level Items and the visible-items query *)

(** Every root-level Item is reported hidden: the root list has no
    element before it in its container. *)
Lemma root_items_reported_hidden
      (d : document) (classes : list string) (m : menu) (i : nat) (e : entry) :
  root d = container classes m ->
  lookup_entry m [i] = Some e ->
  isVisible (link_ref [i]) d = Ok false d.
Proof.
  intros Hroot He.
  destruct (isVisible_spec (link_ref [i]) d) as [[Hc _] | [_ ->]].
  - rewrite (closest_list d classes m Hroot i [] e He) in Hc; discriminate.
  - unfold ownerOf.
    rewrite (closest_list d classes m Hroot i [] e He); reflexivity.
Qed.

(** C1: the code at a page of two root-level Items.  [isVisible] answers
    false for a root-level Item, [getVisibleTreeItems] returns no Item at
    all, and the End key, which focuses the last visible Item, throws. *)
Theorem root_items_not_visible :
  isVisible (link_ref [0]) (ready flat) = Ok false (ready flat) /\
  isVisible (link_ref [1]) (ready flat) = Ok false (ready flat) /\
  getVisibleTreeItems (view flat) (ready flat) = Ok [] (ready flat) /\
  onKeydown (view flat) (press "End" (link_ref [0])) (ready flat)
  = Throw TypeError (ready flat).
Proof.
  split; [vm_compute; reflexivity|].
  split; [vm_compute; reflexivity|].
  split; vm_compute; reflexivity.
Qed.

(** ** The element tree after the triggers are attached *)

Lemma update_nth_map (A B : Type) (f : A -> B) (g : B -> B) (g' : A -> A)
      (i : nat) (l : list A) :
  (forall x, g (f x) = f (g' x)) ->
  update_nth i g (map f l) = map f (update_nth i g' l).
Proof.
  intros H; revert i; induction l as [|x l IH]; intros [|i]; simpl;
    try reflexivity.
  - rewrite H; reflexivity.
  - rewrite IH; reflexivity.
Qed.

Lemma grow_link (l : string) (c : list string) (t : nat) :
  grow (link l c t) = link l c (S t).
Proof.
  unfold link, grow; rewrite <- app_comm_cons, <- repeat_cons; reflexivity.
Qed.

Lemma stem_snoc (fa : list nat) (k : nat) :
  fa <> [] -> stem (fa ++ [k]) = stem fa ++ [1; k].
Proof.
  induction fa as [|i fa IH]; intros H; [contradiction|].
  destruct fa as [|j fa]; [reflexivity|].
  change (stem ((i :: j :: fa) ++ [k]))
    with (i :: 1 :: stem ((j :: fa) ++ [k])).
  rewrite IH by discriminate; reflexivity.
Qed.

Lemma rev_entry_ref (a : address) :
  a <> [] -> rev (entry_ref a) = 0 :: stem (rev a).
Proof.
  induction a as [|k a IH]; intros H; [contradiction|].
  destruct a as [|j a]; [reflexivity|].
  change (entry_ref (k :: j :: a)) with (k :: 1 :: entry_ref (j :: a)).
  change (rev (k :: 1 :: entry_ref (j :: a)))
    with ((rev (entry_ref (j :: a)) ++ [1]) ++ [k]).
  rewrite IH by discriminate.
  change (rev (k :: j :: a)) with (rev (j :: a) ++ [k]).
  rewrite stem_snoc, <- app_assoc; [reflexivity|].
  simpl; intros E; apply app_eq_nil in E; destruct E; discriminate.
Qed.

Lemma alter_cons (i : nat) (p : list nat) (f : node -> node) (t : string)
      (cs : list string) (ks : list node) :
  alter (i :: p) f (Element t cs ks)
  = Element t cs (update_nth i (alter p f) ks).
Proof. reflexivity. Qed.

(** Appending a trigger below a list of entries. *)
Lemma alter_list (fa : list nat) :
  fa <> [] ->
  forall (cs : list string) (es : list entry),
    alter (stem fa ++ [0]) grow (Element "ul" cs (map item es))
    = Element "ul" cs (map item (add_trigger fa es)).
Proof.
  induction fa as [|i fa IH]; intros H cs es; [contradiction|].
  destruct fa as [|j fa].
  - change (stem [i] ++ [0]) with [i; 0].
    rewrite alter_cons; f_equal; apply update_nth_map.
    intros [l c t g]; rewrite !item_unfold, alter_cons.
    change (update_nth 0 (alter [] grow) (link l c t :: ?G))
      with (grow (link l c t) :: G).
    rewrite grow_link; reflexivity.
  - change (stem (i :: j :: fa) ++ [0])
      with (i :: 1 :: (stem (j :: fa) ++ [0])).
    change (add_trigger (i :: j :: fa) es)
      with (update_nth i
              (fun e =>
                 match e with
                 | Entry l c t g =>
                     Entry l c t
                           match g with
                           | Some es' => Some (add_trigger (j :: fa) es')
                           | None => None
                           end
                 end) es).
    rewrite alter_cons; f_equal; apply update_nth_map.
    intros [l c t [es'|]]; rewrite !item_unfold, alter_cons;
      [|reflexivity].
    change (update_nth 1 ?f [link l c t; ?u]) with [link l c t; f u].
    rewrite (IH ltac:(discriminate)); reflexivity.
Qed.

Lemma root_appendChild (d : document) (classes : list string) (m : menu)
      (a : address) :
  root d = container classes m -> a <> [] ->
  root (appendChild (link_ref a) trigger d)
  = container classes (add_trigger (rev a) m).
Proof.
  intros Hroot Ha; unfold appendChild; simpl root.
  change (fun n : node =>
            match n with
            | Element t cs ks => Element t cs (ks ++ [d_node trigger])
            | Text _ => n
            end) with grow.
  change (rev (link_ref a)) with (rev (entry_ref a) ++ [0]).
  rewrite (rev_entry_ref a Ha), Hroot.
  unfold container, root_list.
  change ((0 :: stem (rev a)) ++ [0]) with (0 :: (stem (rev a) ++ [0])).
  rewrite alter_cons.
  change (update_nth 0 ?f [?u]) with [f u].
  rewrite (alter_list (rev a)); [reflexivity|].
  intros E; apply (f_equal (@rev nat)) in E; rewrite rev_involutive in E.
  exact (Ha E).
Qed.

(** ** Menus up to their triggers *)

Lemma shape_unfold (l : string) (c : list string) (t : nat) (g : option menu) :
  shape (Entry l c t g) =
  Entry l c 0 match g with
              | Some es => Some (map shape es)
              | None => None
              end.
Proof. reflexivity. Qed.

Lemma group_of_shape (e : entry) :
  group_of (shape e) = option_map (map shape) (group_of e).
Proof. destruct e as [l c t [es|]]; reflexivity. Qed.

Lemma links_from_pointwise (es es' : list entry) :
  Forall2 (fun e e' => forall r, links e r = links e' r) es es' ->
  forall i l, links_from es i l = links_from es' i l.
Proof.
  induction 1 as [|e e' es es' He _ IH]; intros i l; simpl; [reflexivity|].
  rewrite He, IH; reflexivity.
Qed.

Lemma links_shape (e : entry) : forall r, links (shape e) r = links e r.
Proof.
  induction e as [lb c t g IH] using entry_induction; intros r.
  rewrite shape_unfold, !links_unfold; f_equal.
  destruct g as [es|]; [|reflexivity].
  apply links_from_pointwise.
  induction IH as [|e es He _ IHes]; simpl; constructor; auto.
Qed.

Lemma links_from_shape (es : list entry) (i : nat) (l : ref) :
  links_from (map shape es) i l = links_from es i l.
Proof.
  apply links_from_pointwise.
  induction es as [|e es IH]; simpl; constructor; auto.
  apply links_shape.
Qed.

Lemma entries_under_shape (m : menu) (a : address) :
  entries_under (map shape m) a = option_map (map shape) (entries_under m a).
Proof.
  induction a as [|i a IH]; simpl; [reflexivity|].
  rewrite IH; destruct (entries_under m a) as [es|]; simpl; [|reflexivity].
  rewrite nth_error_map; destruct (nth_error es i) as [e|]; simpl;
    [apply group_of_shape | reflexivity].
Qed.

Lemma lookup_entry_shape (m : menu) (a : address) :
  lookup_entry (map shape m) a = option_map shape (lookup_entry m a).
Proof.
  destruct a as [|i a]; simpl; [reflexivity|].
  rewrite entries_under_shape; destruct (entries_under m a) as [es|]; simpl;
    [apply nth_error_map | reflexivity].
Qed.

(** Menus of one shape have their Groups at the same addresses. *)
Lemma same_shape_group (m m' : menu) (a : address) (e : entry) :
  map shape m' = map shape m ->
  lookup_entry m a = Some e ->
  exists e', lookup_entry m' a = Some e' /\
             (group_of e' = None <-> group_of e = None).
Proof.
  intros Hs Ha.
  pose proof (lookup_entry_shape m' a) as H'.
  rewrite Hs, lookup_entry_shape, Ha in H'; simpl in H'.
  destruct (lookup_entry m' a) as [e'|]; [|discriminate].
  exists e'; split; [reflexivity|].
  injection H' as H'; apply (f_equal group_of) in H'.
  rewrite !group_of_shape in H'.
  destruct (group_of e), (group_of e'); simpl in H'; try discriminate;
    split; auto; discriminate.
Qed.

Lemma same_shape_links (m m' : menu) :
  map shape m' = map shape m -> links_from m' 0 [0] = links_from m 0 [0].
Proof.
  intros Hs; rewrite <- (links_from_shape m'), Hs; apply links_from_shape.
Qed.

Lemma update_nth_shape (i : nat) (g : entry -> entry) (es : list entry) :
  (forall e, shape (g e) = shape e) ->
  map shape (update_nth i g es) = map shape es.
Proof.
  intros H; revert i; induction es as [|e es IH]; intros [|i]; simpl;
    try reflexivity.
  - rewrite H; reflexivity.
  - rewrite IH; reflexivity.
Qed.

Lemma add_trigger_shape (fa : list nat) :
  forall es, map shape (add_trigger fa es) = map shape es.
Proof.
  induction fa as [|i fa IH]; intros es; [reflexivity|].
  simpl; apply update_nth_shape; intros [l c t g].
  destruct fa as [|j fa]; [reflexivity|].
  rewrite !shape_unfold; destruct g as [es'|]; [|reflexivity].
  rewrite IH; reflexivity.
Qed.

(** ** The menu tree is kept *)

Lemma tree_kept_refl (classes : list string) (m : menu) (d : document) :
  tree_kept classes m d d.
Proof. intros H; exact H. Qed.

Lemma tree_kept_trans (classes : list string) (m : menu) (a b c : document) :
  tree_kept classes m a b -> tree_kept classes m b c -> tree_kept classes m a c.
Proof. intros H1 H2 H; exact (H2 (H1 H)). Qed.

Lemma tree_kept_same_root (classes : list string) (m : menu) (d d' : document) :
  root d' = root d -> tree_kept classes m d d'.
Proof. intros Hr (m' & H & Hs); exists m'; rewrite Hr; auto. Qed.

Lemma tree_kept_appendChild (classes : list string) (m : menu) (x : ref)
      (d : document) :
  In x (links_from m 0 [0]) ->
  tree_kept classes m d (appendChild x trigger d).
Proof.
  intros Hx (m' & Hr & Hs).
  rewrite <- (same_shape_links m m' Hs) in Hx.
  destruct (item_is_link m' x Hx) as (a & e & -> & Ha).
  assert (Hne : a <> []) by (intros ->; discriminate).
  exists (add_trigger (rev a) m'); split.
  - apply root_appendChild; assumption.
  - rewrite add_trigger_shape; exact Hs.
Qed.

Ltac tree_kept_tac :=
  keeps_tac
    ltac:(first [exact (tree_kept_refl _ _) | exact (tree_kept_trans _ _)])
    ltac:(first [ apply tree_kept_appendChild; assumption
                | apply tree_kept_same_root;
                  first [apply root_adjustLinkAttributes | reflexivity] ]).

Lemma tree_kept_initializeTreeViews (classes : list string) (m : menu)
      (this : instance) :
  treeItems this = links_from m 0 [0] ->
  keeps (tree_kept classes m) (initializeTreeViews this).
Proof.
  intros Hitems.
  unfold initializeTreeViews, adjustSubMenuAttributes, attachTriggers,
    getGroupNode.
  rewrite Hitems; tree_kept_tac.
Qed.

(** After setup the element tree is still the menu, up to the triggers
    put into its links. *)
Lemma attached_menu_tree (classes : list string) (m : menu) :
  menu_tree classes m (attached (page classes m)).
Proof.
  rewrite attached_page.
  apply (tree_kept_initializeTreeViews classes m (menu_view classes m) eq_refl).
  exists m; split; reflexivity.
Qed.

(** ** Pages reached by interaction *)

Lemma handler_frame_interactions (this : instance) (l : list interaction)
      (d : document) :
  handler_frame d (interactions this l d).
Proof.
  unfold interactions; revert d; induction l as [|i l IH]; intros d; simpl.
  - apply handler_frame_refl.
  - eapply handler_frame_trans; [|apply IH].
    destruct i; [apply keeps_onKeydown | apply keeps_onTriggerClick].
Qed.

Section Reached.

Variables (classes : list string) (m : menu) (l : list interaction).

Local Abbreviation d :=
  (interactions (menu_view classes m) l (attached (page classes m))).

Lemma reached_menu_tree : menu_tree classes m d.
Proof.
  destruct (attached_menu_tree classes m) as (m' & Hr & Hs).
  exists m'; split; [|exact Hs].
  rewrite <- Hr; apply (handler_frame_interactions _ l _).
Qed.

(** Only the Items that setup found a Group behind carry
    [aria-expanded]. *)
Lemma reached_expandable (a : address) (e : entry) :
  lookup_entry m a = Some e ->
  isExpandable d (link_ref a) = true <-> group_of e <> None.
Proof.
  intros Ha; rewrite <- (setup_expandable classes m a e Ha).
  unfold isExpandable, d.
  destruct (handler_frame_interactions (menu_view classes m) l
              (attached (page classes m))) as (_ & _ & _ & Hx).
  rewrite Hx; reflexivity.
Qed.

Lemma reached_expanded_has_group (x : ref) :
  In x (links_from m 0 [0]) ->
  isExpanded d x = true -> nextElementSibling d x <> None.
Proof.
  intros Hx He.
  destruct (item_is_link m x Hx) as (a & e & -> & Ha).
  assert (Hg : group_of e <> None).
  { apply (reached_expandable a e Ha).
    unfold isExpandable, hasAttribute; unfold isExpanded in He.
    destruct (getAttribute d (link_ref a) "aria-expanded");
      [reflexivity | discriminate]. }
  destruct reached_menu_tree as (m' & Hr & Hs).
  destruct (same_shape_group m m' a e Hs Ha) as (e' & Ha' & Hg').
  rewrite (next_of_link d classes m' Hr a e' Ha').
  destruct (group_of e'); [discriminate | tauto].
Qed.

End Reached.

(** ** The role of an Item *)

Lemma role_frame_refl (lists : list ref) (d : document) :
  role_frame lists d d.
Proof. intros e _; reflexivity. Qed.

Lemma role_frame_trans (lists : list ref) (a b c : document) :
  role_frame lists a b -> role_frame lists b c -> role_frame lists a c.
Proof. intros H1 H2 e He; rewrite (H2 e He); apply (H1 e He). Qed.

Lemma role_frame_setAttribute (lists : list ref) (e : ref) (n v : string)
      (d : document) :
  JsString.toLowerCase n <> "aria-role" ->
  role_frame lists d (setAttribute e n v d).
Proof.
  intros Hn x _; rewrite getAttribute_setAttribute.
  change (JsString.toLowerCase "aria-role") with "aria-role".
  destruct (String.eqb_spec "aria-role" (JsString.toLowerCase n));
    [congruence | rewrite andb_false_r; reflexivity].
Qed.

Lemma role_frame_list (lists : list ref) (e : ref) (n v : string)
      (d : document) :
  In e lists -> role_frame lists d (setAttribute e n v d).
Proof.
  intros He x Hx; rewrite getAttribute_setAttribute.
  destruct (ref_eqb x e) eqn:E; [|reflexivity].
  apply ref_eqb_eq in E; subst x; contradiction.
Qed.

Lemma role_frame_addEventListener (lists : list ref) (e : ref)
      (type handler : string) (d : document) :
  role_frame lists d (addEventListener e type handler d).
Proof. intros x _; reflexivity. Qed.

Lemma role_frame_appendChild (lists : list ref) (x : ref) (d : document) :
  role_frame lists d (appendChild x trigger d).
Proof.
  intros e _; unfold getAttribute, appendChild; simpl.
  rewrite andb_false_r; reflexivity.
Qed.

Ltac role_frame_tac :=
  keeps_tac
    ltac:(first [exact (role_frame_refl _) | exact (role_frame_trans _)])
    ltac:(first [ apply role_frame_setAttribute; simpl; discriminate
                | apply role_frame_list; assumption
                | apply role_frame_addEventListener
                | apply role_frame_appendChild ]).

Lemma initializeTreeViews_roles (this : instance) (d : document) :
  role_frame (subMenus this)
             (adjustLinkAttributes
                this (setAttribute (treeNode this) "role" "tree" d))
             (final (initializeTreeViews this d)).
Proof.
  unfold initializeTreeViews.
  change (final ((modify (setAttribute (treeNode this) "role" "tree") ;;
                  modify (adjustLinkAttributes this) ;; ?k) d))
    with (final (k (adjustLinkAttributes
                      this (setAttribute (treeNode this) "role" "tree" d)))).
  generalize (adjustLinkAttributes
                this (setAttribute (treeNode this) "role" "tree" d)).
  change (keeps (role_frame (subMenus this))
                (adjustSubMenuAttributes this ;;
                 attachTriggers this ;;
                 forEach (fun item =>
                            modify (addEventListener item "keydown" "onKeydown"))
                         (treeItems this))).
  unfold adjustSubMenuAttributes, attachTriggers, getGroupNode.
  role_frame_tac.
Qed.

Lemma adjustLink_role (x e : ref) (d : document) :
  getAttribute (adjustLink x d) e "aria-role" =
  if ref_eqb e x then Some "tree-item" else getAttribute d e "aria-role".
Proof.
  rewrite adjustLink_eq; cbv zeta.
  assert (H : getAttribute
                (if classList_contains d x "is-active"
                 then updateActiveTree x (current x (marked x d))
                 else marked x d) e "aria-role"
              = if ref_eqb e x then Some "tree-item"
                else getAttribute d e "aria-role").
  { destruct (classList_contains d x "is-active").
    - destruct (handler_frame_updateActiveTree x (current x (marked x d)))
        as (_ & _ & Hx & _).
      rewrite Hx by (simpl; discriminate).
      unfold current, marked; rewrite !getAttribute_setAttribute.
      destruct (ref_eqb e x); reflexivity.
    - unfold marked; rewrite !getAttribute_setAttribute.
      destruct (ref_eqb e x); reflexivity. }
  destruct (nextElementSibling d x); [|exact H].
  unfold owning; rewrite !getAttribute_setAttribute.
  destruct (ref_eqb e x); simpl; exact H.
Qed.

Lemma adjustLinkAttributes_role (this : instance) (e : ref) (d : document) :
  In e (treeItems this) ->
  getAttribute (adjustLinkAttributes this d) e "aria-role" = Some "tree-item".
Proof.
  unfold adjustLinkAttributes; generalize (treeItems this) as items.
  intros items; revert d.
  assert (G : forall (l : list ref) d,
             getAttribute d e "aria-role" = Some "tree-item" ->
             getAttribute (fold_left (fun d item => adjustLink item d) l d)
                          e "aria-role" = Some "tree-item").
  { induction l as [|x l IH]; intros d H; simpl; [exact H|].
    apply IH; rewrite adjustLink_role.
    destruct (ref_eqb e x); [reflexivity | exact H]. }
  induction items as [|x l IH]; intros d H; [destruct H|].
  destruct H as [<- | H]; simpl.
  - apply G; rewrite adjustLink_role, ref_eqb_refl; reflexivity.
  - apply IH; exact H.
Qed.

(** ** Items after setup *)

Section Attached.

Variables (classes : list string) (m : menu) (a : address) (e : entry).
Hypothesis Ha : lookup_entry m a = Some e.

Lemma link_is_no_list :
  ~ In (link_ref a) (subMenus (menu_view classes m)).
Proof.
  unfold menu_view, subMenus, querySelectorAll; intros H.
  apply filter_In in H; destruct H as [_ H].
  unfold matches, sel_sub_menu, matches_compound, forallb, matches_simple
    in H.
  rewrite (tag_of_link (page classes m) classes m eq_refl a e Ha) in H.
  simpl in H; discriminate.
Qed.

Lemma attached_role :
  getAttribute (attached (page classes m)) (link_ref a) "aria-role"
  = Some "tree-item".
Proof.
  rewrite attached_page.
  rewrite (initializeTreeViews_roles (menu_view classes m) (page classes m)
             (link_ref a) link_is_no_list).
  apply adjustLinkAttributes_role, (link_is_item m a e Ha).
Qed.

Lemma attached_tabindex :
  getAttribute (attached (page classes m)) (link_ref a) "tabindex"
  = Some (if is_active e then "0" else "-1").
Proof.
  set (d1 := setAttribute [0] "role" "tree" (page classes m)).
  assert (Hr : root d1 = container classes m) by reflexivity.
  assert (Hd2 : getAttribute (adjustLinkAttributes (menu_view classes m) d1)
                             (link_ref a) "tabindex"
                = Some (if is_active e then "0" else "-1")).
  { unfold menu_view; rewrite adjustLinkAttributes_tabindex.
    rewrite (link_is_active d1 classes m Hr a e Ha).
    replace (existsb (ref_eqb (link_ref a)) (links_from m 0 [0])) with true;
      [reflexivity|].
    symmetry; apply existsb_exists; exists (link_ref a); split;
      [apply (link_is_item m a e Ha) | apply ref_eqb_refl]. }
  destruct (proj2 (attached_frame classes m) (link_ref a))
    as [T | [_ (x & n & Hxin & Hxe)]].
  - rewrite T; exact Hd2.
  - destruct (item_is_link m x Hxin) as (a' & e' & -> & _).
    injection Hxe as _ Hxe.
    exfalso; apply (link_ref_not_entry_ref a' a); symmetry; exact Hxe.
Qed.

Lemma attached_tag :
  tagName (attached (page classes m)) (link_ref a) = Some "a".
Proof.
  destruct (attached_menu_tree classes m) as (m' & Hr & Hs).
  destruct (same_shape_group m m' a e Hs Ha) as (e' & Ha' & _).
  apply (tag_of_link _ classes m' Hr a e' Ha').
Qed.

Lemma attached_focusable :
  focusable (attached (page classes m)) (link_ref a) = true.
Proof.
  unfold focusable, tabindex_attribute.
  rewrite attached_tag, attached_tabindex.
  destruct (is_active e); reflexivity.
Qed.

End Attached.

(** ** Items on the pages reached by interaction *)

Lemma same_shape_lookup (m m' : menu) (a : address) (e : entry) :
  map shape m' = map shape m ->
  lookup_entry m a = Some e ->
  exists e', lookup_entry m' a = Some e' /\ shape e' = shape e.
Proof.
  intros Hs Ha.
  pose proof (lookup_entry_shape m' a) as H'.
  rewrite Hs, lookup_entry_shape, Ha in H'; simpl in H'.
  destruct (lookup_entry m' a) as [e'|]; [|discriminate].
  exists e'; split; [reflexivity|].
  simpl in H'; congruence.
Qed.

Section ReachedItems.

Variables (classes : list string) (m : menu) (l : list interaction).
Variables (a : address) (e : entry).
Hypothesis Ha : lookup_entry m a = Some e.

Local Abbreviation d :=
  (interactions (menu_view classes m) l (attached (page classes m))).

Lemma reached_next :
  group_of e <> None <-> nextElementSibling d (link_ref a) <> None.
Proof.
  destruct (reached_menu_tree classes m l) as (m' & Hr & Hs).
  destruct (same_shape_group m m' a e Hs Ha) as (e' & Ha' & Hg').
  rewrite (next_of_link d classes m' Hr a e' Ha').
  destruct (group_of e'); split; intros H; try tauto; try discriminate.
  intros E; apply Hg' in E; discriminate.
Qed.

Lemma reached_role :
  getAttribute d (link_ref a) "aria-role" = Some "tree-item".
Proof.
  destruct (handler_frame_interactions (menu_view classes m) l
              (attached (page classes m))) as (_ & _ & Hx & _).
  rewrite Hx by (simpl; discriminate).
  apply (attached_role classes m a e Ha).
Qed.

Lemma reached_focusable : focusable d (link_ref a) = true.
Proof.
  rewrite (focusable_frame
             _ _ (link_ref a)
             (handler_frame_interactions (menu_view classes m) l
                                         (attached (page classes m)))).
  apply (attached_focusable classes m a e Ha).
Qed.

End ReachedItems.

(** ** The claims about the page after setup *)

(** On the page of a menu, after setup and after any interactions that
    follow it, an Item carries [aria-expanded] if and only if its entry
    has a Group, and that is if and only if an element follows the Item
    in its entry. *)
Lemma expandable_iff_group
        (classes : list string) (m : menu) (l : list interaction)
        (a : address) (e : entry) :
  lookup_entry m a = Some e ->
  (isExpandable
     (interactions (menu_view classes m) l (attached (page classes m)))
     (link_ref a) = true
   <-> group_of e <> None) /\
  (group_of e <> None
   <-> nextElementSibling
         (interactions (menu_view classes m) l (attached (page classes m)))
         (link_ref a) <> None).
Proof.
  intros Ha; split.
  - apply (reached_expandable classes m l a e Ha).
  - apply (reached_next classes m l a e Ha).
Qed.

Lemma expandable_iff_group_witness :
  (isExpandable
     (interactions (menu_view [] handbook) handbook_session
                   (attached (page [] handbook)))
     (link_ref [1; 1]) = true
   <-> group_of (Entry "Advanced" [] 0
                       (Some [ leaf "Tuning";
                               Entry "Caching" ["is-active"] 0 None ]))
       <> None) /\
  (group_of (Entry "Advanced" [] 0
                   (Some [ leaf "Tuning";
                           Entry "Caching" ["is-active"] 0 None ]))
   <> None
   <-> nextElementSibling
         (interactions (menu_view [] handbook) handbook_session
                       (attached (page [] handbook)))
         (link_ref [1; 1]) <> None).
Proof.
  apply (expandable_iff_group [] handbook handbook_session [1; 1]).
  reflexivity.
Defined.

(** On the page of a menu: when exactly one entry is marked active and
    it lies two levels deep, then after construction the Items owning
    the two Groups above it carry [aria-expanded="true"] and the active
    Item is the only Item with [tabIndex] 0. *)
Lemma active_path_expanded
        (classes : list string) (m : menu) (i j k : nat) (e1 e2 e3 : entry) :
  lookup_entry m [i] = Some e1 ->
  lookup_entry m [j; i] = Some e2 ->
  lookup_entry m [k; j; i] = Some e3 ->
  is_active e3 = true ->
  (forall a e, lookup_entry m a = Some e -> is_active e = true ->
               a = [k; j; i]) ->
  getAttribute (attached (page classes m)) (link_ref [i]) "aria-expanded"
  = Some "true" /\
  getAttribute (attached (page classes m)) (link_ref [j; i]) "aria-expanded"
  = Some "true" /\
  (forall a e, lookup_entry m a = Some e ->
               (tabIndex (attached (page classes m)) (link_ref a) = 0%Z
                <-> a = [k; j; i])).
Proof.
  intros H1 H2 H3 Hactive Honly.
  set (d1 := setAttribute [0] "role" "tree" (page classes m)).
  assert (Hr : root d1 = container classes m) by reflexivity.
  destruct (attached_frame classes m) as [Hx _]; fold d1 in Hx.
  destruct (active_path_groups m i j k e1 e2 e3 H1 H2 H3)
    as (es1 & es2 & _ & G1 & _ & G2 & _).
  destruct (active_path_items m i j k e1 e2 e3 H1 H2 H3)
    as (l1 & l2 & Hitems & In1 & In2 & Out1 & Out2 & Out3).
  split; [|split].
  - rewrite Hx; unfold menu_view; rewrite Hitems.
    apply (active_path_expanded_in classes m i j k e3 H3 Hactive Honly
             d1 [i] e1 [0; k; 1; j; 1]); auto.
    + rewrite G1; discriminate.
    + discriminate.
    + discriminate.
  - rewrite Hx; unfold menu_view; rewrite Hitems.
    apply (active_path_expanded_in classes m i j k e3 H3 Hactive Honly
             d1 [j; i] e2 [0; k; 1]); auto.
    + rewrite G2; discriminate.
    + discriminate.
    + discriminate.
  - intros a e Ha.
    pose proof (attached_tabindex classes m a e Ha) as T.
    destruct (is_active e) eqn:E.
    + rewrite (tabIndex_of_attribute _ _ "0" 0%Z T eq_refl).
      split; [intros _; apply (Honly a e Ha E) | reflexivity].
    + rewrite (tabIndex_of_attribute _ _ "-1" (-1)%Z T eq_refl).
      split; [discriminate|].
      intros ->; rewrite H3 in Ha; injection Ha as <-; congruence.
Qed.

Lemma active_path_expanded_witness :
  getAttribute (attached (page [] handbook)) (link_ref [1]) "aria-expanded"
  = Some "true" /\
  getAttribute (attached (page [] handbook)) (link_ref [1; 1]) "aria-expanded"
  = Some "true" /\
  (forall a e, lookup_entry handbook a = Some e ->
               (tabIndex (attached (page [] handbook)) (link_ref a) = 0%Z
                <-> a = [1; 1; 1])).
Proof.
  apply (active_path_expanded
           [] handbook 1 1 1
           (Entry "Guide" [] 0
                  (Some [ leaf "Basics";
                          Entry "Advanced" [] 0
                                (Some [ leaf "Tuning";
                                        Entry "Caching" ["is-active"] 0
                                              None ]) ]))
           (Entry "Advanced" [] 0
                  (Some [ leaf "Tuning";
                          Entry "Caching" ["is-active"] 0 None ]))
           (Entry "Caching" ["is-active"] 0 None));
    try reflexivity.
  apply (only_active_link []); intros x Hx.
  vm_compute in Hx.
  repeat (destruct Hx as [<- | Hx]; [vm_compute; congruence|]).
  destruct Hx.
Defined.



(** On the page of a menu, whose container holds the root list and
    nothing else, and after any interactions,
    [setFocusToPreviousTreeItem] on the first Item and
    [setFocusToNextTreeItem] on the last Item return normally and leave
    the page exactly as it was. *)
Lemma boundary_traversals_stay
        (classes : list string) (m : menu) (l : list interaction)
        (first last : ref) :
  hd_error (treeItems (menu_view classes m)) = Some first ->
  last_entry (treeItems (menu_view classes m)) = Some last ->
  setFocusToPreviousTreeItem
    first (interactions (menu_view classes m) l (attached (page classes m)))
  = Ok tt (interactions (menu_view classes m) l (attached (page classes m)))
  /\
  setFocusToNextTreeItem
    last (interactions (menu_view classes m) l (attached (page classes m)))
  = Ok tt (interactions (menu_view classes m) l (attached (page classes m))).
Proof.
  intros Hfirst Hlast.
  destruct (reached_menu_tree classes m l) as (m' & Hr & Hs).
  apply (boundary_traversals_stay_in classes m' _ first last Hr).
  - rewrite (treeItems_found _ classes m' Hr), (same_shape_links m m' Hs).
    apply reached_expanded_has_group.
  - rewrite (treeItems_found _ classes m' Hr), (same_shape_links m m' Hs).
    exact Hfirst.
  - rewrite (treeItems_found _ classes m' Hr), (same_shape_links m m' Hs).
    exact Hlast.
Qed.

Lemma boundary_traversals_stay_witness :
  setFocusToPreviousTreeItem
    (link_ref [0])
    (interactions (menu_view [] handbook) handbook_session
                  (attached (page [] handbook)))
  = Ok tt (interactions (menu_view [] handbook) handbook_session
                        (attached (page [] handbook)))
  /\
  setFocusToNextTreeItem
    (link_ref [2])
    (interactions (menu_view [] handbook) handbook_session
                  (attached (page [] handbook)))
  = Ok tt (interactions (menu_view [] handbook) handbook_session
                        (attached (page [] handbook))).
Proof.
  apply (boundary_traversals_stay [] handbook handbook_session);
    vm_compute; reflexivity.
Defined.

(* ================================================================== *)
(** * Further properties of the engine                                *)
(* ================================================================== *)

(** ** The characters of a cleaned identifier *)

Ltac each_character c :=
  destruct c as [[] [] [] [] [] [] [] []]; vm_compute;
  first [reflexivity | discriminate | tauto | intros; discriminate
        | intros; reflexivity].

Lemma lower_is_not_upper (c : ascii) :
  JsString.between 65 90 (JsString.code (JsString.lower c)) = false.
Proof. each_character c. Qed.

Lemma all_chars_weaken (p q : ascii -> bool) (s : string) :
  (forall c, p c = true -> q c = true) ->
  all_chars p s = true -> all_chars q s = true.
Proof.
  intros Hpq; induction s as [|c s IH]; simpl; [reflexivity|].
  rewrite !andb_true_iff; intros [Hc Hs]; auto.
Qed.

Lemma all_chars_toLowerCase (s : string) :
  all_chars (fun c => negb (JsString.between 65 90 (JsString.code c)))
            (JsString.toLowerCase s) = true.
Proof.
  induction s as [|c s IH]; simpl; [reflexivity|].
  rewrite lower_is_not_upper, IH; reflexivity.
Qed.

Lemma all_chars_trimStart (p : ascii -> bool) (s : string) :
  all_chars p s = true -> all_chars p (JsString.trimStart s) = true.
Proof.
  induction s as [|c s IH]; simpl; [reflexivity|].
  destruct (JsString.is_space c); simpl; [|tauto].
  rewrite andb_true_iff; intros [_ Hs]; auto.
Qed.

Lemma all_chars_trimEnd (p : ascii -> bool) (s : string) :
  all_chars p s = true -> all_chars p (JsString.trimEnd s) = true.
Proof.
  induction s as [|c s IH]; simpl; [reflexivity|].
  rewrite andb_true_iff; intros [Hc Hs].
  destruct (JsString.is_space c && JsString.is_empty (JsString.trimEnd s));
    simpl; [reflexivity|].
  rewrite Hc, (IH Hs); reflexivity.
Qed.

Lemma all_chars_remove_all (p q : ascii -> bool) (s : string) :
  all_chars p s = true ->
  all_chars (fun c => p c && negb (q c)) (JsString.remove_all q s) = true.
Proof.
  induction s as [|c s IH]; simpl; [reflexivity|].
  rewrite andb_true_iff; intros [Hc Hs].
  destruct (q c) eqn:Q; simpl; [auto|].
  rewrite Hc, Q, (IH Hs); reflexivity.
Qed.

Lemma all_chars_append (p : ascii -> bool) (s t : string) :
  all_chars p (String.append s t) = all_chars p s && all_chars p t.
Proof.
  induction s as [|c s IH]; simpl; [reflexivity|].
  rewrite IH, andb_assoc; reflexivity.
Qed.

Lemma all_chars_replace_runs (p p' q : ascii -> bool) (r s : string) :
  (forall c, p c = true -> q c = false -> p' c = true) ->
  all_chars p' r = true ->
  all_chars p s = true ->
  forall inside, all_chars p' (JsString.replace_runs q r inside s) = true.
Proof.
  intros Hpq Hr; induction s as [|c s IH]; simpl; [reflexivity|].
  rewrite andb_true_iff; intros [Hc Hs] inside.
  destruct (q c) eqn:Q.
  - destruct inside; [apply (IH Hs)|].
    rewrite all_chars_append, Hr, (IH Hs); reflexivity.
  - simpl; rewrite (Hpq c Hc Q), (IH Hs); reflexivity.
Qed.

Lemma all_chars_drop (p : ascii -> bool) (n : nat) (s : string) :
  all_chars p s = true -> all_chars p (JsString.drop n s) = true.
Proof.
  revert s; induction n as [|n IH]; intros [|c s]; simpl; auto.
  rewrite andb_true_iff; intros [_ Hs]; auto.
Qed.

Lemma replace_first_unfold (pat rep s : string) :
  JsString.replace_first pat rep s =
  if String.prefix pat s
  then String.append rep (JsString.drop (String.length pat) s)
  else match s with
       | EmptyString => EmptyString
       | String c s' => String c (JsString.replace_first pat rep s')
       end.
Proof. destruct s; reflexivity. Qed.

Lemma all_chars_replace_first (p : ascii -> bool) (pat rep s : string) :
  all_chars p rep = true -> all_chars p s = true ->
  all_chars p (JsString.replace_first pat rep s) = true.
Proof.
  intros Hrep; induction s as [|c s IH]; intros Hs;
    rewrite replace_first_unfold; destruct (String.prefix pat _).
  - rewrite all_chars_append, Hrep; apply all_chars_drop; exact Hs.
  - reflexivity.
  - rewrite all_chars_append, Hrep; apply all_chars_drop; exact Hs.
  - simpl in *; apply andb_true_iff in Hs; destruct Hs as [Hc Hs].
    rewrite Hc, (IH Hs); reflexivity.
Qed.

Lemma kept_character_is_id_char (c : ascii) :
  negb (JsString.between 65 90 (JsString.code c))
  && negb (negb (JsString.is_word c || JsString.is_space c
                 || JsString.is_hyphen c)) = true ->
  JsString.is_space c = false -> is_id_char c = true.
Proof. each_character c. Qed.

Lemma id_char_is_name_char (c : ascii) :
  is_id_char c = true -> is_name_char c = true.
Proof. each_character c. Qed.

Lemma id_char_name_start (c : ascii) :
  is_id_char c = true ->
  is_name_start c = negb (is_digit c || JsString.is_hyphen c).
Proof. each_character c. Qed.

Lemma cleanForId_chars (s : string) :
  all_chars is_id_char (cleanForId s) = true.
Proof.
  unfold cleanForId.
  apply all_chars_replace_first; [reflexivity|].
  apply (all_chars_replace_runs is_id_char is_id_char);
    [auto | reflexivity|].
  apply (all_chars_replace_runs
           (fun c =>
              negb (JsString.between 65 90 (JsString.code c))
              && negb (negb (JsString.is_word c || JsString.is_space c
                             || JsString.is_hyphen c)))
           is_id_char);
    [apply kept_character_is_id_char | reflexivity|].
  apply (all_chars_remove_all
           (fun c => negb (JsString.between 65 90 (JsString.code c)))).
  apply all_chars_trimEnd, all_chars_trimStart, all_chars_toLowerCase.
Qed.

(** X1: whatever the text, [cleanForId] returns a string made of
    lower-case letters, digits, underscores and hyphens only. *)
Theorem cleanForId_alphabet (str : string) :
  all_chars is_id_char (cleanForId str) = true.
Proof. apply cleanForId_chars. Qed.

(** ** Looking up the Group of an Item *)

Lemma identifier_of_id_chars (s : string) :
  all_chars is_id_char s = true ->
  is_identifier s = negb (JsString.is_empty s) && negb (starts_like_number s).
Proof.
  intros H; unfold is_identifier.
  rewrite (all_chars_weaken is_id_char is_name_char s id_char_is_name_char H).
  destruct s as [|c s]; [reflexivity|].
  simpl in H; apply andb_true_iff in H; destruct H as [Hc Hs].
  cbn [andb JsString.is_empty negb starts_like_number].
  rewrite (id_char_name_start c Hc).
  destruct (JsString.is_hyphen c) eqn:Y.
  - assert (D : is_digit c = false).
    { clear - Y; revert Y; each_character c. }
    rewrite D, orb_false_l, andb_true_l.
    destruct s as [|c' s]; [reflexivity|].
    simpl in Hs; apply andb_true_iff in Hs; destruct Hs as [Hc' _].
    rewrite (id_char_name_start c' Hc').
    destruct (is_digit c') eqn:D', (JsString.is_hyphen c') eqn:Y';
      try reflexivity.
    exfalso; clear - D' Y'; revert D' Y'; each_character c'.
  - rewrite orb_false_r, andb_false_l, orb_false_r; reflexivity.
Qed.

(** X2: for an Item whose [aria-owns] holds a cleaned text,
    [getGroupNode] returns no Group when that text is empty, throws a
    [SyntaxError] when it begins like a number, and otherwise returns
    the first element of the page carrying it as [id]; the page is not
    changed. *)
Theorem getGroupNode_of_cleaned_text
        (d : document) (treeItem : ref) (text : string) :
  getAttribute d treeItem "aria-owns" = Some (cleanForId text) ->
  getGroupNode treeItem d =
  if JsString.is_empty (cleanForId text) then Ok None d
  else if starts_like_number (cleanForId text) then Throw SyntaxError d
       else Ok (getElementById d (cleanForId text)) d.
Proof.
  intros H; unfold getGroupNode, bind, read; rewrite H.
  rewrite (identifier_of_id_chars _ (cleanForId_chars text)).
  destruct (JsString.is_empty (cleanForId text)); [reflexivity|].
  destruct (starts_like_number (cleanForId text)); reflexivity.
Qed.

Lemma getGroupNode_of_cleaned_text_witness :
  getGroupNode (link_ref [0]) (ready archive) =
  if JsString.is_empty (cleanForId "2024 Reports")
  then Ok None (ready archive)
  else if starts_like_number (cleanForId "2024 Reports")
       then Throw SyntaxError (ready archive)
       else Ok (getElementById (ready archive) (cleanForId "2024 Reports"))
               (ready archive).
Proof.
  apply (getGroupNode_of_cleaned_text (ready archive) (link_ref [0])
                                      "2024 Reports").
  vm_compute; reflexivity.
Defined.

(** ** The visible Items *)

(** X3: [getVisibleTreeItems] leaves the page alone.  When every Item
    has an enclosing list it returns, in the order of [treeItems], the
    Items whose list comes after an expanded element; when some Item has
    no enclosing list it throws a [TypeError]. *)
Theorem getVisibleTreeItems_filters (this : instance) (d : document) :
  ((forall x, In x (treeItems this) -> closest d x [Tag "ul"] <> None) ->
   getVisibleTreeItems this d = Ok (filter (shown d) (treeItems this)) d) /\
  ((exists x, In x (treeItems this) /\ closest d x [Tag "ul"] = None) ->
   getVisibleTreeItems this d = Throw TypeError d).
Proof.
  split; [apply visible_among_total | apply visible_among_throws].
Qed.

Lemma getVisibleTreeItems_filters_witness :
  getVisibleTreeItems (view handbook) handbook_folded
  = Ok (filter (shown handbook_folded) (treeItems (view handbook)))
       handbook_folded.
Proof.
  apply (proj1 (getVisibleTreeItems_filters (view handbook) handbook_folded)).
  assert (E : treeItems (view handbook)
              = [ [0; 0; 0]; [0; 1; 0]; [0; 0; 1; 1; 0]; [0; 1; 1; 1; 0];
                  [0; 0; 1; 1; 1; 1; 0]; [0; 1; 1; 1; 1; 1; 0]; [0; 2; 0] ])
    by (vm_compute; reflexivity).
  rewrite E; intros x Hx.
  repeat (destruct Hx as [<- | Hx]; [vm_compute; discriminate|]).
  destruct Hx.
Defined.

(** ** Keys *)

Lemma key_is_app (event : KeyboardEvent) (a b : list string) :
  key_is event (a ++ b) = key_is event a || key_is event b.
Proof. apply existsb_app. Qed.

(** X6: a key pressed with Alt, Ctrl or Meta is left alone: the page is
    unchanged and the event is not consumed.  Without a modifier the
    handler consumes every event it returns from, and for the space and
    for every key it has no branch for (Tab, Enter, letters, ...) the
    page is unchanged. *)
Theorem onKeydown_consumes (this : instance) (event : KeyboardEvent)
        (d : document) :
  (altKey event || ctrlKey event || metaKey event = true ->
   onKeydown this event d = Ok false d) /\
  (altKey event || ctrlKey event || metaKey event = false ->
   (forall b d', onKeydown this event d = Ok b d' -> b = true) /\
   (key_is event navigation_keys = false ->
    onKeydown this event d = Ok true d)).
Proof.
  unfold onKeydown; split; intros Hm; rewrite Hm; [reflexivity|].
  split.
  - intros b d'; unfold bind at 1.
    match goal with |- match ?c d with _ => _ end = _ -> _ => destruct (c d) end;
      [|discriminate].
    unfold ret; intros H; injection H as <- _; reflexivity.
  - intros Hk.
    change navigation_keys
      with (["Up"; "ArrowUp"] ++ ["Down"; "ArrowDown"]
              ++ ["Right"; "ArrowRight"] ++ ["Left"; "ArrowLeft"]
              ++ ["Home"] ++ ["End"]) in Hk.
    rewrite !key_is_app, !orb_false_iff in Hk.
    destruct Hk as (-> & -> & -> & -> & -> & ->).
    destruct (key_is event [" "]); reflexivity.
Qed.

Lemma onKeydown_consumes_witness :
  onKeydown (view chapters) (press_with_ctrl "ArrowDown" (link_ref [0]))
            (ready chapters)
  = Ok false (ready chapters) /\
  onKeydown (view chapters) (press "Tab" (link_ref [0])) (ready chapters)
  = Ok true (ready chapters).
Proof.
  split.
  - apply (proj1 (onKeydown_consumes
                    (view chapters)
                    (press_with_ctrl "ArrowDown" (link_ref [0]))
                    (ready chapters))).
    reflexivity.
  - apply (proj2 (onKeydown_consumes
                    (view chapters) (press "Tab" (link_ref [0]))
                    (ready chapters)));
      reflexivity.
Defined.

(** ** Clicks on a trigger *)

Lemma onTriggerClick_eq (k : nat) (item : ref) (d : document) :
  onTriggerClick (k :: item) d
  = Ok true (if isExpanded d item then collapseTreeItem item d
             else expandTreeItem item d).
Proof.
  unfold onTriggerClick, bind, nonNull, parentNode, ret, read, modify.
  destruct (isExpanded d item); reflexivity.
Qed.

Lemma expansion_of_value (d : document) (item : ref) (v : string) :
  getAttribute d item "aria-expanded" = Some v ->
  isExpandable d item = true /\ isExpanded d item = String.eqb v "true".
Proof.
  intros H; unfold isExpandable, isExpanded, hasAttribute; rewrite H.
  split; reflexivity.
Qed.

Lemma written_twice (d : document) (item : ref) (v w : string) :
  getAttribute d item "aria-expanded" = Some v ->
  forall e n,
    getAttribute (setAttribute item "aria-expanded" v
                    (setAttribute item "aria-expanded" w d)) e n
    = getAttribute d e n.
Proof.
  intros H e n; rewrite !getAttribute_setAttribute.
  change (JsString.toLowerCase "aria-expanded") with "aria-expanded".
  destruct (ref_eqb e item) eqn:E; [|reflexivity].
  destruct (String.eqb_spec (JsString.toLowerCase n) "aria-expanded")
    as [En|]; [|reflexivity].
  apply ref_eqb_eq in E; subst e.
  unfold getAttribute in *; rewrite En; symmetry; exact H.
Qed.

(** X7: a click on the trigger of an Item whose [aria-expanded] is
    "true" or "false" is consumed and flips that attribute; a second
    click puts every attribute back, and neither click touches the
    element tree, the focus or the listeners.  On an Item without
    [aria-expanded] the click changes nothing. *)
Theorem trigger_click_toggles (d : document) (item : ref) (k : nat) :
  (getAttribute d item "aria-expanded" = Some "true" \/
   getAttribute d item "aria-expanded" = Some "false" ->
   exists d1 d2,
     onTriggerClick (k :: item) d = Ok true d1 /\
     isExpanded d1 item = negb (isExpanded d item) /\
     onTriggerClick (k :: item) d1 = Ok true d2 /\
     (forall e n, getAttribute d2 e n = getAttribute d e n) /\
     root d2 = root d /\ activeElement d2 = activeElement d /\
     listeners d2 = listeners d) /\
  (isExpandable d item = false -> onTriggerClick (k :: item) d = Ok true d).
Proof.
  split.
  - intros [H | H].
    + destruct (expansion_of_value d item _ H) as [X E].
      destruct (expansion_of_value
                  (setAttribute item "aria-expanded" "false" d) item "false"
                  (getAttribute_setAttribute_same d item _ _)) as [X1 E1].
      exists (setAttribute item "aria-expanded" "false" d),
             (setAttribute item "aria-expanded" "true"
                (setAttribute item "aria-expanded" "false" d)).
      rewrite !onTriggerClick_eq, E, E1; simpl.
      unfold collapseTreeItem, expandTreeItem; rewrite X, E, X1, E1; simpl.
      repeat split; apply (written_twice d item "true" "false" H).
    + destruct (expansion_of_value d item _ H) as [X E].
      destruct (expansion_of_value
                  (setAttribute item "aria-expanded" "true" d) item "true"
                  (getAttribute_setAttribute_same d item _ _)) as [X1 E1].
      exists (setAttribute item "aria-expanded" "true" d),
             (setAttribute item "aria-expanded" "false"
                (setAttribute item "aria-expanded" "true" d)).
      rewrite !onTriggerClick_eq, E, E1; simpl.
      unfold collapseTreeItem, expandTreeItem; rewrite X, E, X1, E1; simpl.
      repeat split; apply (written_twice d item "false" "true" H).
  - intros H; rewrite onTriggerClick_eq.
    unfold collapseTreeItem, expandTreeItem; rewrite H; simpl.
    destruct (isExpanded d item); reflexivity.
Qed.

Lemma trigger_click_toggles_witness :
  exists d1 d2,
    onTriggerClick (1 :: link_ref [0]) (ready chapters) = Ok true d1 /\
    isExpanded d1 (link_ref [0])
    = negb (isExpanded (ready chapters) (link_ref [0])) /\
    onTriggerClick (1 :: link_ref [0]) d1 = Ok true d2 /\
    (forall e n, getAttribute d2 e n = getAttribute (ready chapters) e n) /\
    root d2 = root (ready chapters) /\
    activeElement d2 = activeElement (ready chapters) /\
    listeners d2 = listeners (ready chapters).
Proof.
  apply (proj1 (trigger_click_toggles (ready chapters) (link_ref [0]) 1)).
  right; vm_compute; reflexivity.
Defined.

(** ** The End and Home keys *)

Lemma lookup_owner (m : menu) (i j : nat) (a : address) (e : entry) :
  lookup_entry m (i :: j :: a) = Some e ->
  exists e0 es, lookup_entry m (j :: a) = Some e0 /\ group_of e0 = Some es /\
                nth_error es i = Some e.
Proof.
  cbn [lookup_entry entries_under].
  destruct (entries_under m a) as [es|]; [|discriminate].
  destruct (nth_error es j) as [e0|]; [|discriminate].
  destruct (group_of e0) as [es0|] eqn:G; [|discriminate].
  intros H; exists e0, es0; repeat split; assumption.
Qed.

Lemma onKeydown_End (this : instance) (x : ref) (d : document) :
  onKeydown this (press "End" x) d
  = bind (bind (getVisibleTreeItems this)
               (fun visible => setFocusToTreeItem (last_entry visible)))
         (fun _ => ret true) d.
Proof. reflexivity. Qed.

Lemma onKeydown_Home (this : instance) (x : ref) (d : document) :
  onKeydown this (press "Home" x) d
  = bind (setFocusToTreeItem (hd_error (treeItems this)))
         (fun _ => ret true) d.
Proof. reflexivity. Qed.

Section ReachedOwners.

Variables (classes : list string) (m : menu) (l : list interaction).

Local Abbreviation d :=
  (interactions (menu_view classes m) l (attached (page classes m))).

Lemma reached_closest_list (i : nat) (a : address) (e : entry) :
  lookup_entry m (i :: a) = Some e ->
  closest d (link_ref (i :: a)) [Tag "ul"] = Some (list_ref a).
Proof.
  intros H.
  destruct (reached_menu_tree classes m l) as (m' & Hr & Hs).
  destruct (same_shape_lookup m m' _ e Hs H) as (e' & H' & _).
  apply (closest_list d classes m' Hr i a e' H').
Qed.

Lemma reached_owner (i : nat) (a : address) (e : entry) :
  lookup_entry m (i :: a) = Some e ->
  ownerOf d (link_ref (i :: a))
  = match a with [] => None | _ => Some (link_ref a) end.
Proof.
  intros H; unfold ownerOf; rewrite (reached_closest_list i a e H).
  destruct a as [|j a]; [reflexivity|].
  destruct (lookup_owner m i j a e H) as (e0 & es & H0 & _).
  destruct (reached_menu_tree classes m l) as (m' & Hr & Hs).
  destruct (same_shape_lookup m m' _ e0 Hs H0) as (e0' & H0' & _).
  apply (previous_of_group d classes m' Hr (j :: a) e0' H0').
Qed.

Lemma reached_items_enclosed (x : ref) :
  In x (treeItems (menu_view classes m)) -> closest d x [Tag "ul"] <> None.
Proof.
  intros Hx; destruct (item_is_link m x Hx) as ([|i a] & e & -> & Ha);
    [discriminate|].
  rewrite (reached_closest_list i a e Ha); discriminate.
Qed.

End ReachedOwners.

(** X4: on the page built from a menu, after any interactions, an Item
    is reported visible exactly when it is below the root list and the
    Item owning its list is expanded; the End key focuses the last Item
    reported visible, and throws a [TypeError], the page unchanged, when
    there is none. *)
Theorem end_key_focuses_last_shown
        (classes : list string) (m : menu) (l : list interaction) (x : ref) :
  (forall i a e,
      lookup_entry m (i :: a) = Some e ->
      shown (interactions (menu_view classes m) l (attached (page classes m)))
            (link_ref (i :: a))
      = match a with
        | [] => false
        | _ => isExpanded
                 (interactions (menu_view classes m) l
                               (attached (page classes m)))
                 (link_ref a)
        end) /\
  onKeydown (menu_view classes m) (press "End" x)
            (interactions (menu_view classes m) l (attached (page classes m)))
  = match last_entry
            (filter (shown (interactions (menu_view classes m) l
                                         (attached (page classes m))))
                    (treeItems (menu_view classes m))) with
    | Some y =>
        Ok true (focus y (interactions (menu_view classes m) l
                                       (attached (page classes m))))
    | None =>
        Throw TypeError (interactions (menu_view classes m) l
                                      (attached (page classes m)))
    end.
Proof.
  split.
  - intros i a e H; unfold shown.
    rewrite (reached_owner classes m l i a e H).
    destruct a; reflexivity.
  - rewrite onKeydown_End; unfold bind at 1 2.
    unfold getVisibleTreeItems.
    rewrite (visible_among_total _ _ (reached_items_enclosed classes m l)).
    destruct (last_entry _); reflexivity.
Qed.

(** X5: on the page built from a menu that has entries, after any
    interactions, the Home key moves the focus to the first Item of the
    tree, wherever it was pressed. *)
Theorem home_key_focuses_first
        (classes : list string) (m : menu) (l : list interaction) (x : ref) :
  m <> [] ->
  onKeydown (menu_view classes m) (press "Home" x)
            (interactions (menu_view classes m) l (attached (page classes m)))
  = Ok true (focus (link_ref [0])
                   (interactions (menu_view classes m) l
                                 (attached (page classes m)))) /\
  activeElement
    (focus (link_ref [0])
           (interactions (menu_view classes m) l (attached (page classes m))))
  = Some (link_ref [0]).
Proof.
  intros Hm; destruct m as [|[lb c t g] rest]; [contradiction|].
  split.
  - rewrite onKeydown_Home.
    change (treeItems (menu_view classes (Entry lb c t g :: rest)))
      with (links (Entry lb c t g) [0; 0] ++ links_from rest 1 [0]).
    rewrite links_unfold; reflexivity.
  - apply activeElement_focus.
    apply (reached_focusable classes (Entry lb c t g :: rest) l [0]
                             (Entry lb c t g) eq_refl).
Qed.

Lemma home_key_focuses_first_witness :
  onKeydown (menu_view [] chapters) (press "Home" (link_ref [1]))
            (interactions (menu_view [] chapters) chapters_session
                          (attached (page [] chapters)))
  = Ok true (focus (link_ref [0])
                   (interactions (menu_view [] chapters) chapters_session
                                 (attached (page [] chapters)))) /\
  activeElement
    (focus (link_ref [0])
           (interactions (menu_view [] chapters) chapters_session
                         (attached (page [] chapters))))
  = Some (link_ref [0]).
Proof.
  apply (home_key_focuses_first [] chapters chapters_session (link_ref [1])).
  discriminate.
Defined.

(** ** The tab order *)

(** X8: on the page built from a menu, after any interactions, the
    [tabIndex] of an Item is 0 if its entry is marked active and -1
    otherwise: the handlers never move the tab stop, and a menu without
    an active entry has none. *)
Theorem tab_stops_are_active_entries
        (classes : list string) (m : menu) (l : list interaction)
        (a : address) (e : entry) :
  lookup_entry m a = Some e ->
  tabIndex (interactions (menu_view classes m) l (attached (page classes m)))
           (link_ref a)
  = if is_active e then 0%Z else (-1)%Z.
Proof.
  intros Ha.
  rewrite (handler_frame_tabIndex
             _ _ (link_ref a)
             (handler_frame_interactions (menu_view classes m) l
                                         (attached (page classes m)))).
  pose proof (attached_tabindex classes m a e Ha) as T.
  destruct (is_active e).
  - apply (tabIndex_of_attribute _ _ "0" 0%Z T eq_refl).
  - apply (tabIndex_of_attribute _ _ "-1" (-1)%Z T eq_refl).
Qed.

Lemma tab_stops_are_active_entries_witness :
  tabIndex (interactions (menu_view [] handbook) handbook_session
                         (attached (page [] handbook)))
           (link_ref [1; 1; 1])
  = if is_active (Entry "Caching" ["is-active"] 0 None)
    then 0%Z else (-1)%Z.
Proof.
  apply (tab_stops_are_active_entries [] handbook handbook_session
                                      [1; 1; 1]).
  reflexivity.
Defined.

(** ** What depends on the element tree only, continued *)

Lemma previousElementSibling_same_root (d d' : document) (e : ref) :
  root d' = root d ->
  previousElementSibling d' e = previousElementSibling d e.
Proof.
  intros H; destruct e as [|i p]; [reflexivity|].
  unfold previousElementSibling, childNodes.
  rewrite (node_at_same_root d d' p H); reflexivity.
Qed.

Lemma textContent_same_root (d d' : document) (e : ref) :
  root d' = root d -> textContent d' e = textContent d e.
Proof.
  intros H; unfold textContent; rewrite (node_at_same_root d d' e H).
  reflexivity.
Qed.

(** ** Attribute cells *)

Lemma getAttribute_appendChild (x e : ref) (n : string) (d : document) :
  getAttribute (appendChild x trigger d) e n =
  if ref_eqb e (appended_ref d x)
     && String.eqb (JsString.toLowerCase n) "tabindex"
  then Some "-1" else getAttribute d e n.
Proof. reflexivity. Qed.

Section AttributeFrame.

Variable W : ref -> string -> Prop.

Lemma attribute_frame_refl (d : document) : attribute_frame W d d.
Proof. intros e n _; reflexivity. Qed.

Lemma attribute_frame_trans (a b c : document) :
  attribute_frame W a b -> attribute_frame W b c -> attribute_frame W a c.
Proof. intros H1 H2 e n H; rewrite (H2 e n H); apply (H1 e n H). Qed.

Lemma attribute_frame_setAttribute (e : ref) (n v : string) (d : document) :
  W e (JsString.toLowerCase n) ->
  attribute_frame W d (setAttribute e n v d).
Proof.
  intros Hw x n' Hx; rewrite getAttribute_setAttribute.
  destruct (ref_eqb x e) eqn:E; [|reflexivity].
  destruct (String.eqb_spec (JsString.toLowerCase n') (JsString.toLowerCase n))
    as [En|]; [|reflexivity].
  apply ref_eqb_eq in E; subst x; rewrite En in Hx; contradiction.
Qed.

Lemma attribute_frame_addEventListener (e : ref) (type handler : string)
      (d : document) :
  attribute_frame W d (addEventListener e type handler d).
Proof. intros x n _; reflexivity. Qed.

Lemma attribute_frame_appendChild (x : ref) (d : document) :
  W (appended_ref d x) "tabindex" ->
  attribute_frame W d (appendChild x trigger d).
Proof.
  intros Hw e n He; rewrite getAttribute_appendChild.
  destruct (ref_eqb e (appended_ref d x)) eqn:E; [|reflexivity].
  destruct (String.eqb_spec (JsString.toLowerCase n) "tabindex") as [En|];
    [|reflexivity].
  apply ref_eqb_eq in E; subst e; rewrite En in He; contradiction.
Qed.

End AttributeFrame.

Ltac attribute_frame_tac cell :=
  keeps_tac
    ltac:(first [ exact (attribute_frame_refl _)
                | exact (attribute_frame_trans _) ])
    ltac:(first [ apply attribute_frame_setAttribute; cell
                | apply attribute_frame_addEventListener
                | apply attribute_frame_appendChild; cell ]).

Lemma keeps_list_cells (this : instance) :
  keeps (attribute_frame (list_cells (subMenus this)))
        (adjustSubMenuAttributes this).
Proof.
  unfold adjustSubMenuAttributes.
  attribute_frame_tac ltac:(split; [assumption | simpl; auto]).
Qed.

Lemma keeps_trigger_cells (this : instance) :
  keeps (attribute_frame (trigger_cells (treeItems this)))
        (attachTriggers this ;;
         forEach (fun item =>
                    modify (addEventListener item "keydown" "onKeydown"))
                 (treeItems this)).
Proof.
  unfold attachTriggers, getGroupNode.
  attribute_frame_tac
    ltac:(split; [reflexivity
                 | eexists; eexists; split; [eassumption | reflexivity]]).
Qed.

(** ** One round of [adjustLinkAttributes], continued *)

Lemma adjustLink_other (x e : ref) (n : string) (d : document) :
  e <> x -> JsString.toLowerCase n <> "aria-expanded" ->
  getAttribute (adjustLink x d) e n = getAttribute d e n.
Proof.
  intros He Hn; rewrite adjustLink_eq; cbv zeta.
  assert (H : getAttribute
                (if classList_contains d x "is-active"
                 then updateActiveTree x (current x (marked x d))
                 else marked x d) e n
              = getAttribute d e n).
  { destruct (classList_contains d x "is-active").
    - destruct (handler_frame_updateActiveTree x (current x (marked x d)))
        as (_ & _ & Hx & _).
      rewrite (Hx e n Hn); unfold current, marked.
      rewrite !getAttribute_setAttribute_other_element by exact He.
      reflexivity.
    - unfold marked.
      rewrite !getAttribute_setAttribute_other_element by exact He.
      reflexivity. }
  destruct (nextElementSibling d x); [|exact H].
  unfold owning.
  rewrite !getAttribute_setAttribute_other_element by exact He.
  exact H.
Qed.

Lemma adjustLink_owns (x : ref) (d : document) :
  getAttribute (adjustLink x d) x "aria-owns" =
  match owns_value d x with
  | Some v => Some v
  | None => getAttribute d x "aria-owns"
  end.
Proof.
  rewrite adjustLink_eq; cbv zeta; unfold owns_value.
  destruct (nextElementSibling d x); simpl.
  - unfold owning; rewrite !getAttribute_setAttribute, ref_eqb_refl.
    reflexivity.
  - destruct (classList_contains d x "is-active").
    + destruct (handler_frame_updateActiveTree x (current x (marked x d)))
        as (_ & _ & Hx & _).
      rewrite Hx by (simpl; discriminate).
      unfold current, marked; rewrite !getAttribute_setAttribute.
      rewrite ref_eqb_refl; reflexivity.
    + unfold marked; rewrite !getAttribute_setAttribute.
      rewrite ref_eqb_refl; reflexivity.
Qed.

Lemma adjustLink_current (x : ref) (d : document) :
  getAttribute (adjustLink x d) x "aria-current" =
  match current_value d x with
  | Some v => Some v
  | None => getAttribute d x "aria-current"
  end.
Proof.
  rewrite adjustLink_eq; cbv zeta; unfold current_value.
  assert (H : getAttribute
                (if classList_contains d x "is-active"
                 then updateActiveTree x (current x (marked x d))
                 else marked x d) x "aria-current"
              = if classList_contains d x "is-active" then Some "page"
                else getAttribute d x "aria-current").
  { destruct (classList_contains d x "is-active").
    - destruct (handler_frame_updateActiveTree x (current x (marked x d)))
        as (_ & _ & Hx & _).
      rewrite Hx by (simpl; discriminate).
      unfold current, marked; rewrite !getAttribute_setAttribute.
      rewrite ref_eqb_refl; reflexivity.
    - unfold marked; rewrite !getAttribute_setAttribute.
      rewrite ref_eqb_refl; reflexivity. }
  destruct (nextElementSibling d x).
  - unfold owning; rewrite !getAttribute_setAttribute, ref_eqb_refl.
    simpl; rewrite H.
    destruct (classList_contains d x "is-active"); reflexivity.
  - rewrite H; destruct (classList_contains d x "is-active"); reflexivity.
Qed.

(** An attribute written on the Item alone, with a value read off the
    element tree: what it holds after [adjustLinkAttributes]. *)
Lemma adjustLinkAttributes_cell
      (n : string) (F : document -> ref -> option string) :
  JsString.toLowerCase n <> "aria-expanded" ->
  (forall x d, getAttribute (adjustLink x d) x n
               = match F d x with
                 | Some v => Some v
                 | None => getAttribute d x n
                 end) ->
  (forall d d' x, root d' = root d -> F d' x = F d x) ->
  forall (this : instance) (e : ref) (d : document),
    getAttribute (adjustLinkAttributes this d) e n =
    if existsb (ref_eqb e) (treeItems this)
    then match F d e with
         | Some v => Some v
         | None => getAttribute d e n
         end
    else getAttribute d e n.
Proof.
  intros Hn Hat Hroot this e; unfold adjustLinkAttributes.
  generalize (treeItems this) as items.
  induction items as [|x l IH]; intros d; [reflexivity|].
  cbn [fold_left existsb]; rewrite IH.
  rewrite (Hroot d (adjustLink x d) e (root_adjustLink x d)).
  destruct (ref_eqb e x) eqn:E.
  - apply ref_eqb_eq in E; subst x; rewrite Hat; simpl.
    destruct (existsb (ref_eqb e) l), (F d e); reflexivity.
  - assert (He : e <> x) by (intros ->; rewrite ref_eqb_refl in E; discriminate).
    rewrite (adjustLink_other x e n d He Hn); reflexivity.
Qed.

Lemma owns_value_same_root (d d' : document) (x : ref) :
  root d' = root d -> owns_value d' x = owns_value d x.
Proof.
  intros H; unfold owns_value.
  rewrite (nextElementSibling_same_root d d' x H),
    (textContent_same_root d d' x H).
  reflexivity.
Qed.

Lemma current_value_same_root (d d' : document) (x : ref) :
  root d' = root d -> current_value d' x = current_value d x.
Proof.
  intros H; unfold current_value.
  rewrite (classList_contains_same_root d d' x _ H); reflexivity.
Qed.

Lemma listeners_adjustLinkAttributes (this : instance) (d : document) :
  listeners (adjustLinkAttributes this d) = listeners d.
Proof.
  unfold adjustLinkAttributes; revert d; generalize (treeItems this) as items.
  induction items as [|x l IH]; intros d; [reflexivity|].
  cbn [fold_left]; rewrite IH, adjustLink_eq; cbv zeta.
  assert (H : listeners
                (if classList_contains d x "is-active"
                 then updateActiveTree x (current x (marked x d))
                 else marked x d) = listeners d).
  { destruct (classList_contains d x "is-active"); [|reflexivity].
    apply (proj1 (proj2 (handler_frame_updateActiveTree
                           x (current x (marked x d))))). }
  destruct (nextElementSibling d x); exact H.
Qed.

(** ** Descendants *)

Lemma walk_kids_member (ks : list node) (j : nat) (p x : ref) :
  In x (walk_kids ks j p) <->
  exists i k, nth_error ks i = Some k /\ is_element k = true /\
              (x = j + i :: p \/ In x (walk k (j + i :: p))).
Proof.
  revert j; induction ks as [|k ks IH]; intros j.
  - split; [intros [] | intros ([|i] & k & H & _); discriminate].
  - cbn [walk_kids]; rewrite in_app_iff, IH; split.
    + intros [H | (i & k' & Hi & Hk & H)].
      * exists 0, k; rewrite Nat.add_0_r.
        destruct (is_element k); [|destruct H].
        repeat split; destruct H as [<- | H]; auto.
      * exists (S i), k'; rewrite Nat.add_succ_r; auto.
    + intros ([|i] & k' & Hi & Hk & H); simpl in Hi.
      * injection Hi as <-; rewrite Nat.add_0_r in H; rewrite Hk.
        left; destruct H as [-> | H]; [left | right]; auto.
      * right; exists i, k'; rewrite Nat.add_succ_r in H; auto.
Qed.

Lemma descend_cons (i : nat) (fp : list nat) (n : node) :
  descend (i :: fp) n =
  match nth_error (children_of n) i with
  | Some k => descend fp k
  | None => None
  end.
Proof. reflexivity. Qed.

Lemma descend_text (fp : list nat) (s : string) (k : node) :
  descend fp (Text s) = Some k -> k = Text s.
Proof.
  destruct fp as [|i fp]; simpl; [congruence|].
  destruct i; discriminate.
Qed.

(** The elements below a node are those its child indices lead to. *)
Lemma walk_member (n : node) :
  forall (p x : ref),
    In x (walk n p) <->
    exists fp k, fp <> [] /\ x = rev fp ++ p /\ descend fp n = Some k /\
                 is_element k = true.
Proof.
  induction n as [s | t c ks IH] using node_induction; intros p x.
  - split; [intros [] | intros ([|i fp] & k & Hne & _ & Hd & Hk)];
      [contradiction|].
    apply descend_text in Hd; subst k; discriminate.
  - rewrite walk_unfold, walk_kids_member; rewrite Forall_forall in IH.
    split.
    + intros (i & k & Hi & Hk & [-> | H]).
      * exists [i], k; repeat split; [discriminate | simpl; rewrite Hi | exact Hk].
        reflexivity.
      * apply (IH k (nth_error_In _ _ Hi)) in H.
        destruct H as (fp & k' & Hne & -> & Hd & Hk').
        exists (i :: fp), k'; repeat split; [discriminate | | | exact Hk'].
        -- simpl; rewrite <- app_assoc; reflexivity.
        -- rewrite descend_cons; simpl; rewrite Hi; exact Hd.
    + intros ([|i fp] & k' & Hne & -> & Hd & Hk'); [contradiction|].
      rewrite descend_cons in Hd; simpl in Hd.
      destruct (nth_error ks i) as [k|] eqn:Hi; [|discriminate].
      destruct fp as [|j fp].
      * simpl in Hd; injection Hd as <-.
        exists i, k; repeat split; auto.
      * assert (Hk : is_element k = true).
        { destruct k as [s|]; [|reflexivity].
          apply descend_text in Hd; subst k'; discriminate. }
        exists i, k; repeat split; [exact Hi | exact Hk|].
        right; apply (IH k (nth_error_In _ _ Hi)).
        exists (j :: fp), k'; repeat split; [discriminate | | exact Hd | exact Hk'].
        simpl; rewrite <- !app_assoc; reflexivity.
Qed.

Lemma node_at_below (d : document) (scope : ref) (fp : list nat) :
  node_at d (rev fp ++ scope) =
  match node_at d scope with
  | Some n => descend fp n
  | None => None
  end.
Proof.
  unfold node_at; rewrite rev_app_distr, rev_involutive.
  apply descend_app.
Qed.

(** The descendants of [scope]: the elements strictly below it. *)
Lemma descendant_member (d : document) (scope x : ref) :
  In x (descendants d scope) <->
  exists fp k, fp <> [] /\ x = rev fp ++ scope /\ node_at d x = Some k /\
               is_element k = true.
Proof.
  unfold descendants.
  destruct (node_at d scope) as [n|] eqn:Hn.
  - rewrite walk_member; split;
      intros (fp & k & Hne & -> & Hd & Hk); exists fp, k; repeat split; auto.
    + rewrite node_at_below, Hn; exact Hd.
    + rewrite node_at_below, Hn in Hd; exact Hd.
  - split; [intros [] | intros (fp & k & _ & -> & Hd & _)].
    rewrite node_at_below, Hn in Hd; discriminate.
Qed.

(** ** The nested lists of a menu *)

Lemma descend_trigger (fp : list nat) (cs : list string) (ks : list node) :
  descend fp (d_node trigger) = Some (Element "ul" cs ks) -> False.
Proof.
  destruct fp as [|i fp]; [discriminate|].
  rewrite descend_cons; simpl.
  destruct i as [|[|i]]; simpl; try discriminate.
  intros H; apply descend_text in H; discriminate.
Qed.

Lemma descend_link (fp : list nat) (lb : string) (c : list string) (t : nat)
      (cs : list string) (ks : list node) :
  descend fp (link lb c t) = Some (Element "ul" cs ks) -> False.
Proof.
  destruct fp as [|i fp]; [discriminate|].
  rewrite descend_cons; unfold link; cbn [children_of].
  destruct i as [|i]; cbn [nth_error].
  - intros H; apply descend_text in H; discriminate.
  - destruct (nth_error (repeat (d_node trigger) t) i) as [k|] eqn:E;
      [|discriminate].
    apply nth_error_In, repeat_spec in E; subst k.
    apply descend_trigger.
Qed.

Lemma entry_ref_cons (i : nat) (a : address) :
  entry_ref (i :: a) = i :: list_ref a.
Proof. reflexivity. Qed.

Lemma list_ref_entry_ref (a : address) :
  a <> [] -> list_ref a = 1 :: entry_ref a.
Proof. destruct a; [contradiction | reflexivity]. Qed.

Lemma lookup_child (m : menu) (a : address) (e e' : entry) (es : menu)
      (j : nat) :
  lookup_entry m a = Some e -> group_of e = Some es ->
  nth_error es j = Some e' -> lookup_entry m (j :: a) = Some e'.
Proof.
  intros Ha Hg Hj; cbn [lookup_entry].
  rewrite (entries_under_lookup m a e Ha), Hg; exact Hj.
Qed.

Section MenuLists.

Variable m : menu.

(** A [ul] inside an entry is the Group of an entry. *)
Lemma list_in_entry (e : entry) :
  forall a, lookup_entry m a = Some e ->
  forall fp cs ks,
    descend fp (item e) = Some (Element "ul" cs ks) ->
    exists a' e', rev fp ++ entry_ref a = 1 :: entry_ref a' /\
                  lookup_entry m a' = Some e' /\ group_of e' <> None.
Proof.
  induction e as [lb c t g IH] using entry_induction.
  intros a Ha fp cs ks; rewrite item_unfold.
  destruct fp as [|i fp]; [discriminate|].
  rewrite descend_cons; cbn [children_of].
  destruct i as [|[|i]]; cbn [nth_error].
  - intros H; destruct (descend_link _ _ _ _ _ _ H).
  - destruct g as [es|]; [|discriminate]; cbn [nth_error].
    destruct fp as [|j fp].
    + intros _; exists a, (Entry lb c t (Some es)).
      repeat split; [exact Ha | discriminate].
    + rewrite descend_cons; cbn [children_of]; rewrite nth_error_map.
      destruct (nth_error es j) as [e'|] eqn:Hj; [|discriminate].
      cbn [option_map]; intros H.
      rewrite Forall_forall in IH.
      destruct (IH e' (nth_error_In _ _ Hj) (j :: a)
                   (lookup_child m a _ e' es j Ha eq_refl Hj) fp cs ks H)
        as (a' & e'' & E & Ha' & Hg').
      exists a', e''; repeat split; [|exact Ha' | exact Hg'].
      rewrite <- E.
      assert (Hne : a <> []) by (intros ->; discriminate).
      rewrite entry_ref_cons, (list_ref_entry_ref a Hne).
      simpl; rewrite <- !app_assoc; reflexivity.
  - destruct g as [es|]; destruct i; discriminate.
Qed.

Variables (d : document) (classes : list string).
Hypothesis Hroot : root d = container classes m.

(** The nested lists [querySelectorAll] finds below the root list are
    the Groups of the entries. *)
Lemma sub_menu_is_group (s : ref) :
  In s (querySelectorAll d [0] sel_sub_menu) ->
  exists a e, s = 1 :: entry_ref a /\ lookup_entry m a = Some e /\
              group_of e <> None.
Proof.
  unfold querySelectorAll; rewrite filter_In, descendant_member.
  intros ((fp & k & Hne & -> & Hk & _) & Hm).
  unfold matches, sel_sub_menu, matches_compound, forallb, matches_simple,
    tagName in Hm.
  rewrite Hk in Hm.
  destruct k as [|t cs ks]; [discriminate|].
  apply andb_true_iff in Hm; destruct Hm as [Ht _].
  apply String.eqb_eq in Ht; subst t.
  rewrite node_at_below, (node_at_root_list d classes m Hroot) in Hk.
  destruct fp as [|i fp]; [contradiction|].
  rewrite descend_cons in Hk; unfold root_list in Hk; cbn [children_of] in Hk.
  rewrite nth_error_map in Hk.
  destruct (nth_error m i) as [e|] eqn:Hi; [|discriminate].
  cbn [option_map] in Hk.
  destruct (list_in_entry e [i] Hi fp cs ks Hk) as (a' & e' & E & Ha' & Hg').
  exists a', e'; repeat split; [|exact Ha' | exact Hg'].
  rewrite <- E; simpl; rewrite <- app_assoc; reflexivity.
Qed.

Lemma entry_ref_below_root (a : address) :
  a <> [] -> exists fp, entry_ref a = rev fp ++ [0] /\ fp <> [].
Proof.
  intros Hne; exists (stem (rev a)); split.
  - pose proof (rev_entry_ref a Hne) as H.
    apply (f_equal (@rev nat)) in H; rewrite rev_involutive in H.
    rewrite H; simpl; reflexivity.
  - destruct a as [|i a]; [contradiction|].
    intros H; apply (f_equal (@List.length nat)) in H.
    pose proof (rev_entry_ref (i :: a) Hne) as R.
    apply (f_equal (@List.length nat)) in R.
    rewrite length_rev, length_entry_ref in R; simpl in R, H.
    rewrite H in R; simpl in R; lia.
Qed.

Lemma group_is_sub_menu (a : address) (e : entry) :
  lookup_entry m a = Some e -> group_of e <> None ->
  In (1 :: entry_ref a) (querySelectorAll d [0] sel_sub_menu).
Proof.
  intros Ha Hg.
  destruct (group_of e) as [es|] eqn:G; [|contradiction].
  pose proof (node_at_group d classes m Hroot a e es Ha G) as Hn.
  assert (Hne : a <> []) by (intros ->; discriminate).
  destruct (entry_ref_below_root a Hne) as (fp & E & Hfp).
  unfold querySelectorAll; rewrite filter_In, descendant_member; split.
  - exists (fp ++ [1]), (Element "ul" ["menu"] (map item es)).
    repeat split; [destruct fp; discriminate | | exact Hn].
    rewrite rev_app_distr, E; reflexivity.
  - unfold matches, sel_sub_menu, matches_compound, forallb, matches_simple,
      tagName, classList_contains.
    rewrite Hn; reflexivity.
Qed.

End MenuLists.

(** ** [adjustSubMenuAttributes] *)

Lemma root_adjustSubMenu (s : ref) (d : document) :
  root (adjustSubMenu s d) = root d.
Proof. unfold adjustSubMenu; destruct (previousElementSibling d s); reflexivity. Qed.

Lemma root_adjustSubMenus (subs : list ref) (d : document) :
  root (fold_left (fun d s => adjustSubMenu s d) subs d) = root d.
Proof.
  revert d; induction subs as [|s l IH]; intros d; [reflexivity|].
  cbn [fold_left]; rewrite IH; apply root_adjustSubMenu.
Qed.

(** When every nested list has an element before it,
    [adjustSubMenuAttributes] returns, having labelled each list. *)
Lemma adjustSubMenuAttributes_runs (this : instance) (d : document) :
  (forall s, In s (subMenus this) -> previousElementSibling d s <> None) ->
  adjustSubMenuAttributes this d
  = Ok tt (fold_left (fun d s => adjustSubMenu s d) (subMenus this) d).
Proof.
  unfold adjustSubMenuAttributes; generalize (subMenus this) as subs.
  intros subs; revert d; induction subs as [|s l IH]; intros d H;
    [reflexivity|].
  cbn [forEach fold_left].
  assert (Hs : previousElementSibling d s <> None)
    by (apply H; left; reflexivity).
  unfold adjustSubMenu at 2.
  destruct (previousElementSibling d s) as [p|] eqn:P; [|contradiction].
  unfold bind at 1 2, fetch, bind at 1, read at 1, nonNull, ret at 1.
  rewrite P; unfold bind at 1, read at 1, bind at 1 2, modify at 1 2.
  apply IH; intros s' Hs'.
  rewrite (previousElementSibling_same_root
             d (setAttribute s "id" (cleanForId (textContent d p))
                             (setAttribute s "aria-role" "group" d))
             s' eq_refl).
  apply H; right; exact Hs'.
Qed.

Lemma adjustSubMenu_cells (s e link : ref) (v : string) (d : document) :
  previousElementSibling d e = Some link ->
  cleanForId (textContent d link) = v ->
  (e = s \/
   (getAttribute d e "id" = Some v /\
    getAttribute d e "aria-role" = Some "group")) ->
  getAttribute (adjustSubMenu s d) e "id" = Some v /\
  getAttribute (adjustSubMenu s d) e "aria-role" = Some "group".
Proof.
  intros P V H; unfold adjustSubMenu.
  destruct (ref_eqb e s) eqn:E.
  - apply ref_eqb_eq in E; subst s; rewrite P, V.
    rewrite !getAttribute_setAttribute, ref_eqb_refl; split; reflexivity.
  - assert (He : e <> s) by (intros ->; rewrite ref_eqb_refl in E; discriminate).
    destruct H as [-> | H]; [contradiction|].
    destruct (previousElementSibling d s); [|exact H].
    rewrite !getAttribute_setAttribute_other_element by exact He.
    exact H.
Qed.

Lemma adjustSubMenus_cells (subs : list ref) (e link : ref) (v : string) :
  forall d,
    previousElementSibling d e = Some link ->
    cleanForId (textContent d link) = v ->
    (In e subs \/
     (getAttribute d e "id" = Some v /\
      getAttribute d e "aria-role" = Some "group")) ->
    getAttribute (fold_left (fun d s => adjustSubMenu s d) subs d) e "id"
    = Some v /\
    getAttribute (fold_left (fun d s => adjustSubMenu s d) subs d) e
                 "aria-role" = Some "group".
Proof.
  induction subs as [|s l IH]; intros d P V H; cbn [fold_left].
  - destruct H as [[] | H]; exact H.
  - apply IH.
    + rewrite (previousElementSibling_same_root d _ e (root_adjustSubMenu s d)).
      exact P.
    + rewrite (textContent_same_root d _ link (root_adjustSubMenu s d)).
      exact V.
    + destruct H as [[-> | H] | H].
      * right; apply (adjustSubMenu_cells e e link v d P V); left; reflexivity.
      * left; exact H.
      * right; apply (adjustSubMenu_cells s e link v d P V); right; exact H.
Qed.

(** ** The steps of the setup on a menu *)

Lemma adjustLinkAttributes_untouched (this : instance) (e : ref) (n : string)
      (d : document) :
  ~ In e (treeItems this) -> JsString.toLowerCase n <> "aria-expanded" ->
  getAttribute (adjustLinkAttributes this d) e n = getAttribute d e n.
Proof.
  unfold adjustLinkAttributes; revert d; generalize (treeItems this) as items.
  induction items as [|x l IH]; intros d He Hn; [reflexivity|].
  cbn [fold_left]; rewrite IH; [|intros H; apply He; right; exact H | exact Hn].
  apply adjustLink_other; [|exact Hn].
  intros ->; apply He; left; reflexivity.
Qed.

Section SetupSteps.

Variables (classes : list string) (m : menu).

Local Abbreviation this := (menu_view classes m).
Local Abbreviation d1 := (setAttribute [0] "role" "tree" (page classes m)).
Local Abbreviation d2 := (adjustLinkAttributes (menu_view classes m) d1).

Lemma root_labelled : root (labelled classes m) = container classes m.
Proof.
  unfold labelled; rewrite root_adjustSubMenus, root_adjustLinkAttributes.
  reflexivity.
Qed.

Lemma listeners_labelled : listeners (labelled classes m) = [].
Proof.
  unfold labelled.
  generalize (subMenus this) as subs; intros subs.
  assert (G : forall d, listeners
                          (fold_left (fun d s => adjustSubMenu s d) subs d)
                        = listeners d).
  { induction subs as [|s l IH]; intros d; [reflexivity|].
    cbn [fold_left]; rewrite IH; unfold adjustSubMenu.
    destruct (previousElementSibling d s); reflexivity. }
  rewrite G, listeners_adjustLinkAttributes; reflexivity.
Qed.

Lemma sub_menus_follow_links (s : ref) :
  In s (subMenus this) -> previousElementSibling d2 s <> None.
Proof.
  intros Hs.
  destruct (sub_menu_is_group m (page classes m) classes eq_refl s Hs)
    as (a & e & -> & Ha & _).
  rewrite (previous_of_group d2 classes m (root_adjustLinkAttributes _ _)
                             a e Ha).
  discriminate.
Qed.

(** On the page of a menu the first three steps of the setup return,
    leaving [labelled]. *)
Lemma initializeTreeViews_steps :
  initializeTreeViews this (page classes m)
  = (attachTriggers this ;;
     forEach (fun item => modify (addEventListener item "keydown" "onKeydown"))
             (treeItems this))
      (labelled classes m).
Proof.
  unfold initializeTreeViews.
  change ((modify (setAttribute (treeNode this) "role" "tree") ;;
           modify (adjustLinkAttributes this) ;; ?k) (page classes m))
    with (k d2).
  unfold bind at 1.
  rewrite (adjustSubMenuAttributes_runs this d2 sub_menus_follow_links).
  reflexivity.
Qed.

Lemma constructor_steps :
  constructor (JElement []) (page classes m)
  = ((attachTriggers this ;;
      forEach (fun item => modify (addEventListener item "keydown" "onKeydown"))
              (treeItems this)) ;;
     ret (Some this))
      (labelled classes m).
Proof.
  transitivity (bind (initializeTreeViews this) (fun _ => ret (Some this))
                     (page classes m)).
  - unfold constructor.
    change (negb (String.eqb (typeof (JElement [])) "object")) with false.
    cbv iota; unfold as_element.
    unfold bind at 1, ret at 1.
    unfold bind at 1, fetch, bind at 1, read at 1, nonNull.
    rewrite (root_list_found (page classes m) classes m eq_refl).
    unfold ret at 1.
    unfold bind at 1, read at 1.
    rewrite (treeItems_found (page classes m) classes m eq_refl).
    reflexivity.
  - unfold bind at 1; rewrite initializeTreeViews_steps; reflexivity.
Qed.

Lemma attached_steps :
  attached (page classes m)
  = final ((attachTriggers this ;;
            forEach (fun item =>
                       modify (addEventListener item "keydown" "onKeydown"))
                    (treeItems this))
             (labelled classes m)).
Proof.
  rewrite attached_page, initializeTreeViews_steps; reflexivity.
Qed.

(** An attribute that is no [tabindex] is, after setup, what the first
    three steps left. *)
Lemma attached_attribute (e : ref) (n : string) :
  JsString.toLowerCase n <> "tabindex" ->
  getAttribute (attached (page classes m)) e n
  = getAttribute (labelled classes m) e n.
Proof.
  intros Hn; rewrite attached_steps.
  apply (keeps_trigger_cells this (labelled classes m) e n).
  intros [H _]; contradiction.
Qed.

(** An attribute that the labelling of the nested lists does not write
    is what [adjustLinkAttributes] left. *)
Lemma labelled_attribute (e : ref) (n : string) :
  ~ list_cells (subMenus this) e (JsString.toLowerCase n) ->
  getAttribute (labelled classes m) e n = getAttribute d2 e n.
Proof.
  intros H.
  pose proof (keeps_list_cells this d2 e n H) as K.
  rewrite (adjustSubMenuAttributes_runs this d2 sub_menus_follow_links) in K.
  exact K.
Qed.

End SetupSteps.

(** ** The attributes the setup leaves *)

Lemma fresh_attribute (classes : list string) (m : menu) (e : ref)
      (n : string) :
  JsString.toLowerCase n <> "role" ->
  getAttribute (setAttribute [0] "role" "tree" (page classes m)) e n = None.
Proof.
  intros Hn; rewrite getAttribute_setAttribute.
  change (JsString.toLowerCase "role") with "role".
  destruct (String.eqb_spec (JsString.toLowerCase n) "role");
    [contradiction | rewrite andb_false_r; reflexivity].
Qed.

Section SetupAttributes.

Variables (classes : list string) (m : menu) (a : address) (e : entry).
Hypothesis Ha : lookup_entry m a = Some e.

Local Abbreviation d1 := (setAttribute [0] "role" "tree" (page classes m)).

Lemma link_among_items :
  existsb (ref_eqb (link_ref a)) (treeItems (menu_view classes m)) = true.
Proof.
  apply existsb_exists; exists (link_ref a); split;
    [apply (link_is_item m a e Ha) | apply ref_eqb_refl].
Qed.

Lemma labelled_owns :
  getAttribute (labelled classes m) (link_ref a) "aria-owns"
  = match group_of e with
    | Some _ => Some (cleanForId (textContent (page classes m) (link_ref a)))
    | None => None
    end.
Proof.
  rewrite labelled_attribute
    by (intros [_ [H | H]]; cbv in H; discriminate).
  rewrite (adjustLinkAttributes_cell
             "aria-owns" owns_value ltac:(cbv; discriminate)
             adjustLink_owns owns_value_same_root).
  rewrite link_among_items; unfold owns_value.
  rewrite (next_of_link d1 classes m eq_refl a e Ha).
  destruct (group_of e); cbn [is_some]; [reflexivity|].
  apply fresh_attribute; cbv; discriminate.
Qed.

Lemma labelled_current :
  getAttribute (labelled classes m) (link_ref a) "aria-current"
  = if is_active e then Some "page" else None.
Proof.
  rewrite labelled_attribute
    by (intros [_ [H | H]]; cbv in H; discriminate).
  rewrite (adjustLinkAttributes_cell
             "aria-current" current_value ltac:(cbv; discriminate)
             adjustLink_current current_value_same_root).
  rewrite link_among_items; unfold current_value.
  rewrite (link_is_active d1 classes m eq_refl a e Ha).
  destruct (is_active e); [reflexivity|].
  apply fresh_attribute; cbv; discriminate.
Qed.

Lemma labelled_group :
  group_of e <> None ->
  getAttribute (labelled classes m) (1 :: entry_ref a) "id"
  = Some (cleanForId (textContent (page classes m) (link_ref a))) /\
  getAttribute (labelled classes m) (1 :: entry_ref a) "aria-role"
  = Some "group".
Proof.
  intros Hg; unfold labelled.
  apply (adjustSubMenus_cells _ _ (link_ref a)).
  - apply (previous_of_group
             _ classes m
             (root_adjustLinkAttributes (menu_view classes m) d1) a e Ha).
  - rewrite (textContent_same_root
               d1 _ _ (root_adjustLinkAttributes (menu_view classes m) d1)).
    reflexivity.
  - left; apply (group_is_sub_menu m (page classes m) classes eq_refl a e Ha Hg).
Qed.

End SetupAttributes.

Lemma root_list_is_no_item (m : menu) : ~ In [0] (links_from m 0 [0]).
Proof.
  intros H; destruct (item_is_link m [0] H) as ([|i a] & e & E & Ha);
    discriminate.
Qed.

Lemma labelled_tree (classes : list string) (m : menu) :
  getAttribute (labelled classes m) [0] "role" = Some "tree".
Proof.
  rewrite labelled_attribute
    by (intros [_ [H | H]]; cbv in H; discriminate).
  rewrite adjustLinkAttributes_untouched;
    [reflexivity | apply root_list_is_no_item | cbv; discriminate].
Qed.

(** An attribute other than [tabindex] and [aria-expanded] is, on every
    page reached, what the first three steps of the setup left. *)
Lemma reached_attribute (classes : list string) (m : menu)
      (l : list interaction) (e : ref) (n : string) :
  JsString.toLowerCase n <> "tabindex" ->
  JsString.toLowerCase n <> "aria-expanded" ->
  getAttribute (interactions (menu_view classes m) l
                             (attached (page classes m))) e n
  = getAttribute (labelled classes m) e n.
Proof.
  intros Ht Hx.
  destruct (handler_frame_interactions (menu_view classes m) l
              (attached (page classes m))) as (_ & _ & H & _).
  rewrite (H e n Hx); apply attached_attribute; exact Ht.
Qed.

(** X9: on the page built from a menu, after any interactions, the root
    list has [role="tree"] and every Item has [aria-role="tree-item"],
    [aria-current="page"] exactly when its entry is marked active, and
    [aria-owns], holding the cleaned text the link had before setup,
    exactly when its entry has a Group. *)
Theorem items_are_marked
        (classes : list string) (m : menu) (l : list interaction)
        (a : address) (e : entry) :
  lookup_entry m a = Some e ->
  getAttribute (interactions (menu_view classes m) l
                             (attached (page classes m)))
               [0] "role" = Some "tree" /\
  getAttribute (interactions (menu_view classes m) l
                             (attached (page classes m)))
               (link_ref a) "aria-role" = Some "tree-item" /\
  getAttribute (interactions (menu_view classes m) l
                             (attached (page classes m)))
               (link_ref a) "aria-current"
  = (if is_active e then Some "page" else None) /\
  getAttribute (interactions (menu_view classes m) l
                             (attached (page classes m)))
               (link_ref a) "aria-owns"
  = match group_of e with
    | Some _ => Some (cleanForId (textContent (page classes m) (link_ref a)))
    | None => None
    end.
Proof.
  intros Ha; split; [|split; [|split]].
  - rewrite reached_attribute by (cbv; discriminate).
    apply labelled_tree.
  - apply (reached_role classes m l a e Ha).
  - rewrite reached_attribute by (cbv; discriminate).
    apply (labelled_current classes m a e Ha).
  - rewrite reached_attribute by (cbv; discriminate).
    apply (labelled_owns classes m a e Ha).
Qed.

Lemma items_are_marked_witness :
  getAttribute (interactions (menu_view [] handbook) handbook_session
                             (attached (page [] handbook)))
               [0] "role" = Some "tree" /\
  getAttribute (interactions (menu_view [] handbook) handbook_session
                             (attached (page [] handbook)))
               (link_ref [1]) "aria-role" = Some "tree-item" /\
  getAttribute (interactions (menu_view [] handbook) handbook_session
                             (attached (page [] handbook)))
               (link_ref [1]) "aria-current"
  = (if is_active
          (Entry "Guide" [] 0
                 (Some [ leaf "Basics";
                         Entry "Advanced" [] 0
                               (Some [ leaf "Tuning";
                                       Entry "Caching" ["is-active"] 0
                                             None ]) ]))
     then Some "page" else None) /\
  getAttribute (interactions (menu_view [] handbook) handbook_session
                             (attached (page [] handbook)))
               (link_ref [1]) "aria-owns"
  = match group_of
            (Entry "Guide" [] 0
                   (Some [ leaf "Basics";
                           Entry "Advanced" [] 0
                                 (Some [ leaf "Tuning";
                                         Entry "Caching" ["is-active"] 0
                                               None ]) ])) with
    | Some _ => Some (cleanForId (textContent (page [] handbook) (link_ref [1])))
    | None => None
    end.
Proof.
  apply (items_are_marked [] handbook handbook_session [1]); reflexivity.
Defined.

(** X10: on the page built from a menu, after any interactions, the
    Group of every entry that has one carries [aria-role="group"] and,
    as [id], the cleaned text its Item had before setup, which is also
    what the Item's [aria-owns] holds. *)
Theorem groups_are_labelled
        (classes : list string) (m : menu) (l : list interaction)
        (a : address) (e : entry) :
  lookup_entry m a = Some e -> group_of e <> None ->
  getAttribute (interactions (menu_view classes m) l
                             (attached (page classes m)))
               (1 :: entry_ref a) "aria-role" = Some "group" /\
  getAttribute (interactions (menu_view classes m) l
                             (attached (page classes m)))
               (1 :: entry_ref a) "id"
  = Some (cleanForId (textContent (page classes m) (link_ref a))) /\
  getAttribute (interactions (menu_view classes m) l
                             (attached (page classes m)))
               (1 :: entry_ref a) "id"
  = getAttribute (interactions (menu_view classes m) l
                               (attached (page classes m)))
                 (link_ref a) "aria-owns".
Proof.
  intros Ha Hg.
  destruct (labelled_group classes m a e Ha Hg) as [Hid Hrole].
  rewrite !reached_attribute by (cbv; discriminate).
  rewrite (labelled_owns classes m a e Ha), Hid, Hrole.
  destruct (group_of e); [auto | contradiction].
Qed.

Lemma groups_are_labelled_witness :
  getAttribute (interactions (menu_view [] handbook) handbook_session
                             (attached (page [] handbook)))
               (1 :: entry_ref [1]) "aria-role" = Some "group" /\
  getAttribute (interactions (menu_view [] handbook) handbook_session
                             (attached (page [] handbook)))
               (1 :: entry_ref [1]) "id"
  = Some (cleanForId (textContent (page [] handbook) (link_ref [1]))) /\
  getAttribute (interactions (menu_view [] handbook) handbook_session
                             (attached (page [] handbook)))
               (1 :: entry_ref [1]) "id"
  = getAttribute (interactions (menu_view [] handbook) handbook_session
                               (attached (page [] handbook)))
                 (link_ref [1]) "aria-owns".
Proof.
  apply (groups_are_labelled
           [] handbook handbook_session [1]
           (Entry "Guide" [] 0
                  (Some [ leaf "Basics";
                          Entry "Advanced" [] 0
                                (Some [ leaf "Tuning";
                                        Entry "Caching" ["is-active"] 0
                                              None ]) ])));
    [reflexivity | discriminate].
Defined.

(** ** Whether the construction returns *)

Lemma getGroupNode_cases (x : ref) (d : document) :
  (unusable_owns d x = true /\ getGroupNode x d = Throw SyntaxError d) \/
  (unusable_owns d x = false /\ exists g, getGroupNode x d = Ok g d).
Proof.
  unfold unusable_owns, getGroupNode, bind, read.
  destruct (getAttribute d x "aria-owns") as [id|]; [|right; eauto].
  destruct (JsString.is_empty id); [right; eauto|].
  destruct (is_identifier id); [right | left]; eauto.
Qed.

Lemma unusable_owns_appendChild (x y : ref) (d : document) :
  unusable_owns (appendChild x trigger d) y = unusable_owns d y.
Proof.
  unfold unusable_owns; rewrite getAttribute_appendChild.
  change (String.eqb (JsString.toLowerCase "aria-owns") "tabindex")
    with false.
  rewrite andb_false_r; reflexivity.
Qed.

(** [attachTriggers] throws exactly when the [aria-owns] of some Item is
    unusable, and then with a [SyntaxError]. *)
Lemma attachTriggers_outcome (this : instance) (B : ref -> bool) :
  forall d,
    (forall x, unusable_owns d x = B x) ->
    exists d',
      attachTriggers this d
      = if existsb B (treeItems this) then Throw SyntaxError d' else Ok tt d'.
Proof.
  unfold attachTriggers; generalize (treeItems this) as items.
  induction items as [|x l IH]; intros d HB; [exists d; reflexivity|].
  cbn [forEach existsb]; unfold bind at 1 2.
  destruct (getGroupNode_cases x d) as [[Hb ->] | [Hb (g & ->)]];
    rewrite HB in Hb; rewrite Hb.
  - exists d; reflexivity.
  - cbn [orb]; destruct g as [g|].
    + unfold bind at 1, read at 1, bind at 1, modify at 1, bind at 1,
        modify at 1.
      apply IH; intros y.
      rewrite <- HB; apply (unusable_owns_appendChild x y d).
    + apply IH; exact HB.
Qed.

Lemma click_frame_refl (d : document) : click_frame d d.
Proof. intros e t h H; left; exact H. Qed.

Lemma click_frame_trans (a b c : document) :
  click_frame a b -> click_frame b c -> click_frame a c.
Proof.
  intros H1 H2 e t h H; destruct (H2 e t h H) as [H' | H']; auto.
Qed.

Lemma click_frame_appendChild (x : ref) (d : document) :
  click_frame d (appendChild x trigger d).
Proof. intros e t h H; left; exact H. Qed.

Lemma click_frame_addEventListener (x : ref) (h : string) (d : document) :
  click_frame d (addEventListener x "click" h d).
Proof.
  intros e t h' [H | H]; [right | left; exact H].
  congruence.
Qed.

Lemma keeps_click_frame (this : instance) :
  keeps click_frame (attachTriggers this).
Proof.
  unfold attachTriggers, getGroupNode.
  keeps_tac ltac:(first [exact click_frame_refl | exact click_frame_trans])
            ltac:(first [ apply click_frame_appendChild
                        | apply click_frame_addEventListener ]).
Qed.

Lemma keydown_listeners (items : list ref) :
  forall d,
  exists d',
    forEach (fun item => modify (addEventListener item "keydown" "onKeydown"))
            items d = Ok tt d' /\
    (forall x, In x items -> In (x, "keydown", "onKeydown") (listeners d')) /\
    (forall r, In r (listeners d) -> In r (listeners d')).
Proof.
  induction items as [|x l IH]; intros d.
  - exists d; repeat split; [intros x [] | auto].
  - cbn [forEach]; unfold bind at 1, modify at 1.
    destruct (IH (addEventListener x "keydown" "onKeydown" d))
      as (d' & -> & Hin & Hkeep).
    exists d'; repeat split.
    + intros y [<- | Hy]; [apply Hkeep; left; reflexivity | apply Hin; exact Hy].
    + intros r Hr; apply Hkeep; right; exact Hr.
Qed.

Lemma starts_like_number_nonempty (s : string) :
  starts_like_number s = true -> JsString.is_empty s = false.
Proof. destruct s; [discriminate | reflexivity]. Qed.

Section Construction.

Variables (classes : list string) (m : menu).

Lemma unusable_owns_labelled (a : address) (e : entry) :
  lookup_entry m a = Some e ->
  unusable_owns (labelled classes m) (link_ref a)
  = match group_of e with
    | Some _ =>
        starts_like_number
          (cleanForId (textContent (page classes m) (link_ref a)))
    | None => false
    end.
Proof.
  intros Ha; unfold unusable_owns.
  rewrite (labelled_owns classes m a e Ha).
  destruct (group_of e); [|reflexivity].
  rewrite (identifier_of_id_chars _ (cleanForId_chars _)).
  destruct (starts_like_number _) eqn:S.
  - rewrite (starts_like_number_nonempty _ S); reflexivity.
  - destruct (JsString.is_empty _); reflexivity.
Qed.

End Construction.

(** X11: when the text of some Item with a Group, cleaned, begins like a
    number ("2024 Reports"), constructing the engine on the menu throws
    a [SyntaxError]; the page it leaves has no keydown listener. *)
Theorem construction_throws_on_numeric_label
        (classes : list string) (m : menu) (a : address) (e : entry) :
  lookup_entry m a = Some e -> group_of e <> None ->
  starts_like_number (cleanForId (textContent (page classes m) (link_ref a)))
  = true ->
  constructor (JElement []) (page classes m)
  = Throw SyntaxError (attached (page classes m)) /\
  forall x h, ~ In (x, "keydown", h) (listeners (attached (page classes m))).
Proof.
  intros Ha Hg Hs.
  assert (Hb : existsb (unusable_owns (labelled classes m))
                       (links_from m 0 [0]) = true).
  { apply existsb_exists; exists (link_ref a); split;
      [apply (link_is_item m a e Ha)|].
    rewrite (unusable_owns_labelled classes m a e Ha), <- Hs.
    destruct (group_of e); [reflexivity | contradiction]. }
  destruct (attachTriggers_outcome
              (menu_view classes m) (unusable_owns (labelled classes m))
              (labelled classes m) (fun x => eq_refl)) as (d' & Hd').
  change (treeItems (menu_view classes m)) with (links_from m 0 [0]) in Hd'.
  rewrite Hb in Hd'.
  assert (Hc : constructor (JElement []) (page classes m)
               = Throw SyntaxError d').
  { rewrite constructor_steps; unfold bind at 1 2.
    rewrite Hd'; reflexivity. }
  assert (E : attached (page classes m) = d')
    by (unfold attached; rewrite Hc; reflexivity).
  rewrite E; split; [exact Hc|].
  intros x h Hx.
  pose proof (keeps_click_frame (menu_view classes m) (labelled classes m))
    as K.
  rewrite Hd' in K.
  destruct (K x "keydown" h Hx) as [H | H]; [|discriminate].
  rewrite listeners_labelled in H; destruct H.
Qed.

Lemma construction_throws_on_numeric_label_witness :
  constructor (JElement []) (page [] archive)
  = Throw SyntaxError (attached (page [] archive)) /\
  forall x h, ~ In (x, "keydown", h) (listeners (attached (page [] archive))).
Proof.
  apply (construction_throws_on_numeric_label
           [] archive [0]
           (Entry "2024 Reports" [] 0 (Some [leaf "Spring"; leaf "Autumn"])));
    [reflexivity | discriminate | vm_compute; reflexivity].
Defined.

(** The condition on the labels, checked over the Items of the page. *)
Lemma usable_labels (classes : list string) (m : menu) :
  forallb (fun x =>
             negb (is_some (nextElementSibling (page classes m) x)
                   && starts_like_number
                        (cleanForId (textContent (page classes m) x))))
          (links_from m 0 [0]) = true ->
  forall a e,
    lookup_entry m a = Some e -> group_of e <> None ->
    starts_like_number
      (cleanForId (textContent (page classes m) (link_ref a))) = false.
Proof.
  intros H a e Ha Hg; rewrite forallb_forall in H.
  specialize (H (link_ref a) (link_is_item m a e Ha)).
  rewrite (next_of_link (page classes m) classes m eq_refl a e Ha) in H.
  destruct (group_of e); [|contradiction].
  cbn [is_some andb] in H; apply negb_true_iff in H; exact H.
Qed.

(** X12: when no Item with a Group has a text that, cleaned, begins like
    a number, constructing the engine on the menu returns the instance
    and every Item has the keydown listener. *)
Theorem construction_returns
        (classes : list string) (m : menu) :
  (forall a e,
      lookup_entry m a = Some e -> group_of e <> None ->
      starts_like_number
        (cleanForId (textContent (page classes m) (link_ref a))) = false) ->
  constructor (JElement []) (page classes m)
  = Ok (Some (menu_view classes m)) (attached (page classes m)) /\
  forall x, In x (treeItems (menu_view classes m)) ->
            In (x, "keydown", "onKeydown")
               (listeners (attached (page classes m))).
Proof.
  intros Hok.
  assert (Hb : existsb (unusable_owns (labelled classes m))
                       (links_from m 0 [0]) = false).
  { destruct (existsb _ _) eqn:E; [|reflexivity].
    apply existsb_exists in E; destruct E as (x & Hx & Hu).
    destruct (item_is_link m x Hx) as (a & e & -> & Ha).
    rewrite (unusable_owns_labelled classes m a e Ha) in Hu.
    destruct (group_of e) eqn:G; [|discriminate].
    rewrite (Hok a e Ha) in Hu; [discriminate | rewrite G; discriminate]. }
  destruct (attachTriggers_outcome
              (menu_view classes m) (unusable_owns (labelled classes m))
              (labelled classes m) (fun x => eq_refl)) as (d' & Hd').
  change (treeItems (menu_view classes m)) with (links_from m 0 [0]) in Hd'.
  rewrite Hb in Hd'.
  destruct (keydown_listeners (links_from m 0 [0]) d')
    as (d'' & Hd'' & Hin & _).
  assert (Hc : constructor (JElement []) (page classes m)
               = Ok (Some (menu_view classes m)) d'').
  { rewrite constructor_steps; unfold bind at 1 2.
    rewrite Hd'.
    change (treeItems (menu_view classes m)) with (links_from m 0 [0]).
    rewrite Hd''; reflexivity. }
  assert (E : attached (page classes m) = d'')
    by (unfold attached; rewrite Hc; reflexivity).
  rewrite E; split; [exact Hc | exact Hin].
Qed.

Lemma construction_returns_witness :
  constructor (JElement []) (page [] chapters)
  = Ok (Some (menu_view [] chapters)) (attached (page [] chapters)) /\
  forall x, In x (treeItems (menu_view [] chapters)) ->
            In (x, "keydown", "onKeydown")
               (listeners (attached (page [] chapters))).
Proof.
  apply (construction_returns [] chapters).
  apply usable_labels; vm_compute; reflexivity.
Defined.

(** ** Expanding, collapsing and the arrow keys *)

(** X13: after [expandTreeItem] an Item is expanded exactly if it was
    expandable, after [collapseTreeItem] it is not expanded, and neither
    changes whether another element is expanded or which elements are
    expandable. *)
Theorem expand_collapse_outcome (d : document) (item : ref) :
  isExpanded (expandTreeItem item d) item = isExpandable d item /\
  isExpanded (collapseTreeItem item d) item = false /\
  (forall e, e <> item ->
             isExpanded (expandTreeItem item d) e = isExpanded d e /\
             isExpanded (collapseTreeItem item d) e = isExpanded d e) /\
  (forall e, isExpandable (expandTreeItem item d) e = isExpandable d e /\
             isExpandable (collapseTreeItem item d) e = isExpandable d e).
Proof.
  split; [|split; [|split]].
  - unfold expandTreeItem.
    destruct (isExpandable d item) eqn:X; simpl.
    + destruct (isExpanded d item) eqn:E; simpl; [exact E|].
      unfold isExpanded; rewrite getAttribute_setAttribute_same; reflexivity.
    + unfold isExpanded, isExpandable, hasAttribute in *.
      destruct (getAttribute d item "aria-expanded"); [discriminate|].
      reflexivity.
  - unfold collapseTreeItem.
    destruct (isExpandable d item) eqn:X; simpl.
    + destruct (isExpanded d item) eqn:E; simpl; [|exact E].
      unfold isExpanded; rewrite getAttribute_setAttribute_same; reflexivity.
    + unfold isExpanded, isExpandable, hasAttribute in *.
      destruct (getAttribute d item "aria-expanded"); [discriminate|].
      reflexivity.
  - intros e He; split.
    + destruct (expandTreeItem_cases item d) as [-> | [_ ->]]; [reflexivity|].
      unfold isExpanded.
      rewrite getAttribute_setAttribute_other_element by exact He.
      reflexivity.
    + destruct (collapseTreeItem_cases item d) as [-> | [_ ->]]; [reflexivity|].
      unfold isExpanded.
      rewrite getAttribute_setAttribute_other_element by exact He.
      reflexivity.
  - intros e; split; unfold isExpandable.
    + apply (proj2 (proj2 (proj2 (handler_frame_expand item d)))).
    + apply (proj2 (proj2 (proj2 (handler_frame_collapse item d)))).
Qed.

Lemma onArrowLeft_collapses (x : ref) (d : document) :
  isExpanded d x = true ->
  onArrowLeft x d = Ok tt (setAttribute x "aria-expanded" "false" d).
Proof.
  intros E; unfold onArrowLeft, bind, read, modify; rewrite E.
  unfold collapseTreeItem; rewrite E, andb_true_r.
  unfold isExpandable, hasAttribute; unfold isExpanded in E.
  destruct (getAttribute d x "aria-expanded"); [reflexivity | discriminate].
Qed.

(** X14: whatever the page, ArrowRight on an Item without
    [aria-expanded] changes nothing, ArrowRight on an Item that has it
    but is not expanded sets it to "true", and ArrowLeft on an expanded
    Item sets it to "false"; the three are consumed and none of them
    moves the focus. *)
Theorem arrow_keys_on_expansion
        (this : instance) (d : document) (item : ref) :
  (isExpandable d item = false ->
   onKeydown this (press "ArrowRight" item) d = Ok true d) /\
  (isExpandable d item = true -> isExpanded d item = false ->
   onKeydown this (press "ArrowRight" item) d
   = Ok true (setAttribute item "aria-expanded" "true" d)) /\
  (isExpanded d item = true ->
   onKeydown this (press "ArrowLeft" item) d
   = Ok true (setAttribute item "aria-expanded" "false" d)).
Proof.
  split; [|split].
  - intros X; rewrite onKeydown_ArrowRight.
    unfold bind at 1, onArrowRight, bind at 1, read at 1; rewrite X.
    reflexivity.
  - intros X E; rewrite onKeydown_ArrowRight; unfold bind at 1.
    rewrite (onArrowRight_expands item d X E); reflexivity.
  - intros E; rewrite onKeydown_ArrowLeft; unfold bind at 1.
    rewrite (onArrowLeft_collapses item d E); reflexivity.
Qed.

Lemma arrow_keys_on_expansion_witness :
  onKeydown (view chapters) (press "ArrowRight" (link_ref [1])) (ready chapters)
  = Ok true (ready chapters) /\
  onKeydown (view chapters) (press "ArrowRight" (link_ref [0])) (ready chapters)
  = Ok true (setAttribute (link_ref [0]) "aria-expanded" "true"
                          (ready chapters)) /\
  onKeydown (view handbook) (press "ArrowLeft" (link_ref [1])) (ready handbook)
  = Ok true (setAttribute (link_ref [1]) "aria-expanded" "false"
                          (ready handbook)).
Proof.
  split; [|split].
  - apply (proj1 (arrow_keys_on_expansion
                    (view chapters) (ready chapters) (link_ref [1]))).
    vm_compute; reflexivity.
  - apply (proj1 (proj2 (arrow_keys_on_expansion
                           (view chapters) (ready chapters) (link_ref [0]))));
      vm_compute; reflexivity.
  - apply (proj2 (proj2 (arrow_keys_on_expansion
                           (view handbook) (ready handbook) (link_ref [1])))).
    vm_compute; reflexivity.
Defined.

(** ** [updateActiveTree], continued *)

Lemma expandOwner_value (c e : ref) (d : document) :
  getAttribute (expandOwner c d) e "aria-expanded"
  = getAttribute d e "aria-expanded" \/
  getAttribute (expandOwner c d) e "aria-expanded" = Some "true".
Proof.
  unfold expandOwner.
  destruct (classList_contains d c "menu-item"); [|left; reflexivity].
  destruct (querySelector d c sel_anchor) as [p|]; [|left; reflexivity].
  destruct (hasAttribute d p "aria-expanded"); [|left; reflexivity].
  rewrite getAttribute_setAttribute.
  destruct (ref_eqb e p && _); [right | left]; reflexivity.
Qed.

Lemma expandOwners_value (c e : ref) :
  forall d,
    getAttribute (expandOwners c d) e "aria-expanded"
    = getAttribute d e "aria-expanded" \/
    getAttribute (expandOwners c d) e "aria-expanded" = Some "true".
Proof.
  induction c as [|i c IH]; intros d; cbn [expandOwners].
  - apply expandOwner_value.
  - destruct (IH (expandOwner (i :: c) d)) as [H | H]; [|right; exact H].
    rewrite H; apply expandOwner_value.
Qed.

Lemma activeElement_expandOwner (c : ref) (d : document) :
  activeElement (expandOwner c d) = activeElement d.
Proof.
  unfold expandOwner.
  destruct (classList_contains d c "menu-item"); [|reflexivity].
  destruct (querySelector d c sel_anchor) as [p|]; [|reflexivity].
  destruct (hasAttribute d p "aria-expanded"); reflexivity.
Qed.

Lemma activeElement_expandOwners (c : ref) :
  forall d, activeElement (expandOwners c d) = activeElement d.
Proof.
  induction c as [|i c IH]; intros d; cbn [expandOwners].
  - apply activeElement_expandOwner.
  - rewrite IH; apply activeElement_expandOwner.
Qed.

(** X15: [updateActiveTree] leaves the element tree, the focus and the
    listeners alone and changes no attribute except [aria-expanded]; it
    gives [aria-expanded] to no element that lacks it, and where the
    value changes it becomes "true". *)
Theorem updateActiveTree_only_expands (item : ref) (d : document) :
  root (updateActiveTree item d) = root d /\
  activeElement (updateActiveTree item d) = activeElement d /\
  listeners (updateActiveTree item d) = listeners d /\
  (forall e n, JsString.toLowerCase n <> "aria-expanded" ->
               getAttribute (updateActiveTree item d) e n
               = getAttribute d e n) /\
  (forall e, hasAttribute (updateActiveTree item d) e "aria-expanded"
             = hasAttribute d e "aria-expanded") /\
  (forall e, getAttribute (updateActiveTree item d) e "aria-expanded"
             = getAttribute d e "aria-expanded" \/
             getAttribute (updateActiveTree item d) e "aria-expanded"
             = Some "true").
Proof.
  destruct (handler_frame_updateActiveTree item d) as (Hr & Hl & Ha & Hx).
  split; [exact Hr|]; split; [|split; [exact Hl|]; split; [exact Ha|];
                               split; [exact Hx|]].
  - unfold updateActiveTree; destruct (parentNode item);
      [apply activeElement_expandOwners | reflexivity].
  - intros e; unfold updateActiveTree.
    destruct (parentNode item); [apply expandOwners_value|].
    left; reflexivity.
Qed.

(** ** What the handlers leave alone *)

(** X16: whatever the instance and the page, no sequence of keydowns and
    trigger clicks changes the element tree, the listeners or an
    attribute other than [aria-expanded], and none gives or takes away
    an [aria-expanded] attribute. *)
Theorem interactions_keep_the_page
        (this : instance) (l : list interaction) (d : document) :
  root (interactions this l d) = root d /\
  listeners (interactions this l d) = listeners d /\
  (forall e n, JsString.toLowerCase n <> "aria-expanded" ->
               getAttribute (interactions this l d) e n = getAttribute d e n) /\
  (forall e, isExpandable (interactions this l d) e = isExpandable d e).
Proof. exact (handler_frame_interactions this l d). Qed.

(** ** Siblings in the element tree *)

Lemma skipn_nth_error (A : Type) (l : list A) (n : nat) (x : A) :
  nth_error l n = Some x -> skipn n l = x :: skipn (S n) l.
Proof.
  revert n; induction l as [|y l IH]; intros [|n]; simpl; try discriminate.
  - intros H; injection H as ->; reflexivity.
  - apply IH.
Qed.

Lemma firstn_succ (A : Type) (l : list A) (n : nat) (x : A) :
  nth_error l n = Some x -> firstn (S n) l = firstn n l ++ [x].
Proof.
  revert n; induction l as [|y l IH]; intros [|n]; simpl; try discriminate.
  - intros H; injection H as ->; reflexivity.
  - intros H; rewrite <- (IH n H); reflexivity.
Qed.

Lemma last_element_snoc (ks : list node) (k : node) (j : nat) :
  is_element k = true ->
  last_element (ks ++ [k]) j = Some (j + List.length ks).
Proof.
  intros Hk; revert j; induction ks as [|k' ks IH]; intros j; simpl.
  - rewrite Hk, Nat.add_0_r; reflexivity.
  - rewrite IH, Nat.add_succ_r; reflexivity.
Qed.

Lemma entries_of_lookup (m : menu) (i : nat) (a : address) (e : entry) :
  lookup_entry m (i :: a) = Some e ->
  exists es, entries_under m a = Some es /\ nth_error es i = Some e.
Proof.
  cbn [lookup_entry]; destruct (entries_under m a) as [es|]; [|discriminate].
  intros H; exists es; auto.
Qed.

Lemma lookup_of_entries (m : menu) (i : nat) (a : address) (es : menu) :
  entries_under m a = Some es -> lookup_entry m (i :: a) = nth_error es i.
Proof. intros H; cbn [lookup_entry]; rewrite H; reflexivity. Qed.

Section MenuSiblings.

Variables (d : document) (classes : list string) (m : menu).
Hypothesis Hroot : root d = container classes m.

Lemma children_of_list (a : address) (es : menu) :
  entries_under m a = Some es -> childNodes d (list_ref a) = map item es.
Proof.
  intros H; destruct (node_at_list d classes m Hroot a es H) as [cs Hn].
  unfold childNodes; rewrite Hn; reflexivity.
Qed.

Lemma next_entry (i : nat) (a : address) (e e' : entry) :
  lookup_entry m (i :: a) = Some e -> lookup_entry m (S i :: a) = Some e' ->
  nextElementSibling d (entry_ref (i :: a)) = Some (entry_ref (S i :: a)).
Proof.
  intros H H'; destruct (entries_of_lookup m i a e H) as (es & Hes & _).
  rewrite (lookup_of_entries m (S i) a es Hes) in H'.
  rewrite !entry_ref_cons; unfold nextElementSibling.
  rewrite (children_of_list a es Hes).
  rewrite (skipn_nth_error _ _ (S i) (item e'))
    by (rewrite nth_error_map, H'; reflexivity).
  cbn [first_element]; rewrite is_element_item; reflexivity.
Qed.

Lemma no_next_entry (i : nat) (a : address) (e : entry) :
  lookup_entry m (i :: a) = Some e -> lookup_entry m (S i :: a) = None ->
  nextElementSibling d (entry_ref (i :: a)) = None.
Proof.
  intros H H'; destruct (entries_of_lookup m i a e H) as (es & Hes & _).
  rewrite (lookup_of_entries m (S i) a es Hes) in H'.
  rewrite entry_ref_cons; unfold nextElementSibling.
  rewrite (children_of_list a es Hes), skipn_all2; [reflexivity|].
  apply nth_error_None in H'; rewrite length_map; exact H'.
Qed.

Lemma previous_entry (i : nat) (a : address) (e e' : entry) :
  lookup_entry m (i :: a) = Some e -> lookup_entry m (S i :: a) = Some e' ->
  previousElementSibling d (entry_ref (S i :: a)) = Some (entry_ref (i :: a)).
Proof.
  intros H H'; destruct (entries_of_lookup m i a e H) as (es & Hes & Hi).
  rewrite !entry_ref_cons; unfold previousElementSibling.
  rewrite (children_of_list a es Hes).
  rewrite (firstn_succ _ _ i (item e))
    by (rewrite nth_error_map, Hi; reflexivity).
  rewrite (last_element_snoc _ _ 0 (is_element_item e)).
  rewrite length_firstn, length_map.
  assert (Hlt : i < List.length es)
    by (apply nth_error_Some; rewrite Hi; discriminate).
  rewrite Nat.min_l by lia; reflexivity.
Qed.

Lemma first_entry_has_no_previous (a : address) :
  previousElementSibling d (entry_ref (0 :: a)) = None.
Proof. reflexivity. Qed.

Hypothesis Hrole :
  forall a e, lookup_entry m a = Some e ->
              getAttribute d (link_ref a) "aria-role" = Some "tree-item".

Lemma link_is_tree_item (a : address) (e : entry) :
  lookup_entry m a = Some e ->
  matches_compound d (link_ref a) tree_item = true.
Proof.
  intros H; unfold matches_compound, tree_item, matches_simple, forallb.
  rewrite (tag_of_link d classes m Hroot a e H), (Hrole a e H); reflexivity.
Qed.

(** The first tree item inside an entry is the entry's own link, also
    for the selector that asks for a child of the entry. *)
Lemma first_tree_item (a : address) (e : entry) :
  lookup_entry m a = Some e ->
  querySelector d (entry_ref a) sel_tree_item = Some (link_ref a) /\
  querySelector d (entry_ref a) sel_child_tree_item = Some (link_ref a).
Proof.
  intros H; unfold querySelector, querySelectorAll, descendants.
  rewrite (node_at_entry d classes m Hroot a e H).
  destruct e as [lb c t g]; rewrite item_unfold, walk_unfold.
  change (walk_kids (link lb c t :: ?rest) 0 (entry_ref a))
    with ((link_ref a :: walk (link lb c t) (link_ref a))
            ++ walk_kids rest 1 (entry_ref a)).
  rewrite <- app_comm_cons; split.
  - rewrite filter_keep; [reflexivity|].
    apply (link_is_tree_item a _ H).
  - rewrite filter_keep; [reflexivity|].
    change (matches d (entry_ref a) sel_child_tree_item (link_ref a))
      with (matches_compound d (link_ref a) tree_item
            && ref_eqb (entry_ref a) (entry_ref a)).
    rewrite (link_is_tree_item a _ H), ref_eqb_refl; reflexivity.
Qed.

End MenuSiblings.

(** ** Where the traversals go *)

Lemma setFocusToNextTreeItem_sibling
      (d : document) (x entry sibling y : ref) :
  parentNode x = Some entry ->
  isExpanded d x = false ->
  nextElementSibling d entry = Some sibling ->
  querySelector d sibling sel_tree_item = Some y ->
  setFocusToNextTreeItem x d = Ok tt (focus y d).
Proof.
  intros Hp E Hn Hq.
  unfold setFocusToNextTreeItem, setFocusToTreeItem, andM, notM, truthy,
    fetch, bind, read, modify, nonNull, ret, throw.
  repeat (progress (cbv beta iota; rewrite ?Hp, ?E, ?Hn, ?Hq; simpl)).
  reflexivity.
Qed.

Lemma setFocusToNextTreeItem_leaves
      (d : document) (x entry list owner next y : ref) :
  parentNode x = Some entry ->
  isExpanded d x = false ->
  nextElementSibling d entry = None ->
  closest d x [Tag "ul"] = Some list -> parentNode list = Some owner ->
  nextElementSibling d owner = Some next ->
  querySelector d next sel_child_tree_item = Some y ->
  setFocusToNextTreeItem x d = Ok tt (focus y d).
Proof.
  intros Hp E Hn Hc Ho Hno Hq.
  unfold setFocusToNextTreeItem, setFocusToTreeItem, focus_if_present, andM,
    notM, truthy, fetch, bind, read, modify, nonNull, ret, throw.
  repeat (progress (cbv beta iota;
                    rewrite ?Hp, ?E, ?Hn, ?Hc, ?Ho, ?Hno, ?Hq; simpl)).
  reflexivity.
Qed.

Lemma setFocusToPreviousTreeItem_sibling
      (d : document) (x entry previous y : ref) :
  parentNode x = Some entry ->
  previousElementSibling d entry = Some previous ->
  querySelector d previous sel_tree_item = Some y ->
  isExpanded d y = false ->
  setFocusToPreviousTreeItem x d = Ok tt (focus y d).
Proof.
  intros Hp Hn Hq E.
  unfold setFocusToPreviousTreeItem, setFocusToTreeItem, andM, notM, truthy,
    fetch, bind, read, modify, nonNull, ret, throw.
  repeat (progress (cbv beta iota; rewrite ?Hp, ?Hn, ?Hq, ?E; simpl)).
  reflexivity.
Qed.

Lemma setFocusToPreviousTreeItem_descends
      (d : document) (x entry previous y : ref) (z : option ref) :
  parentNode x = Some entry ->
  previousElementSibling d entry = Some previous ->
  querySelector d previous sel_tree_item = Some y ->
  isExpanded d y = true ->
  querySelector d previous sel_last_item_of_group = z ->
  setFocusToPreviousTreeItem x d = setFocusToTreeItem z d.
Proof.
  intros Hp Hn Hq E Hz.
  unfold setFocusToPreviousTreeItem, andM, notM, truthy,
    fetch, bind, read, modify, nonNull, ret, throw.
  repeat (progress (cbv beta iota; rewrite ?Hp, ?Hn, ?Hq, ?E, ?Hz; simpl)).
  destruct (setFocusToTreeItem z d); reflexivity.
Qed.

Section MenuTraversal.

Variables (d : document) (classes : list string) (m : menu).
Hypothesis Hroot : root d = container classes m.
Hypothesis Hrole :
  forall a e, lookup_entry m a = Some e ->
              getAttribute d (link_ref a) "aria-role" = Some "tree-item".

Lemma next_sibling_rule (i : nat) (a : address) (e e' : entry) :
  lookup_entry m (i :: a) = Some e -> lookup_entry m (S i :: a) = Some e' ->
  isExpanded d (link_ref (i :: a)) = false ->
  setFocusToNextTreeItem (link_ref (i :: a)) d
  = Ok tt (focus (link_ref (S i :: a)) d).
Proof.
  intros H H' E.
  apply (setFocusToNextTreeItem_sibling
           d _ (entry_ref (i :: a)) (entry_ref (S i :: a)));
    [reflexivity | exact E | |].
  - apply (next_entry d classes m Hroot i a e e' H H').
  - apply (first_tree_item d classes m Hroot Hrole (S i :: a) e' H').
Qed.

Lemma previous_sibling_rule (i : nat) (a : address) (e e' : entry) :
  lookup_entry m (i :: a) = Some e -> lookup_entry m (S i :: a) = Some e' ->
  isExpanded d (link_ref (i :: a)) = false ->
  setFocusToPreviousTreeItem (link_ref (S i :: a)) d
  = Ok tt (focus (link_ref (i :: a)) d).
Proof.
  intros H H' E.
  apply (setFocusToPreviousTreeItem_sibling
           d _ (entry_ref (S i :: a)) (entry_ref (i :: a)));
    [reflexivity | | | exact E].
  - apply (previous_entry d classes m Hroot i a e e' H H').
  - apply (first_tree_item d classes m Hroot Hrole (i :: a) e H).
Qed.

Lemma next_leaves_rule (i j : nat) (a : address) (e e' : entry) :
  lookup_entry m (i :: j :: a) = Some e ->
  lookup_entry m (S i :: j :: a) = None ->
  lookup_entry m (S j :: a) = Some e' ->
  isExpanded d (link_ref (i :: j :: a)) = false ->
  setFocusToNextTreeItem (link_ref (i :: j :: a)) d
  = Ok tt (focus (link_ref (S j :: a)) d).
Proof.
  intros H Hlast H' E.
  destruct (lookup_owner m i j a e H) as (e0 & es & H0 & _).
  apply (setFocusToNextTreeItem_leaves
           d _ (entry_ref (i :: j :: a)) (list_ref (j :: a))
           (entry_ref (j :: a)) (entry_ref (S j :: a)));
    [reflexivity | exact E | | | reflexivity | |].
  - apply (no_next_entry d classes m Hroot i (j :: a) e H Hlast).
  - apply (closest_list d classes m Hroot i (j :: a) e H).
  - apply (next_entry d classes m Hroot j a e0 e' H0 H').
  - apply (first_tree_item d classes m Hroot Hrole (S j :: a) e' H').
Qed.

Lemma next_stays_rule (i j : nat) (a : address) (e : entry) :
  lookup_entry m (i :: j :: a) = Some e ->
  lookup_entry m (S i :: j :: a) = None ->
  lookup_entry m (S j :: a) = None ->
  isExpanded d (link_ref (i :: j :: a)) = false ->
  setFocusToNextTreeItem (link_ref (i :: j :: a)) d = Ok tt d.
Proof.
  intros H Hlast Hnone E.
  destruct (lookup_owner m i j a e H) as (e0 & es & H0 & _).
  apply (setFocusToNextTreeItem_stays d _ (entry_ref (i :: j :: a)));
    [reflexivity | | rewrite E; discriminate |].
  - apply (no_next_entry d classes m Hroot i (j :: a) e H Hlast).
  - intros _; exists (list_ref (j :: a)), (entry_ref (j :: a)).
    repeat split.
    + apply (closest_list d classes m Hroot i (j :: a) e H).
    + apply (no_next_entry d classes m Hroot j a e0 H0 Hnone).
Qed.

End MenuTraversal.

(** ** The tree on the pages reached *)

Lemma same_shape_defined (m m' : menu) (a : address) :
  map shape m' = map shape m ->
  lookup_entry m a = None -> lookup_entry m' a = None.
Proof.
  intros Hs Ha.
  pose proof (lookup_entry_shape m' a) as H'.
  rewrite Hs, lookup_entry_shape, Ha in H'.
  destruct (lookup_entry m' a); [discriminate | reflexivity].
Qed.

Lemma reached_eq (classes : list string) (m : menu) (l : list interaction) :
  reached classes m l
  = interactions (menu_view classes m) l (attached (page classes m)).
Proof. reflexivity. Qed.

(** The element tree of a page reached is that of a menu with the same
    entries, whose links are tree items. *)
Lemma reached_tree (classes : list string) (m : menu) (l : list interaction) :
  exists m',
    root (reached classes m l) = container classes m' /\
    map shape m' = map shape m /\
    (forall a e, lookup_entry m' a = Some e ->
                 getAttribute (reached classes m l) (link_ref a) "aria-role"
                 = Some "tree-item").
Proof.
  destruct (reached_menu_tree classes m l) as (m' & Hr & Hs).
  exists m'; repeat split; [exact Hr | exact Hs|].
  intros a e' Ha'.
  destruct (same_shape_lookup m' m a e' (eq_sym Hs) Ha') as (e & Ha & _).
  apply (reached_role classes m l a e Ha).
Qed.

Lemma reached_focus (classes : list string) (m : menu) (l : list interaction)
      (a : address) (e : entry) :
  lookup_entry m a = Some e ->
  forall d', handler_frame (reached classes m l) d' ->
             activeElement (focus (link_ref a) d') = Some (link_ref a).
Proof.
  intros Ha d' F; apply activeElement_focus.
  rewrite (focusable_frame _ d' _ F).
  apply (reached_focusable classes m l a e Ha).
Qed.

(** X17: on the page built from a menu, after any interactions, from an
    Item that is not expanded [setFocusToNextTreeItem] moves the focus
    to the Item of the next entry of the same list, and from there
    [setFocusToPreviousTreeItem] moves it back. *)
Theorem next_and_previous_between_siblings
        (classes : list string) (m : menu) (l : list interaction)
        (i : nat) (a : address) (e e' : entry) :
  lookup_entry m (i :: a) = Some e ->
  lookup_entry m (S i :: a) = Some e' ->
  isExpanded (reached classes m l) (link_ref (i :: a)) = false ->
  exists d1 d2,
    setFocusToNextTreeItem (link_ref (i :: a)) (reached classes m l)
    = Ok tt d1 /\
    activeElement d1 = Some (link_ref (S i :: a)) /\
    setFocusToPreviousTreeItem (link_ref (S i :: a)) d1 = Ok tt d2 /\
    activeElement d2 = Some (link_ref (i :: a)).
Proof.
  intros H H' E.
  destruct (reached_tree classes m l) as (m' & Hr & Hs & Hrole).
  destruct (same_shape_lookup m m' _ e Hs H) as (x & Hx & _).
  destruct (same_shape_lookup m m' _ e' Hs H') as (x' & Hx' & _).
  set (d := reached classes m l) in *.
  set (d1 := focus (link_ref (S i :: a)) d).
  assert (F : handler_frame d d1) by apply handler_frame_focus.
  exists d1, (focus (link_ref (i :: a)) d1); repeat split.
  - apply (next_sibling_rule d classes m' Hr Hrole i a x x' Hx Hx' E).
  - apply (reached_focus classes m l _ e' H' d (handler_frame_refl d)).
  - refine (previous_sibling_rule d1 classes m' _ _ i a x x' Hx Hx' _).
    + rewrite (proj1 F); exact Hr.
    + intros b eb Hb.
      rewrite (proj1 (proj2 (proj2 F))) by (cbv; discriminate).
      apply (Hrole b eb Hb).
    + unfold isExpanded.
      destruct F as (_ & _ & _ & Fx).
      unfold isExpanded in E.
      assert (G : getAttribute d1 (link_ref (i :: a)) "aria-expanded"
                  = getAttribute d (link_ref (i :: a)) "aria-expanded")
        by (unfold d1, focus; destruct (focusable d _); reflexivity).
      rewrite G; exact E.
  - apply (reached_focus classes m l _ e H d1 F).
Qed.

Lemma next_and_previous_between_siblings_witness :
  exists d1 d2,
    setFocusToNextTreeItem (link_ref [0; 1]) (reached [] handbook [])
    = Ok tt d1 /\
    activeElement d1 = Some (link_ref [1; 1]) /\
    setFocusToPreviousTreeItem (link_ref [1; 1]) d1 = Ok tt d2 /\
    activeElement d2 = Some (link_ref [0; 1]).
Proof.
  apply (next_and_previous_between_siblings
           [] handbook [] 0 [1] (leaf "Basics")
           (Entry "Advanced" [] 0
                  (Some [ leaf "Tuning";
                          Entry "Caching" ["is-active"] 0 None ])));
    [reflexivity | reflexivity | vm_compute; reflexivity].
Defined.

(** X18: on the page built from a menu, after any interactions, from the
    last Item of a Group, when it is not expanded,
    [setFocusToNextTreeItem] moves the focus to the Item of the entry
    after the owner of the Group; when the owner is the last entry of
    its own list nothing happens, whatever follows farther up. *)
Theorem next_from_the_last_child
        (classes : list string) (m : menu) (l : list interaction)
        (i j : nat) (a : address) (e : entry) :
  lookup_entry m (i :: j :: a) = Some e ->
  lookup_entry m (S i :: j :: a) = None ->
  isExpanded (reached classes m l) (link_ref (i :: j :: a)) = false ->
  match lookup_entry m (S j :: a) with
  | Some _ =>
      setFocusToNextTreeItem (link_ref (i :: j :: a)) (reached classes m l)
      = Ok tt (focus (link_ref (S j :: a)) (reached classes m l)) /\
      activeElement (focus (link_ref (S j :: a)) (reached classes m l))
      = Some (link_ref (S j :: a))
  | None =>
      setFocusToNextTreeItem (link_ref (i :: j :: a)) (reached classes m l)
      = Ok tt (reached classes m l)
  end.
Proof.
  intros H Hlast E.
  destruct (reached_tree classes m l) as (m' & Hr & Hs & Hrole).
  destruct (same_shape_lookup m m' _ e Hs H) as (x & Hx & _).
  pose proof (same_shape_defined m m' _ Hs Hlast) as Hlast'.
  destruct (lookup_entry m (S j :: a)) as [e'|] eqn:H'.
  - destruct (same_shape_lookup m m' _ e' Hs H') as (x' & Hx' & _).
    split.
    + apply (next_leaves_rule _ classes m' Hr Hrole i j a x x' Hx Hlast' Hx' E).
    + apply (reached_focus classes m l _ e' H' _ (handler_frame_refl _)).
  - apply (next_stays_rule _ classes m' Hr i j a x Hx Hlast'
                           (same_shape_defined m m' _ Hs H') E).
Qed.

Lemma next_from_the_last_child_witness :
  match lookup_entry chapters [1] with
  | Some _ =>
      setFocusToNextTreeItem (link_ref [1; 0]) (reached [] chapters [])
      = Ok tt (focus (link_ref [1]) (reached [] chapters [])) /\
      activeElement (focus (link_ref [1]) (reached [] chapters []))
      = Some (link_ref [1])
  | None =>
      setFocusToNextTreeItem (link_ref [1; 0]) (reached [] chapters [])
      = Ok tt (reached [] chapters [])
  end.
Proof.
  apply (next_from_the_last_child [] chapters [] 1 0 [] (leaf "Details"));
    [reflexivity | reflexivity | vm_compute; reflexivity].
Defined.

(** ** Into a Group and out of it *)

Lemma setFocusToNextTreeItem_trapped (d : document) (x g : ref) :
  isExpanded d x = true ->
  nextElementSibling d x = Some g ->
  querySelectorAll d g sel_group_items = [] ->
  setFocusToNextTreeItem x d = Ok tt d.
Proof.
  intros E Hg Hq.
  unfold setFocusToNextTreeItem, setFocusToTreeItem, andM, notM, truthy,
    fetch, bind, read, modify, nonNull, ret, throw.
  repeat (progress (cbv beta iota; rewrite ?E, ?Hg, ?Hq; simpl)).
  reflexivity.
Qed.

Lemma hd_filter_unique (A : Type) (f : A -> bool) (l : list A) (y : A) :
  In y l -> f y = true -> (forall x, In x l -> f x = true -> x = y) ->
  hd_error (filter f l) = Some y.
Proof.
  intros Hy Hf Hu.
  destruct (filter f l) as [|x r] eqn:E.
  - assert (H : In y (filter f l)) by (apply filter_In; auto).
    rewrite E in H; destruct H.
  - assert (H : In x (filter f l)) by (rewrite E; left; reflexivity).
    apply filter_In in H; destruct H as [Hx Hfx].
    rewrite (Hu x Hx Hfx); reflexivity.
Qed.

(** What [':scope > ul > li:last-of-type > [aria-role="tree-item"]']
    asks of an element. *)
Lemma last_item_of_group_chain (d : document) (scope x : ref) :
  matches d scope sel_last_item_of_group x = true <->
  exists k j u,
    x = k :: j :: u :: scope /\
    matches_compound d x tree_item = true /\
    matches_compound d (j :: u :: scope) [Tag "li"; LastOfType] = true /\
    matches_compound d (u :: scope) [Tag "ul"] = true.
Proof.
  change (matches d scope sel_last_item_of_group x)
    with (matches_chain d scope [tree_item; [Tag "li"; LastOfType]; [Tag "ul"]]
                        x).
  split.
  - destruct x as [|k [|j [|u p]]]; cbn [matches_chain];
      rewrite ?andb_false_r; try discriminate.
    rewrite !andb_true_iff, ref_eqb_eq; intros (H1 & H2 & H3 & ->).
    exists k, j, u; auto.
  - intros (k & j & u & -> & H1 & H2 & H3); cbn [matches_chain].
    rewrite H1, H2, H3, ref_eqb_refl; reflexivity.
Qed.

Section MenuGroups.

Variables (d : document) (classes : list string) (m : menu).
Hypothesis Hroot : root d = container classes m.
Hypothesis Hrole :
  forall a e, lookup_entry m a = Some e ->
              getAttribute d (link_ref a) "aria-role" = Some "tree-item".
Hypothesis Hgroup :
  forall a e, lookup_entry m a = Some e -> group_of e <> None ->
              getAttribute d (1 :: entry_ref a) "aria-role" = Some "group".

Lemma child_of_entry (u : nat) (a : address) (e : entry) (t : string) :
  lookup_entry m a = Some e ->
  tagName d (u :: entry_ref a) = Some t ->
  (u = 0 /\ t = "a") \/ (u = 1 /\ t = "ul" /\ group_of e <> None).
Proof.
  intros H; unfold tagName.
  rewrite node_at_cons, (node_at_entry d classes m Hroot a e H).
  rewrite children_of_item.
  destruct u as [|[|u]]; cbn [nth_error].
  - unfold link; intros E; injection E as <-; left; auto.
  - destruct (group_of e); cbn [nth_error]; [|discriminate].
    intros E; injection E as <-; right; repeat split; discriminate.
  - destruct (group_of e); cbn [nth_error]; [destruct u|]; discriminate.
Qed.

Lemma entry_of_list (j : nat) (a : address) (es : menu) (t : string) :
  entries_under m a = Some es ->
  tagName d (j :: list_ref a) = Some t ->
  exists e, nth_error es j = Some e.
Proof.
  intros Hes; unfold tagName; rewrite node_at_cons.
  destruct (node_at_list d classes m Hroot a es Hes) as [cs ->].
  cbn [children_of]; rewrite nth_error_map.
  destruct (nth_error es j) as [e|]; [eauto | discriminate].
Qed.

Lemma last_of_type_entry (j : nat) (a : address) (es : menu) :
  entries_under m a = Some es ->
  last_of_type d (j :: list_ref a) = true ->
  nth_error es (S j) = None.
Proof.
  intros Hes; unfold last_of_type.
  destruct (tagName d (j :: list_ref a)) as [t|] eqn:T; [|discriminate].
  assert (Ht : t = "li").
  { revert T; unfold tagName; rewrite node_at_cons.
    destruct (node_at_list d classes m Hroot a es Hes) as [cs ->].
    cbn [children_of]; rewrite nth_error_map.
    destruct (nth_error es j) as [[lb c tg g]|]; [|discriminate].
    cbn [option_map]; rewrite item_unfold; congruence. }
  subst t; rewrite (children_of_list d classes m Hroot a es Hes).
  destruct (nth_error es (S j)) as [[lb c tg g]|] eqn:N; [|reflexivity].
  rewrite (skipn_nth_error _ _ (S j) (item (Entry lb c tg g)))
    by (rewrite nth_error_map, N; reflexivity).
  rewrite item_unfold; discriminate.
Qed.

Lemma entry_is_last_of_type (j : nat) (a : address) (es : menu) (e : entry) :
  entries_under m a = Some es ->
  nth_error es j = Some e -> nth_error es (S j) = None ->
  matches_compound d (j :: list_ref a) [Tag "li"; LastOfType] = true.
Proof.
  intros Hes Hj Hlast.
  assert (H : lookup_entry m (j :: a) = Some e)
    by (rewrite (lookup_of_entries m j a es Hes); exact Hj).
  pose proof (tag_of_entry d classes m Hroot (j :: a) e H) as T.
  rewrite entry_ref_cons in T.
  unfold matches_compound, forallb, matches_simple, last_of_type.
  rewrite T, (children_of_list d classes m Hroot a es Hes).
  rewrite skipn_all2; [reflexivity|].
  apply nth_error_None in Hlast; rewrite length_map; exact Hlast.
Qed.

(** The Item of the last entry of the Group of [b], if the Group has
    entries, is what the selector finds below the entry [b]. *)
Lemma last_item_of_group (b : address) (e : entry) (es : menu) :
  lookup_entry m b = Some e -> group_of e = Some es ->
  querySelector d (entry_ref b) sel_last_item_of_group
  = match es with
    | [] => None
    | _ => Some (link_ref (List.length es - 1 :: b))
    end.
Proof.
  intros Hb Hg.
  assert (Hne : b <> []) by (intros ->; discriminate).
  assert (Hes : entries_under m b = Some es)
    by (rewrite (entries_under_lookup m b e Hb); exact Hg).
  assert (Hu : forall x,
             matches d (entry_ref b) sel_last_item_of_group x = true ->
             exists j ej, x = link_ref (j :: b) /\ nth_error es j = Some ej /\
                          nth_error es (S j) = None).
  { intros x Hx; apply last_item_of_group_chain in Hx.
    destruct Hx as (k & j & u & -> & H1 & H2 & H3).
    assert (U : u = 1).
    { unfold matches_compound, forallb, matches_simple in H3.
      destruct (tagName d (u :: entry_ref b)) as [t|] eqn:T; [|discriminate].
      destruct (child_of_entry u b e t Hb T) as [[-> ->] | [-> _]];
        [discriminate | reflexivity]. }
    subst u; rewrite <- (list_ref_entry_ref b Hne) in *.
    unfold matches_compound in H2.
    destruct (tagName d (j :: list_ref b)) as [t|] eqn:T; [|discriminate].
    destruct (entry_of_list j b es t Hes T) as [ej Hj].
    cbn [forallb] in H2; rewrite !andb_true_iff in H2.
    destruct H2 as (_ & H2 & _); cbn [matches_simple] in H2.
    pose proof (last_of_type_entry j b es Hes H2) as Hlast.
    assert (Hjb : lookup_entry m (j :: b) = Some ej)
      by (rewrite (lookup_of_entries m j b es Hes); exact Hj).
    exists j, ej; repeat split; [|exact Hj | exact Hlast].
    assert (K : k = 0).
    { change (j :: list_ref b) with (entry_ref (j :: b)) in H1.
      unfold matches_compound, tree_item, forallb, matches_simple in H1.
      destruct (tagName d (k :: entry_ref (j :: b))) as [t'|] eqn:T';
        [|discriminate].
      destruct (child_of_entry k (j :: b) ej t' Hjb T')
        as [[-> _] | (-> & _ & G)]; [reflexivity|].
      rewrite (Hgroup (j :: b) ej Hjb G) in H1; discriminate. }
    subst k; reflexivity. }
  unfold querySelector, querySelectorAll.
  destruct es as [|e0 es0].
  - rewrite filter_nothing; [reflexivity|].
    intros x _.
    destruct (matches d (entry_ref b) sel_last_item_of_group x) eqn:F;
      [|reflexivity].
    destruct (Hu x F) as (j & ej & _ & Hj & _); destruct j; discriminate.
  - set (es := e0 :: es0) in *.
    set (k := List.length es - 1).
    assert (Hk : exists ek, nth_error es k = Some ek).
    { destruct (nth_error es k) as [ek|] eqn:N; [eauto|].
      apply nth_error_None in N; unfold k, es in N; simpl in N; lia. }
    destruct Hk as [ek Hk].
    assert (Hlast : nth_error es (S k) = None)
      by (apply nth_error_None; unfold k; lia).
    assert (Hkb : lookup_entry m (k :: b) = Some ek)
      by (rewrite (lookup_of_entries m k b es Hes); exact Hk).
    apply hd_filter_unique.
    + apply descendant_member.
      exists [1; k; 0], (link (label_of ek) (classes_of ek) (toggles_of ek)).
      split; [discriminate|]; split; [|split].
      * unfold link_ref; rewrite entry_ref_cons, (list_ref_entry_ref b Hne).
        reflexivity.
      * apply (node_at_link d classes m Hroot (k :: b) ek Hkb).
      * reflexivity.
    + apply last_item_of_group_chain.
      exists 0, k, 1; split; [|split; [|split]].
      * unfold link_ref; rewrite entry_ref_cons, (list_ref_entry_ref b Hne).
        reflexivity.
      * apply (link_is_tree_item d classes m Hroot Hrole (k :: b) ek Hkb).
      * rewrite <- (list_ref_entry_ref b Hne).
        apply (entry_is_last_of_type k b es ek Hes Hk Hlast).
      * rewrite <- (list_ref_entry_ref b Hne).
        destruct (node_at_list d classes m Hroot b es Hes) as [cs Hn].
        unfold matches_compound, forallb, matches_simple, tagName.
        rewrite Hn; reflexivity.
    + intros x _ F.
      destruct (Hu x F) as (j & ej & -> & Hj & Hjl).
      assert (J : j = k).
      { apply nth_error_None in Hjl.
        assert (j < List.length es)
          by (apply nth_error_Some; rewrite Hj; discriminate).
        unfold k; lia. }
      subst j; reflexivity.
Qed.

(** The Items of an empty Group. *)
Lemma no_group_items (b : address) (e : entry) :
  lookup_entry m b = Some e -> group_of e = Some [] ->
  querySelectorAll d (1 :: entry_ref b) sel_group_items = [].
Proof.
  intros Hb Hg; unfold querySelectorAll, descendants.
  rewrite (node_at_group d classes m Hroot b e [] Hb Hg); reflexivity.
Qed.

End MenuGroups.

Section MenuGroupRules.

Variables (d : document) (classes : list string) (m : menu).
Hypothesis Hroot : root d = container classes m.
Hypothesis Hrole :
  forall a e, lookup_entry m a = Some e ->
              getAttribute d (link_ref a) "aria-role" = Some "tree-item".
Hypothesis Hgroup :
  forall a e, lookup_entry m a = Some e -> group_of e <> None ->
              getAttribute d (1 :: entry_ref a) "aria-role" = Some "group".

Lemma next_enters_rule (i : nat) (a : address) (e : entry) (es : menu) :
  lookup_entry m (i :: a) = Some e -> group_of e = Some es ->
  isExpanded d (link_ref (i :: a)) = true ->
  setFocusToNextTreeItem (link_ref (i :: a)) d
  = Ok tt match es with
          | [] => d
          | _ => focus (link_ref (0 :: i :: a)) d
          end.
Proof.
  intros H Hg E.
  pose proof (next_of_link d classes m Hroot (i :: a) e H) as N.
  rewrite Hg in N.
  destruct es as [|e1 es].
  - apply (setFocusToNextTreeItem_trapped d _ _ E N).
    apply (no_group_items d classes m Hroot (i :: a) e H Hg).
  - assert (H1 : lookup_entry m (0 :: i :: a) = Some e1)
      by (apply (lookup_child m (i :: a) e e1 (e1 :: es) 0 H Hg); reflexivity).
    destruct (first_group_item d classes m Hroot i a e e1 es H Hg
                               (Hrole _ _ H1)) as [rest Hq].
    apply (setFocusToNextTreeItem_enters d _ _ _ rest E N Hq).
Qed.

Lemma previous_descends_rule (i : nat) (a : address) (e e' : entry)
      (es : menu) :
  lookup_entry m (i :: a) = Some e -> lookup_entry m (S i :: a) = Some e' ->
  group_of e = Some es ->
  isExpanded d (link_ref (i :: a)) = true ->
  setFocusToPreviousTreeItem (link_ref (S i :: a)) d
  = match es with
    | [] => Throw TypeError d
    | _ => Ok tt (focus (link_ref (List.length es - 1 :: i :: a)) d)
    end.
Proof.
  intros H H' Hg E.
  rewrite (setFocusToPreviousTreeItem_descends
             d (link_ref (S i :: a)) (entry_ref (S i :: a))
             (entry_ref (i :: a))
             (link_ref (i :: a))
             (match es with
              | [] => None
              | _ => Some (link_ref (List.length es - 1 :: i :: a))
              end) eq_refl
             (previous_entry d classes m Hroot i a e e' H H')
             (proj1 (first_tree_item d classes m Hroot Hrole (i :: a) e H))
             E
             (last_item_of_group d classes m Hroot Hrole Hgroup
                                 (i :: a) e es H Hg)).
  destruct es; reflexivity.
Qed.

End MenuGroupRules.

Lemma reached_group_role (classes : list string) (m : menu)
      (l : list interaction) (a : address) (e : entry) :
  lookup_entry m a = Some e -> group_of e <> None ->
  getAttribute (reached classes m l) (1 :: entry_ref a) "aria-role"
  = Some "group".
Proof.
  intros Ha Hg; unfold reached.
  rewrite reached_attribute by (cbv; discriminate).
  apply (labelled_group classes m a e Ha Hg).
Qed.

(** The element tree of a page reached, with its tree items and its
    groups. *)
Lemma reached_tree_groups (classes : list string) (m : menu)
      (l : list interaction) :
  exists m',
    root (reached classes m l) = container classes m' /\
    map shape m' = map shape m /\
    (forall a e, lookup_entry m' a = Some e ->
                 getAttribute (reached classes m l) (link_ref a) "aria-role"
                 = Some "tree-item") /\
    (forall a e, lookup_entry m' a = Some e -> group_of e <> None ->
                 getAttribute (reached classes m l) (1 :: entry_ref a)
                              "aria-role" = Some "group").
Proof.
  destruct (reached_tree classes m l) as (m' & Hr & Hs & Hrole).
  exists m'; repeat split; [exact Hr | exact Hs | exact Hrole|].
  intros a e' Ha' Hg'.
  destruct (same_shape_group m' m a e' (eq_sym Hs) Ha') as (e & Ha & G).
  apply (reached_group_role classes m l a e Ha).
  intros N; apply Hg', G, N.
Qed.

Lemma same_shape_entries (m m' : menu) (a : address) (e : entry) (es : menu) :
  map shape m' = map shape m ->
  lookup_entry m a = Some e -> group_of e = Some es ->
  exists e' es', lookup_entry m' a = Some e' /\ group_of e' = Some es' /\
                 List.length es' = List.length es.
Proof.
  intros Hs Ha Hg.
  destruct (same_shape_lookup m m' a e Hs Ha) as (e' & Ha' & S).
  destruct e as [lb c t g], e' as [lb' c' t' g'].
  rewrite !shape_unfold in S; cbn [group_of] in *; subst g.
  destruct g' as [es'|]; [|discriminate].
  exists (Entry lb' c' t' (Some es')), es'; repeat split; [exact Ha'|].
  injection S as _ _ S.
  apply (f_equal (@List.length entry)) in S; rewrite !length_map in S.
  exact S.
Qed.

Lemma expanded_has_entries (classes : list string) (m : menu)
      (l : list interaction) (a : address) (e : entry) :
  lookup_entry m a = Some e ->
  isExpanded (reached classes m l) (link_ref a) = true ->
  exists es, group_of e = Some es.
Proof.
  intros Ha E.
  destruct (group_of e) as [es|] eqn:G; [eauto|].
  exfalso.
  assert (X : isExpandable (reached classes m l) (link_ref a) = true).
  { unfold isExpandable, hasAttribute; unfold isExpanded in E.
    destruct (getAttribute _ _ "aria-expanded"); [reflexivity | discriminate]. }
  apply (reached_expandable classes m l a e Ha) in X.
  apply X; exact G.
Qed.

(** X19: on the page built from a menu, after any interactions, from an
    expanded Item [setFocusToNextTreeItem] moves the focus to the first
    Item of its Group; when the Group has no entry nothing happens, even
    if another entry follows the Item. *)
Theorem next_into_a_group
        (classes : list string) (m : menu) (l : list interaction)
        (i : nat) (a : address) (e : entry) :
  lookup_entry m (i :: a) = Some e ->
  isExpanded (reached classes m l) (link_ref (i :: a)) = true ->
  match lookup_entry m (0 :: i :: a) with
  | Some _ =>
      setFocusToNextTreeItem (link_ref (i :: a)) (reached classes m l)
      = Ok tt (focus (link_ref (0 :: i :: a)) (reached classes m l)) /\
      activeElement (focus (link_ref (0 :: i :: a)) (reached classes m l))
      = Some (link_ref (0 :: i :: a))
  | None =>
      setFocusToNextTreeItem (link_ref (i :: a)) (reached classes m l)
      = Ok tt (reached classes m l)
  end.
Proof.
  intros H E.
  destruct (expanded_has_entries classes m l _ e H E) as [es Hg].
  destruct (reached_tree_groups classes m l) as (m' & Hr & Hs & Hrole & _).
  destruct (same_shape_entries m m' _ e es Hs H Hg) as (x & es' & Hx & Gx & L).
  rewrite (next_enters_rule _ classes m' Hr Hrole i a x es' Hx Gx E).
  assert (H0 : lookup_entry m (0 :: i :: a) = nth_error es 0).
  { apply lookup_of_entries.
    rewrite (entries_under_lookup m (i :: a) e H); exact Hg. }
  rewrite H0.
  destruct es as [|e1 es], es' as [|e1' es'']; try discriminate;
    cbn [nth_error]; [reflexivity|].
  split; [reflexivity|].
  apply (reached_focus classes m l (0 :: i :: a) e1);
    [rewrite H0; reflexivity | apply handler_frame_refl].
Qed.

Lemma next_into_a_group_witness :
  match lookup_entry handbook [0; 1] with
  | Some _ =>
      setFocusToNextTreeItem (link_ref [1]) (reached [] handbook [])
      = Ok tt (focus (link_ref [0; 1]) (reached [] handbook [])) /\
      activeElement (focus (link_ref [0; 1]) (reached [] handbook []))
      = Some (link_ref [0; 1])
  | None =>
      setFocusToNextTreeItem (link_ref [1]) (reached [] handbook [])
      = Ok tt (reached [] handbook [])
  end.
Proof.
  apply (next_into_a_group
           [] handbook [] 1 []
           (Entry "Guide" [] 0
                  (Some [ leaf "Basics";
                          Entry "Advanced" [] 0
                                (Some [ leaf "Tuning";
                                        Entry "Caching" ["is-active"] 0
                                              None ]) ])));
    [reflexivity | vm_compute; reflexivity].
Defined.

(** X20: on the page built from a menu, after any interactions, when
    the entry before an Item is expanded, [setFocusToPreviousTreeItem]
    moves the focus to the Item of the last entry of that entry's Group
    (whether or not that Item is itself expanded); when that Group has
    no entry it throws a [TypeError] and leaves the page unchanged. *)
Theorem previous_into_a_group
        (classes : list string) (m : menu) (l : list interaction)
        (i : nat) (a : address) (e e' : entry) :
  lookup_entry m (i :: a) = Some e ->
  lookup_entry m (S i :: a) = Some e' ->
  isExpanded (reached classes m l) (link_ref (i :: a)) = true ->
  match group_of e with
  | Some (first :: others) =>
      setFocusToPreviousTreeItem (link_ref (S i :: a)) (reached classes m l)
      = Ok tt (focus (link_ref (List.length others :: i :: a))
                     (reached classes m l)) /\
      activeElement (focus (link_ref (List.length others :: i :: a))
                           (reached classes m l))
      = Some (link_ref (List.length others :: i :: a))
  | _ =>
      setFocusToPreviousTreeItem (link_ref (S i :: a)) (reached classes m l)
      = Throw TypeError (reached classes m l)
  end.
Proof.
  intros H H' E.
  destruct (expanded_has_entries classes m l _ e H E) as [es Hg].
  destruct (reached_tree_groups classes m l)
    as (m' & Hr & Hs & Hrole & Hgroup).
  destruct (same_shape_entries m m' _ e es Hs H Hg) as (x & es' & Hx & Gx & L).
  destruct (same_shape_lookup m m' _ e' Hs H') as (x' & Hx' & _).
  rewrite Hg.
  rewrite (previous_descends_rule _ classes m' Hr Hrole Hgroup i a x x' es'
                                  Hx Hx' Gx E).
  destruct es as [|e1 es], es' as [|e1' es'']; try discriminate;
    [reflexivity|].
  cbn [List.length] in *; injection L as L.
  rewrite Nat.sub_succ, Nat.sub_0_r, L; split; [reflexivity|].
  assert (Hk : exists ek,
             lookup_entry m (List.length es :: i :: a) = Some ek).
  { rewrite (lookup_of_entries m _ (i :: a) (e1 :: es))
      by (rewrite (entries_under_lookup m (i :: a) e H); exact Hg).
    destruct (nth_error (e1 :: es) (List.length es)) as [ek|] eqn:N; [eauto|].
    apply nth_error_None in N; simpl in N; lia. }
  destruct Hk as [ek Hk].
  apply (reached_focus classes m l _ ek Hk _ (handler_frame_refl _)).
Qed.

Lemma previous_into_a_group_witness :
  match group_of
          (Entry "Guide" [] 0
                 (Some [ leaf "Basics";
                         Entry "Advanced" [] 0
                               (Some [ leaf "Tuning";
                                       Entry "Caching" ["is-active"] 0
                                             None ]) ])) with
  | Some (first :: others) =>
      setFocusToPreviousTreeItem (link_ref [2]) (reached [] handbook [])
      = Ok tt (focus (link_ref [List.length others; 1])
                     (reached [] handbook [])) /\
      activeElement (focus (link_ref [List.length others; 1])
                           (reached [] handbook []))
      = Some (link_ref [List.length others; 1])
  | _ =>
      setFocusToPreviousTreeItem (link_ref [2]) (reached [] handbook [])
      = Throw TypeError (reached [] handbook [])
  end.
Proof.
  apply (previous_into_a_group
           [] handbook [] 1 []
           (Entry "Guide" [] 0
                  (Some [ leaf "Basics";
                          Entry "Advanced" [] 0
                                (Some [ leaf "Tuning";
                                        Entry "Caching" ["is-active"] 0
                                              None ]) ]))
           (leaf "About"));
    [reflexivity | reflexivity | vm_compute; reflexivity].
Defined.

(** ** [updateActiveTree]: the owners it does not reach *)





(** ** One round of [adjustLinkAttributes]: the expansion of another
    Item *)




Section AdjustRest.

Variables (t : ref) (s : list ref) (o : ref).

Local Abbreviation run items :=
  (adjustLinkAttributes
     {| treeNode := t; treeItems := items; subMenus := s |}) (only parsing).




End AdjustRest.

(** ** The order of the Items *)

Lemma before_suffix (pre pre' : list nat) (i j : nat) (l : list nat) :
  pre ++ i :: l = pre' ++ j :: l -> i = j.
Proof.
  intros H; apply (f_equal (@rev nat)) in H.
  rewrite !rev_app_distr in H; cbn [rev] in H.
  rewrite <- !app_assoc in H; apply app_inv_head in H.
  injection H as H _; exact H.
Qed.


Lemma links_NoDup (e : entry) : forall r, NoDup (links e r).
Proof.
  induction e as [lb c t g IH] using entry_induction; intros r.
  rewrite links_unfold; destruct g as [es|];
    [|constructor; [intros [] | constructor]].
  assert (H : forall i, NoDup (links_from es i (1 :: r))).
  { clear lb c t; induction es as [|e es IHes]; intros i; cbn [links_from];
      [constructor|].
    apply NoDup_app.
    - apply (Forall_inv IH).
    - apply IHes, (Forall_inv_tail IH).
    - intros x Hx Hy.
      destruct (links_below _ _ _ Hx) as [pre ->].
      apply links_from_below in Hy; destruct Hy as (pre' & j & E & L).
      apply before_suffix in E; lia. }
  constructor; [|apply H].
  intros Hx; apply links_from_below in Hx; destruct Hx as (pre & j & E & _).
  apply (f_equal (@List.length nat)) in E.
  rewrite length_app in E; cbn [List.length] in E; lia.
Qed.

Lemma links_from_NoDup (es : menu) : forall i l, NoDup (links_from es i l).
Proof.
  induction es as [|e es IH]; intros i l; cbn [links_from]; [constructor|].
  apply NoDup_app; [apply links_NoDup | apply IH|].
  intros x Hx Hy.
  destruct (links_below _ _ _ Hx) as [pre ->].
  apply links_from_below in Hy; destruct Hy as (pre' & j & E & L).
  apply before_suffix in E; lia.
Qed.

Section MenuOrder.

Variable m : menu.






Lemma list_owner (k : nat) (b : address) (es : menu) :
  entries_under m (k :: b) = Some es ->
  exists e0, lookup_entry m (k :: b) = Some e0 /\ group_of e0 = Some es.
Proof.
  cbn [entries_under lookup_entry].
  destruct (entries_under m b) as [es'|]; [|discriminate].
  destruct (nth_error es' k) as [e0|]; [|discriminate].
  intros H; exists e0; auto.
Qed.


End MenuOrder.

(** ** The ancestors of an Item *)



Section MenuOwners.

Variables (d : document) (classes : list string) (m : menu).
Hypothesis Hroot : root d = container classes m.



End MenuOwners.

(** ** Active entries below an entry *)

Section MenuActive.

Variable m : menu.



End MenuActive.

(** ** Which Items the setup leaves expanded *)





(** ** Leaving a Group upwards *)

Lemma onKeydown_ArrowUp (this : instance) (x : ref) (d : document) :
  onKeydown this (press "ArrowUp" x) d
  = bind (setFocusToPreviousTreeItem x) (fun _ => ret true) d.
Proof. reflexivity. Qed.

Section MenuClimb.

Variables (d : document) (classes : list string) (m : menu).
Hypothesis Hroot : root d = container classes m.

Lemma owner_before_group (a : address) (e : entry) :
  lookup_entry m a = Some e -> group_of e <> None ->
  previousElementSibling d (list_ref a) = Some (link_ref a).
Proof.
  intros Ha Hg; destruct a as [|i a]; [discriminate|].
  change (list_ref (i :: a)) with (1 :: entry_ref (i :: a)).
  unfold previousElementSibling, childNodes.
  rewrite (node_at_entry d classes m Hroot (i :: a) e Ha), children_of_item.
  destruct (group_of e); [reflexivity | contradiction].
Qed.

Lemma previous_climbs_rule (j : nat) (a : address) (e : entry) :
  lookup_entry m (0 :: j :: a) = Some e ->
  setFocusToPreviousTreeItem (link_ref (0 :: j :: a)) d
  = Ok tt (focus (link_ref (j :: a)) d).
Proof.
  intros H.
  destruct (lookup_owner m 0 j a e H) as (e0 & es & H0 & G & _).
  apply (setFocusToPreviousTreeItem_climbs
           d _ (entry_ref (0 :: j :: a)) (list_ref (j :: a)));
    [reflexivity | reflexivity | reflexivity|].
  apply (owner_before_group (j :: a) e0 H0); rewrite G; discriminate.
Qed.

End MenuClimb.

(** X22: on the page built from a menu, after any interactions, from the
    first Item of a Group, expanded or not,
    [setFocusToPreviousTreeItem] moves the focus to the Item owning the
    Group, and so does the ArrowUp key, which is consumed. *)
Theorem previous_from_the_first_child
        (classes : list string) (m : menu) (l : list interaction)
        (j : nat) (a : address) (e : entry) :
  lookup_entry m (0 :: j :: a) = Some e ->
  setFocusToPreviousTreeItem (link_ref (0 :: j :: a)) (reached classes m l)
  = Ok tt (focus (link_ref (j :: a)) (reached classes m l)) /\
  onKeydown (menu_view classes m) (press "ArrowUp" (link_ref (0 :: j :: a)))
            (reached classes m l)
  = Ok true (focus (link_ref (j :: a)) (reached classes m l)) /\
  activeElement (focus (link_ref (j :: a)) (reached classes m l))
  = Some (link_ref (j :: a)).
Proof.
  intros H.
  destruct (reached_tree classes m l) as (m' & Hr & Hs & _).
  destruct (same_shape_lookup m m' _ e Hs H) as (x & Hx & _).
  destruct (lookup_owner m 0 j a e H) as (e0 & es & H0 & _).
  pose proof (previous_climbs_rule _ classes m' Hr j a x Hx) as P.
  split; [exact P | split].
  - rewrite onKeydown_ArrowUp; unfold bind; rewrite P; reflexivity.
  - apply (reached_focus classes m l _ e0 H0 _ (handler_frame_refl _)).
Qed.

Lemma previous_from_the_first_child_witness :
  setFocusToPreviousTreeItem (link_ref [0; 1; 1])
                             (reached [] handbook handbook_session)
  = Ok tt (focus (link_ref [1; 1]) (reached [] handbook handbook_session)) /\
  onKeydown (menu_view [] handbook) (press "ArrowUp" (link_ref [0; 1; 1]))
            (reached [] handbook handbook_session)
  = Ok true (focus (link_ref [1; 1])
                   (reached [] handbook handbook_session)) /\
  activeElement (focus (link_ref [1; 1])
                       (reached [] handbook handbook_session))
  = Some (link_ref [1; 1]).
Proof.
  apply (previous_from_the_first_child
           [] handbook handbook_session 1 [1] (leaf "Tuning")).
  reflexivity.
Defined.

(** ** The ArrowDown key *)

Lemma onKeydown_ArrowDown (this : instance) (x : ref) (d : document) :
  onKeydown this (press "ArrowDown" x) d
  = bind (onArrowDown x) (fun _ => ret true) d.
Proof. reflexivity. Qed.

(** What [':scope > li:last-of-type > [aria-role="tree-item"]'] asks of
    an element. *)
Lemma last_group_item_chain (d : document) (scope x : ref) :
  matches d scope sel_last_group_item x = true <->
  exists k j,
    x = k :: j :: scope /\
    matches_compound d x tree_item = true /\
    matches_compound d (j :: scope) [Tag "li"; LastOfType] = true.
Proof.
  change (matches d scope sel_last_group_item x)
    with (matches_chain d scope [tree_item; [Tag "li"; LastOfType]] x).
  split.
  - destruct x as [|k [|j p]]; cbn [matches_chain];
      rewrite ?andb_false_r; try discriminate.
    rewrite !andb_true_iff, ref_eqb_eq; intros (H1 & H2 & ->).
    exists k, j; auto.
  - intros (k & j & -> & H1 & H2); cbn [matches_chain].
    rewrite H1, H2, ref_eqb_refl; reflexivity.
Qed.

Lemma shape_classes (e e' : entry) :
  shape e' = shape e -> classes_of e' = classes_of e.
Proof.
  destruct e, e'; cbn [shape classes_of]; intros H; injection H; auto.
Qed.

Section MenuArrowDown.

Variables (d : document) (classes : list string) (m : menu).
Hypothesis Hroot : root d = container classes m.
Hypothesis Hrole :
  forall a e, lookup_entry m a = Some e ->
              getAttribute d (link_ref a) "aria-role" = Some "tree-item".
Hypothesis Hgroup :
  forall a e, lookup_entry m a = Some e -> group_of e <> None ->
              getAttribute d (1 :: entry_ref a) "aria-role" = Some "group".

(** The Item of the last entry of a list is what the selector finds
    below the list. *)
Lemma last_item_of_list (i : nat) (a : address) (e : entry) :
  lookup_entry m (i :: a) = Some e ->
  lookup_entry m (S i :: a) = None ->
  querySelector d (list_ref a) sel_last_group_item
  = Some (link_ref (i :: a)).
Proof.
  intros Hi Hlast.
  destruct (entries_of_lookup m i a e Hi) as (es & Hes & Hj).
  rewrite (lookup_of_entries m (S i) a es Hes) in Hlast.
  unfold querySelector, querySelectorAll.
  apply hd_filter_unique.
  - apply descendant_member.
    exists [i; 0], (link (label_of e) (classes_of e) (toggles_of e)).
    split; [discriminate|]; split; [reflexivity|]; split; [|reflexivity].
    apply (node_at_link d classes m Hroot (i :: a) e Hi).
  - apply last_group_item_chain.
    exists 0, i; split; [reflexivity | split].
    + apply (link_is_tree_item d classes m Hroot Hrole (i :: a) e Hi).
    + apply (entry_is_last_of_type d classes m Hroot i a es e Hes Hj Hlast).
  - intros x _ F; apply last_group_item_chain in F.
    destruct F as (k & j & -> & H1 & H2).
    unfold matches_compound in H2.
    destruct (tagName d (j :: list_ref a)) as [t|] eqn:T; [|discriminate].
    destruct (entry_of_list d classes m Hroot j a es t Hes T) as [ej Hej].
    cbn [forallb] in H2; rewrite !andb_true_iff in H2.
    destruct H2 as (_ & H2 & _); cbn [matches_simple] in H2.
    pose proof (last_of_type_entry d classes m Hroot j a es Hes H2) as Hjl.
    assert (Hjb : lookup_entry m (j :: a) = Some ej)
      by (rewrite (lookup_of_entries m j a es Hes); exact Hej).
    assert (K : k = 0).
    { change (j :: list_ref a) with (entry_ref (j :: a)) in H1.
      unfold matches_compound, tree_item, forallb, matches_simple in H1.
      destruct (tagName d (k :: entry_ref (j :: a))) as [t'|] eqn:T';
        [|discriminate].
      destruct (child_of_entry d classes m Hroot k (j :: a) ej t' Hjb T')
        as [[-> _] | (-> & _ & G)]; [reflexivity|].
      rewrite (Hgroup (j :: a) ej Hjb G) in H1; discriminate. }
    assert (J : j = i).
    { apply nth_error_None in Hjl, Hlast.
      assert (j < List.length es)
        by (apply nth_error_Some; rewrite Hej; discriminate).
      assert (i < List.length es)
        by (apply nth_error_Some; rewrite Hj; discriminate).
      lia. }
    subst k j; reflexivity.
Qed.

(** The Item of an entry that is not the last of its list is not what
    the selector finds. *)
Lemma not_last_item_of_list (i : nat) (a : address) (e e' : entry) :
  lookup_entry m (i :: a) = Some e ->
  lookup_entry m (S i :: a) = Some e' ->
  same_element (Some (link_ref (i :: a)))
               (querySelector d (list_ref a) sel_last_group_item) = false.
Proof.
  intros Hi Hnext.
  destruct (entries_of_lookup m i a e Hi) as (es & Hes & Hj).
  rewrite (lookup_of_entries m (S i) a es Hes) in Hnext.
  unfold querySelector.
  destruct (querySelectorAll d (list_ref a) sel_last_group_item)
    as [|x r] eqn:Q; [reflexivity|].
  cbn [hd_error same_element].
  destruct (ref_eqb (link_ref (i :: a)) x) eqn:E; [|reflexivity].
  apply ref_eqb_eq in E; subst x.
  assert (F : In (link_ref (i :: a))
                 (querySelectorAll d (list_ref a) sel_last_group_item))
    by (rewrite Q; left; reflexivity).
  apply filter_In in F; destruct F as [_ F].
  apply last_group_item_chain in F.
  destruct F as (k & j & E & _ & H2).
  unfold link_ref in E; rewrite entry_ref_cons in E.
  injection E as <- <-.
  unfold matches_compound in H2.
  destruct (tagName d (i :: list_ref a)); [|discriminate].
  cbn [forallb] in H2; rewrite !andb_true_iff in H2.
  destruct H2 as (_ & H2 & _); cbn [matches_simple] in H2.
  rewrite (last_of_type_entry d classes m Hroot i a es Hes H2) in Hnext.
  discriminate.
Qed.

(** Above a link, only the container can carry the class
    [book-navigation]. *)
Lemma closest_section_list (a : address) (es : menu) :
  entries_under m a = Some es ->
  closest d (list_ref a) [Class "book-navigation"]
  = if existsb (String.eqb "book-navigation") classes then Some [] else None.
Proof.
  revert es; induction a as [|i a IH]; intros es Hes.
  - cbn [list_ref closest]; unfold matches_compound, tagName.
    rewrite (node_at_root_list d classes m Hroot),
      (node_at_container d classes m Hroot).
    unfold root_list, container, forallb, matches_simple, classList_contains.
    rewrite (node_at_root_list d classes m Hroot),
      (node_at_container d classes m Hroot).
    unfold root_list, container.
    change (existsb (String.eqb "book-navigation") ["menu"; "menu--level-1"])
      with false.
    cbn [andb]; rewrite andb_true_r; reflexivity.
  - destruct (list_owner m i a es Hes) as (e0 & H0 & Hg).
    destruct (entries_of_lookup m i a e0 H0) as (es' & Hes' & _).
    assert (X1 : matches_compound d (1 :: i :: list_ref a)
                                  [Class "book-navigation"] = false).
    { change (1 :: i :: list_ref a) with (1 :: entry_ref (i :: a)).
      unfold matches_compound, tagName, forallb, matches_simple,
        classList_contains.
      rewrite (node_at_group d classes m Hroot (i :: a) e0 es H0 Hg).
      reflexivity. }
    assert (X2 : matches_compound d (i :: list_ref a)
                                  [Class "book-navigation"] = false).
    { change (i :: list_ref a) with (entry_ref (i :: a)).
      unfold matches_compound, tagName, forallb, matches_simple,
        classList_contains.
      rewrite (node_at_entry d classes m Hroot (i :: a) e0 H0).
      destruct e0; reflexivity. }
    cbn [list_ref closest]; rewrite X1, X2; apply (IH es' Hes').
Qed.

Lemma closest_section (i : nat) (a : address) (e : entry) :
  lookup_entry m (i :: a) = Some e ->
  closest d (link_ref (i :: a)) [Class "book-navigation"]
  = if existsb (String.eqb "book-navigation") (classes_of e)
    then Some (link_ref (i :: a))
    else if existsb (String.eqb "book-navigation") classes
         then Some [] else None.
Proof.
  intros Hi.
  destruct (entries_of_lookup m i a e Hi) as (es & Hes & _).
  assert (X1 : matches_compound d (0 :: i :: list_ref a)
                                [Class "book-navigation"]
               = existsb (String.eqb "book-navigation") (classes_of e)).
  { change (0 :: i :: list_ref a) with (link_ref (i :: a)).
    unfold matches_compound, tagName, forallb, matches_simple,
      classList_contains.
    rewrite (node_at_link d classes m Hroot (i :: a) e Hi); unfold link.
    rewrite andb_true_r; cbn [existsb].
    change (String.eqb "book-navigation" "menu__link") with false.
    reflexivity. }
  assert (X2 : matches_compound d (i :: list_ref a)
                                [Class "book-navigation"] = false).
  { change (i :: list_ref a) with (entry_ref (i :: a)).
    unfold matches_compound, tagName, forallb, matches_simple,
      classList_contains.
    rewrite (node_at_entry d classes m Hroot (i :: a) e Hi).
    destruct e; reflexivity. }
  unfold link_ref; cbn [entry_ref closest]; rewrite X1.
  destruct (existsb (String.eqb "book-navigation") (classes_of e));
    [reflexivity|].
  rewrite X2; apply (closest_section_list a es Hes).
Qed.

Lemma link_has_class (a : address) (e : entry) (c : string) :
  lookup_entry m a = Some e ->
  classList_contains d (link_ref a) c
  = existsb (String.eqb c) ("menu__link" :: classes_of e).
Proof.
  intros H; unfold classList_contains.
  rewrite (node_at_link d classes m Hroot a e H); reflexivity.
Qed.

(** The ArrowDown branch on an Item of the menu. *)
Lemma onArrowDown_rule (i : nat) (a : address) (e : entry) :
  lookup_entry m (i :: a) = Some e ->
  onArrowDown (link_ref (i :: a)) d =
  if existsb (String.eqb "menu__link--level-2") (classes_of e)
     && negb (is_some (lookup_entry m (S i :: a)))
  then if existsb (String.eqb "book-navigation") (classes_of e)
       then match group_of e with
            | Some _ =>
                Ok tt match querySelector d (1 :: entry_ref (i :: a))
                                          sel_level_1 with
                      | Some y => focus y d
                      | None => d
                      end
            | None => Ok tt d
            end
       else if existsb (String.eqb "book-navigation") classes
            then Ok tt d else Throw TypeError d
  else setFocusToNextTreeItem (link_ref (i :: a)) d.
Proof.
  intros Hi.
  pose proof (link_has_class (i :: a) e "menu__link--level-2" Hi) as L.
  cbn [existsb] in L.
  change (String.eqb "menu__link--level-2" "menu__link") with false in L.
  cbn [orb] in L.
  pose proof (closest_list d classes m Hroot i a e Hi) as Hul.
  pose proof (closest_section i a e Hi) as Hsec.
  pose proof (next_of_link d classes m Hroot (i :: a) e Hi) as Hnext.
  unfold onArrowDown, focus_if_present, andM, fetch, bind, read, modify,
    nonNull, ret, throw.
  rewrite L.
  destruct (existsb (String.eqb "menu__link--level-2") (classes_of e)).
  - cbv beta iota; rewrite Hul; cbv beta iota.
    destruct (lookup_entry m (S i :: a)) as [e'|] eqn:N.
    + rewrite (not_last_item_of_list i a e e' Hi N); cbn [andb is_some negb].
      destruct (setFocusToNextTreeItem (link_ref (i :: a)) d); reflexivity.
    + rewrite (last_item_of_list i a e Hi N).
      cbn [same_element andb is_some negb]; rewrite ref_eqb_refl.
      cbv beta iota; rewrite Hsec.
      destruct (existsb (String.eqb "book-navigation") (classes_of e)).
      * cbv beta iota; rewrite Hnext.
        destruct (group_of e); [|reflexivity].
        destruct (querySelector d (1 :: entry_ref (i :: a)) sel_level_1);
          reflexivity.
      * destruct (existsb (String.eqb "book-navigation") classes);
          reflexivity.
  - cbn [andb]; cbv beta iota.
    destruct (setFocusToNextTreeItem (link_ref (i :: a)) d); reflexivity.
Qed.

End MenuArrowDown.

(** X23: on the page built from a menu, after any interactions, the
    ArrowDown key on an Item that carries the class
    [menu__link--level-2] and is the last of its list never calls
    [setFocusToNextTreeItem].  When the link itself carries the class
    [book-navigation], the focus moves to the first element with the
    class [menu__link--level-1] inside its Group, if it has a Group
    holding one, and else stays; otherwise the event is consumed with
    the page unchanged when the container carries [book-navigation],
    and a [TypeError] is thrown when it does not.  On every Item that
    lacks the class or is not the last of its list the key moves the
    focus as [setFocusToNextTreeItem] does. *)
Theorem arrow_down_on_the_last_of_level_2
        (classes : list string) (m : menu) (l : list interaction)
        (i : nat) (a : address) (e : entry) :
  lookup_entry m (i :: a) = Some e ->
  onKeydown (menu_view classes m) (press "ArrowDown" (link_ref (i :: a)))
            (reached classes m l)
  = if existsb (String.eqb "menu__link--level-2") (classes_of e)
       && negb (is_some (lookup_entry m (S i :: a)))
    then if existsb (String.eqb "book-navigation") (classes_of e)
         then match group_of e with
              | Some _ =>
                  Ok true
                     match querySelector (reached classes m l)
                                         (1 :: entry_ref (i :: a))
                                         sel_level_1 with
                     | Some y => focus y (reached classes m l)
                     | None => reached classes m l
                     end
              | None => Ok true (reached classes m l)
              end
         else if existsb (String.eqb "book-navigation") classes
              then Ok true (reached classes m l)
              else Throw TypeError (reached classes m l)
    else bind (setFocusToNextTreeItem (link_ref (i :: a)))
              (fun _ => ret true) (reached classes m l).
Proof.
  intros Hi.
  destruct (reached_tree_groups classes m l) as (m' & Hr & Hs & Hrole & Hgrp).
  destruct (same_shape_lookup m m' _ e Hs Hi) as (x & Hx & Hsx).
  pose proof (shape_classes e x Hsx) as Hcl.
  assert (Hg : is_some (group_of x) = is_some (group_of e)).
  { apply (f_equal group_of) in Hsx; rewrite !group_of_shape in Hsx.
    destruct (group_of x), (group_of e); try discriminate; reflexivity. }
  assert (Hn : is_some (lookup_entry m' (S i :: a))
               = is_some (lookup_entry m (S i :: a))).
  { destruct (lookup_entry m (S i :: a)) as [e'|] eqn:N.
    - destruct (same_shape_lookup m m' _ e' Hs N) as (x' & -> & _).
      reflexivity.
    - rewrite (same_shape_defined m m' _ Hs N); reflexivity. }
  rewrite onKeydown_ArrowDown; unfold bind at 1.
  rewrite (onArrowDown_rule _ classes m' Hr Hrole Hgrp i a x Hx).
  rewrite Hcl, Hn.
  destruct (existsb (String.eqb "menu__link--level-2") (classes_of e)
            && negb (is_some (lookup_entry m (S i :: a)))); [|reflexivity].
  destruct (existsb (String.eqb "book-navigation") (classes_of e)).
  - destruct (group_of x), (group_of e); try discriminate; reflexivity.
  - destruct (existsb (String.eqb "book-navigation") classes); reflexivity.
Qed.

Lemma arrow_down_on_the_last_of_level_2_witness :
  onKeydown (menu_view ["book-navigation"] book)
            (press "ArrowDown" (link_ref [1; 0]))
            (reached ["book-navigation"] book [Click [1; 0; 0; 0]])
  = Ok true (reached ["book-navigation"] book [Click [1; 0; 0; 0]]) /\
  onKeydown (menu_view [] book) (press "ArrowDown" (link_ref [1; 0]))
            (reached [] book [])
  = Throw TypeError (reached [] book []) /\
  onKeydown (menu_view [] shelf) (press "ArrowDown" (link_ref [1]))
            (reached [] shelf [])
  = Ok true (focus (link_ref [0; 1]) (reached [] shelf [])).
Proof.
  split; [|split].
  - apply (arrow_down_on_the_last_of_level_2
             ["book-navigation"] book [Click [1; 0; 0; 0]] 1 [0]
             (Entry "Closing" ["menu__link--level-2"] 0 None)).
    reflexivity.
  - apply (arrow_down_on_the_last_of_level_2
             [] book [] 1 [0]
             (Entry "Closing" ["menu__link--level-2"] 0 None)).
    reflexivity.
  - etransitivity.
    + apply (arrow_down_on_the_last_of_level_2
               [] shelf [] 1 []
               (Entry "Volume" ["menu__link--level-2"; "book-navigation"] 0
                      (Some [Entry "Chapter" ["menu__link--level-1"] 0
                                   None]))).
      reflexivity.
    + vm_compute; reflexivity.
Defined.

(** ** The triggers *)

Lemma nth_error_update_nth (A : Type) (f : A -> A) (l : list A) :
  forall i j,
    nth_error (update_nth j f l) i
    = if Nat.eqb i j then option_map f (nth_error l i) else nth_error l i.
Proof.
  induction l as [|x l IH]; intros [|i] [|j]; simpl; try reflexivity.
  - destruct (Nat.eqb i j); reflexivity.
  - apply IH.
Qed.

Lemma entries_at_snoc (fa : list nat) (i : nat) :
  forall es,
    entries_at (fa ++ [i]) es
    = match entries_at fa es with
      | Some es' =>
          match nth_error es' i with
          | Some e => group_of e
          | None => None
          end
      | None => None
      end.
Proof.
  induction fa as [|j fa IH]; intros es; cbn [app entries_at].
  - destruct (nth_error es i) as [e|]; [|reflexivity].
    destruct (group_of e); reflexivity.
  - destruct (nth_error es j) as [e|]; [|reflexivity].
    destruct (group_of e) as [es'|]; [apply IH | reflexivity].
Qed.

Lemma entries_under_forward (m : menu) (a : address) :
  entries_under m a = entries_at (rev a) m.
Proof.
  induction a as [|i a IH]; [reflexivity|].
  cbn [entries_under rev]; rewrite entries_at_snoc, IH; reflexivity.
Qed.

(** One more trigger at [fa]: the entries of every Group keep their
    places, and only the entry at [fa] has one more trigger. *)
Lemma entries_at_add_trigger (fb : list nat) :
  forall fa es l,
    entries_at fb es = Some l ->
    exists l',
      entries_at fb (add_trigger fa es) = Some l' /\
      forall i e,
        nth_error l i = Some e ->
        exists e',
          nth_error l' i = Some e' /\
          (fa = fb ++ [i] -> toggles_of e' = S (toggles_of e)) /\
          (fa <> fb ++ [i] -> toggles_of e' = toggles_of e).
Proof.
  induction fb as [|k fb IH]; intros fa es l.
  - cbn [entries_at app]; intros H; injection H as <-.
    exists (add_trigger fa es); split; [reflexivity|].
    intros i e Hi; destruct fa as [|j fa].
    + exists e; repeat split; [exact Hi | discriminate].
    + cbn [add_trigger]; rewrite nth_error_update_nth, Hi.
      destruct (Nat.eqb_spec i j) as [-> | N].
      * destruct e as [lb c t g]; cbn [option_map].
        destruct fa as [|j' fa].
        -- eexists; split; [reflexivity|]; split; [reflexivity|].
           intros X; contradiction.
        -- eexists; split; [reflexivity|]; split; [discriminate | reflexivity].
      * exists e; split; [reflexivity|]; split; [|reflexivity].
        intros X; injection X as X _; symmetry in X; contradiction.
  - cbn [entries_at].
    destruct (nth_error es k) as [e0|] eqn:Ek; [|discriminate].
    destruct (group_of e0) as [es0|] eqn:G; [|discriminate].
    intros H; destruct fa as [|j fa].
    + exists l; cbn [add_trigger entries_at]; rewrite Ek, G.
      split; [exact H|].
      intros i e Hi; exists e; repeat split; [exact Hi | discriminate].
    + cbn [add_trigger entries_at]; rewrite nth_error_update_nth, Ek.
      destruct (Nat.eqb_spec k j) as [-> | N].
      * destruct e0 as [lb c t g]; cbn [group_of] in G; subst g.
        cbn [option_map]; destruct fa as [|j' fa]; cbn [group_of].
        -- exists l; split; [exact H|].
           intros i e Hi; exists e; split; [exact Hi|].
           split; [|reflexivity].
           intros X; apply (f_equal (@List.length nat)) in X.
           rewrite <- app_comm_cons in X; cbn [List.length] in X.
           rewrite length_app in X; cbn [List.length] in X; lia.
        -- destruct (IH (j' :: fa) es0 l H) as (l' & Hl' & Hall).
           exists l'; split; [exact Hl'|].
           intros i e Hi; destruct (Hall i e Hi) as (e' & He' & Y & Nn).
           exists e'; split; [exact He'|]; split.
           ++ intros X; rewrite <- app_comm_cons in X.
              injection X as X; apply Y; exact X.
           ++ intros X; apply Nn; intros Z; apply X.
              rewrite <- app_comm_cons, Z; reflexivity.
      * rewrite G; exists l; split; [exact H|].
        intros i e Hi; exists e; split; [exact Hi|]; split; [|reflexivity].
        intros X; rewrite <- app_comm_cons in X; injection X as X _.
        symmetry in X; contradiction.
Qed.

Lemma toggles_add_trigger (m : menu) (a b : address) (e : entry) :
  lookup_entry m b = Some e ->
  exists e',
    lookup_entry (add_trigger (rev a) m) b = Some e' /\
    toggles_of e' = toggles_of e + (if ref_eqb a b then 1 else 0).
Proof.
  destruct b as [|i b]; [discriminate|]; intros H.
  destruct (entries_of_lookup m i b e H) as (l & Hl & Hi).
  rewrite entries_under_forward in Hl.
  destruct (entries_at_add_trigger (rev b) (rev a) m l Hl)
    as (l' & Hl' & Hall).
  destruct (Hall i e Hi) as (e' & He' & Y & N).
  exists e'; split.
  - cbn [lookup_entry]; rewrite entries_under_forward, Hl'; exact He'.
  - destruct (ref_eqb a (i :: b)) eqn:E.
    + apply ref_eqb_eq in E; subst a; rewrite Y by reflexivity; lia.
    + rewrite N; [lia|].
      intros X; change (rev b ++ [i]) with (rev (i :: b)) in X.
      apply (f_equal (@rev nat)) in X; rewrite !rev_involutive in X.
      subst a; rewrite ref_eqb_refl in E; discriminate.
Qed.

Lemma attachTriggers_cons (t x : ref) (P s : list ref) (d : document) :
  attachTriggers {| treeNode := t; treeItems := x :: P; subMenus := s |} d
  = match getGroupNode x d with
    | Ok (Some _) d1 =>
        attachTriggers
          {| treeNode := t; treeItems := P; subMenus := s |}
          (addEventListener (appended_ref d1 x) "click" "onTriggerClick"
                            (appendChild x trigger d1))
    | Ok None d1 =>
        attachTriggers {| treeNode := t; treeItems := P; subMenus := s |} d1
    | Throw err d1 => Throw err d1
    end.
Proof.
  unfold attachTriggers; cbn [treeItems forEach]; unfold bind at 1 2.
  destruct (getGroupNode x d) as [[g|] d1 | err d1]; reflexivity.
Qed.

Lemma hd_filter_some (A : Type) (f : A -> bool) (l : list A) (y : A) :
  In y l -> f y = true -> exists z, hd_error (filter f l) = Some z.
Proof.
  intros Hy Hf.
  assert (H : In y (filter f l)) by (apply filter_In; auto).
  destruct (filter f l) as [|z r]; [destruct H | exists z; reflexivity].
Qed.

Lemma not_among (x : ref) (P : list ref) :
  ~ In x P -> existsb (ref_eqb x) P = false.
Proof.
  intros H; destruct (existsb (ref_eqb x) P) eqn:E; [|reflexivity].
  apply existsb_exists in E; destruct E as (y & Hy & Hxy).
  apply ref_eqb_eq in Hxy; subst y; contradiction.
Qed.

Lemma same_labels_trigger (d0 d : document) (x : ref) :
  same_labels d0 d ->
  same_labels d0 (addEventListener (appended_ref d x) "click" "onTriggerClick"
                                   (appendChild x trigger d)).
Proof.
  intros H e n Hn.
  change (getAttribute (appendChild x trigger d) e n = getAttribute d0 e n).
  rewrite getAttribute_appendChild.
  destruct (String.eqb_spec (JsString.toLowerCase n) "tabindex") as [E | E];
    [contradiction|].
  rewrite andb_false_r; apply H; exact Hn.
Qed.

Section Triggers.

Variables (classes : list string) (m : menu) (d0 : document).
Variables (t : ref) (s : list ref).

(** Before the triggers are attached, an [aria-owns] names the Group
    of its Item. *)
Hypothesis Howns :
  forall a e id,
    lookup_entry m a = Some e ->
    getAttribute d0 (link_ref a) "aria-owns" = Some id ->
    group_of e <> None /\
    getAttribute d0 (1 :: entry_ref a) "id" = Some id.

(** [getGroupNode] finds a Group exactly for the Items whose
    [aria-owns] names one. *)
Lemma getGroupNode_found (d : document) (m1 : menu) (a : address)
      (e : entry) :
  root d = container classes m1 -> map shape m1 = map shape m ->
  same_labels d0 d ->
  lookup_entry m a = Some e ->
  unusable_owns d0 (link_ref a) = false ->
  exists g, getGroupNode (link_ref a) d = Ok g d /\
            is_some g = names_group d0 (link_ref a).
Proof.
  intros Hr Hs Hl Ha Hu.
  unfold getGroupNode, bind, read, ret, names_group.
  unfold unusable_owns in Hu.
  rewrite (Hl (link_ref a) "aria-owns") by (cbv; discriminate).
  destruct (getAttribute d0 (link_ref a) "aria-owns") as [id|] eqn:O;
    [|exists None; auto].
  destruct (JsString.is_empty id); [exists None; auto|].
  cbn [negb andb] in Hu; apply negb_false_iff in Hu; rewrite Hu.
  destruct (Howns a e id Ha O) as [Hg Hid].
  destruct (same_shape_group m m1 a e Hs Ha) as (e1 & H1 & G1).
  destruct (group_of e1) as [es1|] eqn:E1;
    [|exfalso; apply Hg, G1; reflexivity].
  pose proof (node_at_group d classes m1 Hr a e1 es1 H1 E1) as Hn.
  destruct (hd_filter_some
              ref (fun x => matches_compound d x [AttrEq "id" id])
              ([] :: descendants d []) (1 :: entry_ref a)) as [z Hz].
  - right; apply descendant_member.
    exists (rev (1 :: entry_ref a)), (Element "ul" ["menu"] (map item es1)).
    split; [|split; [|split; [exact Hn | reflexivity]]].
    + intros X; apply (f_equal (@rev nat)) in X.
      rewrite rev_involutive in X; discriminate.
    + rewrite rev_involutive, app_nil_r; reflexivity.
  - unfold matches_compound, tagName, forallb, matches_simple.
    rewrite Hn, (Hl (1 :: entry_ref a) "id") by (cbv; discriminate).
    rewrite Hid; cbn [option_eqb]; rewrite String.eqb_refl; reflexivity.
  - exists (Some z); split; [|reflexivity].
    unfold getElementById; rewrite Hz; reflexivity.
Qed.

(** What [attachTriggers] adds, Item by Item. *)
Lemma attachTriggers_adds (P : list ref) :
  forall d m1,
    NoDup P ->
    (forall x, In x P -> In x (links_from m 0 [0])) ->
    (forall x, In x P -> unusable_owns d0 x = false) ->
    root d = container classes m1 -> map shape m1 = map shape m ->
    same_labels d0 d ->
    exists d' m2,
      attachTriggers {| treeNode := t; treeItems := P; subMenus := s |} d
      = Ok tt d' /\
      root d' = container classes m2 /\ map shape m2 = map shape m /\
      (forall a e1,
          lookup_entry m1 a = Some e1 ->
          exists e2,
            lookup_entry m2 a = Some e2 /\
            toggles_of e2
            = toggles_of e1
              + (if existsb (ref_eqb (link_ref a)) P
                    && names_group d0 (link_ref a)
                 then 1 else 0)) /\
      (forall a e1,
          lookup_entry m1 a = Some e1 -> In (link_ref a) P ->
          names_group d0 (link_ref a) = true ->
          In (S (toggles_of e1) :: link_ref a, "click", "onTriggerClick")
             (listeners d')) /\
      (forall r, In r (listeners d) -> In r (listeners d')) /\
      (forall r,
          In r (listeners d') ->
          In r (listeners d) \/
          exists a e1,
            lookup_entry m1 a = Some e1 /\ In (link_ref a) P /\
            names_group d0 (link_ref a) = true /\
            r = (S (toggles_of e1) :: link_ref a, "click",
                 "onTriggerClick")).
Proof.
  induction P as [|x P IH]; intros d m1 Hnd Hin Hok Hr Hs Hl.
  - exists d, m1; split; [reflexivity|].
    split; [exact Hr|]; split; [exact Hs|]; split; [|split].
    + intros a e1 H1; exists e1; split; [exact H1|].
      cbn [existsb andb]; lia.
    + intros a e1 _ [].
    + split; auto.
  - apply NoDup_cons_iff in Hnd; destruct Hnd as [Hx Hnd].
    destruct (item_is_link m x (Hin x (or_introl eq_refl)))
      as (a0 & e0 & -> & Ha0).
    assert (Hne : a0 <> []) by (intros ->; discriminate).
    destruct (getGroupNode_found d m1 a0 e0 Hr Hs Hl Ha0
                                 (Hok _ (or_introl eq_refl)))
      as (g & Hg & Hnames).
    rewrite attachTriggers_cons, Hg.
    destruct g as [g|]; cbn [is_some] in Hnames; symmetry in Hnames.
    + set (d1 := addEventListener (appended_ref d (link_ref a0)) "click"
                                  "onTriggerClick"
                                  (appendChild (link_ref a0) trigger d)).
      assert (Hr1 : root d1 = container classes (add_trigger (rev a0) m1))
        by (apply (root_appendChild d classes m1 a0 Hr Hne)).
      assert (Hs1 : map shape (add_trigger (rev a0) m1) = map shape m)
        by (rewrite add_trigger_shape; exact Hs).
      destruct (IH d1 (add_trigger (rev a0) m1) Hnd
                   (fun y Hy => Hin y (or_intror Hy))
                   (fun y Hy => Hok y (or_intror Hy))
                   Hr1 Hs1 (same_labels_trigger d0 d (link_ref a0) Hl))
        as (d' & m2 & Hrun & Hr' & Hs' & Htog & Hlis & Hkeep & Honly).
      exists d', m2; split; [exact Hrun|].
      split; [exact Hr'|]; split; [exact Hs'|]; split; [|split; [|split]].
      * intros a e1 H1.
        destruct (toggles_add_trigger m1 a0 a e1 H1) as (e1' & H1' & T1).
        destruct (Htog a e1' H1') as (e2 & H2 & T2).
        exists e2; split; [exact H2|].
        rewrite T2, T1; cbn [existsb].
        destruct (ref_eqb a0 a) eqn:E.
        -- apply ref_eqb_eq in E; subst a0.
           rewrite ref_eqb_refl, (not_among _ _ Hx), Hnames.
           cbn [orb andb]; lia.
        -- assert (E' : ref_eqb (link_ref a) (link_ref a0) = false).
           { apply ref_eqb_neq; intros X; apply link_ref_injective in X.
             subst a0; rewrite ref_eqb_refl in E; discriminate. }
           rewrite E'; cbn [orb]; lia.
      * intros a e1 H1 [X | Hp] Hn.
        -- apply link_ref_injective in X; subst a0.
           apply Hkeep; left; unfold appended_ref, childNodes.
           rewrite (node_at_link d classes m1 Hr a e1 H1).
           unfold link; cbn [children_of List.length].
           rewrite repeat_length; reflexivity.
        -- destruct (toggles_add_trigger m1 a0 a e1 H1) as (e1' & H1' & T1).
           pose proof (Hlis a e1' H1' Hp Hn) as L.
           assert (E : ref_eqb a0 a = false).
           { apply ref_eqb_neq; intros ->; contradiction. }
           rewrite E, Nat.add_0_r in T1; rewrite T1 in L; exact L.
      * intros r Hr0; apply Hkeep; right; exact Hr0.
      * intros r Hr0.
        destruct (same_shape_lookup m m1 a0 e0 Hs Ha0) as (x0 & Hx0 & _).
        destruct (Honly r Hr0) as [[X | X] | (a & e1' & H1' & Hp & Hn & ->)].
        -- right; exists a0, x0; split; [exact Hx0|].
           split; [left; reflexivity|]; split; [exact Hnames|].
           rewrite <- X; unfold appended_ref, childNodes.
           rewrite (node_at_link d classes m1 Hr a0 x0 Hx0).
           unfold link; cbn [children_of List.length].
           rewrite repeat_length; reflexivity.
        -- left; exact X.
        -- destruct (same_shape_lookup
                       (add_trigger (rev a0) m1) m1 a e1'
                       (eq_sym (add_trigger_shape (rev a0) m1)) H1')
             as (e1 & H1 & _).
           destruct (toggles_add_trigger m1 a0 a e1 H1) as (e1'' & H1'' & T1).
           rewrite H1' in H1''; injection H1'' as <-.
           assert (E : ref_eqb a0 a = false).
           { apply ref_eqb_neq; intros ->; contradiction. }
           rewrite E, Nat.add_0_r in T1.
           right; exists a, e1; split; [exact H1|].
           split; [right; exact Hp|]; split; [exact Hn|].
           rewrite T1; reflexivity.
    + destruct (IH d m1 Hnd
                   (fun y Hy => Hin y (or_intror Hy))
                   (fun y Hy => Hok y (or_intror Hy)) Hr Hs Hl)
        as (d' & m2 & Hrun & Hr' & Hs' & Htog & Hlis & Hkeep & Honly).
      exists d', m2; split; [exact Hrun|].
      split; [exact Hr'|]; split; [exact Hs'|]; split; [|split; [|split]].
      * intros a e1 H1; destruct (Htog a e1 H1) as (e2 & H2 & T2).
        exists e2; split; [exact H2|].
        rewrite T2; cbn [existsb].
        destruct (ref_eqb (link_ref a) (link_ref a0)) eqn:E;
          [|reflexivity].
        apply ref_eqb_eq in E; rewrite E, Hnames, !andb_false_r.
        reflexivity.
      * intros a e1 H1 [X | Hp] Hn.
        -- rewrite <- X, Hnames in Hn; discriminate.
        -- apply (Hlis a e1 H1 Hp Hn).
      * exact Hkeep.
      * intros r Hr0.
        destruct (Honly r Hr0) as [X | (a & e1 & H1 & Hp & Hn & ->)];
          [left; exact X|].
        right; exists a, e1; split; [exact H1|].
        split; [right; exact Hp|]; split; [exact Hn | reflexivity].
Qed.

End Triggers.

Lemma keydown_root (items : list ref) :
  forall d,
  exists d',
    forEach (fun item => modify (addEventListener item "keydown" "onKeydown"))
            items d = Ok tt d' /\
    root d' = root d /\
    (forall r, In r (listeners d) -> In r (listeners d')) /\
    (forall x, In x items -> In (x, "keydown", "onKeydown") (listeners d')) /\
    (forall r, In r (listeners d') ->
               In r (listeners d) \/
               exists x, In x items /\ r = (x, "keydown", "onKeydown")).
Proof.
  induction items as [|x l IH]; intros d.
  - exists d; split; [reflexivity|]; split; [reflexivity|].
    split; [auto|]; split; [intros x [] | auto].
  - cbn [forEach]; unfold bind at 1, modify at 1.
    destruct (IH (addEventListener x "keydown" "onKeydown" d))
      as (d' & -> & Hr & Hkeep & Hall & Honly).
    exists d'; split; [reflexivity|]; split; [exact Hr|].
    split; [|split].
    + intros r Hr0; apply Hkeep; right; exact Hr0.
    + intros y [<- | Hy]; [apply Hkeep; left; reflexivity | apply Hall, Hy].
    + intros r Hr0; destruct (Honly r Hr0) as [[X | X] | (y & Hy & ->)].
      * right; exists x; split; [left; reflexivity | symmetry; exact X].
      * left; exact X.
      * right; exists y; split; [right; exact Hy | reflexivity].
Qed.

Lemma shape_label (e e' : entry) :
  shape e' = shape e -> label_of e' = label_of e.
Proof.
  destruct e, e'; cbn [shape label_of]; intros H; injection H; auto.
Qed.

Lemma names_group_labelled (classes : list string) (m : menu) (a : address)
      (e : entry) :
  lookup_entry m a = Some e ->
  names_group (labelled classes m) (link_ref a)
  = gets_trigger e (textContent (page classes m) (link_ref a)).
Proof.
  intros Ha; unfold names_group, gets_trigger.
  rewrite (labelled_owns classes m a e Ha).
  destruct (group_of e); reflexivity.
Qed.

(** The page after setup, when no label is unusable: what the triggers
    added to the Items. *)
Lemma attached_triggers (classes : list string) (m : menu) :
  (forall a e,
      lookup_entry m a = Some e -> group_of e <> None ->
      starts_like_number
        (cleanForId (textContent (page classes m) (link_ref a))) = false) ->
  exists m2,
    root (attached (page classes m)) = container classes m2 /\
    map shape m2 = map shape m /\
    (forall a e,
        lookup_entry m a = Some e ->
        exists e2,
          lookup_entry m2 a = Some e2 /\
          toggles_of e2
          = toggles_of e
            + (if gets_trigger e (textContent (page classes m) (link_ref a))
               then 1 else 0)) /\
    (forall a e,
        lookup_entry m a = Some e ->
        gets_trigger e (textContent (page classes m) (link_ref a)) = true ->
        In (S (toggles_of e) :: link_ref a, "click", "onTriggerClick")
           (listeners (attached (page classes m)))) /\
    (forall a e,
        lookup_entry m a = Some e ->
        In (link_ref a, "keydown", "onKeydown")
           (listeners (attached (page classes m)))) /\
    (forall r,
        In r (listeners (attached (page classes m))) ->
        exists a e,
          lookup_entry m a = Some e /\
          (r = (link_ref a, "keydown", "onKeydown") \/
           (gets_trigger e (textContent (page classes m) (link_ref a)) = true
            /\ r = (S (toggles_of e) :: link_ref a, "click",
                    "onTriggerClick")))).
Proof.
  intros Hok.
  assert (Howns :
            forall a e id,
              lookup_entry m a = Some e ->
              getAttribute (labelled classes m) (link_ref a) "aria-owns"
              = Some id ->
              group_of e <> None /\
              getAttribute (labelled classes m) (1 :: entry_ref a) "id"
              = Some id).
  { intros a e id Ha O.
    rewrite (labelled_owns classes m a e Ha) in O.
    destruct (group_of e) as [es|] eqn:G; [|discriminate].
    injection O as <-; split; [discriminate|].
    apply (labelled_group classes m a e Ha); rewrite G; discriminate. }
  assert (Husable : forall x, In x (links_from m 0 [0]) ->
                              unusable_owns (labelled classes m) x = false).
  { intros x Hx; destruct (item_is_link m x Hx) as (a & e & -> & Ha).
    rewrite (unusable_owns_labelled classes m a e Ha).
    destruct (group_of e) eqn:G; [|reflexivity].
    apply (Hok a e Ha); rewrite G; discriminate. }
  destruct (attachTriggers_adds
              classes m (labelled classes m) [0]
              (querySelectorAll (page classes m) [0] sel_sub_menu)
              Howns (links_from m 0 [0]) (labelled classes m) m
              (links_from_NoDup m 0 [0]) (fun x H => H) Husable
              (root_labelled classes m) eq_refl (fun e n _ => eq_refl))
    as (d' & m2 & Hrun & Hr' & Hs' & Htog & Hlis & _ & Honly).
  destruct (keydown_root (links_from m 0 [0]) d')
    as (d'' & Hkey & Hr'' & Hkeep & Hall & Hkonly).
  assert (Hd : attached (page classes m) = d'').
  { rewrite attached_steps; unfold bind at 1.
    change (attachTriggers (menu_view classes m) (labelled classes m))
      with (attachTriggers
              {| treeNode := [0]; treeItems := links_from m 0 [0];
                 subMenus := querySelectorAll (page classes m) [0]
                                              sel_sub_menu |}
              (labelled classes m)).
    rewrite Hrun.
    change (treeItems (menu_view classes m)) with (links_from m 0 [0]).
    rewrite Hkey; reflexivity. }
  rewrite Hd; exists m2; split; [rewrite Hr''; exact Hr'|].
  split; [exact Hs'|]; split; [|split; [|split]].
  - intros a e Ha; destruct (Htog a e Ha) as (e2 & H2 & T2).
    exists e2; split; [exact H2|].
    rewrite T2, (names_group_labelled classes m a e Ha).
    assert (X : existsb (ref_eqb (link_ref a)) (links_from m 0 [0]) = true).
    { apply existsb_exists; exists (link_ref a); split;
        [apply (link_is_item m a e Ha) | apply ref_eqb_refl]. }
    rewrite X; reflexivity.
  - intros a e Ha Hg; apply Hkeep, (Hlis a e Ha).
    + apply (link_is_item m a e Ha).
    + rewrite (names_group_labelled classes m a e Ha); exact Hg.
  - intros a e Ha; apply Hall, (link_is_item m a e Ha).
  - intros r Hr0; destruct (Hkonly r Hr0) as [X | (x & Hx & ->)].
    + destruct (Honly r X) as [Y | (a & e & Ha & _ & Hn & ->)].
      * rewrite (listeners_labelled classes m) in Y; destruct Y.
      * exists a, e; split; [exact Ha|]; right; split; [|reflexivity].
        rewrite <- (names_group_labelled classes m a e Ha); exact Hn.
    + destruct (item_is_link m x Hx) as (a & e & -> & Ha).
      exists a, e; split; [exact Ha|]; left; reflexivity.
Qed.

(** X24: when no Item with a Group has a text that, cleaned, begins like
    a number, setup appends exactly one trigger button, with a click
    listener, to every Item that has a Group and whose cleaned text is
    not empty, and nothing to any other Item; no interaction changes
    that. *)
Theorem triggers_attached
        (classes : list string) (m : menu) (l : list interaction) :
  (forall a e,
      lookup_entry m a = Some e -> group_of e <> None ->
      starts_like_number
        (cleanForId (textContent (page classes m) (link_ref a))) = false) ->
  forall a e,
    lookup_entry m a = Some e ->
    childNodes (reached classes m l) (link_ref a)
    = Text (label_of e)
      :: repeat (d_node trigger)
                (toggles_of e
                 + (if gets_trigger
                         e (textContent (page classes m) (link_ref a))
                    then 1 else 0)) /\
    (gets_trigger e (textContent (page classes m) (link_ref a)) = true ->
     In (S (toggles_of e) :: link_ref a, "click", "onTriggerClick")
        (listeners (reached classes m l))).
Proof.
  intros Hok a e Ha.
  destruct (attached_triggers classes m Hok)
    as (m2 & Hr & Hs & Htog & Hlis & _).
  destruct (handler_frame_interactions
              (menu_view classes m) l (attached (page classes m)))
    as (Fr & Fl & _).
  fold (reached classes m l) in Fr, Fl.
  split.
  - destruct (Htog a e Ha) as (e2 & H2 & T2).
    destruct (same_shape_lookup m m2 a e Hs Ha) as (e2' & H2' & Hsh).
    rewrite H2 in H2'; injection H2' as <-.
    unfold childNodes.
    rewrite (node_at_link (reached classes m l) classes m2
                          (eq_trans Fr Hr) a e2 H2).
    unfold link; cbn [children_of].
    rewrite T2, (shape_label e e2 Hsh); reflexivity.
  - intros Hg; rewrite Fl; apply (Hlis a e Ha Hg).
Qed.

Lemma triggers_attached_witness :
  childNodes (reached [] chapters chapters_session) (link_ref [0])
  = [Text "Chapter One"; d_node trigger] /\
  In ([1; 0; 0; 0], "click", "onTriggerClick")
     (listeners (reached [] chapters chapters_session)).
Proof.
  destruct (triggers_attached
              [] chapters chapters_session
              (usable_labels [] chapters eq_refl)
              [0] (Entry "Chapter One" [] 0
                         (Some [leaf "Intro"; leaf "Details"])) eq_refl)
    as [A B].
  split; [exact A | apply B; reflexivity].
Defined.

(** X28: when no Item with a Group has a text that, cleaned, begins like
    a number, the listeners on the page after setup, and after any
    interactions, are exactly [onKeydown] for keydowns on every Item and
    [onTriggerClick] for clicks on the trigger setup appended to the
    Items that have a Group and a cleaned text that is not empty. *)
Theorem listeners_after_setup
        (classes : list string) (m : menu) (l : list interaction) :
  (forall a e,
      lookup_entry m a = Some e -> group_of e <> None ->
      starts_like_number
        (cleanForId (textContent (page classes m) (link_ref a))) = false) ->
  forall r,
    In r (listeners (reached classes m l)) <->
    exists a e,
      lookup_entry m a = Some e /\
      (r = (link_ref a, "keydown", "onKeydown") \/
       (gets_trigger e (textContent (page classes m) (link_ref a)) = true /\
        r = (S (toggles_of e) :: link_ref a, "click", "onTriggerClick"))).
Proof.
  intros Hok r.
  destruct (attached_triggers classes m Hok)
    as (m2 & _ & _ & _ & Hclick & Hkey & Honly).
  destruct (handler_frame_interactions
              (menu_view classes m) l (attached (page classes m)))
    as (_ & Fl & _).
  fold (reached classes m l) in Fl; rewrite Fl; split.
  - apply Honly.
  - intros (a & e & Ha & [-> | [Hg ->]]).
    + apply (Hkey a e Ha).
    + apply (Hclick a e Ha Hg).
Qed.

Lemma listeners_after_setup_witness :
  In ([1; 0; 0; 0], "click", "onTriggerClick")
     (listeners (reached [] chapters chapters_session)) <->
  exists a e,
    lookup_entry chapters a = Some e /\
    (([1; 0; 0; 0], "click", "onTriggerClick")
     = (link_ref a, "keydown", "onKeydown") \/
     (gets_trigger e (textContent (page [] chapters) (link_ref a)) = true /\
      ([1; 0; 0; 0], "click", "onTriggerClick")
      = (S (toggles_of e) :: link_ref a, "click", "onTriggerClick"))).
Proof.
  apply (listeners_after_setup [] chapters chapters_session).
  apply usable_labels; vm_compute; reflexivity.
Defined.

(** ** Between an Item and the first Item of its Group *)

Lemma expanded_is_expandable (d : document) (x : ref) :
  isExpanded d x = true -> isExpandable d x = true.
Proof.
  unfold isExpanded, isExpandable, hasAttribute.
  destruct (getAttribute d x "aria-expanded"); [reflexivity | discriminate].
Qed.

Lemma isExpanded_focus (d : document) (x y : ref) :
  isExpanded (focus y d) x = isExpanded d x.
Proof. unfold focus; destruct (focusable d y); reflexivity. Qed.

(** X25: on the page built from a menu, after any interactions, the
    ArrowRight key on an expanded Item moves the focus to the first Item
    of its Group, and, when that Item is not expanded, the ArrowLeft key
    on it moves the focus back; both events are consumed. *)
Theorem right_and_left_between_owner_and_child
        (classes : list string) (m : menu) (l : list interaction)
        (j : nat) (a : address) (e : entry) :
  lookup_entry m (0 :: j :: a) = Some e ->
  isExpanded (reached classes m l) (link_ref (j :: a)) = true ->
  isExpanded (reached classes m l) (link_ref (0 :: j :: a)) = false ->
  exists d1 d2,
    onKeydown (menu_view classes m) (press "ArrowRight" (link_ref (j :: a)))
              (reached classes m l) = Ok true d1 /\
    activeElement d1 = Some (link_ref (0 :: j :: a)) /\
    onKeydown (menu_view classes m)
              (press "ArrowLeft" (link_ref (0 :: j :: a))) d1 = Ok true d2 /\
    activeElement d2 = Some (link_ref (j :: a)).
Proof.
  intros H E Ec.
  destruct (lookup_owner m 0 j a e H) as (e0 & es & H0 & G & Hn).
  destruct (reached_tree_groups classes m l) as (m' & Hr & Hs & Hrole & _).
  destruct (same_shape_entries m m' _ e0 es Hs H0 G)
    as (x & es' & Hx & Gx & L).
  destruct (same_shape_lookup m m' _ e Hs H) as (x' & Hx' & _).
  set (d := reached classes m l) in *.
  set (d1 := focus (link_ref (0 :: j :: a)) d).
  assert (F : handler_frame d d1) by apply handler_frame_focus.
  exists d1, (focus (link_ref (j :: a)) d1); split; [|split; [|split]].
  - rewrite onKeydown_ArrowRight; unfold bind.
    rewrite (onArrowRight_moves _ d (expanded_is_expandable d _ E) E).
    rewrite (next_enters_rule d classes m' Hr Hrole j a x es' Hx Gx E).
    destruct es as [|e1 es]; [discriminate|].
    destruct es' as [|e1' es'']; [discriminate | reflexivity].
  - apply (reached_focus classes m l _ e H d (handler_frame_refl d)).
  - rewrite onKeydown_ArrowLeft; unfold bind.
    rewrite onArrowLeft_moves
      by (unfold d1; rewrite isExpanded_focus; exact Ec).
    rewrite (previous_climbs_rule d1 classes m'
                                  (eq_trans (proj1 F) Hr) j a x' Hx').
    reflexivity.
  - apply (reached_focus classes m l _ e0 H0 d1 F).
Qed.

Lemma right_and_left_between_owner_and_child_witness :
  exists d1 d2,
    onKeydown (menu_view [] handbook) (press "ArrowRight" (link_ref [1]))
              (reached [] handbook []) = Ok true d1 /\
    activeElement d1 = Some (link_ref [0; 1]) /\
    onKeydown (menu_view [] handbook) (press "ArrowLeft" (link_ref [0; 1])) d1
    = Ok true d2 /\
    activeElement d2 = Some (link_ref [1]).
Proof.
  apply (right_and_left_between_owner_and_child
           [] handbook [] 1 [] (leaf "Basics"));
    [reflexivity | vm_compute; reflexivity | vm_compute; reflexivity].
Defined.

(** ** The values of [aria-expanded] *)

Lemma values_kept_refl (d : document) : values_kept d d.
Proof. intros H; exact H. Qed.

Lemma values_kept_trans (a b c : document) :
  values_kept a b -> values_kept b c -> values_kept a c.
Proof. intros H1 H2 H; exact (H2 (H1 H)). Qed.

Lemma values_kept_same (d d' : document) :
  (forall e, getAttribute d' e "aria-expanded"
             = getAttribute d e "aria-expanded") ->
  values_kept d d'.
Proof. intros H V e; rewrite H; apply V. Qed.

Lemma values_kept_focus (x : ref) (d : document) :
  values_kept d (focus x d).
Proof.
  apply values_kept_same; intros e.
  unfold focus; destruct (focusable d x); reflexivity.
Qed.

Lemma values_kept_set (x : ref) (v : string) (d : document) :
  v = "true" \/ v = "false" ->
  values_kept d (setAttribute x "aria-expanded" v d).
Proof.
  intros Hv V e; rewrite getAttribute_setAttribute.
  destruct (ref_eqb e x
            && String.eqb (JsString.toLowerCase "aria-expanded")
                          (JsString.toLowerCase "aria-expanded"));
    [|apply V].
  destruct Hv as [-> | ->]; auto.
Qed.

Lemma values_kept_other (x : ref) (n v : string) (d : document) :
  JsString.toLowerCase n <> "aria-expanded" ->
  values_kept d (setAttribute x n v d).
Proof.
  intros Hn; apply values_kept_same; intros e.
  rewrite getAttribute_setAttribute.
  change (JsString.toLowerCase "aria-expanded") with "aria-expanded".
  destruct (String.eqb_spec "aria-expanded" (JsString.toLowerCase n));
    [congruence | rewrite andb_false_r; reflexivity].
Qed.

Lemma values_kept_expand (x : ref) (d : document) :
  values_kept d (expandTreeItem x d).
Proof.
  destruct (expandTreeItem_cases x d) as [-> | [_ ->]].
  - apply values_kept_refl.
  - apply values_kept_set; auto.
Qed.

Lemma values_kept_collapse (x : ref) (d : document) :
  values_kept d (collapseTreeItem x d).
Proof.
  destruct (collapseTreeItem_cases x d) as [-> | [_ ->]].
  - apply values_kept_refl.
  - apply values_kept_set; auto.
Qed.

Ltac values_kept_tac :=
  keeps_tac
    ltac:(first [exact values_kept_refl | exact values_kept_trans])
    ltac:(first [ apply values_kept_focus
                | apply values_kept_expand
                | apply values_kept_collapse ]).

Lemma values_setFocusToTreeItem (o : option ref) :
  keeps values_kept (setFocusToTreeItem o).
Proof. unfold setFocusToTreeItem; values_kept_tac. Qed.

Lemma values_focus_if_present (o : option ref) :
  keeps values_kept (focus_if_present o).
Proof. unfold focus_if_present; values_kept_tac. Qed.

Lemma values_setFocusToNextTreeItem (item : ref) :
  keeps values_kept (setFocusToNextTreeItem item).
Proof.
  unfold setFocusToNextTreeItem; values_kept_tac;
    first [apply values_setFocusToTreeItem | apply values_focus_if_present].
Qed.

Lemma values_setFocusToPreviousTreeItem (item : ref) :
  keeps values_kept (setFocusToPreviousTreeItem item).
Proof.
  unfold setFocusToPreviousTreeItem; values_kept_tac;
    apply values_setFocusToTreeItem.
Qed.

Lemma values_isVisible (item : ref) : keeps values_kept (isVisible item).
Proof. unfold isVisible; values_kept_tac. Qed.

Lemma values_visible_among (items : list ref) :
  keeps values_kept (visible_among items).
Proof.
  induction items as [|x l IH]; simpl; values_kept_tac.
  - apply values_isVisible.
  - exact IH.
Qed.

Lemma values_onKeydown (this : instance) (event : KeyboardEvent) :
  keeps values_kept (onKeydown this event).
Proof.
  unfold onKeydown, onArrowDown, onArrowRight, onArrowLeft,
    getVisibleTreeItems.
  values_kept_tac;
    first [ apply values_setFocusToTreeItem
          | apply values_focus_if_present
          | apply values_setFocusToNextTreeItem
          | apply values_setFocusToPreviousTreeItem
          | apply values_visible_among ].
Qed.

Lemma values_onTriggerClick (target : ref) :
  keeps values_kept (onTriggerClick target).
Proof. unfold onTriggerClick; values_kept_tac. Qed.

Lemma values_interactions (this : instance) (l : list interaction) :
  forall d, values_kept d (interactions this l d).
Proof.
  unfold interactions; induction l as [|i l IH]; intros d; simpl.
  - apply values_kept_refl.
  - eapply values_kept_trans; [|apply IH].
    destruct i; [apply values_onKeydown | apply values_onTriggerClick].
Qed.

Lemma values_updateActiveTree (x : ref) (d : document) :
  values_kept d (updateActiveTree x d).
Proof.
  intros V e; unfold updateActiveTree.
  destruct (parentNode x) as [c|]; [|apply V].
  destruct (expandOwners_value c e d) as [-> | ->]; [apply V | auto].
Qed.

Lemma values_adjustLink (x : ref) (d : document) :
  values_kept d (adjustLink x d).
Proof.
  rewrite adjustLink_eq; cbv zeta.
  assert (H : values_kept d (if classList_contains d x "is-active"
                             then updateActiveTree x (current x (marked x d))
                             else marked x d)).
  { assert (M : values_kept d (marked x d)).
    { unfold marked; eapply values_kept_trans;
        apply values_kept_other; cbv; discriminate. }
    destruct (classList_contains d x "is-active"); [|exact M].
    eapply values_kept_trans; [exact M|].
    eapply values_kept_trans; [|apply values_updateActiveTree].
    unfold current; eapply values_kept_trans;
      apply values_kept_other; cbv; discriminate. }
  destruct (nextElementSibling d x); [|exact H].
  eapply values_kept_trans; [exact H|].
  unfold owning.
  eapply values_kept_trans; [|apply values_kept_set; auto].
  apply values_kept_other; cbv; discriminate.
Qed.

Lemma values_adjustLinkAttributes (this : instance) (d : document) :
  values_kept d (adjustLinkAttributes this d).
Proof.
  unfold adjustLinkAttributes; generalize (treeItems this) as items.
  intros items; revert d; induction items as [|x l IH]; intros d;
    [apply values_kept_refl|].
  cbn [fold_left].
  eapply values_kept_trans; [apply values_adjustLink | apply IH].
Qed.

Lemma values_initializeTreeViews (this : instance) (d : document) :
  values_kept d (final (initializeTreeViews this d)).
Proof.
  eapply values_kept_trans;
    [|apply values_kept_same;
      apply (proj1 (initializeTreeViews_frame this d))].
  eapply values_kept_trans; [|apply values_adjustLinkAttributes].
  apply values_kept_other; cbv; discriminate.
Qed.

(** X26: when every [aria-expanded] on the page is "true" or "false"
    (as on a page without the attribute), that is still so after setup,
    after any interactions, and after setup followed by any
    interactions. *)
Theorem expansion_values_stay_boolean
        (this : instance) (l : list interaction) (d : document) :
  expansion_values d ->
  expansion_values (final (initializeTreeViews this d)) /\
  expansion_values (interactions this l d) /\
  expansion_values
    (interactions this l (final (initializeTreeViews this d))).
Proof.
  intros V; split; [|split].
  - apply (values_initializeTreeViews this d V).
  - apply (values_interactions this l d V).
  - apply (values_interactions this l), (values_initializeTreeViews this d V).
Qed.

Lemma expansion_values_stay_boolean_witness :
  expansion_values
    (final (initializeTreeViews (menu_view [] handbook) (page [] handbook))) /\
  expansion_values
    (interactions (menu_view [] handbook) handbook_session
                  (page [] handbook)) /\
  expansion_values
    (interactions (menu_view [] handbook) handbook_session
                  (final (initializeTreeViews (menu_view [] handbook)
                                              (page [] handbook)))).
Proof.
  apply (expansion_values_stay_boolean
           (menu_view [] handbook) handbook_session (page [] handbook)).
  intros e; left; reflexivity.
Defined.

(** ** The focus during setup *)

Lemma focus_kept_refl (d : document) : focus_kept d d.
Proof. reflexivity. Qed.

Lemma focus_kept_trans (a b c : document) :
  focus_kept a b -> focus_kept b c -> focus_kept a c.
Proof. unfold focus_kept; intros H1 H2; rewrite H2; exact H1. Qed.

Lemma focus_kept_adjustLink (x : ref) (d : document) :
  focus_kept d (adjustLink x d).
Proof.
  unfold focus_kept; rewrite adjustLink_eq; cbv zeta.
  assert (H : activeElement
                (if classList_contains d x "is-active"
                 then updateActiveTree x (current x (marked x d))
                 else marked x d) = activeElement d).
  { destruct (classList_contains d x "is-active"); [|reflexivity].
    unfold updateActiveTree; destruct (parentNode x) as [c|]; [|reflexivity].
    rewrite activeElement_expandOwners; reflexivity. }
  destruct (nextElementSibling d x); exact H.
Qed.

Lemma focus_kept_adjustLinkAttributes (this : instance) (d : document) :
  focus_kept d (adjustLinkAttributes this d).
Proof.
  unfold adjustLinkAttributes; generalize (treeItems this) as items.
  intros items; revert d; induction items as [|x l IH]; intros d;
    [reflexivity|].
  cbn [fold_left].
  eapply focus_kept_trans; [apply focus_kept_adjustLink | apply IH].
Qed.

Ltac focus_kept_tac :=
  keeps_tac
    ltac:(first [exact focus_kept_refl | exact focus_kept_trans])
    ltac:(first [ apply focus_kept_adjustLinkAttributes | reflexivity ]).

Lemma focus_kept_initializeTreeViews (this : instance) :
  keeps focus_kept (initializeTreeViews this).
Proof.
  unfold initializeTreeViews, adjustSubMenuAttributes, attachTriggers,
    getGroupNode.
  focus_kept_tac.
Qed.

(** X27: whatever it is given, and whether it returns or throws, the
    constructor leaves the focus where it was. *)
Theorem constructor_keeps_the_focus (node : jsval) (d : document) :
  activeElement (final (constructor node d)) = activeElement d.
Proof.
  revert d; change (keeps focus_kept (constructor node)).
  unfold constructor, as_element.
  destruct node; focus_kept_tac; apply focus_kept_initializeTreeViews.
Qed.

(* ================================================================== *)
(** * The claims on any page                                            *)
(* ================================================================== *)

(** ** The constructor on any container *)

Lemma constructor_on (c ul : ref) (d : document) :
  querySelector d c sel_root_list = Some ul ->
  constructor (JElement c) d
  = bind (initializeTreeViews (instance_on d ul))
         (fun _ => ret (Some (instance_on d ul))) d.
Proof.
  intros H; unfold constructor.
  change (negb (String.eqb (typeof (JElement c)) "object")) with false.
  cbv iota; unfold as_element.
  unfold bind at 1, ret at 1.
  unfold bind at 1, fetch, bind at 1, read at 1, nonNull.
  rewrite H; unfold ret at 1.
  unfold bind at 1, read at 1.
  unfold bind at 1, read at 1.
  reflexivity.
Qed.

Lemma constructed_on (c ul : ref) (d : document) :
  querySelector d c sel_root_list = Some ul ->
  final (constructor (JElement c) d)
  = final (initializeTreeViews (instance_on d ul) d).
Proof.
  intros H; rewrite (constructor_on c ul d H); apply final_bind_ret.
Qed.

(** ** Which Items setup makes expandable *)






(** ** Document order *)

Lemma path_before_irrefl (p : list nat) : ~ path_before p p.
Proof.
  induction p as [|i p IH]; cbn [path_before]; [tauto|].
  intros [H | [_ H]]; [lia | exact (IH H)].
Qed.

Lemma path_before_trans (p : list nat) :
  forall q r, path_before p q -> path_before q r -> path_before p r.
Proof.
  induction p as [|i p IH]; intros [|j q] [|k r]; cbn [path_before];
    try tauto.
  intros [H1 | [-> H1]] [H2 | [-> H2]]; [left; lia | left; lia | left; lia|].
  right; split; [reflexivity | apply (IH q r H1 H2)].
Qed.

Lemma path_before_app (u p q : list nat) :
  path_before p q -> path_before (u ++ p) (u ++ q).
Proof.
  intros H; induction u as [|k u IH]; [exact H|].
  cbn [app path_before]; right; auto.
Qed.

Lemma doc_before_irrefl (x : ref) : ~ doc_before x x.
Proof. apply path_before_irrefl. Qed.

Lemma doc_before_trans (x y z : ref) :
  doc_before x y -> doc_before y z -> doc_before x z.
Proof. apply path_before_trans. Qed.

(** An element comes before the elements below it. *)
Lemma doc_before_below (p s : ref) : s <> [] -> doc_before p (s ++ p).
Proof.
  intros Hs; unfold doc_before; rewrite rev_app_distr.
  rewrite <- (app_nil_r (rev p)) at 1; apply path_before_app.
  destruct (rev s) as [|k r] eqn:E; [|exact I].
  apply (f_equal (@rev nat)) in E; rewrite rev_involutive in E.
  contradiction.
Qed.

(** What lies at or below a child comes before what lies at or below
    a child farther right. *)
Lemma doc_before_right (p s s' : ref) (i j : nat) :
  i < j -> doc_before (s ++ i :: p) (s' ++ j :: p).
Proof.
  intros H; unfold doc_before; rewrite !rev_app_distr; cbn [rev].
  rewrite <- !app_assoc; apply path_before_app.
  cbn [app path_before]; left; exact H.
Qed.

Lemma ordered_app (A : Type) (R : A -> A -> Prop) (l1 l2 : list A) :
  ForallOrdPairs R l1 -> ForallOrdPairs R l2 ->
  (forall x y, In x l1 -> In y l2 -> R x y) ->
  ForallOrdPairs R (l1 ++ l2).
Proof.
  intros H1 H2 H; induction H1 as [|a l Ha _ IH]; [exact H2|].
  cbn [app]; constructor.
  - apply Forall_app; split; [exact Ha|].
    apply Forall_forall; intros y Hy; apply H; [left; reflexivity | exact Hy].
  - apply IH; intros x y Hx Hy; apply H; [right; exact Hx | exact Hy].
Qed.

Lemma ordered_filter (A : Type) (R : A -> A -> Prop) (f : A -> bool)
      (l : list A) :
  ForallOrdPairs R l -> ForallOrdPairs R (filter f l).
Proof.
  induction 1 as [|a l Ha _ IH]; cbn [filter]; [constructor|].
  destruct (f a); [|exact IH].
  constructor; [|exact IH].
  apply Forall_forall; intros y Hy; apply filter_In in Hy.
  rewrite Forall_forall in Ha; apply Ha, Hy.
Qed.

Lemma ordered_after (A : Type) (R : A -> A -> Prop) (l1 l2 : list A)
      (a : A) :
  ForallOrdPairs R (l1 ++ a :: l2) -> Forall (R a) l2.
Proof.
  induction l1 as [|x l1 IH]; cbn [app]; intros H; inversion H; subst; auto.
Qed.

(** In an ordered list, what comes before [a] stands before it, and
    only there. *)
Lemma ordered_split (A : Type) (R : A -> A -> Prop) (l : list A) (o a : A) :
  (forall x, ~ R x x) -> (forall x y z, R x y -> R y z -> R x z) ->
  ForallOrdPairs R l -> In o l -> In a l -> R o a ->
  exists l1 l2, l = l1 ++ a :: l2 /\ In o l1 /\ ~ In o (a :: l2) /\
                ~ In a l2.
Proof.
  intros Hirr Htr Hl Ho Ha Hoa.
  destruct (in_split a l Ha) as (l1 & l2 & ->).
  pose proof (ordered_after A R l1 l2 a Hl) as Hafter.
  rewrite Forall_forall in Hafter.
  assert (Ho2 : ~ In o l2).
  { intros H; apply (Hirr a), (Htr a o a); [apply Hafter, H | exact Hoa]. }
  assert (Hne : o <> a) by (intros ->; exact (Hirr a Hoa)).
  exists l1, l2; split; [reflexivity|]; split; [|split].
  - apply in_app_or in Ho; destruct Ho as [H | [H | H]];
      [exact H | congruence | contradiction].
  - intros [H | H]; [congruence | contradiction].
  - intros H; exact (Hirr a (Hafter a H)).
Qed.

Lemma walk_kids_below (ks : list node) (j : nat) (p x : ref) :
  In x (walk_kids ks j p) -> exists s i, x = s ++ i :: p /\ j <= i.
Proof.
  intros H; apply walk_kids_member in H.
  destruct H as (i & k & _ & _ & [-> | H]).
  - exists [], (j + i); split; [reflexivity | lia].
  - apply walk_member in H; destruct H as (fp & _ & _ & -> & _).
    exists (rev fp), (j + i); split; [reflexivity | lia].
Qed.

(** The elements below a node are walked in document order. *)
Lemma walk_ordered (n : node) :
  forall p, ForallOrdPairs doc_before (walk n p).
Proof.
  induction n as [s | t c ks IH] using node_induction; intros p;
    [constructor|].
  rewrite walk_unfold; generalize 0 as i.
  induction ks as [|k ks IHks]; intros i; cbn [walk_kids]; [constructor|].
  apply ordered_app.
  - destruct (is_element k); [|constructor].
    constructor; [|apply (Forall_inv IH)].
    apply Forall_forall; intros y Hy; apply walk_member in Hy.
    destruct Hy as (fp & _ & Hne & -> & _).
    apply doc_before_below.
    intros E; apply (f_equal (@rev nat)) in E; rewrite rev_involutive in E.
    exact (Hne E).
  - apply IHks, (Forall_inv_tail IH).
  - intros x y Hx Hy.
    apply walk_kids_below in Hy; destruct Hy as (s' & j & -> & Hj).
    assert (Hs : exists s, x = s ++ i :: p).
    { destruct (is_element k); [|destruct Hx].
      destruct Hx as [<- | Hx]; [exists []; reflexivity|].
      apply walk_member in Hx; destruct Hx as (fp & _ & _ & -> & _).
      exists (rev fp); reflexivity. }
    destruct Hs as [s ->]; apply doc_before_right; lia.
Qed.

Lemma querySelectorAll_ordered (d : document) (scope : ref) (s : selector) :
  ForallOrdPairs doc_before (querySelectorAll d scope s).
Proof.
  unfold querySelectorAll, descendants; apply ordered_filter.
  destruct (node_at d scope); [apply walk_ordered | constructor].
Qed.

Lemma first_element_from (ks : list node) :
  forall j i, first_element ks j = Some i -> j <= i.
Proof.
  induction ks as [|k ks IH]; intros j i; cbn [first_element];
    [discriminate|].
  destruct (is_element k); [intros H; injection H as <-; lia|].
  intros H; apply IH in H; lia.
Qed.

(** The owner of a Group comes before what the Group holds. *)
Lemma owner_comes_first (d : document) (o a : ref) :
  owns d o a -> doc_before o a.
Proof.
  intros (g & pre & Hg & -> & _).
  destruct o as [|i p]; [discriminate|].
  unfold nextElementSibling in Hg.
  destruct (first_element (skipn (S i) (childNodes d p)) (S i)) as [j|] eqn:F;
    [|discriminate].
  injection Hg as <-; apply first_element_from in F.
  apply (doc_before_right p [] pre i j); lia.
Qed.

(** ** The owners above the active Item, on any page *)

Lemma owner_expanded_on (this : instance) (d : document) (a o : ref) :
  ForallOrdPairs doc_before (treeItems this) ->
  In a (treeItems this) -> In o (treeItems this) ->
  classList_contains d a "is-active" = true ->
  (forall x, In x (treeItems this) ->
             classList_contains d x "is-active" = true -> x = a) ->
  owns d o a -> owner_above d a o ->
  getAttribute (final (initializeTreeViews this d)) o "aria-expanded"
  = Some "true".
Proof.
  intros Hord Ha Ho Hact Honly Hown Hup.
  rewrite (proj1 (initializeTreeViews_frame this d) o).
  destruct (ordered_split ref doc_before (treeItems this) o a
                          doc_before_irrefl doc_before_trans Hord Ho Ha
                          (owner_comes_first d o a Hown))
    as (l1 & l2 & E & Ho1 & Ho2 & Ha2).
  destruct this as [t items s]; cbn [treeItems treeNode] in *.
  rewrite E; apply adjustLinkAttributes_owner.
  - exact Ho1.
  - destruct Hown as (g & _ & Hg & _).
    change (nextElementSibling d o <> None); rewrite Hg; discriminate.
  - exact Hact.
  - intros ->; apply Ho2; left; reflexivity.
  - destruct Hup as (pre & c & H1 & H2 & H3 & H4).
    exists pre, c; repeat split; assumption.
  - intros x Hx; split.
    + change (classList_contains d x "is-active" = false).
      destruct (classList_contains d x "is-active") eqn:X; [|reflexivity].
      rewrite (Honly x) in Hx; [contradiction | | exact X].
      rewrite E; apply in_or_app; right; right; exact Hx.
    + intros ->; apply Ho2; right; exact Hx.
Qed.

(** ** The elements of the page through the rest of the setup *)

Lemma descend_alter (f : node -> node) :
  (forall n i k, nth_error (children_of n) i = Some k ->
                 nth_error (children_of (f n)) i = Some k) ->
  forall fp q n, descend fp n <> None -> descend fp (alter q f n) <> None.
Proof.
  intros Hf; induction fp as [|i fp IH]; intros q n; [discriminate|].
  cbn [descend].
  destruct (nth_error (children_of n) i) as [k|] eqn:E; [|congruence].
  intros Hk; destruct q as [|j q]; cbn [alter].
  - rewrite (Hf n i k E); exact Hk.
  - destruct n as [s | t c ks]; [destruct i; discriminate|].
    cbn [children_of] in *; rewrite nth_error_update_nth, E.
    destruct (Nat.eqb i j); cbn [option_map]; [apply IH|]; exact Hk.
Qed.

Lemma present_appendChild (x e : ref) (t : detached) (d : document) :
  present d e -> present (appendChild x t d) e.
Proof.
  unfold present, node_at, appendChild; cbn [root].
  apply descend_alter.
  intros [s | tag c ks] i k; cbn [children_of]; [destruct i; discriminate|].
  intros H; rewrite nth_error_app1; [exact H|].
  apply nth_error_Some; congruence.
Qed.

Lemma appended_ref_fresh (d : document) (x : ref) :
  ~ present d (appended_ref d x).
Proof.
  unfold present, appended_ref, childNodes; rewrite node_at_cons.
  destruct (node_at d x) as [n|]; [|congruence].
  intros H; apply H, nth_error_None; lia.
Qed.

Lemma elements_kept_refl (d : document) : elements_kept d d.
Proof. split; auto. Qed.

Lemma elements_kept_trans (a b c : document) :
  elements_kept a b -> elements_kept b c -> elements_kept a c.
Proof.
  intros [P1 T1] [P2 T2]; split; [auto|].
  intros e He; rewrite (T2 e (P1 e He)); apply T1, He.
Qed.

Lemma elements_kept_setAttribute (e : ref) (n v : string) (d : document) :
  JsString.toLowerCase n <> "tabindex" ->
  elements_kept d (setAttribute e n v d).
Proof.
  intros H; split; [auto|]; intros x _.
  rewrite getAttribute_setAttribute.
  change (JsString.toLowerCase "tabindex") with "tabindex".
  destruct (String.eqb_spec "tabindex" (JsString.toLowerCase n));
    [congruence | rewrite andb_false_r; reflexivity].
Qed.

Lemma elements_kept_addEventListener (e : ref) (type handler : string)
      (d : document) :
  elements_kept d (addEventListener e type handler d).
Proof. split; auto. Qed.

Lemma elements_kept_appendChild (x : ref) (d : document) :
  elements_kept d (appendChild x trigger d).
Proof.
  split; [intros e; apply present_appendChild|].
  intros e He; rewrite getAttribute_appendChild.
  destruct (ref_eqb e (appended_ref d x)) eqn:E; [|reflexivity].
  apply ref_eqb_eq in E; subst e.
  destruct (appended_ref_fresh d x He).
Qed.

Ltac elements_kept_tac :=
  keeps_tac
    ltac:(first [exact elements_kept_refl | exact elements_kept_trans])
    ltac:(first [ apply elements_kept_setAttribute; simpl; discriminate
                | apply elements_kept_addEventListener
                | apply elements_kept_appendChild ]).

Lemma elements_kept_getGroupNode (item : ref) :
  keeps elements_kept (getGroupNode item).
Proof. unfold getGroupNode; elements_kept_tac. Qed.

Lemma elements_kept_adjustSubMenuAttributes (this : instance) :
  keeps elements_kept (adjustSubMenuAttributes this).
Proof. unfold adjustSubMenuAttributes; elements_kept_tac. Qed.

Lemma elements_kept_attachTriggers (this : instance) :
  keeps elements_kept (attachTriggers this).
Proof.
  unfold attachTriggers; elements_kept_tac.
  apply elements_kept_getGroupNode.
Qed.

Lemma initializeTreeViews_elements (this : instance) (d : document) :
  elements_kept (adjustLinkAttributes
                   this (setAttribute (treeNode this) "role" "tree" d))
                (final (initializeTreeViews this d)).
Proof.
  unfold initializeTreeViews.
  change (final ((modify (setAttribute (treeNode this) "role" "tree") ;;
                  modify (adjustLinkAttributes this) ;; ?k) d))
    with (final (k (adjustLinkAttributes
                      this (setAttribute (treeNode this) "role" "tree" d)))).
  generalize (adjustLinkAttributes
                this (setAttribute (treeNode this) "role" "tree" d)).
  change (keeps elements_kept
                (adjustSubMenuAttributes this ;;
                 attachTriggers this ;;
                 forEach (fun item =>
                            modify (addEventListener item "keydown" "onKeydown"))
                         (treeItems this))).
  elements_kept_tac.
  - apply elements_kept_adjustSubMenuAttributes.
  - apply elements_kept_attachTriggers.
Qed.

(** After the setup an element of the page that is an Item has the
    [tabindex] its class [is-active] gave it. *)
Lemma initializeTreeViews_tabIndex (this : instance) (d : document)
      (x : ref) :
  In x (treeItems this) -> present d x ->
  tabIndex (final (initializeTreeViews this d)) x
  = if classList_contains d x "is-active" then 0%Z else (-1)%Z.
Proof.
  intros Hx Hp.
  assert (Hv : getAttribute (final (initializeTreeViews this d)) x "tabindex"
               = Some (if classList_contains d x "is-active"
                       then "0" else "-1")).
  { rewrite (proj2 (initializeTreeViews_elements this d) x).
    - destruct this as [t items s]; cbn [treeItems treeNode] in *.
      rewrite adjustLinkAttributes_tabindex.
      replace (existsb (ref_eqb x) items) with true; [reflexivity|].
      symmetry; apply existsb_exists; exists x; split; [exact Hx|].
      apply ref_eqb_refl.
    - unfold present.
      rewrite (node_at_same_root _ _ x (root_adjustLinkAttributes this _)).
      exact Hp. }
  apply (tabIndex_of_attribute _ _ _ _ Hv).
  destruct (classList_contains d x "is-active"); reflexivity.
Qed.

Lemma item_present (d : document) (scope x : ref) (s : selector) :
  In x (querySelectorAll d scope s) -> present d x.
Proof.
  unfold querySelectorAll; intros H; apply filter_In in H.
  destruct H as [H _]; apply descendant_member in H.
  destruct H as (fp & k & _ & _ & Hk & _); unfold present; congruence.
Qed.

(** C8, as stated, fails: in the handbook whose list entries lack the
    class [menu-item], "Caching" is the only active Item and lies two
    levels deep, yet "Guide" and "Advanced", which own the Groups
    around it, stay collapsed. *)
Lemma owners_stay_collapsed :
  let guide := [0; 1; 0] in
  let advanced := [0; 1; 1; 1; 0] in
  let caching := [0; 1; 1; 1; 1; 1; 0] in
  exists this d',
    constructor (JElement []) plain_handbook_page = Ok (Some this) d' /\
    filter (fun x => classList_contains plain_handbook_page x "is-active")
           (treeItems this) = [caching] /\
    nextElementSibling d' advanced = closest d' caching [Tag "ul"] /\
    nextElementSibling d' guide = closest d' advanced [Tag "ul"] /\
    getAttribute d' guide "aria-expanded" = Some "false" /\
    getAttribute d' advanced "aria-expanded" = Some "false" /\
    tabIndex d' caching = 0%Z.
Proof.
  do 2 eexists; split; [vm_compute; reflexivity|].
  repeat split; vm_compute; reflexivity.
Qed.

(** C8 (amended): when exactly one Item of the tree is marked active,
    then after construction every Item that owns a Group around the
    active Item, and is the first [a] element inside an element above
    the active Item that carries the class [menu-item], has
    [aria-expanded="true"], at whatever depth the active Item lies; and
    the active Item is the only Item of the tree with [tabIndex] 0. *)
Theorem active_owners_expanded
        (d : document) (container ul : ref) (a : ref) :
  querySelector d container sel_root_list = Some ul ->
  In a (querySelectorAll d ul sel_menu_link) ->
  classList_contains d a "is-active" = true ->
  (forall x, In x (querySelectorAll d ul sel_menu_link) ->
             classList_contains d x "is-active" = true -> x = a) ->
  (forall o, In o (querySelectorAll d ul sel_menu_link) ->
             owns d o a -> owner_above d a o ->
             getAttribute (final (constructor (JElement container) d)) o
                          "aria-expanded" = Some "true") /\
  (forall x, In x (querySelectorAll d ul sel_menu_link) ->
             (tabIndex (final (constructor (JElement container) d)) x = 0%Z
              <-> x = a)).
Proof.
  intros Hlist Ha Hact Honly.
  rewrite (constructed_on container ul d Hlist); split.
  - intros o Ho Hown Hup.
    apply (owner_expanded_on (instance_on d ul) d a o); auto.
    apply querySelectorAll_ordered.
  - intros x Hx.
    rewrite (initializeTreeViews_tabIndex (instance_on d ul) d x Hx
               (item_present d ul x sel_menu_link Hx)).
    destruct (classList_contains d x "is-active") eqn:E.
    + split; [intros _; apply (Honly x Hx E) | reflexivity].
    + split; [discriminate | intros ->; congruence].
Qed.

Lemma active_owners_expanded_witness :
  let d' := final (constructor (JElement []) (page [] handbook)) in
  getAttribute d' [0; 1; 0] "aria-expanded" = Some "true" /\
  getAttribute d' [0; 1; 1; 1; 0] "aria-expanded" = Some "true" /\
  (forall x, In x (querySelectorAll (page [] handbook) [0] sel_menu_link) ->
             (tabIndex d' x = 0%Z <-> x = [0; 1; 1; 1; 1; 1; 0])).
Proof.
  assert (Honly : forall x,
             In x (querySelectorAll (page [] handbook) [0] sel_menu_link) ->
             classList_contains (page [] handbook) x "is-active" = true ->
             x = [0; 1; 1; 1; 1; 1; 0]).
  { intros x Hx.
    assert (Hl : In x [[0; 0; 0]; [0; 1; 0]; [0; 0; 1; 1; 0]; [0; 1; 1; 1; 0];
                       [0; 0; 1; 1; 1; 1; 0]; [0; 1; 1; 1; 1; 1; 0];
                       [0; 2; 0]]) by exact Hx.
    clear Hx; cbn [In] in Hl.
    repeat (destruct Hl as [<- | Hl]; [vm_compute; congruence|]).
    destruct Hl. }
  destruct (active_owners_expanded
              (page [] handbook) [] [0] [0; 1; 1; 1; 1; 1; 0]
              eq_refl ltac:(vm_compute; auto 10) eq_refl Honly)
    as [Howners Htab].
  split; [|split; [|exact Htab]].
  - apply Howners.
    + vm_compute; auto.
    + exists [1; 1; 0], [0; 1; 1; 1]; split; [reflexivity|].
      split; [reflexivity | discriminate].
    + exists [0; 1; 1; 1; 1], [1; 0]; split; [reflexivity|].
      split; [discriminate|]; split; reflexivity.
  - apply Howners.
    + vm_compute; auto.
    + exists [1; 1; 1; 1; 0], [0; 1]; split; [reflexivity|].
      split; [reflexivity | discriminate].
    + exists [0; 1; 1], [1; 1; 1; 0]; split; [reflexivity|].
      split; [discriminate|]; split; reflexivity.
Defined.

(** ** The boundary of the tree on a page with more than the list *)

(** C10: on a page whose container holds a button before the root
    list, [setFocusToPreviousTreeItem] on the first Item returns
    normally but moves the focus to that button, outside the tree, and
    so does an [ArrowUp] keydown on the first Item;
    [setFocusToNextTreeItem] on the last Item leaves the page as it
    is. *)
Theorem previous_from_first_leaves_tree :
  let skip := [0] in
  let home := [0; 0; 1] in
  let contact := [0; 1; 1] in
  exists this d',
    constructor (JElement []) skip_page = Ok (Some this) d' /\
    treeNode this = [1] /\
    treeItems this = [home; contact] /\
    tagName d' skip = Some "button" /\
    activeElement d' = None /\
    setFocusToPreviousTreeItem home d' = Ok tt (focus skip d') /\
    onKeydown this (press "ArrowUp" home) d' = Ok true (focus skip d') /\
    activeElement (focus skip d') = Some skip /\
    setFocusToNextTreeItem contact d' = Ok tt d'.
Proof.
  do 2 eexists; split; [vm_compute; reflexivity|].
  repeat split; vm_compute; reflexivity.
Qed.
